(* ===== verification/_CoqProject ===== *)
-Q . S2P
Prelude.v
Machine.v
GoString.v
GoSort.v
GoTime.v
GoJson.v
Mux.v
GoMap.v
Sha256.v
PairTree.v
Collision.v
Merkle.v
MerkleHeap.v
ChainDomain.v
GoHeap.v
StateMachine.v
StateHeap.v
Executor.v
SnapshotCatalog.v
LightProof.v
Codec.v
CodecLimits.v
Mempool.v
Policy.v
Repository.v
RepoHeap.v
RepoIndex.v
AuditChain.v
AuditBus.v
P2P.v
PeerAddr.v
TxJson.v
Consensus.v
Evidence.v
Metrics.v
Node.v
NodeThreads.v
NodeTypes.v
NodeBlocks.v
Api.v
Main.v
SyncWorker.v
SyncThreads.v
DomainExtra.v
Observability.v
Http.v
Transport.v
