(* ===== verification/Prelude.v ===== *)
(** * Verifiable chain node: a verification library

    The program under [src/] is a node of a small blockchain in Go: clients post
    transactions, which write a key-value state; the node mines blocks over them,
    keeps the blocks and snapshots of the state, and hands out proofs. Around
    that core the repository has packages that the node does not call yet (an
    executor, a snapshot catalog, Merkle proofs, evidence, a codec, a
    synchronisation worker, an audit chain). This library models both.

    ** How the parts interact

    [internal/app/node.go] owns one object per package and serves HTTP. [POST
    /transactions] puts a transaction into the pool ([mempool]). [mine] holds the
    mutex [opMu]: it lists the pool, reads the tip from the repository, applies
    the transactions to the state ([state_machine]), makes a block with the
    state root and the transaction root ([chain_domain]), stores it, and removes
    the transactions from the pool. Snapshots copy the state into the repository
    under the same mutex. Every other handler runs beside them.

    ** Conventions

    - A struct is a Module with a record [t]; a method that changes its receiver
      takes the old value and returns the new one. A method whose body runs under
      the mutex of its object is one step.
    - [error] is an option of the message; a pair [(T, error)] that is used as a sum
      is a [res T]; what may panic is an [outcome].
    - Integers are [Z]; [u64], [u32] and [i64] write out the wrap-around wherever
      the code can reach it ([Machine]). [time.Time] is nanoseconds since year 1.
    - A Go map is a [gmap]. A loop over a map takes the order of the iteration as an
      argument [it]; [ranges it m] says that it is one of the orders of [m], so a
      theorem about all [it] holds for every iteration order. [sort.Slice], which
      may order equal elements in any way, is a stable sort of such an arbitrary
      order; [sort.SliceStable] is a stable sort of the given list.
    - A component that shares slices or maps with its callers is modelled on values
      first; a second file ([MerkleHeap], [StateHeap], [RepoHeap]) has the heap, the
      copies and the writes of the callers, and refines the first.
    - Clock readings, random bytes and what a context or another goroutine shows at
      some moment are arguments.
    - SHA-256 is modelled and executable ([Sha256]). Proofs use the class [Hasher]
      (64 hexadecimal digits, nothing else), whose one instance is SHA-256; no
      theorem assumes that the hash is free of collisions: a binding theorem
      concludes with equal inputs [or] with a [Collision], two different strings
      with one digest among those the two computations really hashed.
    - A loop that may not end takes fuel and returns [None] without it. [Range] and
      the loop of the synchronisation worker end within [to - from + 2] turns
      below the last height, and never at the last height; both are theorems.
      The JSON reader takes twice the length of the document and one as fuel;
      more never changes what it returns ([document_fuel]).
      The levels of a hash tree take the number of leaves as fuel: a level is at
      most half as long, rounded up, as the one before.

    ** The files and what their theorems show

    Foundations:
    - [Prelude]: results, notations, lemmas on lists, sums and strings, termination
      by a decreasing measure.
    - [Machine]: machine integers and time. [GoString]: bytes, decimal and
      hexadecimal printing, prefixes, [ParseUint] and its round trip with [%d].
      [GoTime]: printing durations, reading RFC 3339 times. [GoJson]: writing strings
      and objects as JSON, and reading documents into structs as [encoding/json] does.
    - [GoSort]: stable sort, [sort.Strings], binary search, and the insertion sort
      by swaps of the state root, equal to [sort.Strings].
    - [GoMap]: iteration orders, deletion during iteration, printing of maps.
    - [GoHeap]: a heap of slices and maps, copies of them, and what a caller that
      holds some references may do to it.
    - [Http]: handlers as computations over the interface [ResponseWriter], with the
      server's writer and the buffering writer of [http.TimeoutHandler]. [Mux]: how
      [http.ServeMux] cleans paths, redirects, refuses [*] and finds handlers.
    - [Sha256], [PairTree], [Collision]: the hash, pairwise levels of a tree, what a
      root commits to.

    Components, by the source they model:
    - [ChainDomain] (chain_domain/types.go, validation.go): quorums are more than two
      thirds of the power, two of them share more than a third, and the quorum
      wraps without the bound on the total; header and transaction roots are
      binding; a repeated last transaction has the same root.
    - [DomainExtra] (chain_domain/extra.go): the checks of plans and records.
    - [Merkle] (proof/merkle.go): proofs are complete, and sound up to a collision
      for steps that are digests; a step that is not a digest forges a proof.
      [MerkleHeap]: the same tree as linked nodes, an odd node shared by both sides
      of its parent; [Leaves] lists every item once, in key order.
    - [LightProof] (proof/proof.go): what the light client's check accepts: anything.
    - [StateMachine] (state_machine/state.go): the root is independent of iteration,
      binding for keys and values without separators, ambiguous otherwise.
      [StateHeap]: the state on a heap; what callers do to the maps they are given
      does not show, but for the one map that [Snapshot] hands out.
    - [Executor] (executor.go): [Execute] refines a reference executor with an exact
      budget; [ApplyWithRollback] is all or nothing, while nobody else uses the state.
      [SnapshotCatalog] (snapshot.go): bound, tamper detection.
    - [Mempool] (mempool/pool.go, policy.go): the two indexes agree after any
      operations; [Add] refines a map from (account, nonce) to transactions;
      expiry, listing, statistics. [Policy] (policy.go): selection, the nonce
      window, exclusive reservations.
    - [Repository] (repo.go, retention.go): [VerifyChain] accepts exactly the complete
      chains; appending and cutting keep a chain. It gives the interface
      [ChainStore] that a miner needs, and its instance. [RepoHeap]: the repository
      on a heap, with its copies; it refines the one on values against callers
      that write to everything they hold. [RepoIndex] (index.go).
    - [AuditChain] (audit.go, chain.go): appended chains verify, and verified chains
      are tamper-evident but for their times and their end. [AuditBus]
      (chain.go): a heap of channels; the bus never panics.
    - [P2P] (peers.go, protocol.go): back-off delays, bans. [PeerAddr] (protocol.go):
      addresses, with [net.SplitHostPort] and [fmt.Sscanf]: printing and reading.
    - [Consensus] (bft.go, simulator.go), [Evidence] (evidence.go): one vote per name,
      stale votes, outsiders, proposers; the schedule in force at a height.
    - [Codec] (canonical.go), [CodecLimits] (limits.go): round trips, injectivity,
      what is decoded is typed, checked arithmetic, frames.
    - [Node] (app/node.go): the concurrent system [step], with [mine] cut at every
      mutex and all other handlers interleaved; the main invariant: the chain
      verifies, and state, block roots and snapshots are those of the replay of
      the blocks. The miner is proved over [ChainStore].
    - [NodeThreads] (app/node.go): the goroutines that compete for [opMu]: mining
      excludes mining, and in a fair run every request is answered, with one block
      for each mining request. [NodeTypes]: everything the node stores is in the
      range of its Go type, so its blocks meet the hypotheses of [Codec].
      [NodeBlocks]: every block is a fair batch, but a mined transaction can be
      mined again.
    - [TxJson] (app/node.go): the JSON bodies of requests, transactions and peers; what
      is written of a transaction is read back, and what is read is typed.
    - [Api] (app/node.go): handlers and routes one request at a time, from the bytes of
      the body, a refinement of [Node.step]; what [mine] answers and leaves; one
      redirection is enough.
    - [SyncWorker], [SyncThreads] (sync_worker/worker.go): one call of [Start], and any
      number of concurrent calls: they all return, one at a time is inside.
    - [Observability] (log.go), [Metrics] (metrics.go): levels, fields and counters;
      a snapshot of the metrics lies between its start and its end.
    - [Transport] (http_helpers.go): [ReadJSON] with its limit, and the wrappers of
      handlers; their stack answers every request with one whole response.
    - [Main] (cmd/node/main.go): the process, its two goroutines and its end.

    ** What is not modelled

    The bytes of most responses (a response is its status and the value that is
    encoded), escaped characters and queries in URLs, sockets. The uptime of the metrics
    is kept in nanoseconds instead of a float. Capacities of slices: outside a
    component, code may write to the elements it can reach but not append in place.
    Memory exhaustion and collections of 2^63 elements are out of scope. *)
From Stdlib Require Export Ascii ZArith Lia ZifyNat.
From stdpp Require Export base tactics option list gmap strings pretty sorting numbers.
Export list_basics.list list_relations.list list_misc.list.

(** What [eauto] knows of runs of a step relation; the files add the constructors
    of theirs. *)
Create HintDb vchain discriminated.
#[export] Hint Resolve rtc_refl rtc_once : vchain.

#[global] Open Scope Z_scope.
#[global] Open Scope stdpp_scope.

(** [lia] sees through division and modulo by constants. *)
#[global] Ltac Zify.zify_post_hook ::= Z.to_euclidean_division_equations.

(** ** Go results

    A Go [error] is [None] (nil) or [Some message]; a Go pair [(T, error)] is a
    [res T]; a call that may panic at run time is an [outcome]. *)

Abbreviation error := (option string).

Inductive res (A : Type) : Type :=
  | Ok (a : A)
  | Err (e : string).
Arguments Ok {A} a.
Arguments Err {A} e.

Inductive outcome (A : Type) : Type :=
  | Ret (a : A)
  | Panic (why : string).
Arguments Ret {A} a.
Arguments Panic {A} why.

#[export] Instance res_ret : MRet res := λ _ a, Ok a.
#[export] Instance res_bind : MBind res := λ _ _ k m,
  match m with Ok a => k a | Err e => Err e end.

Lemma res_bind_ok {A B} (m : res A) (k : A → res B) b :
  m ≫= k = Ok b ↔ ∃ a, m = Ok a ∧ k a = Ok b.
Proof. destruct m as [a|e]; cbn; split; [eauto|naive_solver|done|by intros (?&?&?)]. Qed.

#[export] Instance Ok_inj {A} : Inj (=) (=) (@Ok A).
Proof. by intros x y [= ->]. Qed.

(** ** Notations *)
Declare Scope go_scope.
Delimit Scope go_scope with go.
#[global] Open Scope go_scope.

(** Lengths as Go ints. *)
Notation "'len' l" := (Z.of_nat (length l)) (at level 10, l at level 9) : go_scope.
Notation "'slen' s" := (Z.of_nat (String.length s)) (at level 10, s at level 9) : go_scope.
(** A nil error and [errors.New]. *)
Notation "'nilerr'" := (@None string) (only parsing) : go_scope.
Notation "'errors_New' m" := (@Some string m)
  (at level 10, m at level 9, only parsing) : go_scope.

(** ** Lists *)

(** [split_sep]: two lists cut at a separator that occurs in neither prefix are
    cut at the same place. *)
Lemma split_sep {A} (c : A) (l1 l2 r1 r2 : list A) :
  c ∉ l1 → c ∉ l2 → l1 ++ c :: r1 = l2 ++ c :: r2 → l1 = l2 ∧ r1 = r2.
Proof.
  revert l2. induction l1 as [|x l1 IH]; intros [|y l2] H1 H2 E; simplify_eq/=; try done.
  - by rewrite not_elem_of_cons in H2; destruct H2.
  - by rewrite not_elem_of_cons in H1; destruct H1.
  - rewrite not_elem_of_cons in H1. rewrite not_elem_of_cons in H2.
    destruct H1, H2, (IH l2) as [-> ->]; done.
Qed.

(** Induction two elements at a time, the shape of a loop with [i += 2]. *)
Lemma list_pair_ind {A} (P : list A → Prop) :
  P [] → (∀ x, P [x]) → (∀ x y l, P l → P (x :: y :: l)) → ∀ l, P l.
Proof.
  intros H0 H1 H2 l. enough (P l ∧ ∀ x, P (x :: l)) by tauto.
  induction l as [|y l [IH1 IH2]]; split; auto.
Qed.

Lemma list_cons_injective {A} (x y : A) l k : x :: l = y :: k ↔ x = y ∧ l = k.
Proof. naive_solver. Qed.

Lemma NoDup_omap {A B} (f : A → option B) l :
  (∀ x y z, f x = Some z → f y = Some z → x = y) → NoDup l → NoDup (omap f l).
Proof.
  intros Hf. induction 1 as [|x l Hx Hl IH]; csimpl; [constructor|].
  destruct (f x) as [z|] eqn:E; [|done]. constructor; [|done].
  intros (y & Hy & Ey)%list_elem_of_omap. by rewrite (Hf _ _ _ E Ey) in Hx.
Qed.

Lemma length_omap_le {A B} (f : A → option B) (l : list A) : (length (omap f l) ≤ length l)%nat.
Proof. unfold omap. induction l as [|x l IH]; simpl; [done|]. destruct (f x); simpl; lia. Qed.

(** ** Sums over a list *)
Definition Zsum {A} (f : A → Z) (l : list A) : Z := foldr (λ x s, f x + s) 0 l.

Section Zsum.
Context {A : Type}.
Implicit Types (f g : A → Z) (l : list A).

Lemma Zsum_app f l k : Zsum f (l ++ k) = Zsum f l + Zsum f k.
Proof. induction l; simpl; lia. Qed.
Lemma Zsum_nonneg f l : (∀ x, x ∈ l → 0 ≤ f x) → 0 ≤ Zsum f l.
Proof.
  induction l as [|x l IH]; simpl; intros H; [lia|].
  pose proof (H x ltac:(left)). assert (0 ≤ Zsum f l); [|lia].
  apply IH. intros y ?. apply H. by right.
Qed.
Lemma Zsum_le f g l : (∀ x, x ∈ l → f x ≤ g x) → Zsum f l ≤ Zsum g l.
Proof.
  induction l as [|x l IH]; simpl; intros H; [lia|].
  pose proof (H x ltac:(left)). assert (Zsum f l ≤ Zsum g l); [|lia].
  apply IH. intros y ?. apply H. by right.
Qed.
Lemma Zsum_add f g l : Zsum (λ x, f x + g x) l = Zsum f l + Zsum g l.
Proof. induction l; simpl; lia. Qed.
Lemma Zsum_ext f g l : (∀ x, x ∈ l → f x = g x) → Zsum f l = Zsum g l.
Proof.
  intros H. apply Z.le_antisymm; apply Zsum_le; intros x Hx; rewrite (H x Hx); lia.
Qed.
Lemma Zsum_zero f l : (∀ x, x ∈ l → f x = 0) → Zsum f l = 0.
Proof. intros H. rewrite (Zsum_ext f (λ _, 0)) by done. clear. induction l; simpl; lia. Qed.
Lemma Zsum_insert f l i x y : l !! i = Some x → Zsum f (<[i := y]> l) = Zsum f l - f x + f y.
Proof.
  revert i. induction l as [|z l IH]; intros [|i] Hi; simplify_eq/=; [lia|]. rewrite (IH i) by done. lia.
Qed.
Lemma Zsum_lookup_le f l i x : (∀ y, 0 ≤ f y) → l !! i = Some x → f x ≤ Zsum f l.
Proof.
  intros Hf. revert i. induction l as [|z l IH]; intros [|i] Hi; simplify_eq/=.
  - pose proof (Zsum_nonneg f l (λ y _, Hf y)). lia.
  - specialize (IH i Hi). pose proof (Hf z). lia.
Qed.
End Zsum.
(** A sum is the same for equal functions and in any order. *)
#[export] Instance Zsum_proper {A} :
  Proper (pointwise_relation A (=) ==> (≡ₚ) ==> (=)) (@Zsum A).
Proof.
  intros f g Hf l k Hl. rewrite (Zsum_ext f g) by (intros x _; apply Hf).
  induction Hl; simpl; lia.
Qed.

(** ** Termination by a measure

    Under an invariant, a relation that decreases a natural measure has no infinite
    run. *)
Lemma measure_sn {A} (R : relation A) (I : A → Prop) (m : A → Z) :
  (∀ x y, I x → R x y → I y ∧ 0 ≤ m y < m x) → ∀ x, I x → sn R x.
Proof.
  intros HR x. remember (Z.to_nat (m x)) as n eqn:En. revert x En.
  induction (lt_wf n) as [n _ IH]. intros x -> Hx. constructor. intros y Hy.
  destruct (HR x y Hx Hy) as [HI Hm]. eapply IH; [|reflexivity|done]. lia.
Qed.

(** ** Strings as lists of characters *)
Abbreviation chars := String.list_ascii_of_string.

Lemma chars_app (s t : string) : chars (s +:+ t) = chars s ++ chars t.
Proof. induction s as [|c s IH]; [done|]. unfold String.app in *. simpl. by rewrite IH. Qed.
#[export] Instance chars_inj : Inj (=) (=) chars.
Proof.
  intros s t E. by rewrite <- (String.string_of_list_ascii_of_string s), E,
    String.string_of_list_ascii_of_string.
Qed.
Lemma length_chars (s : string) : length (chars s) = String.length s.
Proof. induction s; simpl; auto. Qed.
Lemma string_length_app (s t : string) :
  String.length (s +:+ t) = (String.length s + String.length t)%nat.
Proof. by rewrite <- !length_chars, chars_app, length_app. Qed.
Lemma string_app_assoc (s t u : string) : (s +:+ t) +:+ u = s +:+ (t +:+ u).
Proof. apply (inj chars). rewrite !chars_app. by rewrite app_assoc. Qed.
Lemma string_app_nil_r (s : string) : s +:+ "" = s.
Proof. apply (inj chars). rewrite chars_app. apply app_nil_r. Qed.
(** Two concatenations whose left parts have the same length agree part by part. *)
Lemma string_app_eq_len (a b c d : string) :
  String.length a = String.length c → a +:+ b = c +:+ d → a = c ∧ b = d.
Proof.
  intros L E. apply (f_equal chars) in E. rewrite !chars_app in E.
  apply app_inj_1 in E as [E1 E2]; [|by rewrite !length_chars].
  split; by apply (inj chars).
Qed.
(** The string analogue of [split_sep]. *)
Lemma string_split_sep (c : ascii) (a b x y : string) :
  c ∉ chars a → c ∉ chars x → a +:+ String c b = x +:+ String c y → a = x ∧ b = y.
Proof.
  intros H1 H2 E. apply (f_equal chars) in E. rewrite !chars_app in E. simpl in E.
  destruct (split_sep c _ _ _ _ H1 H2 E) as [E1 E2]. split; by apply (inj chars).
Qed.

(** [str_eq]: equations between concatenations, up to associativity. *)
Ltac str_eq :=
  apply (inj chars);
  repeat first
    [ rewrite chars_app
    | progress cbn [String.list_ascii_of_string app]
    | rewrite <- app_assoc
    | rewrite app_nil_r ];
  done.

Create HintDb vchain discriminated.
Create Rewrite HintDb vchain.
#[export] Hint Rewrite chars_app string_length_app string_app_assoc string_app_nil_r : vchain.
