(* ===== verification/Machine.v ===== *)
(** * Machine integers and Go's [time.Time]

    Go's fixed-width integers as [Z] with the wrap-around written out, and the
    instants of package [time] as a count of nanoseconds. *)
From S2P Require Import Prelude.

(** ** Wrap-around *)
Abbreviation MaxUint64 := 18446744073709551615.
Abbreviation MaxUint32 := 4294967295.
Abbreviation MaxInt64 := 9223372036854775807.

Definition u64 (x : Z) : Z := x mod 18446744073709551616.
Definition u32 (x : Z) : Z := x mod 4294967296.
Definition i64 (x : Z) : Z :=
  (x + 9223372036854775808) mod 18446744073709551616 - 9223372036854775808.

Definition is_u64 (x : Z) : Prop := 0 ≤ x < 18446744073709551616.
Definition is_u32 (x : Z) : Prop := 0 ≤ x < 4294967296.
Definition is_i64 (x : Z) : Prop := -9223372036854775808 ≤ x < 9223372036854775808.

#[export] Instance is_u64_dec x : Decision (is_u64 x).
Proof. unfold is_u64. apply _. Defined.
#[export] Instance is_u32_dec x : Decision (is_u32 x).
Proof. unfold is_u32. apply _. Defined.
#[export] Instance is_i64_dec x : Decision (is_i64 x).
Proof. unfold is_i64. apply _. Defined.

(** [mlia]: linear arithmetic that sees through the wrap-around. *)
Ltac mlia := unfold u64, u32, i64, is_u64, is_u32, is_i64 in *; lia.

Lemma u64_range x : is_u64 (u64 x).
Proof. mlia. Qed.
Lemma u64_small x : is_u64 x → u64 x = x.
Proof. mlia. Qed.
Lemma u32_range x : is_u32 (u32 x).
Proof. mlia. Qed.
Lemma u32_small x : is_u32 x → u32 x = x.
Proof. mlia. Qed.
Lemma i64_range x : is_i64 (i64 x).
Proof. mlia. Qed.
Lemma i64_small x : is_i64 x → i64 x = x.
Proof. mlia. Qed.
(** The conversion [int64(uint64(x))] is the identity on an [int64]. *)
Lemma i64_u64 x : is_i64 x → i64 (u64 x) = x.
Proof. mlia. Qed.
Lemma u64_i64 x : is_u64 x → u64 (i64 x) = x.
Proof. mlia. Qed.

Create HintDb machine discriminated.
Create Rewrite HintDb machine.
#[export] Hint Resolve u64_range u32_range i64_range : machine.
#[export] Hint Rewrite u64_small u32_small i64_small i64_u64 using (first [done | mlia]) : machine.

(** ** [time.Time]

    An instant is the number of nanoseconds since 1 January of year 1, UTC, the
    zero [time.Time]; the seconds part is an [int64], as in the Go runtime. *)
Module Time.

Definition second : Z := 1000000000.
(** [unixToInternal]: the seconds from year 1 to 1970. *)
Definition unixToInternal : Z := 62135596800.

Definition zero : Z := 0.
Definition IsZero (x : Z) : bool := bool_decide (x = 0).
Definition Before (x y : Z) : bool := bool_decide (x < y).
Definition After (x y : Z) : bool := bool_decide (y < x).
(** [time.Unix(sec, 0)]: the addition of the offset wraps in [int64]. *)
Definition of_Unix (sec : Z) : Z := i64 (sec + unixToInternal) * second.
(** [t.Unix()] *)
Definition Unix (x : Z) : Z := i64 (x / second - unixToInternal).
(** [t.UnixNano()] *)
Definition UnixNano (x : Z) : Z := i64 (x - unixToInternal * second).
(** [time.Since(start)] at the clock reading [now]: [Sub] saturates. *)
Definition Since (start now : Z) : Z :=
  Z.max (-9223372036854775808) (Z.min 9223372036854775807 (now - start)).
(** The instants whose Unix seconds fit: every instant a clock shows. *)
Definition sane (x : Z) : Prop :=
  0 ≤ x ∧ x / second < 9223372036854775807 - unixToInternal.

Lemma Unix_of_Unix s :
  is_i64 s → is_i64 (s + unixToInternal) → Unix (of_Unix s) = s.
Proof. unfold Unix, of_Unix, unixToInternal, second. mlia. Qed.

Lemma Unix_mono x y : sane x → sane y → x ≤ y → Unix x ≤ Unix y.
Proof. unfold sane, Unix, unixToInternal, second. mlia. Qed.
End Time.
