(* ===== verification/GoString.v ===== *)
(** * Go strings

    A Go string is a sequence of bytes: Rocq's [string], a list of 8-bit
    characters. This file models what the node uses of packages [strings],
    [fmt] and [encoding/hex]. *)
From S2P Require Import Prelude Machine.

(** ** Bytes *)
Definition byte_of_ascii (c : ascii) : Z := Z.of_N (N_of_ascii c).
Definition ascii_of_byte (b : Z) : ascii := ascii_of_N (Z.to_N b).
(** [[]byte(s)] *)
Definition bytes (s : string) : list Z := byte_of_ascii <$> String.list_ascii_of_string s.
(** [string(b)] *)
Definition of_bytes (b : list Z) : string := String.string_of_list_ascii (ascii_of_byte <$> b).
Definition is_byte (b : Z) : Prop := 0 ≤ b < 256.

(** ** Decimal verbs of package [fmt] *)
Definition fmt_d (x : Z) : string := pretty x.

(** [fmt.Sprintf] of verbs separated by a bar. *)
Definition bar_join (l : list string) : string := String.concat "|" l.

(** ** Hexadecimal *)
Definition hexdigit (n : Z) : ascii :=
  if decide (n < 10) then ascii_of_N (48 + Z.to_N n) else ascii_of_N (87 + Z.to_N n).
Fixpoint hex (b : list Z) : string :=
  match b with
  | [] => ""
  | x :: b => String (hexdigit (x / 16)) (String (hexdigit (x mod 16)) (hex b))
  end.

(** ** Facts *)

(** Decimal digits, lower-case hexadecimal digits. *)
Definition digits : list ascii := chars "-0123456789".
Definition hexdigits : list ascii := chars "0123456789abcdef".

Lemma pretty_N_char_digit n : pretty_N_char n ∈ digits.
Proof.
  unfold pretty_N_char.
  repeat (case_match; try (vm_compute; by repeat constructor)).
Qed.

Lemma pretty_N_go_digits x s :
  (∀ c, c ∈ chars s → c ∈ digits) → ∀ c, c ∈ chars (pretty_N_go x s) → c ∈ digits.
Proof.
  revert s. induction (N.lt_wf_0 x) as [x _ IH]; intros s Hs c.
  destruct (decide (x = 0)%N) as [->|]; [rewrite pretty_N_go_0; auto|].
  rewrite pretty_N_go_step by lia. apply IH; [apply N.div_lt; lia|].
  simpl. intros d [->|?]%elem_of_cons; [apply pretty_N_char_digit|auto].
Qed.

(** [%d] prints decimal digits and a sign, nothing else, and loses nothing. *)
Lemma fmt_d_digits x c : c ∈ chars (fmt_d x) → c ∈ digits.
Proof.
  unfold fmt_d, pretty, pretty_Z.
  assert (∀ p, c ∈ chars (pretty (Npos p)) → c ∈ digits) as HN.
  { intros p. apply pretty_N_go_digits. simpl. intros d Hd. by apply elem_of_nil in Hd. }
  destruct x as [|p|p]; [|by apply HN|].
  - simpl. intros ->%list_elem_of_singleton. vm_compute. by repeat constructor.
  - rewrite chars_app, elem_of_app. intros [->%list_elem_of_singleton|H]; [|by apply (HN p)].
    vm_compute. by repeat constructor.
Qed.
#[export] Instance fmt_d_inj : Inj (=) (=) fmt_d.
Proof. apply pretty_Z_inj. Qed.

(** A string without the separator. *)
Definition no_bar (s : string) : Prop := "|"%char ∉ chars s.
#[export] Instance no_bar_dec s : Decision (no_bar s).
Proof. unfold no_bar. apply _. Defined.
Lemma no_bar_fmt x : no_bar (fmt_d x).
Proof.
  intros Hin%fmt_d_digits. revert Hin. vm_compute. intros H.
  repeat (apply elem_of_cons in H as [H|H]; [done|]). by apply elem_of_nil in H.
Qed.

(** [bar_join] is injective on lists of one length whose entries, but for the
    last, hold no bar. *)
Lemma bar_join_inj_gen (l k : list string) :
  length l = length k →
  Forall (λ s, "|"%char ∉ chars s) (take (length l - 1) l) →
  Forall (λ s, "|"%char ∉ chars s) (take (length k - 1) k) →
  bar_join l = bar_join k → l = k.
Proof.
  unfold bar_join. revert k.
  induction l as [|x l IH]; intros [|y k] L H1 H2 E; simplify_eq/=; [done|].
  destruct l as [|x' l], k as [|y' k]; simplify_eq/=; [done|].
  inv H1; inv H2. apply string_split_sep in E as [-> E]; [|done..].
  f_equal. apply (IH (y' :: k)); simpl; rewrite ?Nat.sub_0_r; auto.
Qed.

Lemma length_hex b : String.length (hex b) = (2 * length b)%nat.
Proof. induction b; simpl; lia. Qed.

Lemma hexdigit_hexdigits n : 0 ≤ n < 16 → hexdigit n ∈ hexdigits.
Proof.
  intros H. assert (Forall (λ k, hexdigit (Z.of_nat k) ∈ hexdigits) (seq 0 16)) as HF.
  { vm_compute. repeat constructor. }
  rewrite list.Forall_forall in HF. specialize (HF (Z.to_nat n)).
  rewrite Z2Nat.id in HF by lia. apply HF. apply elem_of_seq. lia.
Qed.

Lemma hex_hexdigits b : Forall is_byte b → ∀ c, c ∈ chars (hex b) → c ∈ hexdigits.
Proof.
  unfold is_byte. induction 1 as [|x b Hx _ IH]; simpl; intros c Hc; [by apply elem_of_nil in Hc|].
  rewrite !elem_of_cons in Hc.
  destruct Hc as [->|[->|?]]; [apply hexdigit_hexdigits; mlia..|auto].
Qed.

(** ** Package [strings] *)

(** [strings.TrimPrefix] *)
Definition TrimPrefix (s p : string) : string :=
  if String.prefix p s
  then String.substring (String.length p) (String.length s - String.length p) s else s.

(** [strings.TrimLeftFunc(s, unicode.IsSpace)] on the UTF-8 bytes of [s]: the
    white space of Unicode is six ASCII characters, U+0085, U+00A0, U+1680,
    U+2000 to U+200A, U+2028, U+2029, U+202F, U+205F and U+3000. *)
Fixpoint trim_left_space (b : list Z) : list Z :=
  match b with
  | x :: b1 =>
      if decide (x = 32 ∨ 9 ≤ x ≤ 13) then trim_left_space b1 else
      match b1 with
      | y :: b2 =>
          if decide (x = 194 ∧ (y = 133 ∨ y = 160)) then trim_left_space b2 else
          match b2 with
          | z :: b3 =>
              if decide ((x = 225 ∧ y = 154 ∧ z = 128) ∨
                         (x = 226 ∧ y = 128 ∧ (128 ≤ z ≤ 138 ∨ z = 168 ∨ z = 169 ∨ z = 175)) ∨
                         (x = 226 ∧ y = 129 ∧ z = 159) ∨
                         (x = 227 ∧ y = 128 ∧ z = 128))
              then trim_left_space b3 else b
          | [] => b
          end
      | [] => b
      end
  | [] => b
  end.

(** [strings.TrimSpace(s) == "" ]: nothing is left once the leading white space
    is gone. *)
Definition is_blank (s : string) : bool := bool_decide (trim_left_space (bytes s) = []).

Lemma is_blank_empty : is_blank "" = true.
Proof. done. Qed.
Example is_blank_ex : is_blank " " = true ∧ is_blank " a " = false.
Proof. done. Qed.

(** [strings.TrimSuffix] *)
Definition TrimSuffix (s p : string) : string :=
  if decide (String.length p ≤ String.length s)%nat then
    let n := (String.length s - String.length p)%nat in
    if decide (String.substring n (String.length p) s = p) then String.substring 0 n s else s
  else s.

(** ** [strconv.ParseUint(s, 10, 64)] *)
Definition digit_value (c : ascii) : option Z :=
  let n := byte_of_ascii c in if decide (48 ≤ n ≤ 57) then Some (n - 48) else None.
Fixpoint parse_digits (acc : Z) (l : list ascii) : option Z :=
  match l with
  | [] => Some acc
  | c :: l => d ← digit_value c; parse_digits (acc * 10 + d) l
  end.
(** The value, or [None] for any error. *)
Definition ParseUint (s : string) : option Z :=
  if decide (s = "") then None else
  n ← parse_digits 0 (chars s); if decide (n ≤ MaxUint64) then Some n else None.

Lemma digit_value_pretty d : (d < 10)%N → digit_value (pretty_N_char d) = Some (Z.of_N d).
Proof.
  intros Hd. assert (d ∈ [0; 1; 2; 3; 4; 5; 6; 7; 8; 9]%N) as Hin.
  { assert (d = 0 ∨ d = 1 ∨ d = 2 ∨ d = 3 ∨ d = 4 ∨ d = 5 ∨ d = 6 ∨ d = 7 ∨ d = 8 ∨ d = 9)%N by lia.
    rewrite !elem_of_cons. tauto. }
  repeat (apply elem_of_cons in Hin as [->|Hin]; [done|]). by apply elem_of_nil in Hin.
Qed.

Lemma parse_pretty_go x s :
  parse_digits 0 (chars (pretty_N_go x s)) = parse_digits (Z.of_N x) (chars s).
Proof.
  revert s. induction (N.lt_wf_0 x) as [x _ IH]; intros s.
  destruct (decide (x = 0)%N) as [->|]; [by rewrite pretty_N_go_0|].
  rewrite pretty_N_go_step by lia. rewrite IH by (apply N.div_lt; lia).
  cbn [String.list_ascii_of_string parse_digits].
  rewrite digit_value_pretty by (apply N.mod_lt; lia). cbn [mbind option_bind]. f_equal. lia.
Qed.

(** Reading what [%d] prints. *)
Lemma ParseUint_fmt_d n : is_u64 n → ParseUint (fmt_d n) = Some n.
Proof.
  intros Hn. unfold ParseUint. destruct (decide (n = 0)) as [->|Hz]; [done|].
  assert (∃ p, n = Z.pos p) as [p ->] by (destruct n; [done|by eexists|mlia]).
  assert (parse_digits 0 (chars (fmt_d (Z.pos p))) = Some (Z.pos p)) as E.
  { unfold fmt_d, pretty, pretty_Z. unfold pretty, pretty_N. simpl.
    change (parse_digits 0 (chars (pretty_N_go (N.pos p) "")) = Some (Z.pos p)).
    by rewrite parse_pretty_go. }
  rewrite decide_False by (intros E'; rewrite E' in E; done).
  rewrite E. simpl. rewrite decide_True; [done|mlia].
Qed.

Lemma of_bytes_bytes s : of_bytes (bytes s) = s.
Proof.
  unfold of_bytes, bytes. rewrite <- list_fmap_compose.
  assert (∀ l, ascii_of_byte ∘ byte_of_ascii <$> l = l) as ->; [|apply String.string_of_list_ascii_of_string].
  induction l as [|c l IH]; [done|]. csimpl. rewrite IH. unfold compose, ascii_of_byte, byte_of_ascii.
  by rewrite N2Z.id, ascii_N_embedding.
Qed.
Lemma prefix_app p s : String.prefix p (p +:+ s) = true.
Proof.
  induction p as [|c p IH]; [by destruct s|]. unfold String.app in *. simpl.
  destruct (ascii_dec c c); [done|congruence].
Qed.
Lemma substring_all s : String.substring 0 (String.length s) s = s.
Proof. induction s as [|c s IH]; [done|]. simpl. by rewrite IH. Qed.
Lemma substring_app p s : String.substring (String.length p) (String.length s) (p +:+ s) = s.
Proof. induction p as [|c p IH]; [apply substring_all|]. unfold String.app in *. simpl. done. Qed.
Lemma TrimPrefix_app p s : TrimPrefix (p +:+ s) p = s.
Proof.
  unfold TrimPrefix. rewrite prefix_app, string_length_app.
  replace (String.length p + String.length s - String.length p)%nat with (String.length s) by lia.
  apply substring_app.
Qed.

(** ** Reading integers from bytes *)
(** The digits at the front, as bytes. *)
Fixpoint digit_run (b : list Z) : list Z :=
  match b with
  | x :: b' => if decide (48 ≤ x ≤ 57) then x :: digit_run b' else []
  | [] => []
  end.
Definition digits_value (b : list Z) : Z := fold_left (λ n x, n * 10 + (x - 48)) b 0.
(** [strconv.ParseInt(tok, 10, 64)] of a sign and digits. *)
Definition parse_int (neg : bool) (ds : list Z) : option Z :=
  let n := if neg then - digits_value ds else digits_value ds in
  if decide (ds = []) then None else if decide (is_i64 n) then Some n else None.

Lemma byte_of_digit c d : digit_value c = Some d → d = byte_of_ascii c - 48 ∧ 48 ≤ byte_of_ascii c ≤ 57.
Proof. unfold digit_value. case_decide; [|done]. intros [= <-]. by split. Qed.
Lemma parse_digits_bytes acc l n :
  parse_digits acc l = Some n →
  Forall (λ x, 48 ≤ x ≤ 57) (byte_of_ascii <$> l) ∧
  fold_left (λ n x, n * 10 + (x - 48)) (byte_of_ascii <$> l) acc = n.
Proof.
  revert acc. induction l as [|c l IH]; intros acc; csimpl; [intros [= <-]; by split|].
  destruct (digit_value c) as [d|] eqn:Ed; [|done]. simpl. apply byte_of_digit in Ed as [-> Hd].
  intros [Hf Hv]%IH. split; [by constructor|done].
Qed.
Lemma printed_bytes n :
  is_u64 n →
  bytes (fmt_d n) ≠ [] ∧ Forall (λ x, 48 ≤ x ≤ 57) (bytes (fmt_d n)) ∧ digits_value (bytes (fmt_d n)) = n.
Proof.
  intros Hn. pose proof (ParseUint_fmt_d n Hn) as Hp. unfold ParseUint in Hp.
  destruct (decide (fmt_d n = "")) as [|Hne]; [done|].
  destruct (parse_digits 0 (chars (fmt_d n))) as [m|] eqn:E; [|done]. cbn [mbind option_bind] in Hp.
  case_decide; simplify_eq. apply parse_digits_bytes in E as [Hf Hv]. split; [|done].
  unfold bytes. intros E%fmap_nil_inv. apply Hne. rewrite <- (String.string_of_list_ascii_of_string (fmt_d n)). by rewrite E.
Qed.
Lemma digit_run_app a b :
  Forall (λ x, 48 ≤ x ≤ 57) a → match b with x :: _ => ¬ 48 ≤ x ≤ 57 | [] => True end →
  digit_run (a ++ b) = a.
Proof.
  intros Ha Hb. induction Ha as [|x a Hx _ IH]; simpl.
  - destruct b; [done|]. simpl. by rewrite decide_False.
  - by rewrite decide_True, IH.
Qed.

Lemma ParseUint_range s n : ParseUint s = Some n → is_u64 n.
Proof.
  unfold ParseUint. case_decide; [done|]. intros (m & Hm & E)%bind_Some. case_decide; [|done].
  injection E as <-. assert (∀ l acc, 0 ≤ acc → parse_digits acc l = Some m → 0 ≤ m) as Hnn.
  { intros l. induction l as [|c l IH]; intros acc Ha; simpl; [by intros [= <-]|].
    destruct (digit_value c) as [d|] eqn:Ed; [|done]. simpl. apply IH.
    apply byte_of_digit in Ed. lia. }
  specialize (Hnn _ 0 ltac:(lia) Hm). mlia.
Qed.

(** The first digit of a printed number is not a zero, but for the number zero. *)
Lemma pretty_N_go_head x s :
  (0 < x)%N → ∃ c s', pretty_N_go x s = String c s' ∧ 49 ≤ byte_of_ascii c ≤ 57.
Proof.
  revert s. induction (N.lt_wf_0 x) as [x _ IH]; intros s Hx.
  rewrite pretty_N_go_step by done. destruct (decide (x / 10 = 0)%N) as [E|E].
  - rewrite E, pretty_N_go_0. eexists _, _. split; [done|].
    assert (0 < x `mod` 10 ∧ x `mod` 10 < 10)%N as [H0 H9].
    { pose proof (N.mod_lt x 10). pose proof (N.div_mod x 10). lia. }
    revert H0 H9. generalize (x `mod` 10)%N. intros d H0 H9.
    assert (d = 1 ∨ d = 2 ∨ d = 3 ∨ d = 4 ∨ d = 5 ∨ d = 6 ∨ d = 7 ∨ d = 8 ∨ d = 9)%N as Hd by lia.
    destruct_or! Hd; subst d; apply (bool_decide_unpack _); by vm_compute.
  - apply IH; [apply N.div_lt; lia|]. lia.
Qed.
Lemma printed_head n :
  0 < n → ∃ d ds, bytes (fmt_d n) = d :: ds ∧ 49 ≤ d ≤ 57.
Proof.
  intros Hn. destruct n as [|p|p]; try lia. unfold fmt_d, pretty, pretty_Z, pretty, pretty_positive, pretty, pretty_N.
  rewrite decide_False by done. destruct (pretty_N_go_head (Npos p) "" ltac:(lia)) as (c & s & -> & Hc).
  eexists _, _. split; [done|exact Hc].
Qed.
Lemma printed_negative n : 0 < n → bytes (fmt_d (- n)) = 45 :: bytes (fmt_d n).
Proof. intros Hn. by destruct n. Qed.
