(* ===== verification/GoSort.v ===== *)
(** * Package [sort]

    What the node uses of Go's [sort]: [sort.Strings], [sort.SliceStable] and
    [sort.Slice], [sort.SearchStrings]. [sort.Slice] promises a sorted
    permutation and nothing about equal elements; [sort.SliceStable] keeps
    their order. *)
From S2P Require Import Prelude Machine.

(** ** Stable sorting by a total preorder *)
Section isort.
Context {A : Type} (R : A → A → Prop) `{∀ x y, Decision (R x y)}.

Fixpoint insert_before (x : A) (l : list A) : list A :=
  match l with
  | [] => [x]
  | y :: l' => if decide (R x y) then x :: l else y :: insert_before x l'
  end.
Definition isort (l : list A) : list A := foldr insert_before [] l.

Lemma insert_before_perm x l : insert_before x l ≡ₚ x :: l.
Proof.
  induction l as [|y l IH]; simpl; [done|]. case_decide; [done|].
  rewrite IH. apply Permutation_swap.
Qed.
Lemma isort_perm l : isort l ≡ₚ l.
Proof. induction l as [|x l IH]; simpl; [done|]. by rewrite insert_before_perm, IH. Qed.

Context `{!Total R}.
Lemma insert_before_sorted x l : Sorted R l → Sorted R (insert_before x l).
Proof.
  induction 1 as [|y l Hl IH Hd]; simpl; [by repeat constructor|].
  case_decide as Hxy; [by repeat constructor|].
  assert (R y x) by (destruct (total R x y); tauto).
  constructor; [done|]. destruct Hd as [|z l Hyz]; simpl; [by constructor|].
  case_decide; by constructor.
Qed.
Lemma isort_sorted l : Sorted R (isort l).
Proof. induction l; simpl; [constructor|]. by apply insert_before_sorted. Qed.

(** Stability: a class of mutually related elements keeps its order. *)
Lemma insert_before_filter (P : A → Prop) `{∀ x, Decision (P x)} x l :
  (∀ y z, P y → P z → R y z) →
  filter P (insert_before x l) = filter P (x :: l).
Proof.
  intros HP. induction l as [|y l IH]; simpl; [done|].
  case_decide as Hxy; [done|]. rewrite filter_cons, IH, !filter_cons.
  destruct (decide (P x)), (decide (P y)); try done.
  by destruct Hxy; apply HP.
Qed.
Lemma isort_stable (P : A → Prop) `{∀ x, Decision (P x)} l :
  (∀ y z, P y → P z → R y z) → filter P (isort l) = filter P l.
Proof.
  intros HP. induction l as [|x l IH]; simpl; [done|].
  rewrite insert_before_filter by done. rewrite !filter_cons. by rewrite IH.
Qed.

(** A sorted permutation is unique when related elements of the list are equal. *)
Lemma isort_unique `{!Transitive R} l k :
  (∀ x y, x ∈ l → y ∈ l → R x y → R y x → x = y) →
  k ≡ₚ l → Sorted R k → k = isort l.
Proof.
  intros Ha Hp Hs. apply (Sorted_unique_strong R); [|done|apply isort_sorted|].
  - intros x y Hx Hy. rewrite Hp in Hx. rewrite isort_perm in Hy. eauto.
  - by rewrite isort_perm.
Qed.
#[export] Instance isort_proper `{!Transitive R, !AntiSymm (=) R} :
  Proper ((≡ₚ) ==> (=)) isort.
Proof.
  intros k l Hp. apply isort_unique; [|by rewrite isort_perm|apply isort_sorted].
  intros x y _ _. apply (anti_symm R).
Qed.
End isort.

(** Sorting commutes with a map that keeps the order. *)
Lemma isort_fmap {A B} (R : A → A → Prop) (S : B → B → Prop)
  `{!∀ x y, Decision (R x y)} `{!∀ x y, Decision (S x y)} (f : A → B) l :
  (∀ x y, R x y ↔ S (f x) (f y)) → isort S (f <$> l) = f <$> isort R l.
Proof.
  intros Hf. induction l as [|x l IH]; csimpl; [done|]. rewrite IH.
  generalize (isort R l). intros k. induction k as [|y k IHk]; csimpl; [done|].
  rewrite IHk. repeat case_decide; try done; exfalso; naive_solver.
Qed.

(** [sort.Slice(l, less)] may produce [k]. *)
Definition SliceSorted {A} (less : A → A → Prop) (l k : list A) : Prop :=
  k ≡ₚ l ∧ Sorted (λ x y, ¬ less y x) k.

(** ** [sort.Strings] *)
Definition sort_Strings (l : list string) : list string := isort String.le l.

Lemma sort_Strings_perm l : sort_Strings l ≡ₚ l.
Proof. apply isort_perm. Qed.
Lemma sort_Strings_sorted l : Sorted String.le (sort_Strings l).
Proof. apply isort_sorted, _. Qed.
(** The outcome does not depend on the order of the input. *)
#[export] Instance sort_Strings_proper : Proper ((≡ₚ) ==> (=)) sort_Strings.
Proof. intros l k E. unfold sort_Strings. by rewrite E. Qed.
Lemma sort_Strings_unique l k : k ≡ₚ l → Sorted String.le k → k = sort_Strings l.
Proof.
  intros. apply isort_unique; [apply _..| |done|done]. intros x y _ _. apply (anti_symm _).
Qed.

(** ** [sort.SearchStrings]: binary search

    [i, j := 0, n; for i < j { h := (i+j)/2; if a[h] < x { i = h+1 } else { j = h } }]. *)
Fixpoint search_loop (fuel : nat) (a : list string) (x : string) (i j : nat) : nat :=
  match fuel with
  | O => i
  | S fuel =>
      if decide (i < j)%nat then
        let h := Nat.div (i + j) 2 in
        if decide (String.le x (nth h a "")) then search_loop fuel a x i h
        else search_loop fuel a x (S h) j
      else i
  end.
Definition SearchStrings (a : list string) (x : string) : nat :=
  search_loop (length a) a x 0 (length a).

Section search.
Context (a : list string) (x : string) (k : nat).
Context (Hsort : StronglySorted String.le a) (Hnd : NoDup a) (Hk : a !! k = Some x).

Lemma sorted_lookup_le i j y z :
  a !! i = Some y → a !! j = Some z → (i ≤ j)%nat → String.le y z.
Proof.
  clear Hnd Hk. revert i j. induction Hsort as [|w l Hl IH HF]; intros [|i] [|j] Hi Hj Hij;
    simplify_eq/=; try lia; [done| |].
  - rewrite list.Forall_forall in HF. apply HF. by apply list_elem_of_lookup_2 in Hj.
  - apply (IH Hl i j); [done..|lia].
Qed.

Lemma search_loop_index fuel i j :
  (i ≤ k ≤ j)%nat → (j ≤ length a)%nat → (j - i ≤ fuel)%nat →
  search_loop fuel a x i j = k.
Proof using Hsort Hnd Hk.
  revert i j. induction fuel as [|fuel IH]; intros i j Hij Hj Hf; cbn [search_loop]; [lia|].
  cbv zeta.
  case_decide as Hlt; [|lia].
  assert (i ≤ Nat.div (i + j) 2 < j)%nat as [Hh1 Hh2].
  { pose proof (Nat.div_mod_eq (i + j) 2). pose proof (Nat.mod_upper_bound (i + j) 2). lia. }
  destruct (lookup_lt_is_Some_2 a (Nat.div (i + j) 2)) as [y Hy]; [lia|].
  rewrite (nth_lookup_Some _ _ _ _ Hy). case_decide as Hle.
  - apply IH; [|lia|lia]. split; [lia|]. destruct (decide (k ≤ Nat.div (i + j) 2)%nat); [done|].
    assert (String.le y x) by (eapply (sorted_lookup_le (Nat.div (i + j) 2) k); eauto; lia).
    assert (x = y) as <- by (by apply (anti_symm String.le)).
    pose proof (NoDup_lookup _ _ _ _ Hnd Hk Hy). lia.
  - apply IH; [|lia|lia]. split; [|lia]. destruct (decide (Nat.div (i + j) 2 < k)%nat); [lia|].
    destruct Hle. eapply (sorted_lookup_le k (Nat.div (i + j) 2)); eauto; lia.
Qed.
End search.

Lemma SearchStrings_index a x k :
  StronglySorted String.le a → NoDup a → a !! k = Some x → SearchStrings a x = k.
Proof.
  intros Hs Hn Hk. pose proof (lookup_lt_Some _ _ _ Hk).
  apply search_loop_index; try done; lia.
Qed.

(** ** The insertion sort written with swaps

    [for i := 1; i < n; i++ { for j := i; j > 0 && a[j] < a[j-1]; j-- { swap } }]. *)
Fixpoint sift (j : nat) (a : list string) : list string :=
  match j with
  | O => a
  | S j' =>
      match a !! j, a !! j' with
      | Some x, Some y =>
          if decide (String.le y x) then a else sift j' (<[j := y]> (<[j' := x]> a))
      | _, _ => a
      end
  end.
Definition insertion_sort (a : list string) : list string :=
  fold_left (λ a i, sift i a) (seq 1 (length a - 1)) a.

Lemma sift_spec p x r :
  Sorted String.le p →
  ∃ q, sift (length p) (p ++ x :: r) = q ++ r ∧ q ≡ₚ x :: p ∧ Sorted String.le q.
Proof.
  revert x r. induction p as [|y p IH] using rev_ind; intros x r Hp.
  - exists [x]. by repeat constructor.
  - rewrite length_app, Nat.add_1_r, <- app_assoc. simpl.
    rewrite !lookup_app_r, Nat.sub_diag, Nat.sub_succ_l, Nat.sub_diag by lia. simpl.
    apply Sorted_StronglySorted in Hp; [|apply _].
    pose proof Hp as [Hle [Hp1 _]]%StronglySorted_app. case_decide as Hyx.
    + exists (p ++ [y; x]). rewrite <- app_assoc. split_and!; [done|solve_Permutation|].
      change [y; x] with ([y] ++ [x]). rewrite app_assoc. apply StronglySorted_Sorted, StronglySorted_app. split_and!; [|done|by repeat constructor].
      intros z w Hz ->%list_elem_of_singleton. apply elem_of_app in Hz as [Hz| ->%list_elem_of_singleton]; [|done].
      trans y; [apply Hle; [done|by left]|done].
    + rewrite insert_app_r_alt, Nat.sub_diag by lia. simpl.
      rewrite insert_app_r_alt, Nat.sub_succ_l, Nat.sub_diag by lia. simpl.
      destruct (IH x (y :: r)) as (q & -> & Hq & Hs); [by apply StronglySorted_Sorted|].
      exists (q ++ [y]). rewrite <- app_assoc. split_and!; [done|rewrite Hq; solve_Permutation|].
      apply StronglySorted_Sorted, StronglySorted_app.
      split_and!; [|by apply (Sorted_StronglySorted _)|by repeat constructor].
      intros z w Hz ->%list_elem_of_singleton. rewrite Hq in Hz.
      apply elem_of_cons in Hz as [->|Hz]; [|apply Hle; [done|by left]].
      by destruct (total String.le x y).
Qed.

Lemma insertion_sort_spec a : insertion_sort a ≡ₚ a ∧ Sorted String.le (insertion_sort a).
Proof.
  unfold insertion_sort.
  enough (∀ n, (S n ≤ length a)%nat →
    ∃ q, fold_left (λ b i, sift i b) (seq 1 n) a = q ++ drop (S n) a ∧
         q ≡ₚ take (S n) a ∧ Sorted String.le q) as HH.
  { destruct a as [|x a']; [by repeat constructor|].
    destruct (HH (length a')) as (q & E & Hq & Hs); [done|].
    rewrite drop_ge, app_nil_r in E by done. rewrite firstn_all2 in Hq by done.
    simpl length. rewrite Nat.sub_0_r || rewrite Nat.sub_succ, Nat.sub_0_r. by rewrite E. }
  induction n as [|n IH]; intros Hn.
  - destruct a as [|x a]; [simpl in Hn; lia|]. exists [x]. simpl. by repeat constructor.
  - destruct IH as (q & E & Hq & Hs); [lia|].
    assert (length q = S n) as Lq.
    { rewrite Hq, length_take. lia. }
    destruct (lookup_lt_is_Some_2 a (S n)) as [x Hx]; [lia|].
    rewrite seq_S, fold_left_app, E. cbn [fold_left]. change (1 + n)%nat with (S n).
    destruct (sift_spec q x (drop (S (S n)) a) Hs) as (q' & E' & Hq' & Hs').
    rewrite Lq, <- (drop_S _ _ _ Hx) in E'.
    exists q'. rewrite E'. split_and!; [done| |done].
    rewrite Hq', Hq, (take_S_r _ _ _ Hx). solve_Permutation.
Qed.

(** The swapping loop computes what [sort.Strings] computes. *)
Lemma insertion_sort_eq a : insertion_sort a = sort_Strings a.
Proof. apply sort_Strings_unique; apply insertion_sort_spec. Qed.
