(* ===== verification/GoTime.v ===== *)
(** * Package time: printing durations, reading instants

    [Duration.String], digit by digit as the package builds it from the right;
    RFC 3339, as [Time.UnmarshalJSON] reads it. *)
From S2P Require Import Prelude Machine GoString.

(** [fmtFrac]: the last [prec] decimal digits of [v] without trailing zeros, with the
    point if any is left, before [acc]; and the rest of [v]. *)
Fixpoint fmt_frac (prec : nat) (print : bool) (v : Z) (acc : string) : string * Z :=
  match prec with
  | O => (if print then "." +:+ acc else acc, v)
  | S p =>
      let digit := v mod 10 in
      let print := print || bool_decide (digit ≠ 0) in
      fmt_frac p print (v / 10) (if print then fmt_d digit +:+ acc else acc)
  end.
Definition units (prec : nat) (u : Z) (unit : string) : string :=
  let '(s, v) := fmt_frac prec false u unit in fmt_d v +:+ s.
Definition micro : string := of_bytes [194; 181; 115].
(** [func (d Duration) String() string] *)
Definition Duration_String (d : Z) : string :=
  let u := Z.abs d in
  let s :=
    if decide (u = 0) then "0s" else
    if decide (u < 1000) then units 0 u "ns" else
    if decide (u < 1000000) then units 3 u micro else
    if decide (u < Time.second) then units 6 u "ms" else
    let '(frac, u) := fmt_frac 9 false u "s" in
    let secs := fmt_d (u mod 60) +:+ frac in
    if decide (u / 60 = 0) then secs else
    let mins := fmt_d (u / 60 mod 60) +:+ "m" +:+ secs in
    if decide (u / 60 / 60 = 0) then mins else fmt_d (u / 60 / 60) +:+ "h" +:+ mins in
  if decide (d < 0) then "-" +:+ s else s.

Example Duration_String_run :
  Duration_String 0 = "0s" ∧ Duration_String 999 = "999ns" ∧
  Duration_String 1500000 = "1.5ms" ∧ Duration_String 2000000000 = "2s" ∧
  Duration_String (-5400000000000) = "-1h30m0s" ∧ Duration_String 61000000001 = "1m1.000000001s".
Proof. by vm_compute. Qed.

(** ** RFC 3339 *)
Definition leap (y : Z) : Prop := y mod 4 = 0 ∧ (y mod 100 ≠ 0 ∨ y mod 400 = 0).
#[export] Instance leap_dec y : Decision (leap y).
Proof. unfold leap. apply _. Defined.
Definition month_days (y : Z) : list Z :=
  [31; if decide (leap y) then 29 else 28; 31; 30; 31; 30; 31; 31; 30; 31; 30; 31].
(** [daysIn] *)
Definition days_in (m y : Z) : Z := nth (Z.to_nat (m - 1)) (month_days y) 0.
(** The days from 1 January of year 1. *)
Definition days_since (y m d : Z) : Z :=
  (y - 1) * 365 + (y - 1) / 4 - (y - 1) / 100 + (y - 1) / 400 +
  foldr Z.add 0 (take (Z.to_nat (m - 1)) (month_days y)) + (d - 1).
(** [parseUint(s, min, max)] *)
Definition parse_range (s : list Z) (min max : Z) : option Z :=
  if decide (digit_run s = s ∧ min ≤ digits_value s ≤ max) then Some (digits_value s) else None.
(** The fraction of a second in nanoseconds, and what follows. *)
Definition parse_fraction (s : list Z) : Z * list Z :=
  match s with
  | 46 :: r =>
      let d := digit_run r in
      if decide (d = []) then (0, s)
      else (digits_value (take 9 d) * 10 ^ (9 - len (take 9 d)), drop (length d) r)
  | _ => (0, s)
  end.
(** The offset of the zone in seconds. *)
Definition parse_zone (s : list Z) : option Z :=
  match s with
  | [90] => Some 0
  | [sign; h1; h2; 58; m1; m2] =>
      if decide (sign = 43 ∨ sign = 45) then
        h ← parse_range [h1; h2] 0 23; m ← parse_range [m1; m2] 0 59;
        let off := (h * 60 + m) * 60 in Some (if decide (sign = 45) then - off else off)
      else None
  | _ => None
  end.
(** [parseStrictRFC3339] *)
Definition parse_RFC3339 (s : list Z) : option Z :=
  match s with
  | y1 :: y2 :: y3 :: y4 :: 45 :: m1 :: m2 :: 45 :: d1 :: d2 :: 84 ::
    h1 :: h2 :: 58 :: n1 :: n2 :: 58 :: s1 :: s2 :: r =>
      y ← parse_range [y1; y2; y3; y4] 0 9999; m ← parse_range [m1; m2] 1 12;
      d ← parse_range [d1; d2] 1 (days_in m y); h ← parse_range [h1; h2] 0 23;
      n ← parse_range [n1; n2] 0 59; sec ← parse_range [s1; s2] 0 59;
      let '(ns, r) := parse_fraction r in
      off ← parse_zone r;
      Some ((days_since y m d * 86400 + h * 3600 + n * 60 + sec - off) * Time.second + ns)
  | _ => None
  end.

Example parse_RFC3339_run :
  parse_RFC3339 (bytes "1970-01-01T00:00:00Z") = Some (Time.of_Unix 0) ∧
  parse_RFC3339 (bytes "0001-01-01T00:00:00Z") = Some Time.zero ∧
  parse_RFC3339 (bytes "2024-02-29T23:59:59.25+01:00") = Some (Time.of_Unix 1709247599 + 250000000) ∧
  parse_RFC3339 (bytes "2023-02-29T00:00:00Z") = None ∧
  parse_RFC3339 (bytes "2024-01-01T0:00:00Z") = None.
Proof. by vm_compute. Qed.
