(* ===== verification/GoJson.v ===== *)
(** * Package encoding/json

    Writing strings as [appendString] does, with HTML escaping; reading documents as
    the scanner does, and storing them into structs as [Decode] does. *)
From S2P Require Import Prelude Machine GoString GoTime.

(** ** Writing: strings *)

(** The length of the valid UTF-8 sequence at the front, of two to four bytes:
    [utf8.DecodeRuneInString] without its rune. *)
Definition cont (b : Z) : Prop := 128 ≤ b ≤ 191.
#[export] Instance cont_dec b : Decision (cont b).
Proof. unfold cont. apply _. Defined.
Definition rune_length (l : list Z) : option nat :=
  match l with
  | b0 :: b1 :: l =>
      if decide (194 ≤ b0 ≤ 223 ∧ cont b1) then Some 2%nat else
      match l with
      | b2 :: l =>
          if decide (224 ≤ b0 ≤ 239 ∧ cont b1 ∧ cont b2 ∧
                     (b0 = 224 → 160 ≤ b1) ∧ (b0 = 237 → b1 ≤ 159)) then Some 3%nat else
          match l with
          | b3 :: _ =>
              if decide (240 ≤ b0 ≤ 244 ∧ cont b1 ∧ cont b2 ∧ cont b3 ∧
                         (b0 = 240 → 144 ≤ b1) ∧ (b0 = 244 → b1 ≤ 143)) then Some 4%nat else None
          | [] => None
          end
      | [] => None
      end
  | _ => None
  end.

Definition backslash : Z := 92.
Definition u_escape (hi lo : Z) : list Z :=
  [backslash; 117; 48; 48; byte_of_ascii (hexdigit hi); byte_of_ascii (hexdigit lo)].
(** One byte below [utf8.RuneSelf]. *)
Definition escape_byte (b : Z) : list Z :=
  if decide (b = 34 ∨ b = backslash) then [backslash; b] else
  if decide (b = 8) then [backslash; 98] else
  if decide (b = 12) then [backslash; 102] else
  if decide (b = 10) then [backslash; 110] else
  if decide (b = 13) then [backslash; 114] else
  if decide (b = 9) then [backslash; 116] else
  if decide (b < 32 ∨ b = 60 ∨ b = 62 ∨ b = 38) then u_escape (b / 16) (b mod 16) else [b].
(** Of a sequence that has begun, [skip] bytes are still to come; [copy] says whether
    they are written. *)
Fixpoint escape (skip : nat) (copy : bool) (l : list Z) : list Z :=
  match l with
  | [] => []
  | b :: l' =>
      match skip with
      | S k => if copy then b :: escape k copy l' else escape k copy l'
      | O =>
          if decide (b < 128) then escape_byte b ++ escape 0 true l' else
          match rune_length l with
          | None => bytes "\ufffd" ++ escape 0 true l'
          | Some n =>
              if decide (take 3 l = [226; 128; 168]) then bytes "\u2028" ++ escape 2 false l' else
              if decide (take 3 l = [226; 128; 169]) then bytes "\u2029" ++ escape 2 false l' else
              b :: escape (n - 1) true l'
          end
      end
  end.
(** A Go string as a JSON string. *)
Definition quote_char : string := String (ascii_of_byte 34) EmptyString.
Definition quote (s : string) : string :=
  quote_char +:+ (of_bytes (escape 0 true (bytes s)) +:+ quote_char).

Example escape_run :
  escape 0 true (bytes "a<b") = bytes "a\u003cb" ∧
  escape 0 true [195; 169; 10] = [195; 169; 92; 110] ∧
  escape 0 true [226; 128; 169; 65] = bytes "\u2029A" ∧
  escape 0 true [128; 34] = bytes "\ufffd" ++ [92; 34].
Proof. by vm_compute. Qed.

(** ** Writing: structs of strings and integers *)
Inductive member := MStr (s : string) | MInt (n : Z).
Definition quoted (s : string) : list Z := 34 :: escape 0 true (bytes s) ++ [34].
Definition member_text (m : member) : list Z :=
  match m with MStr s => quoted s | MInt n => bytes (fmt_d n) end.
Fixpoint members_text (l : list (string * member)) : list Z :=
  match l with
  | [] => []
  | [(k, m)] => quoted k ++ 58 :: member_text m
  | (k, m) :: l => quoted k ++ 58 :: member_text m ++ 44 :: members_text l
  end.
Definition object_text (l : list (string * member)) : list Z := 123 :: members_text l ++ [125].

(** ** Reading: the syntax *)

(** A document. Strings and numbers keep the bytes they are written with. *)
Inductive json :=
  | JNull | JBool (b : bool) | JNum (tok : list Z) | JStr (raw : list Z)
  | JArr (l : list json) | JObj (l : list (list Z * json)).
Definition is_space (c : Z) : Prop := c = 32 ∨ c = 9 ∨ c = 13 ∨ c = 10.
#[export] Instance is_space_dec c : Decision (is_space c).
Proof. unfold is_space. apply _. Defined.
Fixpoint skip_ws (l : list Z) : list Z :=
  match l with
  | c :: l' => if decide (is_space c) then skip_ws l' else l
  | [] => []
  end.
Definition hex_value (c : Z) : option Z :=
  if decide (48 ≤ c ≤ 57) then Some (c - 48) else
  if decide (97 ≤ c ≤ 102) then Some (c - 87) else
  if decide (65 ≤ c ≤ 70) then Some (c - 55) else None.
Definition hex4 (a b c d : Z) : option Z :=
  a ← hex_value a; b ← hex_value b; c ← hex_value c; d ← hex_value d;
  Some (((a * 16 + b) * 16 + c) * 16 + d).
(** The string after its opening quote, up to the closing one. *)
Fixpoint scan_string (l : list Z) : option (list Z * list Z) :=
  match l with
  | [] => None
  | x :: l1 =>
      if decide (x = 34) then Some ([], l1) else
      if decide (x = backslash) then
        match l1 with
        | e :: l2 =>
            if decide (e = 117) then
              match l2 with
              | a :: b :: c :: d :: l3 =>
                  _ ← hex4 a b c d; '(s, r) ← scan_string l3;
                  Some (x :: e :: a :: b :: c :: d :: s, r)
              | _ => None
              end
            else if decide (e ∈ bytes "\/bfnrt" ∨ e = 34) then '(s, r) ← scan_string l2; Some (x :: e :: s, r)
            else None
        | [] => None
        end
      else if decide (x < 32) then None else '(s, r) ← scan_string l1; Some (x :: s, r)
  end.
(** A run of digits that must not be empty. *)
Definition digits1 (l : list Z) : option (list Z * list Z) :=
  let d := digit_run l in if decide (d = []) then None else Some (d, drop (length d) l).
Definition scan_int (l : list Z) : option (list Z * list Z) :=
  match l with
  | x :: r => if decide (x = 48) then Some ([x], r) else digits1 l
  | [] => None
  end.
Definition scan_frac (l : list Z) : option (list Z * list Z) :=
  match l with
  | x :: r => if decide (x = 46) then '(d, r) ← digits1 r; Some (x :: d, r) else Some ([], l)
  | [] => Some ([], l)
  end.
Definition scan_exp (l : list Z) : option (list Z * list Z) :=
  match l with
  | c :: l' =>
      if decide (c = 101 ∨ c = 69) then
        match l' with
        | s :: l'' => if decide (s = 43 ∨ s = 45) then '(d, l) ← digits1 l''; Some (c :: s :: d, l)
                      else '(d, l) ← digits1 l'; Some (c :: d, l)
        | [] => None
        end
      else Some ([], l)
  | [] => Some ([], l)
  end.
Definition scan_number (l : list Z) : option (list Z * list Z) :=
  let '(sign, l) :=
    match l with x :: r => if decide (x = 45) then ([x], r) else ([], l) | [] => ([], l) end in
  '(i, l) ← scan_int l; '(f, l) ← scan_frac l; '(e, l) ← scan_exp l;
  Some (sign ++ i ++ f ++ e, l).
(** [lit] at the front. *)
Fixpoint literal (lit l : list Z) : option (list Z) :=
  match lit, l with
  | [], _ => Some l
  | a :: lit, b :: l => if decide (a = b) then literal lit l else None
  | _, [] => None
  end.
(** The character [c], after white space. *)
Definition next (c : Z) (l : list Z) : option (list Z) :=
  match skip_ws l with x :: r => if decide (x = c) then Some r else None | [] => None end.
(** A value, with [depth] levels of arrays and objects allowed; the elements of an
    array and the members of an object, after the opening bracket or a comma. *)
Fixpoint value (fuel : nat) (depth : Z) (l : list Z) : option (json * list Z) :=
  match fuel with
  | O => None
  | S fuel =>
      match skip_ws l with
      | [] => None
      | c :: l =>
          if decide (c = 34) then '(s, r) ← scan_string l; Some (JStr s, r) else
          if decide (c = 91) then
            if decide (depth ≤ 0) then None else
            match next 93 l with
            | Some r => Some (JArr [], r)
            | None => '(vs, r) ← elements fuel (depth - 1) l; Some (JArr vs, r)
            end
          else if decide (c = 123) then
            if decide (depth ≤ 0) then None else
            match next 125 l with
            | Some r => Some (JObj [], r)
            | None => '(ms, r) ← members fuel (depth - 1) l; Some (JObj ms, r)
            end
          else if decide (c = 110) then r ← literal (bytes "ull") l; Some (JNull, r) else
          if decide (c = 116) then r ← literal (bytes "rue") l; Some (JBool true, r) else
          if decide (c = 102) then r ← literal (bytes "alse") l; Some (JBool false, r) else
          '(tok, r) ← scan_number (c :: l); Some (JNum tok, r)
      end
  end
with elements (fuel : nat) (depth : Z) (l : list Z) : option (list json * list Z) :=
  match fuel with
  | O => None
  | S fuel =>
      '(v, r) ← value fuel depth l;
      match next 44 r with
      | Some r => '(vs, r) ← elements fuel depth r; Some (v :: vs, r)
      | None => r ← next 93 r; Some ([v], r)
      end
  end
with members (fuel : nat) (depth : Z) (l : list Z) : option (list (list Z * json) * list Z) :=
  match fuel with
  | O => None
  | S fuel =>
      r ← next 34 l; '(k, r) ← scan_string r; r ← next 58 r; '(v, r) ← value fuel depth r;
      match next 44 r with
      | Some r => '(ms, r) ← members fuel depth r; Some ((k, v) :: ms, r)
      | None => r ← next 125 r; Some ([(k, v)], r)
      end
  end.
(** The first value of a document, of at most 10000 levels. *)
Definition document (l : list Z) : option (json * list Z) := value (2 * length l + 1) 10000 l.

(** ** Reading: strings *)
Definition replacement : list Z := [239; 191; 189].
(** [utf8.EncodeRune] *)
Definition encode_rune (r : Z) : list Z :=
  if decide (r < 128) then [r] else
  if decide (r < 2048) then [192 + r / 64; 128 + r mod 64] else
  if decide (r < 65536) then [224 + r / 4096; 128 + r / 64 mod 64; 128 + r mod 64] else
  [240 + r / 262144; 128 + r / 4096 mod 64; 128 + r / 64 mod 64; 128 + r mod 64].
Definition surrogate (r : Z) : Prop := 55296 ≤ r < 57344.
#[export] Instance surrogate_dec r : Decision (surrogate r).
Proof. unfold surrogate. apply _. Defined.
(** [utf16.DecodeRune] *)
Definition decode_pair (r r' : Z) : option Z :=
  if decide (55296 ≤ r < 56320 ∧ 56320 ≤ r' < 57344)
  then Some ((r - 55296) * 1024 + (r' - 56320) + 65536) else None.
Definition unescape (e : Z) : Z :=
  if decide (e = 98) then 8 else if decide (e = 102) then 12 else if decide (e = 110) then 10 else
  if decide (e = 114) then 13 else if decide (e = 116) then 9 else e.
(** [unquote] on a string that was scanned: the bytes of the Go string. *)
Fixpoint unquote (skip : nat) (l : list Z) : list Z :=
  match l with
  | [] => []
  | x :: l' =>
      match skip with
      | S k => x :: unquote k l'
      | O =>
          if decide (x = backslash) then
            match l' with
            | 117 :: a :: b :: c :: d :: l2 =>
                match hex4 a b c d with
                | None => []
                | Some r =>
                    if decide (surrogate r) then
                      match l2 with
                      | 92 :: 117 :: a' :: b' :: c' :: d' :: l3 =>
                          match r' ← hex4 a' b' c' d'; decode_pair r r' with
                          | Some p => encode_rune p ++ unquote 0 l3
                          | None => replacement ++ unquote 0 l2
                          end
                      | _ => replacement ++ unquote 0 l2
                      end
                    else encode_rune r ++ unquote 0 l2
                end
            | e :: l2 => unescape e :: unquote 0 l2
            | [] => []
            end
          else if decide (x < 128) then x :: unquote 0 l' else
          match rune_length l with
          | Some n => x :: unquote (n - 1) l'
          | None => replacement ++ unquote 0 l'
          end
      end
  end.

(** ** Reading: structs *)

(** [foldName]: letters in upper case; the long s and the Kelvin sign fold to letters
    too, and no other character does. *)
Fixpoint fold_name (l : list Z) : list Z :=
  match l with
  | 197 :: 191 :: l => 83 :: fold_name l
  | 226 :: 132 :: 170 :: l => 75 :: fold_name l
  | c :: l => (if decide (97 ≤ c ≤ 122) then c - 32 else c) :: fold_name l
  | [] => []
  end.
(** A field of a struct: its name, and how a value is stored into it, [None] for a value
    of another type. *)
Definition field (T : Type) : Type := string * (json → T → option T).
Definition find_field {T} (fields : list (field T)) (key : list Z) : option (json → T → option T) :=
  match list_find (λ f, bytes f.1 = key) fields with
  | Some (_, f) => Some f.2
  | None => (λ x, x.2.2) <$> list_find (λ f, fold_name (bytes f.1) = fold_name key) fields
  end.
(** The members of an object in turn; [strict] is [DisallowUnknownFields]. *)
Fixpoint store {T} (strict : bool) (fields : list (field T)) (ms : list (list Z * json)) (t : T) : option T :=
  match ms with
  | [] => Some t
  | (k, v) :: ms =>
      t ← match find_field fields (unquote 0 k) with
          | Some set => set v t
          | None => if strict then None else Some t
          end;
      store strict fields ms t
  end.
(** [Decode(&t)] of a reader with the bytes [l], [None] for any error. *)
Definition decode {T} (strict : bool) (fields : list (field T)) (zero : T) (l : list Z) : option T :=
  '(v, _) ← document l;
  match v with
  | JNull => Some zero
  | JObj ms => store strict fields ms zero
  | _ => None
  end.

(** Values for fields of the types string, bool, unsigned and signed integers, and
    [time.Time]; [null] stores nothing. *)
Section setters.
Context {T : Type}.
Definition set_string (put : string → T → T) (v : json) (t : T) : option T :=
  match v with JNull => Some t | JStr raw => Some (put (of_bytes (unquote 0 raw)) t) | _ => None end.
Definition set_bool (put : bool → T → T) (v : json) (t : T) : option T :=
  match v with JNull => Some t | JBool b => Some (put b t) | _ => None end.
Definition set_uint (max : Z) (put : Z → T → T) (v : json) (t : T) : option T :=
  match v with
  | JNull => Some t
  | JNum tok => n ← ParseUint (of_bytes tok); if decide (max < n) then None else Some (put n t)
  | _ => None
  end.
(** [strconv.ParseInt(tok, 10, 64)] *)
Definition ParseInt (tok : list Z) : option Z :=
  let '(neg, ds) :=
    match tok with
    | x :: ds => if decide (x = 45) then (true, ds) else (false, tok)
    | [] => (false, tok)
    end in
  if decide (digit_run ds = ds) then parse_int neg ds else None.
Definition set_int (put : Z → T → T) (v : json) (t : T) : option T :=
  match v with JNull => Some t | JNum tok => n ← ParseInt tok; Some (put n t) | _ => None end.
Definition set_time (put : Z → T → T) (v : json) (t : T) : option T :=
  match v with JNull => Some t | JStr raw => x ← parse_RFC3339 raw; Some (put x t) | _ => None end.
End setters.

(** ** Specification: valid UTF-8 *)
Inductive utf8 : list Z → Prop :=
  | utf8_nil : utf8 []
  | utf8_ascii b l : 0 ≤ b < 128 → utf8 l → utf8 (b :: l)
  | utf8_rune a l : rune_length a = Some (length a) → utf8 l → utf8 (a ++ l).
Lemma utf8_plain l : Forall (λ b, 0 ≤ b < 128) l → utf8 l.
Proof. induction 1; by constructor. Qed.

(** ** Facts: multi-byte characters *)

(** The three lengths of a character that is not ASCII. *)
Lemma rune_cases (Q : list Z → Prop) a :
  rune_length a = Some (length a) →
  (∀ x y, 194 ≤ x ≤ 223 → cont y → rune_length [x; y] = Some 2%nat → Q [x; y]) →
  (∀ x y z, 224 ≤ x ≤ 239 → cont y → cont z → rune_length [x; y; z] = Some 3%nat → Q [x; y; z]) →
  (∀ x y z u, 240 ≤ x ≤ 244 → cont y → cont z → cont u → rune_length [x; y; z; u] = Some 4%nat →
     Q [x; y; z; u]) → Q a.
Proof.
  intros Ha H2 H3 H4. pose proof Ha as Hr. unfold rune_length in Ha.
  destruct a as [|x [|y a]]; [done..|]. case_decide as C2.
  - injection Ha as Hl. destruct a; [|done]. destruct C2. by apply H2.
  - destruct a as [|z a]; [done|]. case_decide as C3.
    + injection Ha as Hl. destruct a; [|done]. destruct C3 as (? & ? & ? & _). by apply H3.
    + destruct a as [|u a]; [done|]. case_decide as C4; [|done].
      injection Ha as Hl. destruct a; [|done]. destruct C4 as (? & ? & ? & ? & _). by apply H4.
Qed.
Lemma rune_high a : rune_length a = Some (length a) → Forall (λ b, 128 ≤ b) a.
Proof. intros Ha. pattern a. apply (rune_cases _ a Ha); unfold cont; intros; repeat constructor; lia. Qed.
Lemma rune_app a l : rune_length a = Some (length a) → rune_length (a ++ l) = Some (length a).
Proof.
  intros Ha. pattern a. apply (rune_cases _ a Ha); clear a Ha; unfold rune_length; simpl; intros *.
  - intros _ _. by case_decide.
  - intros _ _ _. case_decide; [done|]. by case_decide.
  - intros _ _ _ _. case_decide; [done|]. case_decide; [done|]. by case_decide.
Qed.
Lemma copy_escape a l : escape (length a) true (a ++ l) = a ++ escape 0 true l.
Proof. induction a as [|x a IH]; simpl; [by destruct l|]. by rewrite IH. Qed.
Lemma copy_unquote a l : unquote (length a) (a ++ l) = a ++ unquote 0 l.
Proof. induction a as [|x a IH]; simpl; [by destruct l|]. by rewrite IH. Qed.

(** ** Facts: what is written is read back *)

(** [a] is a part of a string, which stands for [u]. *)
Definition part (a u : list Z) : Prop :=
  (∀ r s r', scan_string r = Some (s, r') → scan_string (a ++ r) = Some (a ++ s, r')) ∧
  ∀ r, unquote 0 (a ++ r) = u ++ unquote 0 r.
Lemma part_plain b : 32 ≤ b < 128 → b ≠ 34 → b ≠ 92 → part [b] [b].
Proof.
  intros Hb H1 H2. split; simpl.
  - intros r s r' E. by rewrite !decide_False, E by (unfold backslash; lia).
  - intros r. by rewrite decide_False, decide_True by (unfold backslash; lia).
Qed.
Lemma part_app a u b v : part a u → part b v → part (a ++ b) (u ++ v).
Proof.
  intros [Sa Ra] [Sb Rb]. split.
  - intros r s r' E. rewrite <- !app_assoc. by apply Sa, Sb.
  - intros r. by rewrite <- !app_assoc, Ra, Rb.
Qed.
Lemma part_u a b c d r :
  hex4 a b c d = Some r → ¬ surrogate r → part [92; 117; a; b; c; d] (encode_rune r).
Proof.
  intros Hr Hs. split; simpl.
  - intros t s t' E. by rewrite Hr, E.
  - intros t. by rewrite Hr, decide_False.
Qed.
Lemma hex4_byte b :
  0 ≤ b < 128 → hex4 48 48 (byte_of_ascii (hexdigit (b / 16))) (byte_of_ascii (hexdigit (b mod 16))) = Some b.
Proof.
  intros Hb. assert (b ∈ seqZ 0 128) as Hin by (apply elem_of_seqZ; lia). revert b Hin Hb.
  apply (Forall_forall (λ b, 0 ≤ b < 128 → hex4 48 48 (byte_of_ascii (hexdigit (b / 16)))
           (byte_of_ascii (hexdigit (b mod 16))) = Some b)).
  apply (bool_decide_unpack _). by vm_compute.
Qed.
Lemma part_byte b : 0 ≤ b < 128 → part (escape_byte b) [b].
Proof.
  intros Hb. unfold escape_byte, backslash.
  assert (∀ e, unescape e ≠ e ∨ e = 34 ∨ e = 92 → part [92; e] [unescape e]) as Hshort.
  { intros e He. assert (e = 98 ∨ e = 102 ∨ e = 110 ∨ e = 114 ∨ e = 116 ∨ e = 34 ∨ e = 92) as Hc.
    { unfold unescape in He. repeat case_decide; lia. }
    destruct_or! Hc; subst e; (split; simpl; [by intros r s r' ->|done]). }
  case_decide as Hc; [destruct Hc; subst b; [apply (Hshort 34)|apply (Hshort 92)]; auto|].
  case_decide; [subst b; by apply (Hshort 98); left|].
  case_decide; [subst b; by apply (Hshort 102); left|].
  case_decide; [subst b; by apply (Hshort 110); left|].
  case_decide; [subst b; by apply (Hshort 114); left|].
  case_decide; [subst b; by apply (Hshort 116); left|].
  case_decide as Hu.
  - replace [b] with (encode_rune b) by (unfold encode_rune; by rewrite decide_True by lia).
    apply part_u; [by apply hex4_byte|unfold surrogate; lia].
  - apply part_plain; lia.
Qed.
Lemma part_rune a : rune_length a = Some (length a) → part a a.
Proof.
  intros Ha. split.
  - pose proof (rune_high a Ha) as Hh. clear Ha. intros r s r' E.
    induction Hh as [|b a Hb _ IH]; [done|]. simpl.
    by rewrite !decide_False, IH by (unfold backslash; lia).
  - intros r. pose proof (rune_app a r Ha) as Hr. pose proof (rune_high a Ha) as Hh.
    destruct a as [|x a]; [done|]. apply Forall_cons in Hh as [Hx _].
    simpl app in *. cbn [unquote]. rewrite !decide_False, Hr by (unfold backslash; lia).
    simpl length. by rewrite Nat.sub_succ, Nat.sub_0_r, copy_unquote.
Qed.
Lemma escape_rune a l :
  rune_length a = Some (length a) →
  ∃ w, escape 0 true (a ++ l) = w ++ escape 0 true l ∧ part w a.
Proof.
  intros Ha. pose proof (rune_app a l Ha) as Hr. pose proof (rune_high a Ha) as Hh.
  pose proof (part_rune a Ha) as Hp.
  destruct (decide (take 3 (a ++ l) = [226; 128; 168])) as [E|E1].
  - exists (bytes "\u2028"). assert (a = [226; 128; 168]) as ->; [|split; [by destruct l|by apply (part_u 50 48 50 56 8232); [|unfold surrogate; lia]]].
    revert E. clear Hr Hh Hp. pattern a. apply (rune_cases _ a Ha); clear; simpl; intros; simplify_eq; done || lia.
  - destruct (decide (take 3 (a ++ l) = [226; 128; 169])) as [E|E2].
    + exists (bytes "\u2029"). assert (a = [226; 128; 169]) as ->; [|split; [by destruct l|by apply (part_u 50 48 50 57 8233); [|unfold surrogate; lia]]].
      revert E. clear Hr Hh Hp. pattern a. apply (rune_cases _ a Ha); clear; simpl; intros; simplify_eq; done || lia.
    + exists a. split; [|done]. destruct a as [|x a]; [done|]. apply Forall_cons in Hh as [Hx _].
      simpl app in *. cbn [escape]. rewrite decide_False, Hr, !decide_False by (done || lia).
      simpl length. by rewrite Nat.sub_succ, Nat.sub_0_r, copy_escape.
Qed.
Lemma part_escape l : utf8 l → part (escape 0 true l) l.
Proof.
  induction 1 as [|b l Hb _ IH|a l Ha _ IH].
  - by split.
  - cbn [escape]. rewrite decide_True by lia. by apply (part_app _ [b]); [apply part_byte|].
  - destruct (escape_rune a l Ha) as (w & -> & Hw). by apply part_app.
Qed.
Lemma scan_escape l r : utf8 l → scan_string (escape 0 true l ++ 34 :: r) = Some (escape 0 true l, r).
Proof.
  intros Hl. destruct (part_escape l Hl) as [Hs _].
  rewrite (Hs (34 :: r) [] r) by done. by rewrite app_nil_r.
Qed.
Lemma unquote_escape l : utf8 l → unquote 0 (escape 0 true l) = l.
Proof.
  intros Hl. destruct (part_escape l Hl) as [_ Hr]. specialize (Hr []).
  by rewrite !app_nil_r in Hr.
Qed.

(** ** Facts: the fuel is enough *)

(** A reader that consumes, and one that may consume nothing. *)
Definition shrinks {A} (m : option (A * list Z)) (l : list Z) : Prop :=
  ∀ a r, m = Some (a, r) → (length r < length l)%nat.
Definition keeps {A} (m : option (A * list Z)) (l : list Z) : Prop :=
  ∀ a r, m = Some (a, r) → (length r ≤ length l)%nat.
Lemma skip_ws_length l : (length (skip_ws l) ≤ length l)%nat.
Proof. induction l as [|c l IH]; simpl; [lia|]. case_decide; simpl; lia. Qed.
Lemma scan_string_shrinks l : shrinks (scan_string l) l.
Proof.
  assert (∀ n l, (length l ≤ n)%nat → shrinks (scan_string l) l) as H; [|by eapply H].
  unfold shrinks. clear l. induction n as [|n IH]; intros [|x l1] Hl a r; simpl in *; try done; [lia|].
  case_decide; [intros [= _ <-]; lia|].
  assert (∀ (k : list Z → list Z) m b, (length m ≤ length l1)%nat →
    ('(s, r) ← scan_string m; Some (k s, r)) = Some (b, r) → (length r < S (length l1))%nat) as Hrec.
  { intros k m b Hm ([s r'] & E & [= _ ->])%bind_Some. apply IH in E; lia. }
  case_decide.
  - destruct l1 as [|e l2]; [done|]. simpl in *. case_decide.
    + destruct l2 as [|b [|c [|d [|f l3]]]]; try done. intros (? & _ & E)%bind_Some. revert E.
      apply (Hrec (λ s, x :: e :: b :: c :: d :: f :: s)). simpl. lia.
    + case_decide; [|done]. apply (Hrec (λ s, x :: e :: s)). lia.
  - case_decide; [done|]. by apply (Hrec (λ s, x :: s)).
Qed.
Lemma next_shrinks c l r : next c l = Some r → (length r < length l)%nat.
Proof.
  unfold next. pose proof (skip_ws_length l) as Hl. destruct (skip_ws l) as [|x l']; [done|].
  case_decide; [|done]. intros [= <-]. simpl in Hl. lia.
Qed.
Lemma literal_keeps lit l r : literal lit l = Some r → (length r ≤ length l)%nat.
Proof.
  revert l. induction lit as [|a lit IH]; intros [|b l]; simpl; try done; try (intros [= <-]; simpl; lia).
  case_decide; [|done]. intros Hr%IH. lia.
Qed.
Lemma digits1_shrinks l : shrinks (digits1 l) l.
Proof.
  unfold digits1. intros a r. case_decide as Hd; [done|]. intros [= _ <-]. rewrite length_drop.
  destruct l as [|x l]; [done|]. simpl in *. case_decide; [|done]. simpl. lia.
Qed.
Lemma scan_number_shrinks l : shrinks (scan_number l) l.
Proof.
  assert (∀ l, shrinks (scan_int l) l) as Hi.
  { intros [|x l1] a r; [done|]. unfold scan_int. case_decide; [|apply (digits1_shrinks (x :: l1))].
    intros [= _ <-]. simpl. lia. }
  assert (∀ l, keeps (scan_frac l) l) as Hf.
  { intros [|x l1] a r; [by intros [= _ <-]|]. unfold scan_frac. case_decide; [|by intros [= _ <-]].
    intros ([d r'] & E%digits1_shrinks & [= _ ->])%bind_Some. simpl. lia. }
  assert (∀ l, keeps (scan_exp l) l) as He.
  { intros [|x l1] a r; [by intros [= _ <-]|]. unfold scan_exp. case_decide; [|by intros [= _ <-]].
    destruct l1 as [|y l2]; [done|]. case_decide;
      intros ([d r'] & E%digits1_shrinks & [= _ ->])%bind_Some; simpl in *; lia. }
  intros a r. unfold scan_number.
  assert (∀ sign m, (length m ≤ length l)%nat →
    ('(i, l) ← scan_int m; '(f, l) ← scan_frac l; '(e, l) ← scan_exp l; Some (sign ++ i ++ f ++ e, l)) =
      Some (a, r) → (length r < length l)%nat) as Hm.
  { intros sign m Hlen ([i r1] & E1%Hi & ([f r2] & E2%Hf & ([e r3] & E3%He & [= _ ->])%bind_Some)%bind_Some)%bind_Some.
    lia. }
  destruct l as [|x l1]; [by apply Hm|]. case_decide.
  - apply Hm. simpl. lia.
  - by apply (Hm []).
Qed.
Lemma parse_shrinks fuel :
  (∀ depth l, shrinks (value fuel depth l) l) ∧ (∀ depth l, shrinks (elements fuel depth l) l) ∧
  (∀ depth l, shrinks (members fuel depth l) l).
Proof.
  induction fuel as [|fuel (IHv & IHe & IHm)]; [done|]. split_and!; intros depth l a r; cbn [value elements members].
  - pose proof (skip_ws_length l) as Hl. destruct (skip_ws l) as [|c l1]; [done|]. simpl in Hl.
    case_decide; [intros ([s r'] & E%scan_string_shrinks & [= _ ->])%bind_Some; lia|].
    case_decide; [|case_decide].
    + case_decide; [done|]. destruct (next 93 l1) as [r'|] eqn:E.
      * intros [= _ ->]. apply next_shrinks in E. lia.
      * intros ([s r'] & E'%IHe & [= _ ->])%bind_Some. lia.
    + case_decide; [done|]. destruct (next 125 l1) as [r'|] eqn:E.
      * intros [= _ ->]. apply next_shrinks in E. lia.
      * intros ([s r'] & E'%IHm & [= _ ->])%bind_Some. lia.
    + do 3 (case_decide; [intros (r' & E%literal_keeps & [= _ ->])%bind_Some; lia|]).
      intros ([s r'] & E%scan_number_shrinks & [= _ ->])%bind_Some. simpl in *. lia.
  - intros ([v r1] & E1%IHv & E)%bind_Some. revert E. destruct (next 44 r1) as [r2|] eqn:E2.
    + intros ([vs r3] & E3%IHe & [= _ ->])%bind_Some. apply next_shrinks in E2. lia.
    + intros (r3 & E3%next_shrinks & [= _ ->])%bind_Some. lia.
  - intros (r0 & E0%next_shrinks & ([k r1] & E1%scan_string_shrinks & (r2 & E2%next_shrinks &
      ([v r3] & E3%IHv & E)%bind_Some)%bind_Some)%bind_Some)%bind_Some. revert E.
    destruct (next 44 r3) as [r4|] eqn:E4.
    + intros ([vs r5] & E5%IHm & [= _ ->])%bind_Some. apply next_shrinks in E4. lia.
    + intros (r5 & E5%next_shrinks & [= _ ->])%bind_Some. lia.
Qed.
(** A value of a document of length [n] is read, or refused, in the same way with any
    fuel from [2 n + 1] on: it never runs out. *)
Lemma parse_fuel n :
  (∀ l depth f g, (length l ≤ n → 2 * n + 1 ≤ f → 2 * n + 1 ≤ g → value f depth l = value g depth l)%nat) ∧
  (∀ l depth f g, (length l ≤ n → 2 * n + 2 ≤ f → 2 * n + 2 ≤ g → elements f depth l = elements g depth l)%nat) ∧
  (∀ l depth f g, (length l ≤ n → 2 * n + 2 ≤ f → 2 * n + 2 ≤ g → members f depth l = members g depth l)%nat).
Proof.
  induction (lt_wf n) as [n _ IH].
  assert (∀ l depth f g, (length l ≤ n → 2 * n + 1 ≤ f → 2 * n + 1 ≤ g →
            value f depth l = value g depth l)%nat) as Hv.
  { intros l depth [|f] [|g] Hl Hf Hg; try lia. cbn [value]. pose proof (skip_ws_length l) as Hs.
    destruct (skip_ws l) as [|c l1]; [done|]. simpl in Hs.
    destruct (IH (length l1) ltac:(lia)) as (_ & IHe & IHm).
    rewrite (IHe l1 (depth - 1) f g), (IHm l1 (depth - 1) f g) by lia. done. }
  split; [done|]. split; intros l depth [|f] [|g] Hl Hf Hg; try lia; cbn [elements members].
  - rewrite (Hv l depth f g) by lia. destruct (value g depth l) as [[v r]|] eqn:E; [|done].
    apply parse_shrinks in E. cbn [mbind option_bind]. destruct (next 44 r) as [r2|] eqn:E2; [|done].
    apply next_shrinks in E2. destruct (IH (length r2) ltac:(lia)) as (_ & IHe & _).
    by rewrite (IHe r2 depth f g) by lia.
  - destruct (next 34 l) as [r0|] eqn:E0; [|done]. apply next_shrinks in E0. cbn [mbind option_bind].
    destruct (scan_string r0) as [[k r1]|] eqn:E1; [|done]. apply scan_string_shrinks in E1. cbn [mbind option_bind].
    destruct (next 58 r1) as [r2|] eqn:E2; [|done]. apply next_shrinks in E2. cbn [mbind option_bind].
    rewrite (Hv r2 depth f g) by lia. destruct (value g depth r2) as [[v r3]|] eqn:E3; [|done].
    apply parse_shrinks in E3. cbn [mbind option_bind]. destruct (next 44 r3) as [r4|] eqn:E4; [|done].
    apply next_shrinks in E4. destruct (IH (length r4) ltac:(lia)) as (_ & _ & IHm).
    by rewrite (IHm r4 depth f g) by lia.
Qed.
Lemma document_fuel l fuel : (2 * length l + 1 ≤ fuel)%nat → value fuel 10000 l = document l.
Proof. intros Hf. unfold document. by apply (parse_fuel (length l)). Qed.

(** ** Facts: members that are written are read back *)
Definition member_ok (m : member) : Prop :=
  match m with MStr s => utf8 (bytes s) | MInt n => is_u64 n ∨ is_i64 n end.
Definition member_json (m : member) : json :=
  match m with MStr s => JStr (escape 0 true (bytes s)) | MInt n => JNum (bytes (fmt_d n)) end.
(** A comma or a closing brace. *)
Definition closes (c : Z) : Prop := c = 44 ∨ c = 125.

Lemma next_char c r : ¬ is_space c → next c (c :: r) = Some r.
Proof. intros Hc. unfold next. simpl. rewrite decide_False, decide_True by done. done. Qed.
Lemma next_other c x r : ¬ is_space x → x ≠ c → next c (x :: r) = None.
Proof. intros Hx Hc. unfold next. simpl. by rewrite !decide_False. Qed.
Lemma scan_tail c r : closes c → scan_frac (c :: r) = Some ([], c :: r) ∧ scan_exp (c :: r) = Some ([], c :: r).
Proof. by intros [-> | ->]. Qed.
Lemma scan_positive n c r :
  0 < n → is_u64 n → closes c → scan_int (bytes (fmt_d n) ++ c :: r) = Some (bytes (fmt_d n), c :: r).
Proof.
  intros Hn Hu Hc. destruct (printed_bytes n Hu) as (_ & Hf & _).
  destruct (printed_head n Hn) as (d & ds & E & Hd). rewrite E in *.
  simpl app. unfold scan_int. rewrite decide_False by lia. unfold digits1.
  change (d :: ds ++ c :: r) with ((d :: ds) ++ c :: r).
  rewrite (digit_run_app _ _ Hf) by (destruct Hc; lia). rewrite decide_False by done.
  by rewrite drop_app_length.
Qed.
Lemma scan_printed n c r :
  is_u64 n ∨ is_i64 n → closes c →
  scan_number (bytes (fmt_d n) ++ c :: r) = Some (bytes (fmt_d n), c :: r).
Proof.
  intros Hn Hc. destruct (scan_tail c r Hc) as [Ef Ee]. unfold scan_number.
  destruct (decide (0 < n)) as [Hp|Hp]; [|destruct (decide (n = 0)) as [->|Hz]].
  - pose proof (scan_positive n c r Hp ltac:(mlia) Hc) as Ei.
    destruct (printed_head n Hp) as (d & ds & E & Hd). rewrite E in *. simpl app in *.
    cbv beta iota. rewrite decide_False by lia. rewrite Ei. cbn [mbind option_bind]. rewrite Ef. cbn [mbind option_bind].
    rewrite Ee. cbn [mbind option_bind]. by rewrite !app_nil_r.
  - change (bytes (fmt_d 0)) with [48]. simpl app. cbv beta iota. rewrite decide_False by done.
    change (scan_int (48 :: c :: r)) with (Some ([48], c :: r)). cbn [mbind option_bind]. rewrite Ef.
    cbn [mbind option_bind]. by rewrite Ee.
  - replace n with (- - n) by lia. rewrite (printed_negative (- n)) by lia. simpl app.
    cbv beta iota. rewrite decide_True by done. rewrite (scan_positive (- n) c r) by (done || mlia).
    cbn [mbind option_bind]. rewrite Ef. cbn [mbind option_bind]. rewrite Ee. cbn [mbind option_bind].
    by rewrite !app_nil_r.
Qed.
Lemma ParseInt_printed n : is_i64 n → ParseInt (bytes (fmt_d n)) = Some n.
Proof.
  intros Hn. unfold ParseInt.
  assert (∀ m, is_u64 m → digit_run (bytes (fmt_d m)) = bytes (fmt_d m)) as Hd.
  { intros m Hm. destruct (printed_bytes m Hm) as (_ & Hf & _).
    pose proof (digit_run_app _ [] Hf I) as E. by rewrite app_nil_r in E. }
  destruct (decide (0 ≤ n)) as [Hp|Hp].
  - assert (is_u64 n) as Hu by mlia. destruct (printed_bytes n Hu) as (Hne & Hf & Hv).
    pose proof (Hd n Hu) as Hdn. destruct (bytes (fmt_d n)) as [|d ds]; [done|].
    assert (parse_int false (d :: ds) = Some n) as Ep.
    { unfold parse_int. rewrite Hv. by rewrite decide_False, decide_True. }
    apply Forall_cons in Hf as [Hd0 _]. cbv beta iota. rewrite (decide_False (P := d = 45)) by lia. by rewrite decide_True.
  - replace n with (- - n) by lia. rewrite (printed_negative (- n)) by lia.
    assert (is_u64 (- n)) as Hu by mlia. destruct (printed_bytes (- n) Hu) as (Hne & Hf & Hv).
    cbv beta iota. rewrite decide_True by done. rewrite decide_True by (by apply Hd). unfold parse_int. rewrite Hv.
    rewrite decide_False, decide_True by (done || mlia). done.
Qed.
Lemma value_member fuel depth m c r :
  member_ok m → closes c → value (S fuel) depth (member_text m ++ c :: r) = Some (member_json m, c :: r).
Proof.
  intros Hm Hc. destruct m as [s|n]; cbn [member_text member_json].
  - unfold quoted. simpl app. cbn [value skip_ws]. rewrite decide_False by (unfold is_space; lia).
    rewrite decide_True by done. rewrite <- app_assoc. simpl app. by rewrite scan_escape.
  - pose proof (scan_printed n c r Hm Hc) as Hs.
    assert (∃ d ds, bytes (fmt_d n) = d :: ds ∧ 45 ≤ d ≤ 57) as (d & ds & E & Hd).
    { destruct (decide (0 < n)) as [Hp|Hp]; [|destruct (decide (n = 0)) as [->|Hz]].
      - destruct (printed_head n Hp) as (d & ds & E & Hd). exists d, ds. split; [done|lia].
      - exists 48, []. split; [done|lia].
      - replace n with (- - n) by lia. rewrite (printed_negative (- n)) by lia.
        eexists _, _. split; [done|lia]. }
    rewrite E in *. simpl app in *. cbn [value skip_ws]. rewrite decide_False by (unfold is_space; lia).
    rewrite !decide_False by lia. by rewrite Hs.
Qed.
Lemma read_members l fuel depth r :
  l ≠ [] → (length l < fuel)%nat → Forall (λ p, utf8 (bytes p.1) ∧ member_ok p.2) l →
  members fuel depth (members_text l ++ 125 :: r) =
    Some ((λ p, (escape 0 true (bytes p.1), member_json p.2)) <$> l, r).
Proof.
  intros Hne Hf Hl. revert fuel Hf. induction Hl as [|[k m] l [Hk Hm] Hl IH]; intros fuel Hf; [done|].
  cbn [fst snd] in *. destruct fuel as [|[|fuel]]; [simpl in Hf; lia|simpl in Hf; lia|].
  assert (∀ t c, closes c → members (S (S fuel)) depth (quoted k ++ 58 :: member_text m ++ c :: t) =
    match next 44 (c :: t) with
    | Some r => '(ms, r) ← members (S fuel) depth r;
        Some ((escape 0 true (bytes k), member_json m) :: ms, r)
    | None => r ← next 125 (c :: t); Some ([(escape 0 true (bytes k), member_json m)], r)
    end) as Hone.
  { intros t c Hc. unfold quoted. simpl app. cbn [members]. rewrite next_char by (unfold is_space; lia).
    cbn [mbind option_bind]. rewrite <- app_assoc. simpl app. rewrite scan_escape by done.
    cbn [mbind option_bind]. rewrite next_char by (unfold is_space; lia). cbn [mbind option_bind].
    rewrite value_member by done. done. }
  destruct l as [|p l].
  - change (members_text [(k, m)]) with (quoted k ++ 58 :: member_text m).
    rewrite <- app_assoc, <- app_comm_cons, Hone by (by right).
    rewrite next_other, next_char by (unfold is_space; lia). done.
  - change (members_text ((k, m) :: p :: l)) with
      (quoted k ++ 58 :: member_text m ++ 44 :: members_text (p :: l)).
    rewrite <- app_assoc, <- app_comm_cons, <- app_assoc, <- app_comm_cons, Hone by (by left). rewrite next_char by (unfold is_space; lia).
    rewrite IH by (done || simpl in *; lia). done.
Qed.
Lemma document_object l r :
  l ≠ [] → Forall (λ p, utf8 (bytes p.1) ∧ member_ok p.2) l →
  document (object_text l ++ r) =
    Some (JObj ((λ p, (escape 0 true (bytes p.1), member_json p.2)) <$> l), r).
Proof.
  intros Hne Hl.
  assert (length l ≤ length (members_text l))%nat as Hlen.
  { clear. induction l as [|[k m] [|p l] IH]; simpl; [lia| |]; rewrite ?length_app; simpl; [lia|].
    rewrite !length_app. simpl in *. lia. }
  rewrite <- (document_fuel _ (2 * length (object_text l ++ r) + 2)) by lia.
  unfold object_text. simpl app. rewrite <- app_assoc. simpl app. simpl length. rewrite length_app.
  set (fuel := (_ + 2)%nat). assert (∃ f, fuel = S f ∧ length l < f)%nat as (f & -> & Hf).
  { exists (pred fuel). unfold fuel. lia. }
  cbn [value skip_ws]. rewrite decide_False by (unfold is_space; lia).
  rewrite decide_False by lia. rewrite decide_False by lia. rewrite decide_True by done.
  rewrite decide_False by lia.
  assert (next 125 (members_text l ++ 125 :: r) = None) as ->.
  { destruct l as [|[k m] [|p l]]; [done|..]; unfold quoted; simpl; apply next_other; unfold is_space; lia. }
  by rewrite read_members.
Qed.

(** ** Facts *)

(** Bytes that are written as they are. *)
Definition plain (b : Z) : Prop :=
  32 ≤ b < 128 ∧ b ≠ 34 ∧ b ≠ 92 ∧ b ≠ 60 ∧ b ≠ 62 ∧ b ≠ 38.
Lemma escape_plain l : Forall plain l → escape 0 true l = l.
Proof.
  induction 1 as [|b l Hb _ IH]; [done|]. cbn [escape]. rewrite decide_True by (destruct Hb; lia).
  rewrite IH. destruct Hb as (? & ? & ? & ? & ? & ?). unfold escape_byte.
  rewrite !decide_False; [done|unfold backslash in *; lia..].
Qed.
