(* ===== verification/Mux.v ===== *)
(** * Package net/http: ServeMux, and package path

    How [http.ServeMux] of Go 1.22 finds the handler of a request when every pattern is
    a path: a literal one matches itself, one that ends in a slash a whole subtree,
    and no two subtrees are nested. Paths that are not clean are redirected, and so
    is the root of a subtree without its slash; a request for [*] is refused. The
    paths need no escaping. *)
From S2P Require Import Prelude GoString.

(** ** Model: path.Clean on rooted paths *)
Definition slash : ascii := "/".
(** [strings.Split(p, "/")] *)
Fixpoint split (l : list ascii) : list (list ascii) :=
  match l with
  | [] => [[]]
  | c :: l =>
      if decide (c = slash) then [] :: split l else
      match split l with s :: r => (c :: s) :: r | [] => [[c]] end
  end.
(** The elements kept so far, the last one first, and the next element. *)
Definition push (kept : list (list ascii)) (s : list ascii) : list (list ascii) :=
  if decide (s = [] ∨ s = chars ".") then kept else
  if decide (s = chars "..") then tail kept else s :: kept.
Definition elements (l : list ascii) : list (list ascii) := rev (fold_left push (split l) []).
Definition join (l : list (list ascii)) : list ascii := flat_map (cons slash) l.
(** [path.Clean] *)
Definition Clean (l : list ascii) : list ascii :=
  match elements l with [] => [slash] | es => join es end.
Definition ends_in_slash (l : list ascii) : Prop := last l = Some slash.
#[export] Instance ends_in_slash_dec l : Decision (ends_in_slash l).
Proof. unfold ends_in_slash. apply _. Defined.
(** [http.cleanPath] *)
Definition clean_path (l : list ascii) : list ascii :=
  if decide (l = []) then [slash] else
  let l := if decide (head l = Some slash) then l else slash :: l in
  let np := Clean l in
  if decide (ends_in_slash l ∧ np ≠ [slash]) then np ++ [slash] else np.
Definition cleanPath (p : string) : string := String.string_of_list_ascii (clean_path (chars p)).

(** ** Model: the multiplexer *)
Inductive routed (E : Type) :=
  | Matched (h : E) | Redirected (location : string) | NotFound | BadRequest.
Arguments Matched {E} h.
Arguments Redirected {E} location.
Arguments NotFound {E}.
Arguments BadRequest {E}.
Section mux.
Context {E : Type} (exact subtrees : list (string * E)).

Definition lookup_exact (path : string) : option E := (λ x, x.2.2) <$> list_find (λ p, p.1 = path) exact.
Definition lookup_subtree (path : string) : option E :=
  (λ x, x.2.2) <$> list_find (λ p, String.prefix p.1 path = true) subtrees.
(** [matchOrRedirect]: should the path be redirected to the root of a subtree? *)
Definition misses_slash (path : string) : Prop :=
  lookup_exact path = None ∧ ¬ ends_in_slash (chars path) ∧ path +:+ "/" ∈ subtrees.*1.
#[export] Instance misses_slash_dec path : Decision (misses_slash path).
Proof.
  unfold misses_slash. apply and_dec; [|apply _]. destruct (lookup_exact path); [by right|by left].
Defined.
(** [func (mux *ServeMux) findHandler(r *Request)] *)
Definition findHandler (Method path : string) : routed E :=
  let p := if decide (Method = "CONNECT") then path else cleanPath path in
  if decide (misses_slash p) then Redirected (cleanPath path +:+ "/") else
  if decide (Method ≠ "CONNECT" ∧ p ≠ path) then Redirected p else
  match lookup_exact p with
  | Some h => Matched h
  | None => match lookup_subtree p with Some h => Matched h | None => NotFound end
  end.
(** [func (mux *ServeMux) ServeHTTP(w ResponseWriter, r *Request)] *)
Definition ServeHTTP (RequestURI Method path : string) : routed E :=
  if decide (RequestURI = "*") then BadRequest else findHandler Method path.
End mux.

Example clean_run :
  cleanPath "" = "/" ∧ cleanPath "a//b/./c/../d/" = "/a/b/d/" ∧ cleanPath "/../.." = "/" ∧
  cleanPath "/a/.." = "/" ∧ cleanPath "/.../a" = "/.../a".
Proof. by vm_compute. Qed.

(** ** Lemmas *)
(** An element that cleaning keeps. *)
Definition kept (s : list ascii) : Prop := s ≠ [] ∧ s ≠ chars "." ∧ s ≠ chars ".." ∧ slash ∉ s.
Lemma split_no_slash l : Forall (λ s, slash ∉ s) (split l).
Proof.
  induction l as [|c l IH]; simpl.
  - apply Forall_singleton. apply not_elem_of_nil.
  - case_decide; [by constructor; [apply not_elem_of_nil|]|].
    destruct (split l) as [|s r]; [by repeat constructor; intros [?|?%elem_of_nil]%elem_of_cons|].
    apply Forall_cons in IH as [Hs Hr]. constructor; [|done]. by intros [?|?]%elem_of_cons.
Qed.
Lemma push_kept ks s : Forall kept ks → slash ∉ s → Forall kept (push ks s).
Proof.
  intros Hk Hs. unfold push. repeat case_decide; [done| |].
  - destruct Hk; [constructor|done].
  - constructor; [|done]. unfold kept. tauto.
Qed.
Lemma elements_kept l : Forall kept (elements l).
Proof.
  unfold elements. apply Forall_rev.
  assert (∀ ks, Forall kept ks → Forall kept (fold_left push (split l) ks)) as H; [|by apply H].
  pose proof (split_no_slash l) as Hs. induction Hs as [|s r Hs _ IH]; intros ks Hk; [done|].
  apply IH. by apply push_kept.
Qed.
Lemma split_app s l : slash ∉ s → split (s ++ slash :: l) = s :: split l.
Proof.
  induction s as [|c s IH]; intros Hs; [done|]. apply not_elem_of_cons in Hs as [Hc Hs].
  simpl. rewrite decide_False by done. by rewrite IH.
Qed.
Lemma split_single s : slash ∉ s → split s = [s].
Proof.
  induction s as [|c s IH]; intros Hs; [done|]. apply not_elem_of_cons in Hs as [Hc Hs].
  simpl. rewrite decide_False by done. by rewrite IH.
Qed.
Lemma join_app es es' : join (es ++ es') = join es ++ join es'.
Proof. apply flat_map_app. Qed.
Lemma split_join es l : Forall kept es → split (join es ++ slash :: l) = [] :: es ++ split l.
Proof.
  induction 1 as [|s es (_ & _ & _ & Hs) _ IH]; [done|]. simpl. f_equal. rewrite <- app_assoc.
  assert (∃ x, join es ++ slash :: l = slash :: x) as [x E] by (destruct es; eexists; reflexivity).
  rewrite E in IH |- *. rewrite split_app by done. simpl in IH. congruence.
Qed.
Lemma push_keep ks s : kept s → push ks s = s :: ks.
Proof. intros (H1 & H2 & H3 & _). unfold push. by rewrite !decide_False by tauto. Qed.
Lemma push_empty ks : push ks [] = ks.
Proof. done. Qed.
Lemma push_all es ks : Forall kept es → fold_left push es ks = rev es ++ ks.
Proof.
  intros Hk. revert ks. induction Hk as [|s es Hs _ IH]; intros ks; [done|].
  cbn [fold_left]. rewrite IH, push_keep by done. simpl. by rewrite <- app_assoc.
Qed.
Lemma elements_slash es : Forall kept es → elements (join es ++ [slash]) = es.
Proof.
  intros Hk. unfold elements. rewrite split_join by done. cbn [fold_left].
  rewrite push_empty, fold_left_app, (push_all es) by done. cbn [split fold_left].
  by rewrite push_empty, app_nil_r, rev_involutive.
Qed.
Lemma elements_join es : Forall kept es → elements (join es) = es.
Proof.
  intros Hk. destruct es as [|e es _] using rev_ind; [by vm_compute|].
  pose proof Hk as [Hes [(_ & _ & _ & He) _]%Forall_cons]%Forall_app.
  rewrite join_app. simpl. rewrite app_nil_r. unfold elements. rewrite split_join, split_single by done.
  cbn [fold_left]. by rewrite push_empty, push_all, app_nil_r, rev_involutive.
Qed.
Lemma last_join es : Forall kept es → ¬ ends_in_slash (join es).
Proof.
  intros Hk. unfold ends_in_slash. destruct es as [|e es _] using rev_ind; [done|].
  apply Forall_app in Hk as [_ [(Hn & _ & _ & He) _]%Forall_cons].
  destruct e as [|c e _] using rev_ind; [done|]. rewrite join_app. simpl. rewrite app_nil_r.
  rewrite app_comm_cons, app_assoc, last_snoc. intros [= ->]. apply He, elem_of_app. right. by left.
Qed.

(** A clean path: the root, or elements with or without a final slash. *)
Definition clean (l : list ascii) : Prop :=
  l = [slash] ∨ ∃ es, es ≠ [] ∧ Forall kept es ∧ (l = join es ∨ l = join es ++ [slash]).
Lemma clean_path_clean l : clean (clean_path l).
Proof.
  unfold clean_path. case_decide; [by left|]. set (l' := if decide _ then l else _).
  pose proof (elements_kept l') as Hk. unfold Clean. destruct (elements l') as [|e es].
  - rewrite decide_False by tauto. by left.
  - right. exists (e :: es). split; [done|]. split; [done|]. case_decide; [by right|by left].
Qed.
Lemma clean_path_id l : clean l → clean_path l = l.
Proof.
  intros [-> | (es & Hne & Hk & Hl)]; [by vm_compute|]. unfold clean_path.
  assert (head l = Some slash) as Hh by (destruct Hl as [-> | ->]; by destruct es).
  rewrite decide_False by (by intros ->). destruct (decide (head l = Some slash)) as [_|]; [|done].
  cbv zeta. unfold Clean.
  assert (elements l = es) as -> by (destruct Hl as [-> | ->]; [by apply elements_join|by apply elements_slash]).
  assert (join es ≠ [slash]) as Hj.
  { intros E. by apply (last_join es Hk); rewrite E. }
  destruct es as [|e es]; [done|].
  destruct Hl as [-> | ->].
  - rewrite decide_False; [done|]. intros [Hs _]. by apply (last_join (e :: es)).
  - rewrite decide_True; [done|]. split; [|done]. apply last_snoc.
Qed.
Lemma clean_slash l : clean l → ¬ ends_in_slash l → clean (l ++ [slash]).
Proof.
  intros [-> | (es & Hne & Hk & [-> | ->])] Hs; [by destruct Hs| |].
  - right. exists es. auto.
  - destruct Hs. apply last_snoc.
Qed.
Lemma chars_of l : chars (String.string_of_list_ascii l) = l.
Proof. apply String.list_ascii_of_string_of_list_ascii. Qed.
Lemma cleanPath_id p : clean (chars p) → cleanPath p = p.
Proof. intros Hp. apply (inj chars). unfold cleanPath. by rewrite chars_of, clean_path_id. Qed.
Lemma cleanPath_clean p : clean (chars (cleanPath p)).
Proof. unfold cleanPath. rewrite chars_of. apply clean_path_clean. Qed.

Lemma clean_unslash l : l ≠ [] → clean (l ++ [slash]) → clean l.
Proof.
  intros Hne [E | (es & Hes & Hk & [E | E])].
  - by destruct l as [|? [|]].
  - destruct (last_join es Hk). rewrite <- E. apply last_snoc.
  - apply app_inj_2 in E as [-> _]; [|done]. right. exists es. auto.
Qed.

(** Where a request is redirected, it is not redirected again. *)
Definition proper_pattern (p : string) : Prop := p ≠ "/" ∧ cleanPath p = p.
#[export] Instance proper_pattern_dec p : Decision (proper_pattern p).
Proof. unfold proper_pattern. apply _. Defined.
Lemma findHandler_settles {E} (exact subtrees : list (string * E)) m path loc m' loc' :
  Forall proper_pattern subtrees.*1 →
  findHandler exact subtrees m path = Redirected loc → findHandler exact subtrees m' loc ≠ Redirected loc'.
Proof.
  intros Hpat.
  assert (∀ p, clean (chars p) → ¬ misses_slash exact subtrees p →
          findHandler exact subtrees m' p ≠ Redirected loc') as Hstay.
  { intros p Hp Hm. unfold findHandler. rewrite (cleanPath_id p Hp).
    replace (if decide (m' = "CONNECT") then p else p) with p by (by case_decide).
    rewrite decide_False by done. rewrite decide_False by tauto. by repeat case_match. }
  unfold findHandler at 1. set (p := if decide _ then path else _).
  case_decide as Hm; [|case_decide as Hc; [|by repeat case_match]].
  - intros [= <-]. destruct Hm as (_ & Hs & Hin).
    rewrite Forall_forall in Hpat. destruct (Hpat _ Hin) as [Hroot Hid].
    assert (clean (chars p)) as Hp.
    { apply clean_unslash; [by intros Ep; destruct p; [destruct Hroot|]|].
      change [slash] with (chars "/"); rewrite <- chars_app, <- Hid. apply cleanPath_clean. }
    assert (cleanPath path = p) as ->.
    { unfold p in *. case_decide; [by apply cleanPath_id|done]. }
    apply Hstay; [rewrite chars_app; by apply clean_slash|]. intros (_ & He & _). apply He. rewrite chars_app. apply last_snoc.
  - intros [= <-]. apply Hstay; [|done]. unfold p. rewrite decide_False by tauto. apply cleanPath_clean.
Qed.
Lemma ServeHTTP_settles {E} (exact subtrees : list (string * E)) u m path loc u' m' loc' :
  Forall proper_pattern subtrees.*1 →
  ServeHTTP exact subtrees u m path = Redirected loc → ServeHTTP exact subtrees u' m' loc ≠ Redirected loc'.
Proof.
  unfold ServeHTTP. intros Hp. repeat case_decide; try done. by apply findHandler_settles.
Qed.
