(* ===== verification/GoMap.v ===== *)
(** * Go maps

    A Go map is a [gmap]. Its iteration order is unspecified: a loop
    [for k := range m] is given the order as a list of keys, any permutation of
    the keys of the map. *)
From S2P Require Import Prelude Machine GoSort.

Section map_keys.
Context `{Countable K} {V : Type}.
Implicit Types (m : gmap K V) (it : list K).

(** The keys in one fixed order. *)
Definition map_keys m : list K := (map_to_list m).*1.
(** [it] is an order in which [range m] may deliver the keys. *)
Definition ranges it m : Prop := it ≡ₚ map_keys m.

Lemma ranges_refl m : ranges (map_keys m) m.
Proof. unfold ranges. reflexivity. Qed.
Lemma map_keys_NoDup m : NoDup (map_keys m).
Proof. apply NoDup_fst_map_to_list. Qed.
Lemma ranges_NoDup it m : ranges it m → NoDup it.
Proof. unfold ranges. intros E. rewrite E. apply map_keys_NoDup. Qed.
Lemma elem_of_map_keys m k : k ∈ map_keys m ↔ is_Some (m !! k).
Proof.
  unfold map_keys. rewrite list_elem_of_fmap. split.
  - intros ([i x] & -> & Hx%elem_of_map_to_list). by eexists.
  - intros [x Hx]. exists (k, x). by rewrite elem_of_map_to_list.
Qed.
Lemma elem_of_ranges it m k : ranges it m → k ∈ it ↔ is_Some (m !! k).
Proof. unfold ranges. intros E. rewrite E. apply elem_of_map_keys. Qed.
Lemma length_ranges it m : ranges it m → length it = size m.
Proof.
  unfold ranges. intros E. rewrite E. unfold map_keys.
  by rewrite length_fmap, length_map_to_list.
Qed.

Lemma ranges_iff it m :
  ranges it m ↔ NoDup it ∧ Forall (.∈ map_keys m) it ∧ Forall (.∈ it) (map_keys m).
Proof.
  unfold ranges. rewrite !list.Forall_forall. split.
  - intros E. rewrite E. split_and!; [apply map_keys_NoDup|intros x; by rewrite E|intros x; by rewrite E].
  - intros (Hn & H1 & H2). apply NoDup_Permutation; [done|apply map_keys_NoDup|]. intros x. split; auto.
Qed.
#[export] Instance ranges_dec it m : Decision (ranges it m).
Proof. refine (cast_if (decide (NoDup it ∧ Forall (.∈ map_keys m) it ∧ Forall (.∈ it) (map_keys m))));
  by rewrite ranges_iff. Defined.

(** [for k := range m { if P(k) { delete(m, k) } }] keeps what [P] refuses,
    whatever the order. *)
Definition delete_if (P : K → V → Prop) `{∀ k v, Decision (P k v)} it m : gmap K V :=
  fold_left (λ m' k, match m' !! k with
                     | Some v => if decide (P k v) then delete k m' else m'
                     | None => m'
                     end) it m.
Lemma delete_if_lookup (P : K → V → Prop) `{∀ k v, Decision (P k v)} it m k :
  (∀ i, is_Some (m !! i) → i ∈ it) →
  delete_if P it m !! k = match m !! k with
                          | Some v => if decide (P k v) then None else Some v
                          | None => None
                          end.
Proof.
  unfold delete_if. intros Hit.
  enough (∀ m', (∀ i, is_Some (m !! i) → i ∈ it ∨
                  m' !! i = match m !! i with
                            | Some v => if decide (P i v) then None else Some v
                            | None => None end) →
                (∀ i, m' !! i = m !! i ∨ m' !! i = match m !! i with
                            | Some v => if decide (P i v) then None else Some v
                            | None => None end) →
    fold_left (λ m' k, match m' !! k with
                     | Some v => if decide (P k v) then delete k m' else m'
                     | None => m' end) it m' !! k =
    match m !! k with
    | Some v => if decide (P k v) then None else Some v
    | None => None end) as HH.
  { apply HH; auto. }
  clear Hit. induction it as [|j it IH]; intros m' H1 H2; simpl.
  - destruct (m !! k) as [v|] eqn:E.
    + destruct (H1 k) as [Hn|Hn]; [by rewrite E|by apply elem_of_nil in Hn|]. by rewrite Hn, E.
    + destruct (H2 k) as [Hn|Hn]; rewrite Hn, E; done.
  - assert (∀ i, (match m' !! j with
                     | Some v => if decide (P j v) then delete j m' else m'
                     | None => m' end) !! i =
                 if decide (i = j) then
                   match m !! j with
                   | Some v => if decide (P j v) then None else Some v
                   | None => None end
                 else m' !! i) as Hstep.
    { intros i. case_decide as Hij; [subst i|].
      - destruct (H2 j) as [E|E]; destruct (m !! j) as [v|] eqn:Ej; rewrite E;
          repeat case_decide; rewrite ?lookup_delete_eq, ?E; try done;
          by rewrite ?E; repeat case_decide.
      - destruct (m' !! j); [case_decide|]; by rewrite ?lookup_delete_ne by done. }
    apply IH; intros i; rewrite Hstep; case_decide as Hij; try subst i; auto.
    intros Hi. destruct (H1 i Hi) as [Hj|Hj]; [|by right].
    apply elem_of_cons in Hj as [->|Hj]; [done|by left].
Qed.
Lemma delete_if_subseteq (P : K → V → Prop) `{∀ k v, Decision (P k v)} it m :
  delete_if P it m ⊆ m.
Proof.
  unfold delete_if. revert m. induction it as [|k it IH]; [done|]. intros m. simpl.
  destruct (m !! k); [case_decide|]; try apply IH. etrans; [apply IH|]. apply delete_subseteq.
Qed.
End map_keys.

Lemma map_size_insert_le `{Countable K} {V} (m : gmap K V) k v :
  (size (<[k := v]> m) ≤ S (size m))%nat.
Proof. rewrite map_size_insert. destruct (m !! k); simpl; lia. Qed.

(** The values met by [for _, v := range m]. *)
Lemma omap_lookup_ranges `{Countable K} {V} (m : gmap K V) it :
  ranges it m → omap (m !!.) it ≡ₚ (map_to_list m).*2.
Proof.
  unfold ranges, map_keys. intros E. rewrite E. clear E.
  assert (∀ l : list (K * V), (∀ k v, (k, v) ∈ l → m !! k = Some v) →
    omap (m !!.) l.*1 = l.*2) as HH; [|rewrite HH; [done|]].
  - induction l as [|[k v] l IH]; intros Hl; csimpl; [done|].
    rewrite (Hl k v) by (by left). f_equal. apply IH. intros; apply Hl. by right.
  - intros k v. apply elem_of_map_to_list.
Qed.

(** [m[k]]: the zero value of the element type for an absent key. *)
Definition sget `{Countable K} (m : gmap K string) (k : K) : string := default "" (m !! k).

Lemma sort_Strings_ranges {V} it (m : gmap string V) :
  ranges it m → sort_Strings it = sort_Strings (map_keys m).
Proof. unfold ranges. by intros ->. Qed.

(** ** Printing a map

    The contents written to a hash: for each key its bytes, a separator, the
    value, a second separator. *)
Definition print_entries (c1 c2 : ascii) (keys : list string) (d : gmap string string) : string :=
  foldr (λ k s, (k +:+ (String c1 (sget d k +:+ (String c2 "")))) +:+ s) "" keys.

(** A key without the first separator and a value without the second. *)
Definition clean_entry (c1 c2 : ascii) (k v : string) : Prop := (c1 ∉ chars k) ∧ (c2 ∉ chars v).
#[export] Instance clean_entry_dec c1 c2 k v : Decision (clean_entry c1 c2 k v).
Proof. unfold clean_entry. apply _. Defined.

(** The value at each key, in key order, determines the map. *)
Lemma sorted_values_inj (d1 d2 : gmap string string) :
  sort_Strings (map_keys d1) = sort_Strings (map_keys d2) →
  (∀ k, k ∈ sort_Strings (map_keys d1) → sget d1 k = sget d2 k) → d1 = d2.
Proof.
  intros Ek Ev. apply map_eq. intros k.
  assert (∀ d : gmap string string, k ∈ sort_Strings (map_keys d) ↔ is_Some (d !! k)) as Hin.
  { intros d. rewrite sort_Strings_perm. apply elem_of_map_keys. }
  destruct (decide (k ∈ sort_Strings (map_keys d1))) as [H1|H1].
  - pose proof (Ev k H1) as E. unfold sget in E. pose proof H1 as H2. rewrite Ek in H2.
    apply Hin in H1 as [v1 Hv1], H2 as [v2 Hv2]. rewrite Hv1, Hv2 in *. by simplify_eq/=.
  - pose proof H1 as H2. rewrite Ek in H2. rewrite Hin, <- eq_None_not_Some in H1, H2. congruence.
Qed.

Section print.
Context (c1 c2 : ascii).

Lemma print_keys_inj keys1 keys2 d1 d2 :
  (∀ k, k ∈ keys1 → clean_entry c1 c2 k (sget d1 k)) →
  (∀ k, k ∈ keys2 → clean_entry c1 c2 k (sget d2 k)) →
  print_entries c1 c2 keys1 d1 = print_entries c1 c2 keys2 d2 →
  keys1 = keys2 ∧ ∀ k, k ∈ keys1 → sget d1 k = sget d2 k.
Proof.
  revert keys2. induction keys1 as [|k1 l1 IH]; intros [|k2 l2] H1 H2 E; simpl in E.
  - split; [done|]. intros k Hk. by apply elem_of_nil in Hk.
  - by destruct k2.
  - by destruct k1.
  - rewrite !string_app_assoc in E. simpl in E.
    destruct (H1 k1 ltac:(left)) as [Hk1 Hv1], (H2 k2 ltac:(left)) as [Hk2 Hv2].
    apply string_split_sep in E as [<- E]; [|done..].
    rewrite !string_app_assoc in E. simpl in E.
    apply string_split_sep in E as [Ev E]; [|done..].
    destruct (IH l2) as [<- Hl]; [by intros; apply H1; right|by intros; apply H2; right|done|].
    split; [done|]. intros k [->|Hk]%elem_of_cons; auto.
Qed.

Lemma clean_sget d k :
  map_Forall (clean_entry c1 c2) d → k ∈ sort_Strings (map_keys d) → clean_entry c1 c2 k (sget d k).
Proof.
  intros Hd. rewrite sort_Strings_perm, elem_of_map_keys. intros [v Hv].
  unfold sget. rewrite Hv. by apply (map_Forall_lookup_1 _ _ _ _ Hd Hv).
Qed.

(** Printing clean maps in key order is injective. *)
Lemma print_entries_inj d1 d2 :
  map_Forall (clean_entry c1 c2) d1 → map_Forall (clean_entry c1 c2) d2 →
  print_entries c1 c2 (sort_Strings (map_keys d1)) d1 =
  print_entries c1 c2 (sort_Strings (map_keys d2)) d2 → d1 = d2.
Proof.
  intros C1 C2 Ei. apply print_keys_inj in Ei as [Ek Ev]; [|intros; by apply clean_sget..].
  by apply sorted_values_inj.
Qed.
End print.
