(* ===== verification/Sha256.v ===== *)
(** * SHA-256

    An executable SHA-256 (FIPS 180-4) on byte lists, the function
    [crypto/sha256] computes. Words are 32-bit integers in [Z]. *)
From S2P Require Import Prelude Machine GoString.

Module SHA256.
Definition rotr (x n : Z) : Z :=
  Z.lor (Z.shiftr x n) (Z.land (Z.shiftl x (32 - n)) 4294967295).
Definition add32 (x y : Z) : Z := Z.land (x + y) 4294967295.

Definition Ch (x y z : Z) : Z := Z.lxor (Z.land x y) (Z.land (Z.lxor x 4294967295) z).
Definition Maj (x y z : Z) : Z := Z.lxor (Z.lxor (Z.land x y) (Z.land x z)) (Z.land y z).
Definition Sigma0 (x : Z) : Z := Z.lxor (Z.lxor (rotr x 2) (rotr x 13)) (rotr x 22).
Definition Sigma1 (x : Z) : Z := Z.lxor (Z.lxor (rotr x 6) (rotr x 11)) (rotr x 25).
Definition sigma0 (x : Z) : Z := Z.lxor (Z.lxor (rotr x 7) (rotr x 18)) (Z.shiftr x 3).
Definition sigma1 (x : Z) : Z := Z.lxor (Z.lxor (rotr x 17) (rotr x 19)) (Z.shiftr x 10).

Definition K : list Z :=
  [1116352408; 1899447441; 3049323471; 3921009573; 961987163; 1508970993; 2453635748; 2870763221;
   3624381080; 310598401; 607225278; 1426881987; 1925078388; 2162078206; 2614888103; 3248222580;
   3835390401; 4022224774; 264347078; 604807628; 770255983; 1249150122; 1555081692; 1996064986;
   2554220882; 2821834349; 2952996808; 3210313671; 3336571891; 3584528711; 113926993; 338241895;
   666307205; 773529912; 1294757372; 1396182291; 1695183700; 1986661051; 2177026350; 2456956037;
   2730485921; 2820302411; 3259730800; 3345764771; 3516065817; 3600352804; 4094571909; 275423344;
   430227734; 506948616; 659060556; 883997877; 958139571; 1322822218; 1537002063; 1747873779;
   1955562222; 2024104815; 2227730452; 2361852424; 2428436474; 2756734187; 3204031479; 3329325298].

Record state := mkState { sa : Z; sb : Z; sc : Z; sd : Z; se : Z; sf : Z; sg : Z; sh : Z }.

Definition init : state :=
  mkState 1779033703 3144134277 1013904242 2773480762 1359893119 2600822924 528734635 1541459225.

(** The message schedule, newest word first. *)
Definition extend (w : list Z) : list Z :=
  add32 (add32 (sigma1 (nth 1 w 0)) (nth 6 w 0)) (add32 (sigma0 (nth 14 w 0)) (nth 15 w 0)) :: w.
Definition schedule (block : list Z) : list Z := rev (Nat.iter 48 extend (rev block)).

Definition round (s : state) (kw : Z * Z) : state :=
  let t1 := add32 (add32 (add32 (sh s) (Sigma1 (se s))) (Ch (se s) (sf s) (sg s)))
                  (add32 kw.1 kw.2) in
  let t2 := add32 (Sigma0 (sa s)) (Maj (sa s) (sb s) (sc s)) in
  mkState (add32 t1 t2) (sa s) (sb s) (sc s) (add32 (sd s) t1) (se s) (sf s) (sg s).

Definition compress (s : state) (block : list Z) : state :=
  let r := fold_left round (zip K (schedule block)) s in
  mkState (add32 (sa s) (sa r)) (add32 (sb s) (sb r)) (add32 (sc s) (sc r)) (add32 (sd s) (sd r))
          (add32 (se s) (se r)) (add32 (sf s) (sf r)) (add32 (sg s) (sg r)) (add32 (sh s) (sh r)).

Definition word_bytes (w : Z) : list Z :=
  [Z.land (Z.shiftr w 24) 255; Z.land (Z.shiftr w 16) 255; Z.land (Z.shiftr w 8) 255; Z.land w 255].

Fixpoint words (b : list Z) : list Z :=
  match b with
  | b0 :: b1 :: b2 :: b3 :: b =>
      Z.lor (Z.shiftl b0 24) (Z.lor (Z.shiftl b1 16) (Z.lor (Z.shiftl b2 8) b3)) :: words b
  | _ => []
  end.

Definition pad (m : list Z) : list Z :=
  let l := len m in
  let bits := l * 8 in
  m ++ [128] ++ replicate (Z.to_nat ((55 - l) mod 64)) 0
    ++ word_bytes (Z.land (Z.shiftr bits 32) 4294967295) ++ word_bytes (Z.land bits 4294967295).

Fixpoint blocks (n : nat) (w : list Z) (s : state) : state :=
  match n with
  | O => s
  | S n => blocks n (drop 16 w) (compress s (take 16 w))
  end.

(** [sha256.Sum256]: 32 bytes. *)
Definition Sum256 (m : list Z) : list Z :=
  let w := words (pad m) in
  let s := blocks (Nat.div (length w) 16) w init in
  word_bytes (sa s) ++ word_bytes (sb s) ++ word_bytes (sc s) ++ word_bytes (sd s)
    ++ word_bytes (se s) ++ word_bytes (sf s) ++ word_bytes (sg s) ++ word_bytes (sh s).

End SHA256.

(** [hex.EncodeToString(sha256.Sum256([]byte(s)))] *)
Definition sha256_hex (s : string) : string := hex (SHA256.Sum256 (bytes s)).

(** Test vectors of FIPS 180-4. *)
Example sha256_abc :
  sha256_hex "abc" = "ba7816bf8f01cfea414140de5dae2223b00361a396177a9cb410ff61f20015ad".
Proof. vm_compute. reflexivity. Qed.

Lemma word_bytes_ok w :
  length (SHA256.word_bytes w) = 4%nat ∧ Forall is_byte (SHA256.word_bytes w).
Proof.
  split; [done|]. unfold SHA256.word_bytes, is_byte. change 255 with (Z.ones 8).
  rewrite !Z.land_ones by lia. repeat constructor; mlia.
Qed.

Lemma Sum256_ok m : length (SHA256.Sum256 m) = 32%nat ∧ Forall is_byte (SHA256.Sum256 m).
Proof.
  unfold SHA256.Sum256. cbv zeta. split; [by rewrite !length_app|].
  rewrite !Forall_app. repeat split; apply word_bytes_ok.
Qed.

(** A digest is 64 lower-case hexadecimal digits. *)
Lemma sha256_hex_length s : String.length (sha256_hex s) = 64%nat.
Proof. unfold sha256_hex. rewrite length_hex, (proj1 (Sum256_ok _)). done. Qed.
Lemma sha256_hex_digits s c : c ∈ chars (sha256_hex s) → c ∈ hexdigits.
Proof. apply hex_hexdigits, Sum256_ok. Qed.

#[global] Opaque sha256_hex.

(** ** The hash interface

    What the components rely on: a function to strings of 64 lower-case
    hexadecimal digits. Nothing about collisions is assumed. The model takes
    the hash of the instance in force; the only instance is SHA-256. *)
Class Hasher := {
  hex_digest : string → string;
  digest_length s : String.length (hex_digest s) = 64%nat;
  digest_hexdigits s c : c ∈ chars (hex_digest s) → c ∈ hexdigits;
}.
#[export] Instance sha256_hasher : Hasher := {|
  hex_digest := sha256_hex;
  digest_length := sha256_hex_length;
  digest_hexdigits := sha256_hex_digits;
|}.

(** A string that is a digest. *)
Definition is_digest (s : string) : Prop :=
  String.length s = 64%nat ∧ ∀ c, c ∈ chars s → c ∈ hexdigits.
#[export] Instance is_digest_dec s : Decision (is_digest s).
Proof.
  refine (cast_if (decide (String.length s = 64%nat ∧ Forall (.∈ hexdigits) (chars s))));
    unfold is_digest; by rewrite <- list.Forall_forall.
Defined.

Section digest.
Context `{HH : Hasher}.

Lemma digest_is_digest s : is_digest (hex_digest s).
Proof. split; [apply digest_length | apply digest_hexdigits]. Qed.
Lemma digest_no_char c s : c ∉ hexdigits → c ∉ chars (hex_digest s).
Proof. intros Hc Hin. by apply digest_hexdigits in Hin. Qed.
Lemma digest_nonempty s : hex_digest s ≠ "".
Proof. intros E. pose proof (digest_length s) as L. by rewrite E in L. Qed.
End digest.
