(* ===== verification/PairTree.v ===== *)
(** * Pairing a level of hashes

    The loop by which the node builds its trees: neighbours are combined two by
    two, an odd last entry with itself, until one value is left. The three
    loops of the program ([MerkleRoot], [BuildTree], [Proof]) are instances. *)
From S2P Require Import Prelude.

Section pad_even.
Context {A : Type}.
Implicit Types a : list A.

(** [if len(a)%2 == 1 { a = append(a, a[len(a)-1]) }] *)
Definition pad_even (a : list A) : list A :=
  if decide (len a `mod` 2 = 1) then
    match last a with Some x => a ++ [x] | None => a end
  else a.

Lemma pad_even_even a : Nat.Even (length (pad_even a)).
Proof.
  unfold pad_even. pose proof (Nat.div_mod_eq (length a) 2).
  pose proof (Nat.mod_upper_bound (length a) 2).
  case_decide as H1.
  - destruct a as [|x l _] using rev_ind; [done|]. rewrite last_snoc, length_app.
    exists (S (Nat.div (length (l ++ [x])) 2)). cbn [length]. lia.
  - exists (Nat.div (length a) 2). lia.
Qed.
Lemma pad_even_lookup a i : (i < length a)%nat → pad_even a !! i = a !! i.
Proof.
  intros Hi. unfold pad_even. case_decide; [|done]. destruct (last a); [|done].
  by rewrite lookup_app_l.
Qed.
Lemma length_pad_even a : (length a ≤ length (pad_even a))%nat.
Proof. unfold pad_even. case_decide; [|done]. destruct (last a); rewrite ?length_app; lia. Qed.
Lemma pad_even_Forall (P : A → Prop) a : Forall P a → Forall P (pad_even a).
Proof.
  intros HF. unfold pad_even. case_decide; [|done]. destruct (last a) as [x|] eqn:E; [|done].
  apply Forall_app. split; [done|]. constructor; [|done].
  rewrite list.Forall_forall in HF. apply HF. by apply last_Some_elem_of.
Qed.
End pad_even.

Section pair_level.
Context {A : Type} (f : A → A → A).

(** One pass over [i += 2]. *)
Fixpoint pair_level (a : list A) : list A :=
  match a with
  | x :: y :: r => f x y :: pair_level r
  | [x] => [f x x]
  | [] => []
  end.

(** [for len(a) > 1 { a = next }], with fuel. *)
Fixpoint pair_levels (fuel : nat) (a : list A) : list A :=
  match fuel with
  | O => a
  | S n => if decide (1 < len a) then pair_levels n (pair_level a) else a
  end.

Lemma length_pair_level a : length (pair_level a) = Nat.div (length a + 1) 2.
Proof.
  induction a as [|x|x y a IH] using list_pair_ind; [done..|]. simpl length. rewrite IH.
  replace (S (S (length a)) + 1)%nat with (length a + 1 + 1 * 2)%nat by lia.
  rewrite Nat.div_add by done. lia.
Qed.
Lemma pair_level_nonempty a : a ≠ [] → pair_level a ≠ [].
Proof. by destruct a as [|x [|y a]]. Qed.
Lemma pair_level_shrinks a :
  (1 < length a)%nat → (length (pair_level a) < length a)%nat.
Proof.
  intros H. rewrite length_pair_level. pose proof (Nat.div_mod_eq (length a + 1) 2). lia.
Qed.

(** Enough fuel: from a non-empty level exactly one value is left. *)
Lemma pair_levels_one fuel a :
  a ≠ [] → (length a ≤ S fuel)%nat → ∃ x, pair_levels fuel a = [x].
Proof.
  revert a. induction fuel as [|n IH]; intros a Ha Hl; simpl.
  - destruct a as [|x [|]]; simpl in *; [done|by eexists|lia].
  - case_decide as H1.
    + apply IH; [by apply pair_level_nonempty|].
      pose proof (pair_level_shrinks a). lia.
    + destruct a as [|x [|]]; simpl in *; [done|by eexists|lia].
Qed.

Lemma pair_levels_S n a :
  pair_levels (S n) a = if decide (1 < len a) then pair_levels n (pair_level a) else a.
Proof. done. Qed.
(** More fuel than needed changes nothing. *)
Lemma pair_levels_fuel n m a :
  a ≠ [] → (length a ≤ S n)%nat → (length a ≤ S m)%nat → pair_levels n a = pair_levels m a.
Proof.
  revert m a. induction n as [|n IH]; intros [|m] a Ha Hn Hm; simpl; [done|..].
  - case_decide; [lia|done].
  - case_decide; [lia|done].
  - case_decide; [|done]. pose proof (pair_level_shrinks a).
    apply IH; [by apply pair_level_nonempty|lia|lia].
Qed.

(** An odd level and the level padded with its last entry give the same next
    level. *)
Lemma pair_level_dup l x :
  Nat.Even (length l) → pair_level (l ++ [x; x]) = pair_level (l ++ [x]).
Proof.
  induction l as [|y|y z l IH] using list_pair_ind; intros [k Hk]; simpl in *; [done|lia|].
  f_equal. apply IH. exists (k - 1)%nat. lia.
Qed.
Lemma pair_level_pad a : pair_level (pad_even a) = pair_level a.
Proof.
  unfold pad_even. case_decide as H; [|done].
  destruct a as [|x l _] using rev_ind; [done|]. rewrite last_snoc, <- app_assoc.
  apply pair_level_dup. rewrite length_app in H. simpl in H.
  exists (Nat.div (length l) 2). pose proof (Nat.div_mod_eq (length l) 2).
  pose proof (Nat.mod_upper_bound (length l) 2). lia.
Qed.
(** In an even level the parent at [k] combines the entries [2k] and [2k+1]. *)
Lemma pair_level_lookup a k x y :
  a !! (2 * k)%nat = Some x → a !! (2 * k + 1)%nat = Some y →
  pair_level a !! k = Some (f x y).
Proof.
  revert k. induction a as [|u|u v a IH] using list_pair_ind; intros k Hx Hy.
  - by rewrite lookup_nil in Hx.
  - apply lookup_lt_Some in Hy. cbn [length] in Hy. lia.
  - destruct k as [|k]; [by simplify_eq/=|].
    replace (2 * S k)%nat with (S (S (2 * k))) in * by lia. by apply IH.
Qed.
End pair_level.

(** A map that carries the combination [f] to [g] carries levels to levels. *)
Section hom.
Context {A B : Type} (h : A → B) (f : A → A → A) (g : B → B → B).
Context (Hh : ∀ x y, h (f x y) = g (h x) (h y)).

Lemma pair_level_hom a : h <$> pair_level f a = pair_level g (h <$> a).
Proof.
  induction a as [|x|x y a IH] using list_pair_ind; csimpl; rewrite ?Hh; [done..|].
  by rewrite IH.
Qed.
Lemma pair_levels_hom fuel a : h <$> pair_levels f fuel a = pair_levels g fuel (h <$> a).
Proof.
  revert a. induction fuel as [|n IH]; intros a; simpl; [done|]. rewrite length_fmap.
  case_decide; [|done]. by rewrite IH, pair_level_hom.
Qed.
End hom.

(** A property of values kept by the combination holds of every entry of every
    level. *)
Lemma pair_level_Forall {A} (P : A → Prop) (f : A → A → A) a :
  (∀ x y, P x → P y → P (f x y)) → Forall P a → Forall P (pair_level f a).
Proof.
  intros Hf. induction a as [|x|x y a IH] using list_pair_ind; simpl; intros H; [done| |].
  - apply Forall_cons in H as [Hx _]. repeat constructor. auto.
  - apply Forall_cons in H as [Hx [Hy H]%Forall_cons]. constructor; auto.
Qed.
Lemma pair_levels_Forall {A} (P : A → Prop) (f : A → A → A) n a :
  (∀ x y, P x → P y → P (f x y)) → Forall P a → Forall P (pair_levels f n a).
Proof.
  intros Hf. revert a. induction n as [|n IH]; simpl; intros a H; [done|].
  case_decide; [|done]. by apply IH, pair_level_Forall.
Qed.
