(* ===== verification/Collision.v ===== *)
(** * Collisions and binding of hash trees

    What a hash commits to, stated without any assumption on the hash: equal
    digests have equal inputs, or the two computations exhibit a collision
    among the strings they really hashed. *)
From S2P Require Import Prelude GoString Sha256 PairTree.

Section collision.
Context `{HH : Hasher}.
Implicit Types (us vs l k : list string).

(** A string of [us] and a different string of [vs] with one digest. *)
Definition Collision us vs : Prop := ∃ u v, u ∈ us ∧ v ∈ vs ∧ u ≠ v ∧ hex_digest u = hex_digest v.

Lemma Collision_mono us vs us' vs' :
  us ⊆ us' → vs ⊆ vs' → Collision us vs → Collision us' vs'.
Proof. intros ?? (u & v & ? & ? & ?). exists u, v. split_and!; auto; tauto. Qed.

Lemma digest_eq u v us vs :
  u ∈ us → v ∈ vs → hex_digest u = hex_digest v → u = v ∨ Collision us vs.
Proof. intros. destruct (decide (u = v)); [by left|right]. by exists u, v. Qed.

Lemma digests_eq us vs :
  length us = length vs → hex_digest <$> us = hex_digest <$> vs → us = vs ∨ Collision us vs.
Proof.
  revert vs. induction us as [|u us IH]; intros [|v vs] L E; simplify_eq/=; [by left|].
  destruct (IH vs) as [->|Hc]; [done..| |].
  - destruct (digest_eq u v (u :: vs) (v :: vs)) as [->|Hc]; [by left|by left|done|by left|by right].
  - right. eapply Collision_mono; [..|exact Hc]; by apply list_subseteq_skip_cons || set_solver.
Qed.

(** The combination of two digests, and the strings hashed by a whole tree. *)
Definition hcat (x y : string) : string := hex_digest (x +:+ y).
Fixpoint tree_inputs (fuel : nat) (a : list string) : list string :=
  match fuel with
  | O => []
  | S n => if decide (1 < len a)
           then pair_level String.app a ++ tree_inputs n (pair_level hcat a) else []
  end.

Lemma pair_level_hcat a : pair_level hcat a = hex_digest <$> pair_level String.app a.
Proof.
  induction a as [|x|x y a IH] using list_pair_ind; csimpl; [done..|]. by rewrite IH.
Qed.
Lemma pair_level_hcat_digests a : Forall (λ s, String.length s = 64%nat) (pair_level hcat a).
Proof. rewrite pair_level_hcat. apply Forall_fmap, list.Forall_forall. intros; apply digest_length. Qed.

Lemma pair_level_app_inj l k :
  length l = length k → Forall (λ s, String.length s = 64%nat) l →
  Forall (λ s, String.length s = 64%nat) k →
  pair_level String.app l = pair_level String.app k → l = k.
Proof.
  revert k. induction l as [|x|x y l IH] using list_pair_ind; intros [|x' [|y' k]] L F1 F2 E;
    simplify_eq/=; try done; inv F1; inv F2.
  all: repeat match goal with F : Forall _ (_ :: _) |- _ => inv F end.
  all: match goal with E : _ +:+ _ = _ |- _ =>
         apply string_app_eq_len in E as [-> ?]; [|congruence] end.
  all: subst; rewrite ?(IH k); done.
Qed.

(** Two trees over as many leaves with one root have the same leaves, or the
    two computations collide. *)
Lemma tree_binding n l k :
  length l = length k → Forall (λ s, String.length s = 64%nat) l →
  Forall (λ s, String.length s = 64%nat) k →
  pair_levels hcat n l = pair_levels hcat n k →
  l = k ∨ Collision (tree_inputs n l) (tree_inputs n k).
Proof.
  revert l k. induction n as [|n IH]; intros l k L Fl Fk E; simpl in *; [by left|].
  rewrite <- L in *. case_decide as H1; [|by left].
  assert (length (pair_level hcat l) = length (pair_level hcat k)) as L'.
  { by rewrite !length_pair_level, L. }
  destruct (IH (pair_level hcat l) (pair_level hcat k)) as [E'|Hc];
    auto using pair_level_hcat_digests.
  - rewrite !pair_level_hcat in E'. apply digests_eq in E' as [E'|Hc].
    + left. by apply pair_level_app_inj.
    + right. eapply Collision_mono; [..|exact Hc]; set_solver.
    + by rewrite !length_pair_level, L.
  - right. eapply Collision_mono; [..|exact Hc]; set_solver.
Qed.
End collision.
