(* ===== verification/Merkle.v ===== *)
(** * proof/merkle.go: Merkle trees over the state and inclusion proofs

    [BuildTree], [Root], [Proof] and [VerifyProof]. A [*Node] is the type
    [Node] with [Nil] for the nil pointer. A map of items is a [gmap]; the
    order in which [range items] delivers the keys is the argument [it] of the
    definitions that iterate, and the plain names fix one order. [Leaves], which
    compares pointers, and [Explain] are in [MerkleHeap]. *)
From S2P Require Import Prelude Machine GoString GoSort GoMap Sha256 PairTree Collision.

(** ** Model *)

Inductive Node :=
  | Nil
  | Mk (Hash : string) (Left Right : Node) (Key Value : string).
(** [n.Hash]; never read from a nil pointer. *)
Definition Hash (n : Node) : string := match n with Nil => "" | Mk h _ _ _ _ => h end.

Module Step.
Record t := mk { Hash : string; Left : bool }.
End Step.

Module MerkleProof.
Record t := mk { Key : string; Value : string; Root : string; Steps : list Step.t; Version : Z }.
End MerkleProof.

Section merkle.
Context `{HH : Hasher}.

(** [func hash(s string) string] *)
Definition hash (s : string) : string := hex_digest s.

(** [k + "=" + items[k]] *)
Definition leaf_input (k v : string) : string := k +:+ "=" +:+ v.

Definition leaf_node (items : gmap string string) (k : string) : Node :=
  Mk (hash (leaf_input k (sget items k))) Nil Nil k (sget items k).
Definition join (l r : Node) : Node := Mk (hash (Hash l +:+ Hash r)) l r "" "".

(** [func BuildTree(items map[string]string) *Node] *)
Definition BuildTree_from (it : list string) (items : gmap string string) : Node :=
  let nodes := leaf_node items <$> sort_Strings it in
  match nodes with
  | [] => Mk (hash "") Nil Nil "" ""
  | _ => nth 0 (pair_levels join (length nodes) nodes) Nil
  end.
Definition BuildTree (items : gmap string string) : Node := BuildTree_from (map_keys items) items.
(** [func Root(items map[string]string) string] *)
Definition Root (items : gmap string string) : string := Hash (BuildTree items).

(** The loop of [Proof]: the remaining hashes and the steps. Reading past the
    level panics. *)
Fixpoint proof_loop (fuel : nat) (hashes : list string) (index : nat) (steps : list Step.t)
  : outcome (list string * list Step.t) :=
  match fuel with
  | O => Ret (hashes, steps)
  | S n =>
      if decide (1 < len hashes) then
        let hashes := pad_even hashes in
        let sibling := Nat.lxor index 1 in
        match hashes !! sibling with
        | None => Panic "index out of range"
        | Some h =>
            proof_loop n (pair_level (hcat) hashes) (Nat.div index 2)
              (steps ++ [Step.mk h (bool_decide (sibling < index)%nat)])
        end
      else Ret (hashes, steps)
  end.
(** [func Proof(items map[string]string, key string) (MerkleProof, error)] *)
Definition Proof_from (it : list string) (items : gmap string string) (key : string)
  : outcome (res MerkleProof.t) :=
  match items !! key with
  | None => Ret (Err "key not found")
  | Some _ =>
      let keys := sort_Strings it in
      let hashes := (λ k, hash (leaf_input k (sget items k))) <$> keys in
      match proof_loop (length hashes) hashes (SearchStrings keys key) [] with
      | Panic w => Panic w
      | Ret (hashes, steps) =>
          match hashes !! 0%nat with
          | None => Panic "index out of range"
          | Some root => Ret (Ok (MerkleProof.mk key (sget items key) root steps 1))
          end
      end
  end.
Definition Proof (items : gmap string string) (key : string) : outcome (res MerkleProof.t) :=
  Proof_from (map_keys items) items key.

(** What one step hashes. *)
Definition step_input (s : Step.t) (current : string) : string :=
  if Step.Left s then Step.Hash s +:+ current else current +:+ Step.Hash s.
(** The loop of [VerifyProof]; [None] is its [return false]. *)
Fixpoint run_steps (steps : list Step.t) (current : string) : option string :=
  match steps with
  | [] => Some current
  | s :: steps =>
      if decide (Step.Hash s = "") then None
      else run_steps steps (hash (step_input s current))
  end.
(** [func VerifyProof(p MerkleProof) bool] *)
Definition VerifyProof (p : MerkleProof.t) : bool :=
  if decide (MerkleProof.Key p = "" ∨ MerkleProof.Root p = "" ∨ MerkleProof.Version p = 0)
  then false else
  match run_steps (MerkleProof.Steps p) (hash (leaf_input (MerkleProof.Key p) (MerkleProof.Value p)))
  with
  | Some current => bool_decide (current = MerkleProof.Root p)
  | None => false
  end.

(** ** Specification *)

(** A node as [BuildTree] makes it: hashes computed from what they cover,
    leaves taken from the items. *)
Inductive built (items : gmap string string) : Node → Prop :=
  | built_leaf k v :
      items !! k = Some v → built items (Mk (hash (leaf_input k v)) Nil Nil k v)
  | built_join l r : built items l → built items r → built items (join l r).

(** The strings hashed for a node and below it. *)
Fixpoint node_inputs (n : Node) : list string :=
  match n with
  | Nil => []
  | Mk _ Nil Nil k v => [leaf_input k v]
  | Mk _ l r _ _ => (Hash l +:+ Hash r) :: node_inputs l ++ node_inputs r
  end.
(** The strings hashed by [BuildTree]; an empty tree hashes the empty string. *)
Definition build_inputs (items : gmap string string) : list string :=
  if decide (items = ∅) then [""] else node_inputs (BuildTree items).
(** The strings hashed by [VerifyProof]. *)
Fixpoint steps_inputs (steps : list Step.t) (current : string) : list string :=
  match steps with
  | [] => []
  | s :: steps => step_input s current :: steps_inputs steps (hash (step_input s current))
  end.
Definition verify_inputs (p : MerkleProof.t) : list string :=
  let leaf := leaf_input (MerkleProof.Key p) (MerkleProof.Value p) in
  leaf :: steps_inputs (MerkleProof.Steps p) (hash leaf).

Definition no_equals (s : string) : Prop := "="%char ∉ chars s.
#[export] Instance no_equals_dec s : Decision (no_equals s).
Proof. unfold no_equals. apply _. Defined.
Lemma map_Forall_no_equals (m : gmap string string) :
  forallb (λ k, bool_decide (no_equals k)) (map_keys m) = true →
  ∀ k, is_Some (m !! k) → no_equals k.
Proof.
  rewrite forallb_forall. intros HF k Hk%elem_of_map_keys.
  apply (bool_decide_unpack _), Is_true_true, HF. by apply list_elem_of_In.
Qed.

(** ** Lemmas *)

Lemma eq_not_hex : "="%char ∉ hexdigits.
Proof. vm_compute. intros H. repeat (apply elem_of_cons in H as [H|H]; [done|]). by apply elem_of_nil in H. Qed.
Lemma leaf_has_eq k v : "="%char ∈ chars (leaf_input k v).
Proof.
  unfold leaf_input. rewrite !chars_app, !elem_of_app. right. left.
  by apply list_elem_of_singleton.
Qed.
Lemma digests_no_eq a b : is_digest a → is_digest b → "="%char ∉ chars (a +:+ b).
Proof.
  intros [_ Ha] [_ Hb]. rewrite chars_app, elem_of_app.
  intros [H|H]; eapply eq_not_hex; eauto.
Qed.

#[export] Instance BuildTree_from_proper : Proper ((≡ₚ) ==> (=) ==> (=)) BuildTree_from.
Proof. intros it it' E items _ <-. unfold BuildTree_from. by rewrite (sort_Strings_proper _ _ E). Qed.
#[export] Instance Proof_from_proper : Proper ((≡ₚ) ==> (=) ==> (=) ==> (=)) Proof_from.
Proof. intros it it' E items _ <- k _ <-. unfold Proof_from. by rewrite (sort_Strings_proper _ _ E). Qed.

Section build.
Context (items : gmap string string).

Lemma leaf_node_built k : is_Some (items !! k) → built items (leaf_node items k).
Proof. intros [v Hv]. unfold leaf_node, sget. rewrite Hv. by constructor. Qed.
Lemma built_digest n : built items n → is_digest (Hash n).
Proof. destruct 1; apply digest_is_digest. Qed.

Lemma BuildTree_from_order it : ranges it items → BuildTree_from it items = BuildTree items.
Proof. unfold ranges. by intros ->. Qed.

Lemma sorted_keys_nonempty it : ranges it items → items ≠ ∅ → sort_Strings it ≠ [].
Proof.
  intros Hit Hne E. apply (f_equal length) in E.
  rewrite sort_Strings_perm, (length_ranges it items Hit) in E.
  by apply map_size_empty_inv in E.
Qed.

(** The nodes at the leaves, and what the levels leave of them. *)
Lemma BuildTree_levels it :
  ranges it items → items ≠ ∅ →
  ∃ n, pair_levels join (length it) (leaf_node items <$> sort_Strings it) = [n] ∧
       BuildTree_from it items = n ∧ built items n.
Proof.
  intros Hit Hne.
  set (nodes := leaf_node items <$> sort_Strings it).
  assert (length nodes = length it) as Hl.
  { unfold nodes. by rewrite length_fmap, sort_Strings_perm. }
  assert (nodes ≠ []) as Hnn.
  { intros E. apply fmap_nil_inv in E. by apply (sorted_keys_nonempty it). }
  destruct (pair_levels_one join (length it) nodes) as [n Hn]; [done|lia|].
  exists n. split; [done|]. split.
  - unfold BuildTree_from. fold nodes. rewrite Hl. destruct nodes; [done|]. by rewrite Hn.
  - assert (Forall (built items) nodes) as HF.
    { apply list.Forall_forall. intros x (k & -> & Hk)%list_elem_of_fmap.
      apply leaf_node_built. rewrite sort_Strings_perm in Hk. by eapply elem_of_ranges. }
    apply (pair_levels_Forall _ join (length it)) in HF; [|by constructor].
    rewrite Hn in HF. by apply Forall_cons in HF as [? _].
Qed.

(** The hashes of the nodes are the levels of hashes. *)
Lemma Hash_levels it :
  ranges it items → items ≠ ∅ →
  pair_levels (hcat) (length it)
    ((λ k, hash (leaf_input k (sget items k))) <$> sort_Strings it) = [Root items].
Proof.
  intros Hit Hne. destruct (BuildTree_levels it Hit Hne) as (n & E & En & _).
  apply (f_equal (fmap Hash)) in E.
  rewrite (pair_levels_hom Hash join (hcat)), <- list_fmap_compose in E by done.
  simpl in E. unfold Root. rewrite <- (BuildTree_from_order it), En by done. exact E.
Qed.
End build.

(** ** Inclusion proofs *)

Lemma lxor_even k : Nat.lxor (2 * k) 1 = (2 * k + 1)%nat.
Proof.
  symmetry. apply Nat.add_nocarry_lxor. change 1%nat with (Nat.ones 1).
  rewrite Nat.land_ones. change (2 ^ 1)%nat with 2%nat. rewrite Nat.mul_comm.
  apply Nat.Div0.mod_mul.
Qed.
Lemma lxor_odd k : Nat.lxor (2 * k + 1) 1 = (2 * k)%nat.
Proof. by rewrite <- lxor_even, Nat.lxor_assoc, Nat.lxor_nilpotent, Nat.lxor_0_r. Qed.

Abbreviation nonempty := (λ s : string, s ≠ "").

(** One turn of the loop: the sibling is there, and the step it yields turns the
    entry at [index] into its parent. *)
Lemma proof_level hashes i cur :
  hashes !! i = Some cur →
  ∃ h, pad_even hashes !! Nat.lxor i 1 = Some h ∧
       pair_level (hcat) (pad_even hashes) !! Nat.div i 2 =
         Some (hash (step_input (Step.mk h (bool_decide (Nat.lxor i 1 < i)%nat)) cur)).
Proof.
  intros Hi. pose proof (lookup_lt_Some _ _ _ Hi) as Hlt.
  pose proof (length_pad_even hashes). destruct (pad_even_even hashes) as [m Hm].
  rewrite <- (pad_even_lookup hashes i) in Hi by done.
  assert (i = 2 * Nat.div i 2 ∨ i = 2 * Nat.div i 2 + 1)%nat as Hcase by lia.
  set (k := Nat.div i 2) in *. clearbody k. unfold step_input. simpl.
  destruct Hcase as [-> | ->].
  - destruct (lookup_lt_is_Some_2 (pad_even hashes) (2 * k + 1)) as [h Hh]; [lia|].
    exists h. rewrite lxor_even, bool_decide_false by lia. split; [done|].
    exact (pair_level_lookup (hcat) _ _ _ _ Hi Hh).
  - destruct (lookup_lt_is_Some_2 (pad_even hashes) (2 * k)) as [h Hh]; [lia|].
    exists h. rewrite lxor_odd, bool_decide_true by lia. split; [done|].
    exact (pair_level_lookup (hcat) _ _ _ _ Hh Hi).
Qed.

Lemma proof_loop_spec fuel hashes i cur steps :
  Forall nonempty hashes → hashes !! i = Some cur → (length hashes ≤ S fuel)%nat →
  ∃ root st, proof_loop fuel hashes i steps = Ret ([root], steps ++ st) ∧
             pair_levels (hcat) fuel hashes = [root] ∧
             run_steps st cur = Some root.
Proof.
  revert hashes i cur steps. induction fuel as [|n IH]; intros hashes i cur steps HF Hi Hl.
  all: pose proof (lookup_lt_Some _ _ _ Hi) as Hlt.
  - destruct hashes as [|x [|]]; simpl in *; [lia| |lia]. destruct i; [|lia]. simplify_eq/=.
    exists cur, []. by rewrite app_nil_r.
  - cbn [proof_loop pair_levels]. case_decide as H1.
    + destruct (proof_level _ _ _ Hi) as (h & Hh & Hp). rewrite Hh. cbv zeta.
      rewrite <- (pair_level_pad _ hashes). set (s := Step.mk h _) in *.
      assert (h ≠ "") as Hne.
      { apply pad_even_Forall in HF. by apply (Forall_lookup_1 _ _ _ _ HF Hh). }
      edestruct (λ a b, IH _ _ _ (steps ++ [s]) a Hp b) as (root & st & E1 & E2 & E3).
      { rewrite pair_level_hcat. apply Forall_fmap, list.Forall_forall. intros; apply digest_nonempty. }
      { rewrite pair_level_pad. pose proof (pair_level_shrinks (hcat) hashes). lia. }
      exists root, (s :: st). rewrite E1, <- app_assoc. split_and!; [done..|].
      simpl. by rewrite decide_False.
    + destruct hashes as [|x [|]]; simpl in *; [lia| |lia]. destruct i; [|lia]. simplify_eq/=.
      exists cur, []. by rewrite app_nil_r.
Qed.

Lemma Proof_spec items key v :
  items !! key = Some v →
  ∃ st, Proof items key = Ret (Ok (MerkleProof.mk key v (Root items) st 1)) ∧
        run_steps st (hash (leaf_input key v)) = Some (Root items).
Proof.
  intros Hk. unfold Proof, Proof_from. rewrite Hk.
  assert (items ≠ ∅) as Hne by (intros ->; by rewrite lookup_empty in Hk).
  set (keys := sort_Strings (map_keys items)).
  assert (key ∈ keys) as [i Hi]%list_elem_of_lookup.
  { unfold keys. rewrite sort_Strings_perm. apply elem_of_map_keys. by eexists. }
  rewrite (SearchStrings_index keys key i); [| | |done].
  2: { apply (Sorted_StronglySorted _), sort_Strings_sorted. }
  2: { unfold keys. rewrite sort_Strings_perm. apply map_keys_NoDup. }
  set (hashes := (λ k, hash (leaf_input k (sget items k))) <$> keys).
  assert (hashes !! i = Some (hash (leaf_input key v))) as Hh.
  { unfold hashes. rewrite list_lookup_fmap, Hi. simpl. unfold sget. by rewrite Hk. }
  destruct (proof_loop_spec (length hashes) hashes i (hash (leaf_input key v)) [])
    as (root & st & E1 & E2 & E3); [|done|lia|].
  { apply Forall_fmap, list.Forall_forall. intros; apply digest_nonempty. }
  replace (length hashes) with (length (map_keys items)) in E2.
  2: { unfold hashes, keys. by rewrite length_fmap, sort_Strings_perm. }
  rewrite (Hash_levels items) in E2 by (done || apply ranges_refl). simplify_eq.
  exists st. rewrite E1. simpl. unfold sget. by rewrite Hk.
Qed.

(** ** Soundness *)
Section sound.
Context (items : gmap string string) (li : string) (Hli : "="%char ∈ chars li).

Lemma run_steps_app st s cur h :
  run_steps (st ++ [s]) cur = Some h →
  ∃ c, run_steps st cur = Some c ∧ h = hash (step_input s c) ∧ Step.Hash s ≠ "".
Proof.
  revert cur. induction st as [|s' st IH]; intros cur; simpl.
  - case_decide; [done|]. intros [= <-]. eauto.
  - case_decide; [done|]. apply IH.
Qed.
Lemma steps_inputs_app st s cur c :
  run_steps st cur = Some c →
  steps_inputs (st ++ [s]) cur = steps_inputs st cur ++ [step_input s c].
Proof.
  revert cur. induction st as [|s' st IH]; intros cur; simpl.
  - by intros [= <-].
  - case_decide; [done|]. intros E. by rewrite (IH _ E).
Qed.
Lemma run_steps_digest st c : run_steps st (hash li) = Some c → is_digest c.
Proof.
  destruct st as [|s st _] using rev_ind.
  - intros [= <-]. apply digest_is_digest.
  - intros (c' & _ & -> & _)%run_steps_app. apply digest_is_digest.
Qed.
Lemma step_input_no_eq s c :
  is_digest (Step.Hash s) → is_digest c → "="%char ∉ chars (step_input s c).
Proof. intros. unfold step_input. destruct (Step.Left s); by apply digests_no_eq. Qed.

(** A path that ends at the hash of a node starts at a leaf below it, or the
    two computations collide. *)
Lemma path_sound n st :
  built items n → Forall (λ s, is_digest (Step.Hash s)) st →
  run_steps st (hash li) = Some (Hash n) →
  (∃ k v, items !! k = Some v ∧ leaf_input k v = li) ∨
  Collision (li :: steps_inputs st (hash li)) (node_inputs n).
Proof using Hli.
  intros Hn. revert st. induction Hn as [k v Hkv|l r Hl IHl Hr IHr]; intros st.
  all: destruct st as [|s st _] using rev_ind; intros Hst Hrun.
  - apply (inj Some) in Hrun as E. destruct (digest_eq li (leaf_input k v) [li] [leaf_input k v])
      as [->|Hc]; [by left|by left|exact E|left; eauto|by right].
  - apply run_steps_app in Hrun as (c & Hc & E & _). apply Forall_app in Hst as [Hst Hs].
    right. exists (step_input s c), (leaf_input k v). rewrite (steps_inputs_app _ _ _ _ Hc).
    split_and!; [set_solver|by left| |exact (eq_sym E)]. intros Ei.
    apply (step_input_no_eq s c); [by apply Forall_cons in Hs as [? _]|by apply (run_steps_digest st c)|].
    rewrite Ei. apply leaf_has_eq.
  - apply (inj Some) in Hrun as E. right. exists li, (Hash l +:+ Hash r).
    split_and!; [by left|destruct Hl; by left| |exact E]. intros Ei.
    apply (digests_no_eq (Hash l) (Hash r)); [by eapply built_digest..|by rewrite <- Ei].
  - apply run_steps_app in Hrun as (c & Hc & E & _). apply Forall_app in Hst as [Hst Hs].
    apply Forall_cons in Hs as [Hs _].
    assert (is_digest c) as Hcd by (by apply (run_steps_digest st c)).
    destruct (decide (step_input s c = Hash l +:+ Hash r)) as [Ei|Hne].
    2: { right. exists (step_input s c), (Hash l +:+ Hash r).
         rewrite (steps_inputs_app _ _ _ _ Hc).
         split_and!; [set_solver|destruct Hl; by left|exact Hne|exact (eq_sym E)]. }
    assert (c = Hash l ∨ c = Hash r) as Hchild.
    { pose proof (built_digest _ _ Hl) as [Ll _]. destruct Hs as [Ls _], Hcd as [Lc _].
      unfold step_input in Ei. destruct (Step.Left s);
        apply string_app_eq_len in Ei as [E1 E2]; try congruence; auto. }
    destruct Hchild as [-> | ->].
    + destruct (IHl st Hst Hc) as [|Hcol]; [by left|right].
      eapply Collision_mono; [..|exact Hcol];
        [rewrite (steps_inputs_app _ _ _ _ Hc); set_solver|destruct Hl; set_solver].
    + destruct (IHr st Hst Hc) as [|Hcol]; [by left|right].
      eapply Collision_mono; [..|exact Hcol];
        [rewrite (steps_inputs_app _ _ _ _ Hc); set_solver|destruct Hl; set_solver].
Qed.
End sound.

(** The inputs of the tree of [items] include those below its root. *)
Lemma VerifyProof_sound_gen items p :
  VerifyProof p = true → MerkleProof.Root p = Root items →
  Forall (λ s, is_digest (Step.Hash s)) (MerkleProof.Steps p) →
  (∃ k v, items !! k = Some v ∧
          leaf_input k v = leaf_input (MerkleProof.Key p) (MerkleProof.Value p)) ∨
  Collision (verify_inputs p) (build_inputs items).
Proof.
  unfold VerifyProof, verify_inputs, build_inputs. intros Hv Hr Hs.
  destruct (decide _); [done|].
  set (li := leaf_input (MerkleProof.Key p) (MerkleProof.Value p)) in *.
  destruct (run_steps (MerkleProof.Steps p) (hash li)) as [c|] eqn:E; [|done].
  apply bool_decide_eq_true in Hv as ->. rewrite Hr in E.
  assert ("="%char ∈ chars li) as Hli by apply leaf_has_eq.
  case_decide as Hne.
  - right. subst items. change (Root ∅) with (hash "") in E.
    destruct (MerkleProof.Steps p) as [|s st _] using rev_ind.
    + apply (inj Some) in E. exists li, "". split_and!; [by left|by left| |done].
      intros Hl. rewrite Hl in Hli. by apply elem_of_nil in Hli.
    + apply run_steps_app in E as (c & Hc & E & Hn).
      exists (step_input s c), "". rewrite (steps_inputs_app _ _ _ _ Hc).
      split_and!; [set_solver|by left| |done].
      unfold step_input. destruct (Step.Left s), (Step.Hash s), c; done.
  - destruct (BuildTree_levels items (map_keys items) (ranges_refl _) Hne) as (nd & _ & Hn & Hb).
    unfold Root, BuildTree in *. rewrite Hn in *. by apply path_sound.
Qed.

(** The separator makes a leaf input injective on keys that do not contain it. *)
Lemma leaf_input_inj k v k' v' :
  no_equals k → no_equals k' → leaf_input k v = leaf_input k' v' → k = k' ∧ v = v'.
Proof. unfold leaf_input. intros Hk Hk'. by apply string_split_sep. Qed.

Lemma VerifyProof_Proof items key v st :
  run_steps st (hash (leaf_input key v)) = Some (Root items) → items !! key = Some v →
  VerifyProof (MerkleProof.mk key v (Root items) st 1) = bool_decide (key ≠ "").
Proof.
  intros E Hk. unfold VerifyProof. simpl. rewrite E, bool_decide_true by done.
  assert (Root items ≠ "") as Hr.
  { assert (items ≠ ∅) as Hne by (intros ->; by rewrite lookup_empty in Hk).
    destruct (BuildTree_levels items (map_keys items) (ranges_refl _) Hne) as (n & _ & Hn & Hb).
    unfold Root, BuildTree. rewrite Hn. destruct Hb; exact (digest_nonempty _). }
  destruct (decide (key = "")) as [->|Hkey].
  - rewrite decide_True by tauto. by rewrite bool_decide_false by tauto.
  - rewrite decide_False by naive_solver. by rewrite bool_decide_true.
Qed.

Lemma Root_singleton k v : Root {[k := v]} = hash (leaf_input k v).
Proof.
  destruct (BuildTree_levels {[k := v]} [k]) as (n & E & Hn & _).
  - unfold ranges, map_keys. by rewrite map_to_list_singleton.
  - by apply map_non_empty_singleton.
  - unfold Root. rewrite <- (BuildTree_from_order _ [k]), Hn.
    + simpl in E. unfold leaf_node, sget in E. rewrite lookup_singleton_eq in E. by injection E as <-.
    + unfold ranges, map_keys. by rewrite map_to_list_singleton.
Qed.
End merkle.

(** ** Properties *)

(** C5: completeness of inclusion proofs. [Proof] never panics; it fails exactly
    for absent keys; for a present key it returns a proof of its value under
    [Root items], and [VerifyProof] accepts that proof, except for the empty key,
    whose honest proof it rejects. *)
Theorem Proof_complete items key :
  match items !! key with
  | None => Proof items key = Ret (Err "key not found")
  | Some v =>
      ∃ p, Proof items key = Ret (Ok p) ∧ MerkleProof.Key p = key ∧ MerkleProof.Value p = v ∧
           MerkleProof.Root p = Root items ∧ VerifyProof p = bool_decide (key ≠ "")
  end.
Proof.
  destruct (items !! key) as [v|] eqn:Hk.
  - destruct (Proof_spec items key v Hk) as (st & E & Hst).
    eexists. split_and!; [exact E|done..|]. by apply VerifyProof_Proof.
  - unfold Proof, Proof_from. by rewrite Hk.
Qed.

(** C3: soundness of inclusion proofs with well-formed steps. If no key contains
    the separator and every step hash is a digest, a proof that [VerifyProof]
    accepts against [Root items] proves an entry of [items], or the verifier and
    the tree builder hashed a SHA-256 collision. *)
Theorem VerifyProof_sound items p :
  VerifyProof p = true → MerkleProof.Root p = Root items →
  Forall (λ s, is_digest (Step.Hash s)) (MerkleProof.Steps p) →
  no_equals (MerkleProof.Key p) → (∀ k, is_Some (items !! k) → no_equals k) →
  items !! MerkleProof.Key p = Some (MerkleProof.Value p) ∨
  Collision (verify_inputs p) (build_inputs items).
Proof.
  intros Hv Hr Hs Hp Hk.
  destruct (VerifyProof_sound_gen items p Hv Hr Hs) as [(k & v & Hkv & E)|Hc]; [left|by right].
  apply leaf_input_inj in E as [<- <-]; [done|by apply Hk; eexists|done].
Qed.

Definition sample_items : gmap string string :=
  list_to_map [("alpha", "1"); ("beta", "2"); ("gamma", "3")].
Definition sample_proof : MerkleProof.t :=
  match Proof sample_items "beta" with
  | Ret (Ok p) => p
  | _ => MerkleProof.mk "" "" "" [] 0
  end.

Lemma VerifyProof_sound_witness :
  sample_items !! "beta" = Some "2" ∨
  Collision (verify_inputs sample_proof) (build_inputs sample_items).
Proof.
  apply (VerifyProof_sound sample_items sample_proof).
  - by vm_compute.
  - by vm_compute.
  - apply (bool_decide_unpack _). by vm_compute.
  - apply (bool_decide_unpack _). by vm_compute.
  - apply (map_Forall_no_equals sample_items). by vm_compute.
Defined.

(** A step hash is not checked to be a digest, and that breaks soundness: in a
    tree whose only entry maps [k] to the digest of ["x=y"], a one-step proof that
    [x] has the value [y] is accepted, though [x] is not a key. *)
Theorem VerifyProof_forged_step k x y :
  x ≠ "" → x ≠ k →
  let items := {[k := hash (leaf_input x y)]} in
  VerifyProof (MerkleProof.mk x y (Root items) [Step.mk (k +:+ "=") true] 1) = true ∧
  items !! x = None.
Proof.
  intros Hx Hk items. split; [|by apply lookup_singleton_ne].
  unfold VerifyProof. simpl. unfold items. rewrite Root_singleton.
  rewrite decide_False by (intros [?|[E|?]]; [done|by exact (digest_nonempty _ E)|done]).
  rewrite decide_False by (by destruct k).
  apply bool_decide_eq_true. unfold step_input, leaf_input. simpl.
  by rewrite !string_app_assoc.
Qed.

Lemma VerifyProof_forged_step_witness :
  let items := {["k" := hash (leaf_input "x" "y")]} in
  VerifyProof (MerkleProof.mk "x" "y" (Root items) [Step.mk "k=" true] 1) = true ∧
  items !! "x" = None.
Proof. by apply (VerifyProof_forged_step "k" "x" "y"). Defined.

(** The tree does not depend on the order in which the map is iterated, and
    its root is the root the proofs carry. *)
Theorem BuildTree_deterministic items it :
  ranges it items →
  BuildTree_from it items = BuildTree items ∧
  ∀ key, Proof_from it items key = Proof items key.
Proof.
  intros Hit. split; [by apply BuildTree_from_order|]. intros key.
  unfold ranges in Hit. by rewrite Hit.
Qed.

Lemma BuildTree_deterministic_witness :
  BuildTree_from ["gamma"; "alpha"; "beta"] sample_items = BuildTree sample_items ∧
  ∀ key, Proof_from ["gamma"; "alpha"; "beta"] sample_items key = Proof sample_items key.
Proof. apply BuildTree_deterministic. apply (bool_decide_unpack _). by vm_compute. Defined.
