(* ===== verification/MerkleHeap.v ===== *)
(** * proof/merkle.go: the tree as linked nodes, [Leaves] and [Explain]

    [Merkle] reads a [*Node] as a tree. [Leaves] compares pointers ([n.Right !=
    n.Left]), which a tree value cannot do: here [BuildTree] allocates its nodes in
    an arena, an odd last node becomes both children of its parent by sharing one
    pointer, and [Leaves] walks the pointers. The linked tree represents the tree
    of [Merkle], and its leaves are the items, each once, in key order. *)
From S2P Require Import Prelude Machine GoString GoSort GoMap Sha256 PairTree Collision Merkle.

(** ** Model *)
Module HNode.
Record t := mk { Hash : string; Left : option nat; Right : option nat; Key : string; Value : string }.
End HNode.
Abbreviation arena := (gmap nat HNode.t).
(** [&Node{...}] *)
Definition new_node (a : arena) (n : HNode.t) : arena * nat :=
  let p := fresh (dom a) in (<[p := n]> a, p).
Definition hash_at (a : arena) (p : nat) : string :=
  match a !! p with Some n => HNode.Hash n | None => "" end.

Section linked.
Context `{HH : Hasher}.

(** The loop over the sorted keys. *)
Fixpoint new_leaves (a : arena) (items : gmap string string) (keys : list string) : arena * list nat :=
  match keys with
  | [] => (a, [])
  | k :: keys =>
      let '(a, p) := new_node a (HNode.mk (hash (leaf_input k (sget items k))) None None k (sget items k)) in
      let '(a, ps) := new_leaves a items keys in (a, p :: ps)
  end.
(** The parent of two nodes. *)
Definition new_parent (a : arena) (l r : nat) : arena * nat :=
  new_node a (HNode.mk (hash (hash_at a l +:+ hash_at a r)) (Some l) (Some r) "" "").
(** One pass of [i += 2], [j = i] for an odd last node. *)
Fixpoint link_level (a : arena) (ps : list nat) : arena * list nat :=
  match ps with
  | [] => (a, [])
  | [p] => let '(a, q) := new_parent a p p in (a, [q])
  | p :: q :: ps =>
      let '(a, x) := new_parent a p q in let '(a, xs) := link_level a ps in (a, x :: xs)
  end.
(** [for len(nodes) > 1 { ... }], with fuel. *)
Fixpoint link_levels (fuel : nat) (a : arena) (ps : list nat) : arena * list nat :=
  match fuel with
  | O => (a, ps)
  | S n => if decide (1 < len ps) then let '(a, ps) := link_level a ps in link_levels n a ps else (a, ps)
  end.
(** [func BuildTree(items map[string]string) *Node] *)
Definition HBuildTree (it : list string) (items : gmap string string) (a : arena) : arena * nat :=
  let '(a, nodes) := new_leaves a items (sort_Strings it) in
  match nodes with
  | [] => new_node a (HNode.mk (hash "") None None "" "")
  | _ => let '(a, nodes) := link_levels (length nodes) a nodes in (a, nth 0 nodes 0%nat)
  end.

(** [func (n *Node) Leaves(out *[]Node)]: [None] when the fuel is spent. *)
Fixpoint Leaves (fuel : nat) (a : arena) (n : option nat) (out : list HNode.t) : option (list HNode.t) :=
  match fuel with
  | O => None
  | S fuel =>
      match n ≫= (a !!.) with
      | None => Some out
      | Some nd =>
          match HNode.Left nd, HNode.Right nd with
          | None, None => Some (out ++ [nd])
          | l, r =>
              out ← Leaves fuel a l out;
              if decide (r ≠ None ∧ r ≠ l) then Leaves fuel a r out else Some out
          end
      end
  end.

(** [func Explain(p MerkleProof) map[string]interface{}]: the entries ["key"],
    ["root"], ["steps"], ["algorithm"], ["verified"]. *)
Definition Explain (p : MerkleProof.t) : string * string * Z * string * bool :=
  (MerkleProof.Key p, MerkleProof.Root p, len (MerkleProof.Steps p), "merkle-sha256", VerifyProof p).

(** ** Specification *)

(** The node at a pointer represents a tree. *)
Inductive rep (a : arena) : nat → Node → Prop :=
  | rep_leaf p h k v : a !! p = Some (HNode.mk h None None k v) → rep a p (Mk h Nil Nil k v)
  | rep_join p h l r nl nr k v :
      a !! p = Some (HNode.mk h (Some l) (Some r) k v) → rep a l nl → rep a r nr →
      rep a p (Mk h nl nr k v).
(** The leaves below a pointer, a shared child counting once; [d] bounds the depth. *)
Inductive covers (a : arena) : nat → nat → list HNode.t → Prop :=
  | cov_leaf d p h k v :
      a !! p = Some (HNode.mk h None None k v) → covers a d p [HNode.mk h None None k v]
  | cov_pair d p h l r k v x y :
      a !! p = Some (HNode.mk h (Some l) (Some r) k v) → l ≠ r →
      covers a d l x → covers a d r y → covers a (S d) p (x ++ y)
  | cov_shared d p h l k v x :
      a !! p = Some (HNode.mk h (Some l) (Some l) k v) → covers a d l x → covers a (S d) p x.
(** The node of an item. *)
Definition item_node (items : gmap string string) (k : string) : HNode.t :=
  HNode.mk (hash (leaf_input k (sget items k))) None None k (sget items k).

(** ** Lemmas *)
Lemma rep_mono a b p n : a ⊆ b → rep a p n → rep b p n.
Proof.
  intros Hab. induction 1; [apply rep_leaf|eapply rep_join]; try done; by eapply lookup_weaken.
Qed.
Lemma covers_mono a b d p x : a ⊆ b → covers a d p x → covers b d p x.
Proof.
  intros Hab. induction 1; [apply cov_leaf|eapply cov_pair|eapply cov_shared]; try done;
    by eapply lookup_weaken.
Qed.
Lemma rep_hash a p n : rep a p n → hash_at a p = Merkle.Hash n.
Proof. unfold hash_at. by destruct 1 as [? ? ? ? ->|? ? ? ? ? ? ? ? ->]. Qed.
Lemma rep_dom a p n : rep a p n → p ∈ dom a.
Proof. intros Hr. apply elem_of_dom. destruct Hr; by eexists. Qed.
Lemma Leaves_covers a d p x out : covers a d p x → Leaves (S d) a (Some p) out = Some (out ++ x).
Proof.
  intros Hc. revert out. induction Hc as [d p h k v E|d p h l r k v x y E Hn _ IH1 _ IH2
    |d p h l k v x E _ IH]; intros out.
  - cbn -[dom]. by rewrite E.
  - cbn [Leaves mbind option_bind]. rewrite E. cbn [HNode.Left HNode.Right mbind option_bind].
    change (Leaves (S d) a (Some l) out ≫= (λ o, if decide (Some r ≠ None ∧ Some r ≠ Some l)
              then Leaves (S d) a (Some r) o else Some o) = Some (out ++ x ++ y)).
    rewrite IH1. cbn [mbind option_bind]. rewrite decide_True by (split; congruence).
    by rewrite IH2, <- app_assoc.
  - cbn [Leaves mbind option_bind]. rewrite E. cbn [HNode.Left HNode.Right mbind option_bind].
    change (Leaves (S d) a (Some l) out ≫= (λ o, if decide (Some l ≠ None ∧ Some l ≠ Some l)
              then Leaves (S d) a (Some l) o else Some o) = Some (out ++ x)).
    rewrite IH. cbn [mbind option_bind]. rewrite decide_False; [done|]. by intros [_ []].
Qed.

Lemma new_node_spec a n :
  let '(b, p) := new_node a n in a ⊆ b ∧ b !! p = Some n ∧ (p ∉ dom a) ∧ p ∈ dom b.
Proof.
  unfold new_node. pose proof (is_fresh (dom a)) as Hf. split_and!.
  - by apply insert_subseteq, not_elem_of_dom.
  - apply lookup_insert_eq.
  - done.
  - rewrite dom_insert. set_solver.
Qed.

(** What a level of pointers stands for: trees, and the leaves below each. *)
Record level_ok (a : arena) (d : nat) (ps : list nat) (ns : list Node) (xs : list (list HNode.t)) : Prop := {
  lv_rep : Forall2 (rep a) ps ns;
  lv_cov : Forall2 (covers a d) ps xs;
  lv_nodup : NoDup ps }.

Lemma Forall2_rep_mono a b ps ns : a ⊆ b → Forall2 (rep a) ps ns → Forall2 (rep b) ps ns.
Proof. intros Hab Hf. eapply Forall2_impl; [done|]. intros p n. by apply rep_mono. Qed.
Lemma Forall2_covers_mono a b d ps xs :
  a ⊆ b → Forall2 (covers a d) ps xs → Forall2 (covers b d) ps xs.
Proof. intros Hab Hf. eapply Forall2_impl; [done|]. intros p n. by apply covers_mono. Qed.

Lemma new_leaves_ok a items keys :
  let '(b, ps) := new_leaves a items keys in
  a ⊆ b ∧ Forall (λ p, (p ∉ dom a) ∧ p ∈ dom b) ps ∧
  level_ok b 0 ps (leaf_node items <$> keys) ((λ k, [item_node items k]) <$> keys).
Proof.
  revert a. induction keys as [|k keys IH]; intros a; [by repeat constructor|].
  cbn [new_leaves fmap list_fmap].
  pose proof (new_node_spec a (item_node items k)) as H1. unfold item_node in H1 at 1.
  destruct (new_node a _) as [b p]. destruct H1 as (Hab & Hp & Hpa & Hpb).
  specialize (IH b). destruct (new_leaves b items keys) as [c ps].
  destruct IH as (Hbc & Hps & [R C N]). pose proof (subseteq_dom _ _ Hab). pose proof (subseteq_dom _ _ Hbc).
  split; [by etrans|]. split.
  - constructor; [split; [done|set_solver]|]. eapply list.Forall_impl; [done|]. simpl. set_solver.
  - pose proof (lookup_weaken _ _ _ _ Hp Hbc). split; constructor; try done.
    + by apply rep_leaf.
    + by apply cov_leaf.
    + intros Hin. rewrite list.Forall_forall in Hps. by destruct (Hps p Hin).
Qed.

Lemma new_parent_ok a l r nl nr :
  rep a l nl → rep a r nr →
  let '(b, p) := new_parent a l r in
  a ⊆ b ∧ (p ∉ dom a) ∧ p ∈ dom b ∧ rep b p (join nl nr) ∧
  ∀ d x y, covers a d l x → (if decide (l = r) then x = y else covers a d r y) →
    covers b (S d) p (if decide (l = r) then x else x ++ y).
Proof.
  intros Hl Hr. unfold new_parent. rewrite (rep_hash _ _ _ Hl), (rep_hash _ _ _ Hr).
  match goal with |- context [new_node a ?n] => pose proof (new_node_spec a n) as Hs end.
  destruct (new_node a _) as [b p]. destruct Hs as (Hab & Hp & Hpa & Hpb).
  split_and!; try done.
  - unfold join. eapply rep_join; [done|by eapply rep_mono..].
  - intros d x y Hx Hy. case_decide as Hlr.
    + subst r. eapply cov_shared; [done|]. by eapply covers_mono.
    + eapply cov_pair; [done..| |]; by eapply covers_mono.
Qed.

Lemma link_level_ok a d ps ns xs :
  level_ok a d ps ns xs →
  let '(b, qs) := link_level a ps in
  a ⊆ b ∧ Forall (λ p, (p ∉ dom a) ∧ p ∈ dom b) qs ∧
  ∃ ys, level_ok b (S d) qs (pair_level join ns) ys ∧ concat ys = concat xs.
Proof.
  revert a ns xs. induction ps as [|p|p q ps IH] using list_pair_ind; intros a ns xs [R C N].
  - inv R. inv C. split; [done|]. split; [done|]. exists []. by repeat constructor.
  - inv R as [|? n ? ns' Hn R']. inv R'. inv C as [|? x ? xs' Hx C']. inv C'.
    cbn [link_level]. pose proof (new_parent_ok a p p n n Hn Hn) as H1.
    destruct (new_parent a p p) as [b t]. destruct H1 as (Hab & Ht & Htb & Hrep & Hcov).
    specialize (Hcov d x x Hx). rewrite !decide_True in Hcov by done.
    split; [done|]. split; [by repeat constructor|]. exists [x]. split; [|done].
    split; constructor; auto using NoDup_nil_2, Forall2_nil_2; try constructor; set_solver.
  - inv R as [|? n1 ? ns' Hn1 Ra]. inv Ra as [|? n2 ? ns2 Hn2 Rb].
    inv C as [|? x1 ? xs' Hx1 Ca]. inv Ca as [|? x2 ? xs2 Hx2 Cb].
    apply NoDup_cons in N as [Np [Nq N]%NoDup_cons]. rewrite not_elem_of_cons in Np. destruct Np as [Npq Np].
    cbn [link_level pair_level]. pose proof (new_parent_ok a p q n1 n2 Hn1 Hn2) as H1.
    destruct (new_parent a p q) as [b t]. destruct H1 as (Hab & Ht & Htb & Hrep & Hcov).
    specialize (Hcov d x1 x2 Hx1). rewrite !decide_False in Hcov by done. specialize (Hcov Hx2).
    specialize (IH b ns2 xs2). destruct (link_level b ps) as [c qs].
    destruct IH as (Hbc & Hqs & ys & [R C N'] & Ey);
      [split; [by eapply Forall2_rep_mono|by eapply Forall2_covers_mono|done]|].
    pose proof (subseteq_dom _ _ Hab). pose proof (subseteq_dom _ _ Hbc).
    split; [by etrans|]. split.
    { constructor; [split; [done|set_solver]|]. eapply list.Forall_impl; [done|]. simpl. set_solver. }
    exists ((x1 ++ x2) :: ys). split; [|simpl; by rewrite Ey, <- app_assoc].
    split; constructor; try done; [by eapply rep_mono|by eapply covers_mono|].
    intros Hin. rewrite list.Forall_forall in Hqs. by destruct (Hqs t Hin).
Qed.

Lemma covers_deeper a d e p x : covers a d p x → (d ≤ e)%nat → covers a e p x.
Proof.
  intros Hc. revert e. induction Hc; intros e He; [by apply cov_leaf|..];
    (destruct e as [|e]; [lia|]); [eapply cov_pair|eapply cov_shared]; eauto with lia.
Qed.
Lemma link_levels_ok fuel a d ps ns xs :
  level_ok a d ps ns xs →
  let '(b, qs) := link_levels fuel a ps in
  ∃ ys, level_ok b (d + fuel) qs (pair_levels join fuel ns) ys ∧ concat ys = concat xs.
Proof.
  revert a d ps ns xs. induction fuel as [|fuel IH]; intros a d ps ns xs Hl; cbn [link_levels pair_levels].
  { rewrite Nat.add_0_r. by exists xs. }
  rewrite <- (Forall2_length _ _ _ (lv_rep _ _ _ _ _ Hl)). case_decide.
  - pose proof (link_level_ok _ _ _ _ _ Hl) as H1. destruct (link_level a ps) as [b qs].
    destruct H1 as (_ & _ & ys & Hl' & Ey). specialize (IH b (S d) qs _ _ Hl').
    destruct (link_levels fuel b qs) as [c rs]. destruct IH as (zs & Hz & Ez). exists zs.
    rewrite Nat.add_succ_r. split; [exact Hz|by rewrite Ez].
  - exists xs. split; [|done]. destruct Hl as [R C N]. split; [done| |done].
    eapply Forall2_impl; [done|]. intros p x Hx. eapply covers_deeper; [done|lia].
Qed.

(** The linked tree represents the tree of [Merkle], and covers the items. *)
Lemma HBuildTree_rep it items a :
  ranges it items →
  let '(b, p) := HBuildTree it items a in
  rep b p (BuildTree_from it items) ∧
  (items ≠ ∅ → covers b (size items) p (item_node items <$> sort_Strings it)) ∧
  (items = ∅ → covers b 0 p [HNode.mk (hash "") None None "" ""]).
Proof.
  intros Hit. unfold HBuildTree. pose proof (new_leaves_ok a items (sort_Strings it)) as H1.
  destruct (new_leaves a items (sort_Strings it)) as [b ps]. destruct H1 as (_ & _ & Hl).
  assert (length ps = length it) as Elen.
  { by rewrite (Forall2_length _ _ _ (lv_rep _ _ _ _ _ Hl)), length_fmap, sort_Strings_perm. }
  destruct (decide (items = ∅)) as [He|He].
  - assert (it = []) as ->.
    { apply nil_length_inv. by rewrite (length_ranges _ _ Hit), He, map_size_empty. }
    destruct ps; [|done]. pose proof (new_node_spec b (HNode.mk (hash "") None None "" "")) as Hs.
    destruct (new_node b _) as [c q]. destruct Hs as (_ & Hq & _). split_and!; [|done|].
    + by apply rep_leaf.
    + intros _. by apply cov_leaf.
  - destruct (BuildTree_levels items it Hit He) as (n & En & -> & _). rewrite <- Elen in En.
    destruct ps as [|p0 ps]; [by destruct He; apply (map_size_empty_inv items); rewrite <- (length_ranges _ _ Hit), <- Elen|].
    pose proof (link_levels_ok (length (p0 :: ps)) _ _ _ _ _ Hl) as H2.
    destruct (link_levels (length (p0 :: ps)) b (p0 :: ps)) as [c qs].
    destruct H2 as (ys & [R C _] & Ey). rewrite En in R. inv R as [|q ? qs' ? Hq R']. inv R'.
    inv C as [|? y ? ys' Hy C']. inv C'. simpl. split_and!; [done| |done]. intros _.
    rewrite <- (length_ranges _ _ Hit), <- Elen. simpl in Ey. rewrite app_nil_r in Ey. subst y.
    assert (concat ((λ k, [item_node items k]) <$> sort_Strings it) = item_node items <$> sort_Strings it) as <-;
      [|exact Hy]. generalize (sort_Strings it). clear. intros l. induction l; csimpl; congruence.
Qed.
End linked.

(** ** Properties *)

(** C24: [Leaves] on the tree that [BuildTree] links, whatever the order of the
    iteration and the nodes already allocated, returns the items, each once, in
    the order of their keys, after what was in the list before; on the tree of no
    items it returns the one keyless node. The linked root carries the root hash of
    the tree of [Merkle]. *)
Theorem Leaves_BuildTree `{Hasher} it items a out :
  ranges it items →
  let '(b, p) := HBuildTree it items a in
  Leaves (S (size items)) b (Some p) out =
    Some (out ++ if decide (items = ∅) then [HNode.mk (hash "") None None "" ""]
                 else item_node items <$> sort_Strings (map_keys items)) ∧
  hash_at b p = Merkle.Root items.
Proof.
  intros Hit. pose proof (HBuildTree_rep it items a Hit) as Hr.
  destruct (HBuildTree it items a) as [b p]. destruct Hr as (Hrep & Hne & He). split.
  - rewrite (sort_Strings_ranges it items Hit) in Hne. case_decide as Hd.
    + apply Leaves_covers, (covers_deeper b 0); [by apply He|lia].
    + by apply Leaves_covers, Hne.
  - rewrite (rep_hash _ _ _ Hrep). unfold Merkle.Root, BuildTree, BuildTree_from.
    by rewrite (sort_Strings_ranges it items Hit).
Qed.

Lemma Leaves_BuildTree_witness :
  let items := {["alpha" := "1"; "beta" := "2"; "gamma" := "3"]} : gmap string string in
  let '(b, p) := HBuildTree ["gamma"; "alpha"; "beta"] items ∅ in
  Leaves (S (size items)) b (Some p) [] =
    Some ([] ++ if decide (items = ∅) then [HNode.mk (hash "") None None "" ""]
                else item_node items <$> sort_Strings (map_keys items)) ∧
  hash_at b p = Merkle.Root items.
Proof.
  intros items. apply (Leaves_BuildTree ["gamma"; "alpha"; "beta"] items ∅ []).
  apply (bool_decide_unpack _). by vm_compute.
Defined.
