(* ===== verification/ChainDomain.v ===== *)
(** * chain_domain: the data of the chain

    [internal/chain_domain/types.go] and [validation.go]: the structs every
    other package shares, the header and transaction digests, the transaction
    root, and the validation of blocks, transactions, networks and quorums.
    Each Go struct is a Module with its record [t]; heights, views and [uint64]
    fields are [Z] with their range stated where it matters. *)
From S2P Require Import Prelude Machine GoString GoSort Sha256 PairTree Collision.

(** ** Structs *)
Module Validator.
Record t := mk { Address : string; Power : Z; PublicKey : string }.
End Validator.

Module Network.
Record t := mk { ID : string; Name : string; ChainID : string; Version : Z;
                 Validators : list Validator.t }.
End Network.

Module Tx.
Record t := mk { ID : string; From : string; To : string;
                 Nonce : Z; Fee : Z; Gas : Z;
                 Key : string; Value : string;
                 ExpiresAt : Z; Size : Z; Signature : string }.
(** The zero value of the struct. *)
Definition zero : t := mk "" "" "" 0 0 0 "" "" 0 0 "".
(** [t.ID = id] *)
Definition with_ID (x : t) (id : string) : t :=
  mk id (From x) (To x) (Nonce x) (Fee x) (Gas x) (Key x) (Value x) (ExpiresAt x) (Size x)
     (Signature x).
(** Every integer field is in the range of its Go type. *)
Record typed (x : t) : Prop := {
  typed_Nonce : is_u64 (Nonce x); typed_Fee : is_u64 (Fee x); typed_Gas : is_u64 (Gas x);
  typed_ExpiresAt : is_i64 (ExpiresAt x); typed_Size : is_u32 (Size x) }.
#[global] Instance eq_dec : EqDecision t.
Proof. solve_decision. Defined.
End Tx.

Module Header.
Record t := mk { Height : Z; View : Z; PrevHash : string; StateRoot : string;
                 TxRoot : string; Proposer : string; Timestamp : Z; Version : Z }.
Definition zero : t := mk 0 0 "" "" "" "" 0 0.
(** [func (h Header) Bytes() []byte] *)
Definition Bytes (h : t) : string :=
  bar_join [fmt_d (Height h); fmt_d (View h); PrevHash h; StateRoot h; TxRoot h; Proposer h;
            fmt_d (Timestamp h); fmt_d (Version h)].
(** [func (h Header) Hash() string] *)
Definition Hash `{Hasher} (h : t) : string := hex_digest (Bytes h).
#[global] Instance eq_dec : EqDecision t.
Proof. solve_decision. Defined.
End Header.

Module Vote.
Record t := mk { Validator : string; Height : Z; View : Z; Type_ : string; Signature : string }.
#[global] Instance eq_dec : EqDecision t.
Proof. solve_decision. Defined.
End Vote.

Module Block.
Record t := mk { header : Header.t; Transactions : list Tx.t; Commit : list Vote.t; Hash : string }.
Definition zero : t := mk Header.zero [] [] "".
Definition Height (b : t) : Z := Header.Height (header b).
(** [func (b *Block) ComputeHash() string] *)
Definition ComputeHash `{Hasher} (b : t) : string := Header.Hash (header b).
#[global] Instance eq_dec : EqDecision t.
Proof. solve_decision. Defined.
End Block.

Module Snapshot.
Record t := mk { ID : string; Height : Z; Root : string; Data : gmap string string;
                 CreatedAt : Z; Verified : bool }.
Definition zero : t := mk "" 0 "" ∅ 0 false.
End Snapshot.

(** ** Digests *)

(** [func sha256Hex(b []byte) string] *)
Definition sha256Hex `{Hasher} (s : string) : string := hex_digest s.

(** [func TxHash(t Tx) string] *)
Definition TxHash_input (t : Tx.t) : string :=
  bar_join [Tx.ID t; Tx.From t; Tx.To t; fmt_d (Tx.Nonce t); fmt_d (Tx.Fee t); fmt_d (Tx.Gas t);
            Tx.Key t; Tx.Value t].
Definition TxHash `{Hasher} (t : Tx.t) : string := hex_digest (TxHash_input t).

(** [func MerkleRoot(txs []Tx) string] *)
Definition MerkleRoot `{Hasher} (txs : list Tx.t) : string :=
  match txs with
  | [] => sha256Hex ""
  | _ => let a := TxHash <$> txs in
         nth 0 (pair_levels (λ x y, sha256Hex (x +:+ y)) (length a) a) ""
  end.

(** [func ValidateBlock(b Block, prev *Block) error] *)
Definition ValidateBlock `{Hasher} (b : Block.t) (prev : option Block.t) : error :=
  if decide (Block.Height b = 0) then errors_New "height must be positive" else
  let rest :=
    if decide (Header.TxRoot (Block.header b) ≠ MerkleRoot (Block.Transactions b))
    then errors_New "tx root mismatch" else
    if decide (Block.Hash b = "") then errors_New "missing hash" else nilerr in
  match prev with
  | Some p =>
      if decide (Block.Height b ≠ u64 (Block.Height p + 1))
      then errors_New "height discontinuity" else
      if decide (Header.PrevHash (Block.header b) ≠ Block.Hash p)
      then errors_New "prev hash mismatch" else rest
  | None => rest
  end.

(** [func SortValidators(v []Validator) []Validator]: [sort.Slice] by address on a
    copy; the outcomes it may have. *)
Definition SortValidators (v out : list Validator.t) : Prop :=
  SliceSorted (λ a b, ¬ String.le (Validator.Address b) (Validator.Address a)) v out.

(** ** validation.go *)

(** [func ValidateTx(t Tx) error] *)
Definition ValidateTx (t : Tx.t) : error :=
  if is_blank (Tx.From t) then errors_New "from required" else
  if is_blank (Tx.To t) then errors_New "to required" else
  if decide (Tx.Gas t = 0 ∨ MaxUint32 < Tx.Gas t) then errors_New "invalid gas" else
  if decide (256 < slen (Tx.Key t) ∨ 4096 < slen (Tx.Value t))
  then errors_New "key/value too large" else
  if decide (Tx.Nonce t = MaxUint64) then errors_New "nonce overflow" else nilerr.

(** The loop of [ValidateNetwork]: the running total of the powers. *)
Fixpoint validate_powers (vs : list Validator.t) (total : Z) : error :=
  match vs with
  | [] => nilerr
  | v :: vs =>
      if decide (Validator.Address v = "" ∨ Validator.Power v = 0)
      then errors_New "invalid validator" else
      if decide (u64 (MaxUint64 - total) < Validator.Power v)
      then errors_New "power overflow"
      else validate_powers vs (u64 (total + Validator.Power v))
  end.
(** [func ValidateNetwork(n Network) error] *)
Definition ValidateNetwork (n : Network.t) : error :=
  if decide (Network.ID n = "" ∨ Network.ChainID n = "")
  then errors_New "network identity required" else
  if decide (len (Network.Validators n) = 0) then errors_New "validator set empty" else
  validate_powers (Network.Validators n) 0.

(** [for _, x := range v { p += x.Power }] *)
Definition total_power (v : list Validator.t) : Z :=
  fold_left (λ p x, u64 (p + Validator.Power x)) v 0.
(** [func Quorum(v []Validator) uint64] *)
Definition Quorum (v : list Validator.t) : Z := u64 (u64 (total_power v * 2) / 3 + 1).

(** [powers[x.Address] = x.Power] over the validators. *)
Definition powers (v : list Validator.t) : gmap string Z :=
  fold_left (λ m x, <[Validator.Address x := Validator.Power x]> m) v ∅.
(** The loop over the votes: the power gathered and the validators seen. *)
Definition tally (pw : gmap string Z) (votes : list Vote.t) : Z * gset string :=
  fold_left (λ '(got, seen) x,
    if decide (Vote.Validator x ∈ seen) then (got, seen)
    else (u64 (got + default 0 (pw !! Vote.Validator x)), {[Vote.Validator x]} ∪ seen))
    votes (0, ∅).
(** [func HasQuorum(v []Validator, votes []Vote) bool] *)
Definition HasQuorum (v : list Validator.t) (votes : list Vote.t) : bool :=
  bool_decide (Quorum v ≤ (tally (powers v) votes).1).

(** ** Specification *)

(** The exact power of a set of addresses. *)
Definition power_of (v : list Validator.t) (S : gset string) : Z :=
  Zsum (λ x, if decide (Validator.Address x ∈ S) then Validator.Power x else 0) v.
Definition voters (votes : list Vote.t) : gset string := list_to_set (Vote.Validator <$> votes).
(** A validator set as the program means it: distinct addresses, positive
    powers, and a total whose double fits in 64 bits. *)
Record good_validators (v : list Validator.t) : Prop := {
  good_nodup : NoDup (Validator.Address <$> v);
  good_pos x : x ∈ v → 0 < Validator.Power x;
  good_total : 2 * Zsum Validator.Power v < 18446744073709551616 }.

(** The strings [MerkleRoot] hashes. *)
Definition merkle_inputs `{Hasher} (txs : list Tx.t) : list string :=
  (TxHash_input <$> txs) ++ tree_inputs (length txs) (TxHash <$> txs).

(** ** Lemmas on quorums *)

Section quorum.
Implicit Types (v : list Validator.t) (S : gset string).

Lemma fold_u64 {A} (f : A → Z) l p :
  is_u64 p → fold_left (λ p x, u64 (p + f x)) l p = u64 (p + Zsum f l).
Proof.
  revert p. induction l as [|x l IH]; intros p Hp; simpl.
  - rewrite Z.add_0_r. symmetry. by apply u64_small.
  - rewrite IH by apply u64_range. generalize (f x), (Zsum f l). intros. mlia.
Qed.
Lemma total_power_u64 v : total_power v = u64 (Zsum Validator.Power v).
Proof. unfold total_power. rewrite fold_u64 by mlia. by rewrite Z.add_0_l. Qed.

Lemma power_of_bounds v S :
  (∀ x, x ∈ v → 0 < Validator.Power x) → 0 ≤ power_of v S ≤ Zsum Validator.Power v.
Proof.
  intros Hp. split.
  - apply Zsum_nonneg. intros x Hx. specialize (Hp x Hx). case_decide; lia.
  - apply Zsum_le. intros x Hx. specialize (Hp x Hx). case_decide; lia.
Qed.

Lemma powers_lookup v a :
  NoDup (Validator.Address <$> v) → default 0 (powers v !! a) = power_of v {[a]}.
Proof.
  unfold powers, power_of. intros Hnd.
  enough (∀ m : gmap string Z, (∀ x, x ∈ v → m !! Validator.Address x = None) →
    default 0 (fold_left (λ m x, <[Validator.Address x:=Validator.Power x]> m) v m !! a)
    = default 0 (m !! a) + Zsum (λ x, if decide (Validator.Address x ∈ ({[a]} : gset string))
                                      then Validator.Power x else 0) v) as HH.
  { rewrite HH; [by rewrite lookup_empty|intros; apply lookup_empty]. }
  induction v as [|y v IH]; intros m Hm; simpl; [lia|].
  inv Hnd as [|? ? Hy Hnd']. rewrite IH; [|done|].
  - rewrite lookup_insert. pose proof (Hm y ltac:(left)) as Hmy.
    repeat case_decide; subst; rewrite ?Hmy; simpl; first [lia | exfalso; set_solver].
  - intros x Hx. rewrite lookup_insert_ne; [apply Hm; by right|].
    intros E. apply Hy. rewrite E. by apply list_elem_of_fmap_2.
Qed.

Lemma power_of_add v a S :
  a ∉ S → power_of v ({[a]} ∪ S) = power_of v S + power_of v {[a]}.
Proof.
  intros Ha. unfold power_of. rewrite <- Zsum_add. apply Zsum_ext. intros x _.
  repeat case_decide; first [lia | exfalso; set_solver].
Qed.

Lemma tally_spec v votes :
  NoDup (Validator.Address <$> v) →
  tally (powers v) votes = (u64 (power_of v (voters votes)), voters votes).
Proof.
  intros Hnd. unfold tally, voters.
  induction votes as [|y l IH] using rev_ind; simpl.
  - f_equal. unfold power_of. rewrite Zsum_zero; [done|].
    intros x _. case_decide; [exfalso; set_solver|done].
  - rewrite fold_left_app, IH, fmap_app, list_to_set_app_L. simpl.
    set (S := list_to_set (Vote.Validator <$> l) : gset string).
    case_decide as Hs; [by replace (S ∪ ({[Vote.Validator y]} ∪ ∅)) with S by set_solver|].
    replace (S ∪ ({[Vote.Validator y]} ∪ ∅)) with ({[Vote.Validator y]} ∪ S) by set_solver.
    rewrite powers_lookup, power_of_add by done. f_equal.
    generalize (power_of v S), (power_of v {[Vote.Validator y]}). intros. mlia.
Qed.

Lemma power_of_inter v S1 S2 :
  (∀ x, x ∈ v → 0 < Validator.Power x) →
  power_of v S1 + power_of v S2 ≤ Zsum Validator.Power v + power_of v (S1 ∩ S2).
Proof.
  intros Hp. unfold power_of. rewrite <- !Zsum_add. apply Zsum_le. intros x Hx.
  specialize (Hp x Hx). repeat case_decide; first [lia | exfalso; set_solver].
Qed.

Lemma HasQuorum_two_thirds v votes :
  good_validators v →
  HasQuorum v votes = true ↔ 2 * Zsum Validator.Power v < 3 * power_of v (voters votes).
Proof.
  intros [Hnd Hp Ht]. unfold HasQuorum. rewrite bool_decide_eq_true, tally_spec by done.
  unfold Quorum. rewrite total_power_u64. simpl.
  pose proof (power_of_bounds v (voters votes) Hp). mlia.
Qed.
End quorum.

Lemma validate_powers_spec vs total :
  Forall (λ v, is_u64 (Validator.Power v)) vs → is_u64 total →
  validate_powers vs total = nilerr ↔
    Forall (λ v, Validator.Address v ≠ "" ∧ Validator.Power v ≠ 0) vs ∧
    total + Zsum Validator.Power vs < 18446744073709551616.
Proof.
  revert total. induction vs as [|v vs IH]; intros total Hu Ht; simpl.
  - split; [intros _; split; [constructor|mlia]|done].
  - apply Forall_cons in Hu as [Hv Hu]. rewrite Forall_cons.
    assert (0 ≤ Zsum Validator.Power vs) as Hpos.
    { apply Zsum_nonneg. intros x Hx. rewrite list.Forall_forall in Hu. apply Hu in Hx. mlia. }
    repeat case_decide.
    + split; [done|tauto].
    + split; [done|]. intros (_ & Hlt). exfalso. mlia.
    + rewrite IH by (done || apply u64_range). rewrite u64_small by mlia.
      split; intros [? ?]; split_and!; try tauto; try lia; naive_solver.
Qed.

(** ** Lemmas on digests and roots *)
Section digests.
Context `{HH : Hasher}.


Lemma Header_Bytes_inj h1 h2 :
  no_bar (Header.PrevHash h1) → no_bar (Header.StateRoot h1) →
  no_bar (Header.TxRoot h1) → no_bar (Header.Proposer h1) →
  no_bar (Header.PrevHash h2) → no_bar (Header.StateRoot h2) →
  no_bar (Header.TxRoot h2) → no_bar (Header.Proposer h2) →
  Header.Bytes h1 = Header.Bytes h2 → h1 = h2.
Proof.
  intros. destruct h1, h2. unfold Header.Bytes in *. simpl in *.
  match goal with E : bar_join _ = bar_join _ |- _ => apply bar_join_inj_gen in E; [|done|..] end.
  2, 3: simpl; rewrite !Forall_cons; split_and!; first [done | apply no_bar_fmt | constructor].
  by simplify_eq.
Qed.

Lemma TxHash_digests txs : Forall (λ s, String.length s = 64%nat) (TxHash <$> txs).
Proof. apply Forall_fmap, list.Forall_forall. intros; apply digest_length. Qed.

Lemma MerkleRoot_cons t txs :
  pair_levels hcat (length (t :: txs)) (TxHash <$> (t :: txs)) = [MerkleRoot (t :: txs)].
Proof.
  unfold MerkleRoot. rewrite length_fmap.
  change (λ x y, sha256Hex (x +:+ y)) with hcat.
  destruct (pair_levels_one hcat (length (t :: txs)) (TxHash <$> (t :: txs))) as [r Hr];
    [done|rewrite length_fmap; lia|]. by rewrite Hr.
Qed.

Lemma TxHash_fmap_inputs (txs : list Tx.t) : TxHash <$> txs = hex_digest <$> (TxHash_input <$> txs).
Proof. by rewrite <- list_fmap_compose. Qed.

Lemma MerkleRoot_binding txs1 txs2 :
  length txs1 = length txs2 → MerkleRoot txs1 = MerkleRoot txs2 →
  TxHash_input <$> txs1 = TxHash_input <$> txs2 ∨
  Collision (merkle_inputs txs1) (merkle_inputs txs2).
Proof.
  intros L E. destruct txs1 as [|t1 txs1], txs2 as [|t2 txs2]; try done; [by left|].
  pose proof (MerkleRoot_cons t1 txs1) as E1. pose proof (MerkleRoot_cons t2 txs2) as E2.
  rewrite E, <- E2, <- L in E1.
  apply tree_binding in E1 as [E1|Hc]; try apply TxHash_digests.
  - rewrite !TxHash_fmap_inputs in E1. apply digests_eq in E1 as [E1|Hc]; [by left|right|].
    + eapply Collision_mono; [..|exact Hc]; unfold merkle_inputs; set_solver.
    + by rewrite !length_fmap.
  - right. eapply Collision_mono; [..|exact Hc]; unfold merkle_inputs; rewrite ?L; set_solver.
  - by rewrite !length_fmap.
Qed.

(** A padded level has one root with the level it pads. *)
Lemma MerkleRoot_dup txs t :
  txs ≠ [] → Nat.Even (length txs) → MerkleRoot (txs ++ [t; t]) = MerkleRoot (txs ++ [t]).
Proof.
  intros Hne He. destruct txs as [|u txs]; [done|].
  pose proof (MerkleRoot_cons u (txs ++ [t; t])) as E1.
  pose proof (MerkleRoot_cons u (txs ++ [t])) as E2.
  rewrite !app_comm_cons in E1, E2. rewrite !length_app in E1, E2. cbn [length] in E1, E2.
  enough ([MerkleRoot ((u :: txs) ++ [t; t])] = [MerkleRoot ((u :: txs) ++ [t])]) by congruence.
  rewrite <- E1, <- E2. clear E1 E2.
  set (l := TxHash <$> (u :: txs)).
  assert (length l = S (length txs)) as Hl by (unfold l; by rewrite length_fmap).
  rewrite !fmap_app. fold l.
  change (TxHash <$> [t; t]) with [TxHash t; TxHash t]. change (TxHash <$> [t]) with [TxHash t].
  clearbody l.
  replace (S (length txs) + 2)%nat with (S (S (S (length txs)))) by lia.
  replace (S (length txs) + 1)%nat with (S (S (length txs))) by lia.
  rewrite (pair_levels_S hcat _ (l ++ [_; _])), (pair_levels_S hcat (S _) (l ++ [_])).
  rewrite !decide_True by (rewrite length_app; simpl; lia).
  rewrite pair_level_dup by (by rewrite Hl).
  apply pair_levels_fuel; rewrite ?length_pair_level, ?length_app; cbn [length]; try lia.
  apply pair_level_nonempty. by destruct l.
Qed.

Lemma Header_Hash_binding h1 h2 :
  Forall no_bar [Header.PrevHash h1; Header.StateRoot h1; Header.TxRoot h1; Header.Proposer h1] →
  Forall no_bar [Header.PrevHash h2; Header.StateRoot h2; Header.TxRoot h2; Header.Proposer h2] →
  Header.Hash h1 = Header.Hash h2 →
  h1 = h2 ∨ Collision [Header.Bytes h1] [Header.Bytes h2].
Proof.
  rewrite !Forall_cons. intros (? & ? & ? & ? & _) (? & ? & ? & ? & _) E.
  destruct (digest_eq (Header.Bytes h1) (Header.Bytes h2) [Header.Bytes h1] [Header.Bytes h2])
    as [Eb|Hc]; [by left|by left|done| |by right].
  left. by apply Header_Bytes_inj.
Qed.

Lemma ValidateBlock_iff b prev :
  ValidateBlock b prev = nilerr ↔
    Block.Height b ≠ 0 ∧
    (∀ p, prev = Some p →
       Block.Height b = u64 (Block.Height p + 1) ∧
       Header.PrevHash (Block.header b) = Block.Hash p) ∧
    Header.TxRoot (Block.header b) = MerkleRoot (Block.Transactions b) ∧
    Block.Hash b ≠ "".
Proof.
  unfold ValidateBlock. destruct prev as [p|]; repeat case_decide; split; try done; try tauto.
  all: try (intros (_ & Hp & _); destruct (Hp p eq_refl); tauto).
  all: intros _; split_and!; try done; try tauto; try (intros q [= <-]; tauto).
  all: by apply dec_stable.
Qed.
End digests.

(** ** Properties *)

(** C26: for a validator set with distinct addresses, positive powers and a total power
    below 2^63 (more than [ValidateNetwork] checks), [HasQuorum] accepts exactly
    the vote lists whose distinct validators hold strictly more than two thirds of
    the total power, whatever the duplicates and the votes of strangers in the list. *)
Theorem HasQuorum_iff_two_thirds v votes :
  good_validators v →
  HasQuorum v votes = true ↔ 2 * Zsum Validator.Power v < 3 * power_of v (voters votes).
Proof. apply HasQuorum_two_thirds. Qed.

Definition three_validators : list Validator.t :=
  [Validator.mk "validator-1" 1 ""; Validator.mk "validator-2" 1 ""; Validator.mk "validator-3" 1 ""].
Definition vote_of (a : string) : Vote.t := Vote.mk a 1 0 "precommit" "sig".

Lemma three_validators_good : good_validators three_validators.
Proof.
  split; [|apply (proj1 (list.Forall_forall _ _)); by repeat constructor|by vm_compute].
  apply (bool_decide_unpack _). by vm_compute.
Qed.

Lemma HasQuorum_iff_two_thirds_witness :
  HasQuorum three_validators (vote_of <$> ["validator-1"; "validator-2"; "validator-3"]) = true ↔
  2 * Zsum Validator.Power three_validators <
  3 * power_of three_validators (voters (vote_of <$> ["validator-1"; "validator-2"; "validator-3"])).
Proof. exact (HasQuorum_iff_two_thirds _ _ three_validators_good). Defined.

(** C4: for a validator set with distinct addresses, positive powers and a total power
    below 2^63 (more than [ValidateNetwork] checks), two vote lists that both have
    a quorum share validators holding more than a third of the total power:
    conflicting decisions need that much double voting. *)
Theorem quorum_intersection v votes1 votes2 :
  good_validators v → HasQuorum v votes1 = true → HasQuorum v votes2 = true →
  Zsum Validator.Power v < 3 * power_of v (voters votes1 ∩ voters votes2).
Proof.
  intros Hg H1%HasQuorum_two_thirds H2%HasQuorum_two_thirds; [|done..].
  pose proof (power_of_inter v (voters votes1) (voters votes2) (good_pos v Hg)). lia.
Qed.

Lemma quorum_intersection_witness :
  Zsum Validator.Power three_validators <
  3 * power_of three_validators
        (voters (vote_of <$> ["validator-1"; "validator-2"; "validator-3"]) ∩
         voters (vote_of <$> ["validator-3"; "validator-2"; "validator-1"; "validator-1"])).
Proof.
  apply quorum_intersection; [exact three_validators_good|by vm_compute|by vm_compute].
Defined.

(** C35: without the bound on the total the quorum wraps around: a network that
    [ValidateNetwork] accepts lets a validator with one unit of 2^63 + 1 form a
    quorum alone. *)
Theorem Quorum_overflow :
  ∃ n votes,
    ValidateNetwork n = nilerr ∧ Quorum (Network.Validators n) = 1 ∧
    HasQuorum (Network.Validators n) votes = true ∧
    power_of (Network.Validators n) (voters votes) = 1 ∧
    Zsum Validator.Power (Network.Validators n) = 2 ^ 63 + 1.
Proof.
  exists (Network.mk "local" "net" "vchain-1" 1
            [Validator.mk "whale" 9223372036854775808 ""; Validator.mk "minnow" 1 ""]).
  exists [vote_of "minnow"]. vm_compute. done.
Qed.

(** [ValidateNetwork] accepts exactly the networks with an identity, a
    non-empty validator set of named validators with positive power, and a total
    power that fits in 64 bits. *)
Theorem ValidateNetwork_spec n :
  Forall (λ v, is_u64 (Validator.Power v)) (Network.Validators n) →
  ValidateNetwork n = nilerr ↔
    Network.ID n ≠ "" ∧ Network.ChainID n ≠ "" ∧ Network.Validators n ≠ [] ∧
    Forall (λ v, Validator.Address v ≠ "" ∧ Validator.Power v ≠ 0) (Network.Validators n) ∧
    Zsum Validator.Power (Network.Validators n) < 18446744073709551616.
Proof.
  intros Hu. unfold ValidateNetwork.
  assert (len (Network.Validators n) = 0 ↔ Network.Validators n = []) as Hl.
  { destruct (Network.Validators n); simpl; split; (done || lia). }
  rewrite (decide_ext _ _ _ _ Hl).
  pose proof (validate_powers_spec _ 0 Hu ltac:(mlia)) as HP.
  repeat case_decide; rewrite ?HP; split; try done; try tauto.
Qed.

Lemma ValidateNetwork_spec_witness :
  ValidateNetwork (Network.mk "local" "Verifiable Chain" "vchain-1" 1 three_validators) = nilerr ↔
  "local" ≠ "" ∧ "vchain-1" ≠ "" ∧ three_validators ≠ [] ∧
  Forall (λ v, Validator.Address v ≠ "" ∧ Validator.Power v ≠ 0) three_validators ∧
  Zsum Validator.Power three_validators < 18446744073709551616.
Proof.
  apply (ValidateNetwork_spec (Network.mk "local" "Verifiable Chain" "vchain-1" 1 three_validators)).
  repeat constructor; by vm_compute.
Defined.

(** C33: the header digest commits to the header: two headers whose string fields
    hold no bar and whose [Hash] agree are equal, or their two byte strings are
    a SHA-256 collision. *)
Theorem Header_Hash_binds h1 h2 :
  Forall no_bar [Header.PrevHash h1; Header.StateRoot h1; Header.TxRoot h1; Header.Proposer h1] →
  Forall no_bar [Header.PrevHash h2; Header.StateRoot h2; Header.TxRoot h2; Header.Proposer h2] →
  Header.Hash h1 = Header.Hash h2 →
  h1 = h2 ∨ Collision [Header.Bytes h1] [Header.Bytes h2].
Proof. apply Header_Hash_binding. Qed.

Lemma Header_Hash_binds_witness :
  let h := Header.mk 1 0 "" "state" "txs" "validator-1" 1700000000 1 in
  h = h ∨ Collision [Header.Bytes h] [Header.Bytes h].
Proof.
  intros h. apply (Header_Hash_binds h h); [..|reflexivity];
    apply (bool_decide_unpack _); by vm_compute.
Defined.

(** C32: the transaction root commits to the hashed fields of the transactions: two
    lists of one length with one [MerkleRoot] agree on everything [TxHash]
    hashes, in order, or the two computations exhibit a collision. *)
Theorem MerkleRoot_binds txs1 txs2 :
  length txs1 = length txs2 → MerkleRoot txs1 = MerkleRoot txs2 →
  TxHash_input <$> txs1 = TxHash_input <$> txs2 ∨
  Collision (merkle_inputs txs1) (merkle_inputs txs2).
Proof. apply MerkleRoot_binding. Qed.

Lemma MerkleRoot_binds_witness :
  let l := [Tx.zero; Tx.with_ID Tx.zero "b"; Tx.with_ID Tx.zero "c"] in
  TxHash_input <$> l = TxHash_input <$> l ∨ Collision (merkle_inputs l) (merkle_inputs l).
Proof. intros l. apply (MerkleRoot_binds l l); reflexivity. Defined.

(** The transaction root does not commit to the number of transactions: a
    block with an even, non-zero number of transactions followed by [t], and the
    block where [t] is repeated, have one root, so [ValidateBlock] accepts the
    longer list under the header of the shorter one. *)
Theorem MerkleRoot_duplicate b txs t prev :
  txs ≠ [] → Nat.Even (length txs) → Block.Transactions b = txs ++ [t] →
  MerkleRoot (txs ++ [t; t]) = MerkleRoot (txs ++ [t]) ∧
  ValidateBlock (Block.mk (Block.header b) (txs ++ [t; t]) (Block.Commit b) (Block.Hash b)) prev
  = ValidateBlock b prev.
Proof.
  intros Hne He Hb. pose proof (MerkleRoot_dup txs t Hne He) as E. split; [exact E|].
  unfold ValidateBlock. simpl. by rewrite Hb, E.
Qed.

Lemma MerkleRoot_duplicate_witness :
  let txs := [Tx.with_ID Tx.zero "a"; Tx.with_ID Tx.zero "b"] in
  let t := Tx.with_ID Tx.zero "c" in
  let b := Block.mk Header.zero (txs ++ [t]) [] "h" in
  MerkleRoot (txs ++ [t; t]) = MerkleRoot (txs ++ [t]) ∧
  ValidateBlock (Block.mk Header.zero (txs ++ [t; t]) [] "h") None = ValidateBlock b None.
Proof.
  intros txs t b. apply (MerkleRoot_duplicate b txs t None); [done|by exists 1%nat|reflexivity].
Defined.

(** [ValidateBlock] accepts a block after [prev] exactly when its height is the
    next one, it names the hash of [prev], its transaction root is the root of its
    transactions and its hash is not empty. Nothing ties the hash to the header:
    any other non-empty hash is as good. *)
Theorem ValidateBlock_spec b prev :
  ValidateBlock b prev = nilerr ↔
    Block.Height b ≠ 0 ∧
    (∀ p, prev = Some p →
       Block.Height b = u64 (Block.Height p + 1) ∧
       Header.PrevHash (Block.header b) = Block.Hash p) ∧
    Header.TxRoot (Block.header b) = MerkleRoot (Block.Transactions b) ∧
    Block.Hash b ≠ "".
Proof. apply ValidateBlock_iff. Qed.
