(* ===== verification/GoHeap.v ===== *)
(** * Shared memory: the arrays and maps behind slices and maps

    A Go slice is a window on an array, a Go map a reference to a table: two
    values may share them, and whoever holds one may write it. The heap maps
    addresses to such objects; a slice value is nil or an address with an offset
    and a length. The capacity is not modelled: code outside a component may
    change a whole array it can reach. *)
From S2P Require Import Prelude Machine GoMap ChainDomain.

(** ** Objects and the heap *)
Inductive obj :=
  | OTxs (l : list Tx.t)
  | OVotes (l : list Vote.t)
  | OMap (m : gmap string string).
Abbreviation heap := (gmap nat obj).

(** The types whose arrays are objects. *)
Class Elem (A : Type) := {
  pack : list A → obj;
  unpack : obj → option (list A);
  unpack_pack l : unpack (pack l) = Some l }.
#[export, refine] Instance Elem_Tx : Elem Tx.t :=
  {| pack := OTxs; unpack o := match o with OTxs l => Some l | _ => None end |}.
Proof. done. Defined.
#[export, refine] Instance Elem_Vote : Elem Vote.t :=
  {| pack := OVotes; unpack o := match o with OVotes l => Some l | _ => None end |}.
Proof. done. Defined.

Inductive slice := SNil | Slice (ptr off n : nat).
Definition slice_locs (s : slice) : gset nat :=
  match s with SNil => ∅ | Slice p _ _ => {[p]} end.
(** The elements of a slice. *)
Definition read `{Elem A} (h : heap) (s : slice) : list A :=
  match s with
  | SNil => []
  | Slice p off n => match h !! p ≫= unpack with Some l => take n (drop off l) | None => [] end
  end.
(** A map value: nil, or the address of its table. *)
Definition map_locs (m : option nat) : gset nat := match m with None => ∅ | Some p => {[p]} end.
Definition read_map (h : heap) (m : option nat) : gmap string string :=
  match m ≫= (h !!.) with Some (OMap d) => d | _ => ∅ end.

(** A new object. *)
Definition alloc (h : heap) (o : obj) : heap * nat := let p := fresh (dom h) in (<[p := o]> h, p).
(** [append([]T(nil), s...)]: nil for no elements, otherwise a new array. *)
Definition append_nil `{Elem A} (h : heap) (s : slice) : heap * slice :=
  match read h s with
  | [] => (h, SNil)
  | l => let '(h, p) := alloc h (pack l) in (h, Slice p 0 (length l))
  end.
(** [c := map[string]string{}; for k, v := range m { c[k] = v }] *)
Definition copy_map (h : heap) (m : option nat) : heap * nat := alloc h (OMap (read_map h m)).

(** ** Lemmas *)
Lemma alloc_fresh (h : heap) : h !! fresh (dom h) = None.
Proof. apply not_elem_of_dom, is_fresh. Qed.
Lemma alloc_extends h o : h ⊆ (alloc h o).1.
Proof. apply insert_subseteq, alloc_fresh. Qed.

(** Reading depends on the objects of the value alone: it survives allocation, and
    writes elsewhere. *)
Lemma read_agree `{Elem A} h h' s :
  (∀ l, l ∈ slice_locs s → h' !! l = h !! l) → read (A := A) h' s = read h s.
Proof. destruct s as [|p off n]; [done|]. intros Ha. simpl. by rewrite Ha by set_solver. Qed.
Lemma read_map_agree h h' m :
  (∀ l, l ∈ map_locs m → h' !! l = h !! l) → read_map h' m = read_map h m.
Proof. destruct m as [p|]; [|done]. intros Ha. unfold read_map. simpl. by rewrite Ha by set_solver. Qed.
Lemma read_map_ptr h h' p : h' !! p = h !! p → read_map h' (Some p) = read_map h (Some p).
Proof. intros E. apply read_map_agree. intros l Hl. simpl in Hl. set_solver. Qed.

Lemma agree_extends (h h' : heap) (ls : gset nat) :
  h ⊆ h' → ls ⊆ dom h → ∀ l, l ∈ ls → h' !! l = h !! l.
Proof.
  intros Hs Hd l Hl. destruct (h !! l) as [o|] eqn:E; [by eapply lookup_weaken|].
  apply not_elem_of_dom in E. set_solver.
Qed.

(** What a copy is: the heap only grows, the copy reads the same, and its objects
    are new. *)
Record copied (h h' : heap) (new : gset nat) : Prop := {
  copied_extends : h ⊆ h';
  copied_new : new ## dom h;
  copied_dom : new ⊆ dom h' }.

Lemma copied_refl h : copied h h ∅.
Proof. split; [done|set_solver..]. Qed.
Lemma copied_trans h1 h2 h3 n1 n2 :
  copied h1 h2 n1 → copied h2 h3 n2 → copied h1 h3 (n1 ∪ n2).
Proof.
  intros [E1 N1 D1] [E2 N2 D2]. pose proof (subseteq_dom _ _ E1). pose proof (subseteq_dom _ _ E2).
  split; [by etrans|set_solver..].
Qed.
Lemma alloc_copied h o : copied h (alloc h o).1 {[(alloc h o).2]}.
Proof.
  split; [apply alloc_extends| |].
  - pose proof (is_fresh (dom h)). simpl. set_solver.
  - simpl. rewrite dom_insert. set_solver.
Qed.

Lemma append_nil_copied `{Elem A} h s :
  let '(h', s') := append_nil (A := A) h s in
  copied h h' (slice_locs s') ∧ read (A := A) h' s' = read h s.
Proof.
  unfold append_nil. destruct (read h s) as [|x l] eqn:E; [split; [apply copied_refl|done]|].
  pose proof (alloc_copied h (pack (x :: l))) as Hc. simpl in *. split; [done|].
  rewrite lookup_insert_eq. cbn [mbind option_bind]. rewrite unpack_pack. simpl. by rewrite firstn_all.
Qed.
Lemma copy_map_copied h m :
  let '(h', p) := copy_map h m in
  copied h h' {[p]} ∧ read_map h' (Some p) = read_map h m.
Proof.
  pose proof (alloc_copied h (OMap (read_map h m))) as Hc. unfold copy_map. simpl in *.
  split; [done|]. unfold read_map at 1. simpl. by rewrite lookup_insert_eq.
Qed.
