(* ===== verification/StateMachine.v ===== *)
(** * state_machine/state.go: the key-value state

    The state the transactions write, its root, and its numbered versions. A Go
    map is a [gmap]; every copy loop of the source yields the same map value.
    Each method runs under the mutex of the state, so it is one step. [StateHeap]
    has the maps as references. *)
From S2P Require Import Prelude Machine GoString GoSort GoMap Sha256 Collision ChainDomain.

(** ** Model *)
Module State.
Record t := mk { data : gmap string string; versions : gmap Z (gmap string string) }.
End State.

(** [func New() *State] *)
Definition New : State.t := State.mk ∅ ∅.

(** [func (s *State) Apply(t Tx) error] *)
Definition Apply (s : State.t) (t : Tx.t) : State.t * error :=
  if decide (Tx.Gas t = 0) then (s, errors_New "gas required") else
  if decide (Tx.Key t = "") then (s, errors_New "key required") else
  (State.mk (<[Tx.Key t := Tx.Value t]> (State.data s)) (State.versions s), nilerr).

(** What [fmt.Fprintf(h, "%s=%s;", k, d[k])] writes for the keys in turn. *)
Definition root_input : list string → gmap string string → string := print_entries "=" ";".
(** [func root(d map[string]string) string], the keys ranged in the order [it]. *)
Definition root_from `{Hasher} (it : list string) (d : gmap string string) : string :=
  hex_digest (root_input (insertion_sort it) d).
Definition root `{Hasher} (d : gmap string string) : string := root_from (map_keys d) d.
(** [func (s *State) Root() string] *)
Definition Root `{Hasher} (s : State.t) : string := root (State.data s).

(** [func (s *State) Snapshot(h Height) map[string]string] *)
Definition Snapshot (s : State.t) (h : Z) : State.t * gmap string string :=
  let c := State.data s in (State.mk (State.data s) (<[h := c]> (State.versions s)), c).
(** [func (s *State) Rollback(h Height) error] *)
Definition Rollback (s : State.t) (h : Z) : State.t * error :=
  match State.versions s !! h with
  | None => (s, errors_New "snapshot unavailable")
  | Some d => (State.mk d (State.versions s), nilerr)
  end.
(** [func (s *State) Get(k string) (string, bool)] *)
Definition Get (s : State.t) (k : string) : option string := State.data s !! k.
(** [func (s *State) Data() map[string]string] *)
Definition Data (s : State.t) : gmap string string := State.data s.

(** ** Specification *)

(** Applying transactions one by one, ignoring errors. *)
Definition apply_all (s : State.t) (txs : list Tx.t) : State.t :=
  fold_left (λ s t, (Apply s t).1) txs s.

(** Keys and values whose printed entries can be told apart. *)
Definition clean : gmap string string → Prop := map_Forall (clean_entry "=" ";").

(** ** Lemmas *)
#[export] Instance root_from_proper `{Hasher} : Proper ((≡ₚ) ==> (=) ==> (=)) root_from.
Proof. intros it it' E d _ <-. unfold root_from. by rewrite !insertion_sort_eq, E. Qed.
Lemma root_from_order `{Hasher} it d : ranges it d → root_from it d = root d.
Proof. unfold ranges. by intros ->. Qed.

Lemma root_binding `{Hasher} d1 d2 :
  clean d1 → clean d2 → root d1 = root d2 →
  d1 = d2 ∨ Collision [root_input (sort_Strings (map_keys d1)) d1]
                      [root_input (sort_Strings (map_keys d2)) d2].
Proof.
  intros C1 C2 E. unfold root, root_from in E. rewrite !insertion_sort_eq in E.
  destruct (digest_eq _ _ [root_input (sort_Strings (map_keys d1)) d1]
              [root_input (sort_Strings (map_keys d2)) d2] ltac:(by left) ltac:(by left) E)
    as [Ei|Hc]; [left|by right].
  by apply (print_entries_inj "=" ";").
Qed.

Lemma root_sorted `{Hasher} d keys :
  keys ≡ₚ map_keys d → Sorted String.le keys → root d = hex_digest (root_input keys d).
Proof.
  intros Hp Hs. unfold root, root_from. rewrite insertion_sort_eq.
  by rewrite <- (sort_Strings_unique (map_keys d) keys).
Qed.

Lemma apply_versions s t : State.versions (Apply s t).1 = State.versions s.
Proof. unfold Apply. by repeat case_decide. Qed.
Lemma apply_all_versions s txs : State.versions (apply_all s txs) = State.versions s.
Proof.
  unfold apply_all. revert s. induction txs as [|t txs IH]; intros s; [done|].
  simpl. by rewrite IH, apply_versions.
Qed.

Lemma root_ambiguity `{Hasher} k1 v1 k2 v2 :
  k1 ≠ k2 → String.le k1 k2 →
  root {[k1 := v1 +:+ ";" +:+ k2 +:+ "=" +:+ v2]} = root (<[k1 := v1]> {[k2 := v2]}).
Proof.
  intros Hne Hle. rewrite (root_sorted _ [k1]), (root_sorted _ [k1; k2]).
  - f_equal. simpl. unfold sget. rewrite lookup_singleton_eq, lookup_insert_eq.
    rewrite lookup_insert_ne, lookup_singleton_eq by done. simpl. str_eq.
  - unfold map_keys. rewrite map_to_list_insert, map_to_list_singleton; [done|].
    by apply lookup_singleton_ne.
  - repeat constructor. done.
  - unfold map_keys. by rewrite map_to_list_singleton.
  - repeat constructor.
Qed.

(** ** Properties *)

(** The state root is a function of the contents: the hand-written insertion
    sort makes it independent of the order in which the map is iterated. *)
Theorem root_deterministic d it : ranges it d → root_from it d = root d.
Proof. apply root_from_order. Qed.

Definition demo_data : gmap string string := list_to_map [("b", "2"); ("a", "1"); ("c", "3")].

Lemma root_deterministic_witness : root_from ["c"; "a"; "b"] demo_data = root demo_data.
Proof. apply root_deterministic. apply (bool_decide_unpack _). by vm_compute. Defined.

(** The state root does not commit to the state. The separators are not
    escaped: one key whose value spells out a second entry has the root of the
    state with the two entries. *)
Theorem root_ambiguous k1 v1 k2 v2 :
  k1 ≠ k2 → String.le k1 k2 →
  let d1 := {[k1 := v1 +:+ ";" +:+ k2 +:+ "=" +:+ v2]} in
  let d2 := <[k1 := v1]> {[k2 := v2]} in
  root d1 = root d2 ∧ d1 !! k2 = None ∧ d2 !! k2 = Some v2.
Proof.
  intros Hne Hle d1 d2. split_and!; [by apply root_ambiguity|by apply lookup_singleton_ne|].
  unfold d2. by rewrite lookup_insert_ne, lookup_singleton_eq.
Qed.

Lemma root_ambiguous_witness :
  let d1 := {["a" := "1;b=2"]} in
  let d2 := <["a" := "1"]> {["b" := "2"]} in
  root d1 = root d2 ∧ d1 !! "b" = None ∧ d2 !! "b" = Some "2".
Proof. by apply (root_ambiguous "a" "1" "b" "2"). Defined.

(** C17: on states whose keys hold no [=] and whose values hold no [;] the root does
    commit to the state: equal roots mean equal states, or the two printed states
    are a SHA-256 collision. *)
Theorem root_binds d1 d2 :
  clean d1 → clean d2 → root d1 = root d2 →
  d1 = d2 ∨ Collision [root_input (sort_Strings (map_keys d1)) d1]
                      [root_input (sort_Strings (map_keys d2)) d2].
Proof. apply root_binding. Qed.

Lemma root_binds_witness :
  demo_data = demo_data ∨
  Collision [root_input (sort_Strings (map_keys demo_data)) demo_data]
            [root_input (sort_Strings (map_keys demo_data)) demo_data].
Proof. by apply root_binds; [apply (bool_decide_unpack _); vm_compute..|]. Defined.

(** [Snapshot] then any transactions then [Rollback] to the same height gives
    back the contents, and so the root, of the snapshot; rolling back to a height
    without a version changes nothing and says so. *)
Theorem Rollback_restores s h txs :
  let s1 := (Snapshot s h).1 in
  let s2 := apply_all s1 txs in
  (Rollback s2 h).2 = nilerr ∧
  Data (Rollback s2 h).1 = Data s ∧ Root (Rollback s2 h).1 = Root s ∧
  ∀ g, State.versions s2 !! g = None →
    Rollback s2 g = (s2, errors_New "snapshot unavailable").
Proof.
  cbv zeta. unfold Rollback, Root, Data. rewrite apply_all_versions. simpl.
  rewrite lookup_insert_eq. split_and!; [done..|]. by intros g ->.
Qed.
