(* ===== verification/StateHeap.v ===== *)
(** * state_machine/state.go: the maps of the state in shared memory

    [StateMachine] keeps the entries and the versions as values. In the source they
    are tables: [Apply] writes the table of the entries in place, [Snapshot] copies
    it and both keeps and returns the copy, [Rollback] and [Data] copy. This file
    says when the two agree: always, as long as callers drop what [Snapshot]
    returns, which is what both callers in the repository do; a caller that keeps
    it can rewrite the version that a rollback restores. *)
From S2P Require Import Prelude Machine GoString GoMap ChainDomain GoHeap StateMachine.

(** ** Model *)
Module HState.
Record t := mk { data : nat; versions : gmap Z nat }.
Definition view (h : heap) (s : t) : State.t :=
  State.mk (read_map h (Some (data s))) ((λ p, read_map h (Some p)) <$> versions s).
End HState.

(** [func New() *State] *)
Definition HNew (h : heap) : heap * HState.t :=
  let '(h, p) := alloc h (OMap ∅) in (h, HState.mk p ∅).
(** [func (s *State) Apply(t Tx) error] *)
Definition HApply (h : heap) (s : HState.t) (t : Tx.t) : heap * error :=
  if decide (Tx.Gas t = 0) then (h, errors_New "gas required") else
  if decide (Tx.Key t = "") then (h, errors_New "key required") else
  let d := read_map h (Some (HState.data s)) in
  (<[HState.data s := OMap (<[Tx.Key t := Tx.Value t]> d)]> h, nilerr).
(** [func (s *State) Snapshot(h Height) map[string]string] *)
Definition HSnapshot (h : heap) (s : HState.t) (ht : Z) : heap * HState.t * nat :=
  let '(h, c) := copy_map h (Some (HState.data s)) in
  (h, HState.mk (HState.data s) (<[ht := c]> (HState.versions s)), c).
(** [func (s *State) Rollback(h Height) error] *)
Definition HRollback (h : heap) (s : HState.t) (ht : Z) : heap * HState.t * error :=
  match HState.versions s !! ht with
  | None => (h, s, errors_New "snapshot unavailable")
  | Some d => let '(h, p) := copy_map h (Some d) in (h, HState.mk p (HState.versions s), nilerr)
  end.
(** [func (s *State) Data() map[string]string] *)
Definition HData (h : heap) (s : HState.t) : heap * nat := copy_map h (Some (HState.data s)).

(** ** The state and its callers *)
Module SWorld.
Record t := mk { mem : heap; state : HState.t; known : gset nat }.
Definition init : t := let '(h, s) := HNew ∅ in mk h s ∅.
End SWorld.
Inductive sevent :=
  | SLocal
  | SApply (t : Tx.t) (e : error)
  | SSnapshot (ht : Z) (d : gmap string string)
  | SRollback (ht : Z) (e : error)
  | SData (d : gmap string string).
(** Callers allocate, write what they know and call; they drop the map [Snapshot]
    returns. *)
Inductive sstep : SWorld.t → sevent → SWorld.t → Prop :=
  | s_new h s kn o :
      sstep (SWorld.mk h s kn) SLocal (SWorld.mk (alloc h o).1 s ({[(alloc h o).2]} ∪ kn))
  | s_write h s kn p o : p ∈ kn → sstep (SWorld.mk h s kn) SLocal (SWorld.mk (<[p := o]> h) s kn)
  | s_apply h s kn t h' e :
      HApply h s t = (h', e) → sstep (SWorld.mk h s kn) (SApply t e) (SWorld.mk h' s kn)
  | s_snapshot h s kn ht h' s' c :
      HSnapshot h s ht = (h', s', c) →
      sstep (SWorld.mk h s kn) (SSnapshot ht (read_map h' (Some c))) (SWorld.mk h' s' kn)
  | s_rollback h s kn ht h' s' e :
      HRollback h s ht = (h', s', e) →
      sstep (SWorld.mk h s kn) (SRollback ht e) (SWorld.mk h' s' kn)
  | s_data h s kn h' p :
      HData h s = (h', p) →
      sstep (SWorld.mk h s kn) (SData (read_map h' (Some p))) (SWorld.mk h' s ({[p]} ∪ kn)).
Inductive ssteps : SWorld.t → list sevent → SWorld.t → Prop :=
  | ssteps_nil w : ssteps w [] w
  | ssteps_cons w ev w' evs w'' : sstep w ev w' → ssteps w' evs w'' → ssteps w (ev :: evs) w''.

(** ** Specification: the state of values *)
Inductive vstep : State.t → sevent → State.t → Prop :=
  | v_local s : vstep s SLocal s
  | v_apply s t s' e : Apply s t = (s', e) → vstep s (SApply t e) s'
  | v_snapshot s ht s' d : Snapshot s ht = (s', d) → vstep s (SSnapshot ht d) s'
  | v_rollback s ht s' e : Rollback s ht = (s', e) → vstep s (SRollback ht e) s'
  | v_data s d : Data s = d → vstep s (SData d) s.
Inductive vsteps : State.t → list sevent → State.t → Prop :=
  | vsteps_nil s : vsteps s [] s
  | vsteps_cons s ev s' evs s'' : vstep s ev s' → vsteps s' evs s'' → vsteps s (ev :: evs) s''.

(** ** Lemmas: separation *)
Definition sowned (s : HState.t) (l : nat) : Prop :=
  l = HState.data s ∨ ∃ ht, HState.versions s !! ht = Some l.
Record ssep (w : SWorld.t) : Prop := {
  ss_dom l : sowned (SWorld.state w) l → l ∈ dom (SWorld.mem w);
  ss_owned l : sowned (SWorld.state w) l → l ∉ SWorld.known w;
  ss_known : SWorld.known w ⊆ dom (SWorld.mem w);
  ss_data ht : HState.versions (SWorld.state w) !! ht ≠ Some (HState.data (SWorld.state w)) }.
Definition svalue (w : SWorld.t) : State.t := HState.view (SWorld.mem w) (SWorld.state w).

Lemma sview_agree h h' s :
  (∀ l, sowned s l → h' !! l = h !! l) → HState.view h' s = HState.view h s.
Proof.
  intros Ha. unfold HState.view. f_equal.
  - apply read_map_ptr, Ha. by left.
  - apply map_fmap_ext. intros ht p Hp. apply read_map_ptr, Ha. right. by eexists.
Qed.
(** A copy leaves the state what it is. *)
Lemma sview_copied h s kn h' new :
  ssep (SWorld.mk h s kn) → copied h h' new → HState.view h' s = HState.view h s.
Proof.
  intros Hs C. apply sview_agree. intros l Hl%(ss_dom _ Hs).
  by apply (agree_extends h h' (dom h)); [apply C|..].
Qed.
Lemma ssep_copied h s kn h' new kn' :
  ssep (SWorld.mk h s kn) → copied h h' new → kn' ⊆ kn ∪ new → ssep (SWorld.mk h' s kn').
Proof.
  intros [S1 S2 S3 S4] [C1 C2 C3] Hk. simpl in *. pose proof (subseteq_dom _ _ C1) as Hd.
  split; simpl; [set_solver| |set_solver|done].
  intros l Hl. specialize (S1 l Hl). specialize (S2 l Hl). set_solver.
Qed.
Lemma view_lookup h s ht :
  State.versions (HState.view h s) !! ht = (λ p, read_map h (Some p)) <$> HState.versions s !! ht.
Proof. apply lookup_fmap. Qed.
Lemma read_map_insert h p d : read_map (<[p := OMap d]> h) (Some p) = d.
Proof. unfold read_map. simpl. by rewrite lookup_insert_eq. Qed.

Lemma sim_write h s kn t h' e :
  ssep (SWorld.mk h s kn) → HApply h s t = (h', e) →
  Apply (HState.view h s) t = (HState.view h' s, e) ∧ ssep (SWorld.mk h' s kn).
Proof.
  intros Hs. unfold HApply, Apply. repeat case_decide; intros [= <- <-]; try done.
  split.
  - f_equal. unfold HState.view. rewrite read_map_insert. f_equal. apply map_fmap_ext.
    intros ht p Hp. symmetry. apply read_map_ptr, lookup_insert_ne.
    intros Ep. apply (ss_data _ Hs ht). simpl. by rewrite Hp, Ep.
  - destruct Hs as [S1 S2 S3 S4]. simpl in *. split; simpl; [|done| |done].
    + intros l Hl%S1. rewrite dom_insert. set_solver.
    + rewrite dom_insert. set_solver.
Qed.
Lemma sim_version h s kn ht h' s' c :
  ssep (SWorld.mk h s kn) → HSnapshot h s ht = (h', s', c) →
  Snapshot (HState.view h s) ht = (HState.view h' s', read_map h' (Some c)) ∧
  ssep (SWorld.mk h' s' kn).
Proof.
  intros Hs. unfold HSnapshot, Snapshot.
  pose proof (copy_map_copied h (Some (HState.data s))) as Hc.
  destruct (copy_map h (Some (HState.data s))) as [h1 c1]. destruct Hc as [C R]. intros [= <- <- <-].
  pose proof (sview_copied _ _ _ _ _ Hs C) as Hv. unfold HState.view in *. injection Hv as Hd Hvs.
  simpl. split; [by rewrite fmap_insert, Hd, Hvs, R|].
  destruct (ssep_copied _ _ _ _ _ kn Hs C ltac:(set_solver)) as [S1 S2 S3 S4].
  destruct C as [C1 C2 C3]. pose proof (ss_dom _ Hs) as S0. pose proof (ss_known _ Hs) as S5. simpl in *.
  assert (∀ l, sowned (HState.mk (HState.data s) (<[ht:=c1]> (HState.versions s))) l →
            sowned s l ∨ l = c1) as Ho.
  { intros l [->|[k Hk]]; [left; by left|]. simpl in Hk.
    apply lookup_insert_Some in Hk as [[_ <-]|[_ Hk]]; [by right|]. left. right. by eexists. }
  split; simpl; [|intros l [Hl| ->]%Ho|done|].
  - intros l [Hl| ->]%Ho; [by apply S1|set_solver].
  - by apply S2.
  - set_solver.
  - intros k [[_ ->]|[_ Hk]]%lookup_insert_Some; [|by apply (S4 k)].
    assert (HState.data s ∈ dom h); [|set_solver]. apply S0. by left.
Qed.
Lemma sim_restore h s kn ht h' s' e :
  ssep (SWorld.mk h s kn) → HRollback h s ht = (h', s', e) →
  Rollback (HState.view h s) ht = (HState.view h' s', e) ∧ ssep (SWorld.mk h' s' kn).
Proof.
  intros Hs. unfold HRollback, Rollback. rewrite view_lookup.
  destruct (HState.versions s !! ht) as [d|] eqn:Ed; [|by intros [= <- <- <-]].
  cbn [fmap option_fmap option_map].
  pose proof (copy_map_copied h (Some d)) as Hc. destruct (copy_map h (Some d)) as [h1 p].
  destruct Hc as [C R]. intros [= <- <- <-].
  pose proof (sview_copied _ _ _ _ _ Hs C) as Hv. unfold HState.view in *. injection Hv as Hd Hvs.
  cbn [State.versions HState.data HState.versions]. split; [by rewrite R, Hvs|]. pose proof (ss_dom _ Hs) as S0. pose proof (ss_known _ Hs) as S5.
  destruct (ssep_copied _ _ _ _ _ kn Hs C ltac:(set_solver)) as [S1 S2 S3 S4].
  destruct C as [C1 C2 C3]. simpl in *. split; simpl; [| |done|].
  - intros l [->|[k Hk]]; [set_solver|]. apply S1. right. by eexists.
  - intros l [->|[k Hk]]; [set_solver|]. apply S2. right. by eexists.
  - intros k Hk. assert (p ∈ dom h); [|set_solver]. apply S0. right. by eexists.
Qed.

Lemma sstep_sim w ev w' : ssep w → sstep w ev w' → vstep (svalue w) ev (svalue w') ∧ ssep w'.
Proof.
  intros Hs Hst. unfold svalue. destruct Hst as [h s kn o|h s kn p o Hp|h s kn t h' e E
    |h s kn ht h' s' c E|h s kn ht h' s' e E|h s kn h' p E].
  - pose proof (alloc_copied h o) as C. pose proof (sview_copied _ _ _ _ _ Hs C) as Hv.
    pose proof (ssep_copied _ _ _ _ _ ({[(alloc h o).2]} ∪ kn) Hs C ltac:(set_solver)).
    cbn [SWorld.mem SWorld.state]. rewrite Hv. split; [constructor|done].
  - cbn [SWorld.mem SWorld.state]. rewrite (sview_agree h (<[p := o]> h)); [split; [constructor|]|].
    + destruct Hs as [S1 S2 S3 S4]. simpl in *. split; simpl; try done; set_solver.
    + intros l Hl%(ss_owned _ Hs). rewrite lookup_insert_ne; [done|]. by intros ->.
  - destruct (sim_write _ _ _ _ _ _ Hs E) as [Ea Hs']. split; [by constructor|done].
  - destruct (sim_version _ _ _ _ _ _ _ Hs E) as [Ea Hs']. split; [by constructor|done].
  - destruct (sim_restore _ _ _ _ _ _ _ Hs E) as [Ea Hs']. split; [by constructor|done].
  - unfold HData in E. pose proof (copy_map_copied h (Some (HState.data s))) as Hc. rewrite E in Hc.
    destruct Hc as [C R]. cbn [SWorld.mem SWorld.state]. rewrite (sview_copied _ _ _ _ _ Hs C).
    split; [constructor; by rewrite R|]. eapply ssep_copied; [done..|set_solver].
Qed.
Lemma ssteps_sim w evs w' : ssep w → ssteps w evs w' → vsteps (svalue w) evs (svalue w').
Proof.
  intros Hs Hst. induction Hst as [w|w ev w' evs w'' H1 _ IH]; [constructor|].
  destruct (sstep_sim _ _ _ Hs H1) as [Ha Hs']. econstructor; [done|]. by apply IH.
Qed.
Lemma sinit_ssep : ssep SWorld.init.
Proof.
  split; simpl; [| |set_solver|intros ht; by rewrite lookup_empty].
  - intros l [->|[k Hk]]; simpl in *; [rewrite dom_insert; set_solver|by rewrite lookup_empty in Hk].
  - intros l _. set_solver.
Qed.

(** ** Properties *)

(** C20: the state in shared memory behaves like the state of values, whatever its
    callers do to the maps they hold, as long as they drop those that [Snapshot]
    returns: rollback restores exactly the entries of the snapshot. *)
Theorem State_detached evs w :
  ssteps SWorld.init evs w → vsteps StateMachine.New evs (svalue w).
Proof.
  intros Hw. apply (ssteps_sim _ _ _ sinit_ssep) in Hw.
  assert (svalue SWorld.init = StateMachine.New) as <-; [|exact Hw].
  unfold svalue, HState.view. simpl. by rewrite fmap_empty.
Qed.

(** The map that [Snapshot] returns is the stored version itself: a caller that
    overwrites it decides what a rollback to that height restores, whatever the
    entries were. *)
Theorem Snapshot_escapes h s ht m :
  let '(h', s', c) := HSnapshot h s ht in
  let '(h'', s'', e) := HRollback (<[c := OMap m]> h') s' ht in
  e = nilerr ∧ State.data (HState.view h'' s'') = m.
Proof.
  unfold HSnapshot. destruct (copy_map h (Some (HState.data s))) as [h1 c]. unfold HRollback. cbn [HState.versions].
  rewrite lookup_insert_eq. pose proof (copy_map_copied (<[c:=OMap m]> h1) (Some c)) as Hc.
  destruct (copy_map (<[c:=OMap m]> h1) (Some c)) as [h2 p]. destruct Hc as [_ R].
  split; [done|]. unfold HState.view. cbn [State.data HState.data]. by rewrite R, read_map_insert.
Qed.

(** ** Witness: apply, snapshot, apply again, roll back *)
Definition sw1 : SWorld.t := SWorld.init.
Definition put_tx (v : string) : Tx.t := Tx.mk "t" "alice" "bob" 1 7 21000 "colour" v 0 50 "".
Definition apply_world (w : SWorld.t) (t : Tx.t) : SWorld.t :=
  SWorld.mk (HApply (SWorld.mem w) (SWorld.state w) t).1 (SWorld.state w) (SWorld.known w).
Definition snapshot_world (w : SWorld.t) (ht : Z) : SWorld.t :=
  let '(h, s, _) := HSnapshot (SWorld.mem w) (SWorld.state w) ht in SWorld.mk h s (SWorld.known w).
Definition rollback_world (w : SWorld.t) (ht : Z) : SWorld.t :=
  let '(h, s, _) := HRollback (SWorld.mem w) (SWorld.state w) ht in SWorld.mk h s (SWorld.known w).
Definition sw4 : SWorld.t := apply_world (snapshot_world (apply_world sw1 (put_tx "blue")) 1) (put_tx "red").
Definition sw5 : SWorld.t := rollback_world sw4 1.
Lemma apply_world_step w t :
  sstep w (SApply t (HApply (SWorld.mem w) (SWorld.state w) t).2) (apply_world w t).
Proof. destruct w as [h s kn]. apply s_apply, surjective_pairing. Qed.
Lemma snapshot_world_step w ht :
  let '(h, s, c) := HSnapshot (SWorld.mem w) (SWorld.state w) ht in
  sstep w (SSnapshot ht (read_map h (Some c))) (snapshot_world w ht).
Proof.
  destruct w as [h s kn]. unfold snapshot_world. cbn [SWorld.mem SWorld.state SWorld.known].
  destruct (HSnapshot h s ht) as [[h' s'] c] eqn:E. by apply s_snapshot.
Qed.
Lemma rollback_world_step w ht :
  sstep w (SRollback ht (HRollback (SWorld.mem w) (SWorld.state w) ht).2) (rollback_world w ht).
Proof.
  destruct w as [h s kn]. unfold rollback_world. cbn [SWorld.mem SWorld.state SWorld.known].
  destruct (HRollback h s ht) as [[h' s'] e] eqn:E. by apply s_rollback.
Qed.
Definition demo_sevents : list sevent :=
  [SApply (put_tx "blue") nilerr; SSnapshot 1 {["colour" := "blue"]}; SApply (put_tx "red") nilerr;
   SRollback 1 nilerr].
Lemma sw5_steps : ssteps SWorld.init demo_sevents sw5.
Proof.
  eapply ssteps_cons; [exact (apply_world_step sw1 (put_tx "blue"))|].
  eapply ssteps_cons; [exact (snapshot_world_step (apply_world sw1 (put_tx "blue")) 1)|].
  eapply ssteps_cons; [exact (apply_world_step _ (put_tx "red"))|].
  eapply ssteps_cons; [exact (rollback_world_step sw4 1)|]. apply ssteps_nil.
Qed.
Lemma State_detached_witness : vsteps StateMachine.New demo_sevents (svalue sw5).
Proof. apply (State_detached demo_sevents sw5 sw5_steps). Defined.
Example sw5_value : State.data (svalue sw5) !! "colour" = Some "blue".
Proof. by vm_compute. Qed.
