(* ===== verification/Executor.v ===== *)
(** * state_machine/executor.go: executing batches of transactions

    [Execute] under its gas budget, [ValidateBatch], [ApplyWithRollback] and the
    reports of an executor. The
    executor holds a pointer to the state, so each method takes the state and
    returns the new one; the elapsed time it reports is an argument. *)
From S2P Require Import Prelude Machine GoString GoTime GoSort GoMap Sha256 ChainDomain StateMachine.

(** ** Model *)
Module Result.
Record t := mk { Applied : Z; Failed : Z; GasUsed : Z; Root : string; Duration : Z;
                 Errors : list string }.
Definition zero : t := mk 0 0 0 "" 0 [].
(** [r.Failed++; r.Errors = append(r.Errors, e)] *)
Definition fail (r : t) (e : string) : t :=
  mk (Applied r) (Failed r + 1) (GasUsed r) (Root r) (Duration r) (Errors r ++ [e]).
(** [r.Applied++; r.GasUsed += gas] *)
Definition apply (r : t) (gas : Z) : t :=
  mk (Applied r + 1) (Failed r) (u64 (GasUsed r + gas)) (Root r) (Duration r) (Errors r).
End Result.

(** [NewExecutor]'s budget. *)
Definition DefaultMaxGas : Z := 10000000.

(** The body of the loop of [Execute]. *)
Definition execute_one (MaxGas : Z) (rs : Result.t * State.t) (t : Tx.t) : Result.t * State.t :=
  let '(r, s) := rs in
  if decide (u64 (MaxGas - Result.GasUsed r) < Tx.Gas t) then (Result.fail r "gas limit", s) else
  match ValidateTx t with
  | Some e => (Result.fail r e, s)
  | None =>
      match Apply s t with
      | (s', Some e) => (Result.fail r e, s')
      | (s', None) => (Result.apply r (Tx.Gas t), s')
      end
  end.
#[local] Arguments execute_one : simpl never.
(** [func (x *Executor) Execute(txs []Tx) Result] *)
Definition Execute `{Hasher} (MaxGas elapsed : Z) (s : State.t) (txs : list Tx.t)
  : Result.t * State.t :=
  let '(r, s') := fold_left (execute_one MaxGas) txs (Result.zero, s) in
  (Result.mk (Result.Applied r) (Result.Failed r) (Result.GasUsed r) (Root s') elapsed
     (Result.Errors r), s').
(** [func (x *Executor) Estimate(t Tx) uint64] *)
Definition Estimate (t : Tx.t) : Z := if decide (Tx.Gas t = 0) then 21000 else Tx.Gas t.
(** The loop of [ValidateBatch]. *)
Fixpoint distinct_ids (seen : gset string) (txs : list Tx.t) : error :=
  match txs with
  | [] => nilerr
  | t :: txs => if decide (Tx.ID t ∈ seen) then errors_New "duplicate tx"
                else distinct_ids ({[Tx.ID t]} ∪ seen) txs
  end.
(** [func (x *Executor) ValidateBatch(txs []Tx) error] *)
Definition ValidateBatch (txs : list Tx.t) : error :=
  if decide (4096 < len txs) then errors_New "batch too large" else distinct_ids ∅ txs.
(** [func (x *Executor) ApplyWithRollback(h Height, txs []Tx) (Result, error)], by the only
    caller of the state: the code locks each of the calls, not the three together. *)
Definition ApplyWithRollback `{Hasher} (MaxGas elapsed : Z) (s : State.t) (h : Z)
  (txs : list Tx.t) : (Result.t * error) * State.t :=
  let s1 := (Snapshot s h).1 in
  let '(r, s2) := Execute MaxGas elapsed s1 txs in
  if decide (0 < Result.Failed r) then
    let '(s3, e) := Rollback s2 h in ((r, e), s3)
  else ((r, nilerr), s2).
(** [func (r Result) String() string] *)
Definition String_ (r : Result.t) : string :=
  "applied=" +:+ fmt_d (Result.Applied r) +:+ " failed=" +:+ fmt_d (Result.Failed r) +:+
  " gas=" +:+ fmt_d (Result.GasUsed r) +:+ " root=" +:+ Result.Root r +:+
  " duration=" +:+ Duration_String (Result.Duration r).
(** [func (x *Executor) Health() map[string]interface{}], with its three entries *)
Inductive value := Uint64 (n : Z) | Str (s : string) | Moment (t : Z).
Definition Health `{Hasher} (MaxGas : Z) (s : State.t) (now : Z) : gmap string value :=
  {[ "max_gas" := Uint64 MaxGas; "state_root" := Str (Root s); "checked_at" := Moment now ]}.

(** ** Specification *)

(** A transaction that passes every check but the budget. *)
Definition admissible (t : Tx.t) : Prop := ValidateTx t = nilerr ∧ Tx.Key t ≠ "".
#[export] Instance admissible_dec t : Decision (admissible t).
Proof. unfold admissible. apply _. Defined.

(** The reference executor: the accepted transactions are those that are
    admissible and still fit the exact remaining budget. *)
Fixpoint accepted (budget : Z) (txs : list Tx.t) : list Tx.t :=
  match txs with
  | [] => []
  | t :: txs =>
      if decide (Tx.Gas t ≤ budget ∧ admissible t)
      then t :: accepted (budget - Tx.Gas t) txs else accepted budget txs
  end.
Definition write (d : gmap string string) (t : Tx.t) : gmap string string :=
  <[Tx.Key t := Tx.Value t]> d.

(** ** Lemmas *)
Lemma ValidateTx_gas t : ValidateTx t = nilerr → Tx.Gas t ≠ 0 ∧ Tx.Gas t ≤ MaxUint32.
Proof. unfold ValidateTx. repeat case_match; try done. intros _. lia. Qed.

Lemma Apply_admissible s t :
  admissible t → Apply s t = (State.mk (write (State.data s) t) (State.versions s), nilerr).
Proof.
  intros [Hv Hk]. apply ValidateTx_gas in Hv as [Hg _]. unfold Apply.
  by rewrite !decide_False.
Qed.
Lemma Apply_keyless s t :
  ValidateTx t = nilerr → Tx.Key t = "" → Apply s t = (s, errors_New "key required").
Proof.
  intros [Hg _]%ValidateTx_gas Hk. unfold Apply. by rewrite decide_False, decide_True.
Qed.

(** One turn of the loop, by the two outcomes it can have. *)
Lemma execute_one_cases MaxGas r s t :
  is_u64 MaxGas → 0 ≤ Result.GasUsed r ≤ MaxGas → 0 ≤ Tx.Gas t →
  (Tx.Gas t ≤ MaxGas - Result.GasUsed r ∧ admissible t ∧
   execute_one MaxGas (r, s) t =
     (Result.apply r (Tx.Gas t), State.mk (write (State.data s) t) (State.versions s)) ∧
   Result.GasUsed (Result.apply r (Tx.Gas t)) = Result.GasUsed r + Tx.Gas t) ∨
  (¬ (Tx.Gas t ≤ MaxGas - Result.GasUsed r ∧ admissible t) ∧
   ∃ e, execute_one MaxGas (r, s) t = (Result.fail r e, s)).
Proof.
  intros Hm Hr Ht. unfold execute_one. rewrite u64_small by mlia.
  case_decide; [right; split; [lia|by eexists]|].
  destruct (ValidateTx t) as [e|] eqn:Hv.
  { right. split; [by intros [_ [? _]]; congruence|by eexists]. }
  destruct (decide (Tx.Key t = "")) as [Hk|Hk].
  - rewrite Apply_keyless by done. right. split; [by intros [_ [_ ?]]|by eexists].
  - rewrite Apply_admissible by done. left. split; [lia|]. split; [done|]. split; [done|].
    unfold Result.apply. simpl. rewrite u64_small by mlia. done.
Qed.

Lemma execute_fold MaxGas txs r s :
  is_u64 MaxGas → 0 ≤ Result.GasUsed r ≤ MaxGas → Forall (λ t, 0 ≤ Tx.Gas t) txs →
  let acc := accepted (MaxGas - Result.GasUsed r) txs in
  ∃ r' , fold_left (execute_one MaxGas) txs (r, s) =
    (r', State.mk (fold_left write acc (State.data s)) (State.versions s)) ∧
    Result.Applied r' = Result.Applied r + len acc ∧
    Result.Failed r' = Result.Failed r + (len txs - len acc) ∧
    Result.GasUsed r' = Result.GasUsed r + Zsum Tx.Gas acc ∧
    Result.GasUsed r' ≤ MaxGas ∧
    len (Result.Errors r') = len (Result.Errors r) + (len txs - len acc).
Proof.
  intros Hm. revert r s. induction txs as [|t txs IH]; intros r s Hr Ht; cbv zeta.
  - exists r. simpl. destruct s. split_and!; try lia. done.
  - apply Forall_cons in Ht as [Ht Hts]. simpl.
    destruct (execute_one_cases MaxGas r s t Hm Hr Ht)
      as [(Hg & Ha & -> & HG)|(Hn & e & ->)].
    + rewrite decide_True by done.
      destruct (IH (Result.apply r (Tx.Gas t))
                  (State.mk (write (State.data s) t) (State.versions s)))
        as (r' & E & H1 & H2 & H3 & H4 & H5); [lia|done|].
      rewrite HG in *. rewrite Z.sub_add_distr in *.
      exists r'. rewrite E. simpl in *. split_and!; [done|lia..].
    + rewrite decide_False by done.
      destruct (IH (Result.fail r e) s) as (r' & E & H1 & H2 & H3 & H4 & H5); [done|done|].
      exists r'. rewrite E. simpl in *. rewrite length_app in H5. simpl in H5.
      split_and!; [done|lia..].
Qed.

Lemma execute_spec `{Hasher} MaxGas elapsed s txs :
  is_u64 MaxGas → Forall (λ t, 0 ≤ Tx.Gas t) txs →
  let acc := accepted MaxGas txs in
  let '(r, s') := Execute MaxGas elapsed s txs in
  State.data s' = fold_left write acc (State.data s) ∧
  State.versions s' = State.versions s ∧
  Result.Applied r = len acc ∧ Result.Failed r = len txs - len acc ∧
  Result.GasUsed r = Zsum Tx.Gas acc ∧ Result.GasUsed r ≤ MaxGas ∧
  len (Result.Errors r) = Result.Failed r ∧ Result.Root r = Root s'.
Proof.
  intros Hm Ht. cbv zeta. unfold Execute.
  destruct (execute_fold MaxGas txs Result.zero s Hm) as (r' & -> & H1 & H2 & H3 & H4 & H5);
    [simpl; mlia|done|].
  simpl in *. rewrite Z.sub_0_r in *. split_and!; (done || lia).
Qed.

Lemma accepted_length b txs : len (accepted b txs) ≤ len txs.
Proof. revert b. induction txs as [|t txs IH]; intros b; simpl; [lia|]. case_decide; simpl; [specialize (IH (b - Tx.Gas t))|specialize (IH b)]; lia. Qed.
Lemma accepted_all b txs : len (accepted b txs) = len txs → accepted b txs = txs.
Proof.
  revert b. induction txs as [|t txs IH]; intros b; simpl; [done|]. case_decide; simpl.
  - intros. f_equal. apply IH. lia.
  - pose proof (accepted_length b txs). lia.
Qed.

Lemma distinct_ids_spec seen txs :
  distinct_ids seen txs = nilerr ↔
    NoDup (Tx.ID <$> txs) ∧ ∀ t, t ∈ txs → Tx.ID t ∉ seen.
Proof.
  revert seen. induction txs as [|t txs IH]; intros seen; csimpl.
  - split; [|done]. split; [constructor|]. intros t Ht. by apply elem_of_nil in Ht.
  - rewrite NoDup_cons, list_elem_of_fmap. case_decide as Hs.
    + split; [done|]. intros (_ & H). by destruct (H t ltac:(left)).
    + rewrite IH. split.
      * intros [Hn H]. split_and!; [|done|].
        -- intros (u & Hu & Hin). specialize (H u Hin). set_solver.
        -- intros u [->|Hu]%elem_of_cons; [done|]. specialize (H u Hu). set_solver.
      * intros [[Hn1 Hn2] H]. split; [done|]. intros u Hu.
        rewrite not_elem_of_union, not_elem_of_singleton. split; [naive_solver|].
        apply H. by right.
Qed.

(** ** Properties *)

(** C7: [Execute] implements the reference executor: it writes the transactions
    that are admissible and fit the remaining gas, in order, and only those; the
    counts add up to the batch, the gas used is their exact sum and never exceeds
    the budget (the unsigned subtraction never wraps), each failure has its error,
    and the root reported is the root of the resulting state. *)
Theorem Execute_refines MaxGas elapsed s txs :
  is_u64 MaxGas → Forall (λ t, 0 ≤ Tx.Gas t) txs →
  let acc := accepted MaxGas txs in
  let '(r, s') := Execute MaxGas elapsed s txs in
  State.data s' = fold_left write acc (State.data s) ∧
  State.versions s' = State.versions s ∧
  Result.Applied r = len acc ∧ Result.Failed r = len txs - len acc ∧
  Result.GasUsed r = Zsum Tx.Gas acc ∧ Result.GasUsed r ≤ MaxGas ∧
  len (Result.Errors r) = Result.Failed r ∧ Result.Root r = Root s'.
Proof. apply execute_spec. Qed.

Definition tx_demo (gas : Z) (key value : string) : Tx.t :=
  Tx.mk key "alice" "state" 1 2 gas key value 0 0 "".
Definition batch_demo : list Tx.t :=
  [tx_demo 600 "a" "1"; tx_demo 600 "b" "2"; tx_demo 400 "" "3"; tx_demo 400 "c" "4"].

Lemma Execute_refines_witness :
  let acc := accepted 1000 batch_demo in
  let '(r, s') := Execute 1000 7 New batch_demo in
  State.data s' = fold_left write acc (State.data New) ∧
  State.versions s' = State.versions New ∧
  Result.Applied r = len acc ∧ Result.Failed r = len batch_demo - len acc ∧
  Result.GasUsed r = Zsum Tx.Gas acc ∧ Result.GasUsed r ≤ 1000 ∧
  len (Result.Errors r) = Result.Failed r ∧ Result.Root r = Root s'.
Proof.
  apply (Execute_refines 1000 7 New batch_demo);
    [by vm_compute|repeat constructor; by vm_compute].
Defined.

(** C21: [ApplyWithRollback], while nobody else uses the state, is all or nothing: it never returns an error; either no
    transaction failed and the whole batch is applied in order, or the contents
    are those before the call. *)
Theorem ApplyWithRollback_atomic MaxGas elapsed s h txs :
  is_u64 MaxGas → Forall (λ t, 0 ≤ Tx.Gas t) txs →
  let '((r, e), s') := ApplyWithRollback MaxGas elapsed s h txs in
  e = nilerr ∧
  ((Result.Failed r = 0 ∧ Data s' = fold_left write txs (Data s)) ∨
   (0 < Result.Failed r ∧ Data s' = Data s)).
Proof.
  intros Hm Ht. unfold ApplyWithRollback.
  pose proof (execute_spec MaxGas elapsed (Snapshot s h).1 txs Hm Ht) as Hx. cbv zeta in Hx.
  destruct (Execute MaxGas elapsed (Snapshot s h).1 txs) as [r s2].
  destruct Hx as (Hd & Hver & Ha & Hf & _). pose proof (accepted_length MaxGas txs).
  case_decide.
  - unfold Rollback. rewrite Hver. simpl. rewrite lookup_insert_eq. simpl. auto.
  - split; [done|left]. split; [lia|]. unfold Data. rewrite Hd, accepted_all by lia. done.
Qed.

Lemma ApplyWithRollback_atomic_witness :
  let '((r, e), s') := ApplyWithRollback 1000 7 New 5 batch_demo in
  e = nilerr ∧
  ((Result.Failed r = 0 ∧ Data s' = fold_left write batch_demo (Data New)) ∨
   (0 < Result.Failed r ∧ Data s' = Data New)).
Proof.
  apply (ApplyWithRollback_atomic 1000 7 New 5 batch_demo);
    [by vm_compute|repeat constructor; by vm_compute].
Defined.

(** With others it is not: what another caller applies between the batch and the roll
    back is undone with it, and with it whatever the batch had done. *)
Theorem ApplyWithRollback_undoes_others MaxGas elapsed s h txs others :
  is_u64 MaxGas → Forall (λ t, 0 ≤ Tx.Gas t) txs →
  let s2 := (Execute MaxGas elapsed (Snapshot s h).1 txs).2 in
  Data (Rollback (apply_all s2 others) h).1 = Data s.
Proof.
  intros Hm Ht. pose proof (execute_spec MaxGas elapsed (Snapshot s h).1 txs Hm Ht) as Hx. cbv zeta in Hx |- *.
  destruct (Execute MaxGas elapsed (Snapshot s h).1 txs) as [r s2]. destruct Hx as (_ & Hver & _).
  unfold Rollback. rewrite apply_all_versions. simpl. rewrite Hver. simpl. by rewrite lookup_insert_eq.
Qed.

(** [ValidateBatch] accepts exactly the batches of at most 4096 transactions
    with distinct identifiers. *)
Theorem ValidateBatch_spec txs :
  ValidateBatch txs = nilerr ↔ len txs ≤ 4096 ∧ NoDup (Tx.ID <$> txs).
Proof.
  unfold ValidateBatch. case_decide; [split; [done|lia]|].
  rewrite distinct_ids_spec. split; [intros [? _]; split; [lia|done]|].
  intros [_ ?]. split; [done|]. intros; apply not_elem_of_empty.
Qed.
