(* ===== verification/SnapshotCatalog.v ===== *)
(** * state_machine/snapshot.go: the catalog of snapshots

    [SnapshotRecord], the bounded [Catalog] and the checksum of the entries.
    Every method holds the catalog's lock, so it is one step on the catalog. *)
From S2P Require Import Prelude Machine GoString GoSort GoMap Sha256 Collision.

(** ** Model *)
Module SnapshotRecord.
Record t := mk { ID : string; Height : Z; Root : string; Entries : gmap string string;
                 Size : Z; Checksum : string; CreatedAt : Z; Verified : bool }.
(** [s.Verified = b] *)
Definition set_Verified (s : t) (b : bool) : t :=
  mk (ID s) (Height s) (Root s) (Entries s) (Size s) (Checksum s) (CreatedAt s) b.
(** [func (s SnapshotRecord) Valid() bool] *)
Definition Valid (s : t) : bool :=
  bool_decide (ID s ≠ "" ∧ 0 < Height s ∧ Root s ≠ "" ∧ Checksum s ≠ "").
(** [func (s SnapshotRecord) Keys() []string] *)
Definition Keys (s : t) : list string := sort_Strings (map_keys (Entries s)).
(** [func (s SnapshotRecord) Read(k string) (string, bool)] *)
Definition Read (s : t) (k : string) : option string := Entries s !! k.
End SnapshotRecord.

Module Catalog.
Record t := mk { items : gmap string SnapshotRecord.t; max : Z }.
End Catalog.

(** [func NewCatalog(max int) *Catalog] *)
Definition NewCatalog (max : Z) : Catalog.t := Catalog.mk ∅ max.
(** [func (c *Catalog) Put(s SnapshotRecord) error] *)
Definition Put (c : Catalog.t) (s : SnapshotRecord.t) : Catalog.t * error :=
  if decide (Catalog.max c ≤ Z.of_nat (size (Catalog.items c)))
  then (c, errors_New "snapshot catalog full")
  else (Catalog.mk (<[SnapshotRecord.ID s := s]> (Catalog.items c)) (Catalog.max c), nilerr).
(** [func (c *Catalog) Get(id string) (SnapshotRecord, bool)] *)
Definition Get (c : Catalog.t) (id : string) : option SnapshotRecord.t := Catalog.items c !! id.
(** [func (c *Catalog) List() []SnapshotRecord]: the items in the order [it] of the
    range, sorted by falling height. *)
Definition height_ge (a b : SnapshotRecord.t) : Prop :=
  SnapshotRecord.Height b ≤ SnapshotRecord.Height a.
#[export] Instance height_ge_dec a b : Decision (height_ge a b).
Proof. unfold height_ge. apply _. Defined.
Definition List (it : list string) (c : Catalog.t) : list SnapshotRecord.t :=
  isort height_ge (omap (λ k, Catalog.items c !! k) it).

(** The bytes [checksum] writes: a NUL ends each key and each value. *)
Definition NUL : ascii := "000".
Definition checksum_input (it : list string) (d : gmap string string) : string :=
  print_entries NUL NUL (sort_Strings it) d.
(** [func checksum(d map[string]string) string] *)
Definition checksum `{Hasher} (d : gmap string string) : string :=
  hex_digest (checksum_input (map_keys d) d).
(** [func (c *Catalog) Verify(id string) bool] *)
Definition Verify `{Hasher} (c : Catalog.t) (id : string) : Catalog.t * bool :=
  match Catalog.items c !! id with
  | None => (c, false)
  | Some s =>
      let s := SnapshotRecord.set_Verified s
                 (bool_decide (checksum (SnapshotRecord.Entries s) = SnapshotRecord.Checksum s)) in
      (Catalog.mk (<[id := s]> (Catalog.items c)) (Catalog.max c), SnapshotRecord.Verified s)
  end.
(** [func MakeSnapshot(id string, h Height, d map[string]string) SnapshotRecord],
    at the instant [now]. *)
Definition MakeSnapshot `{Hasher} (now : Z) (id : string) (h : Z) (d : gmap string string)
  : SnapshotRecord.t :=
  SnapshotRecord.mk id h (checksum d) d (Z.of_nat (size d)) (checksum d) now false.

(** ** Specification *)

(** The catalog is keyed by the identifiers of its records and within its bound. *)
Record well_formed (c : Catalog.t) : Prop := {
  wf_keyed id s : Catalog.items c !! id = Some s → SnapshotRecord.ID s = id;
  wf_bound : Z.of_nat (size (Catalog.items c)) ≤ Z.max 0 (Catalog.max c) }.

(** ** Lemmas *)
#[export] Instance checksum_input_proper : Proper ((≡ₚ) ==> (=) ==> (=)) checksum_input.
Proof. intros it it' E d _ <-. unfold checksum_input. by rewrite E. Qed.
Lemma checksum_order `{Hasher} it d : ranges it d → hex_digest (checksum_input it d) = checksum d.
Proof. unfold ranges. by intros ->. Qed.

#[export] Instance height_ge_total : Total height_ge.
Proof. intros a b. unfold height_ge. lia. Qed.

Lemma Put_wf c s : well_formed c → well_formed (Put c s).1.
Proof.
  intros [Hk Hb]. unfold Put. case_decide as Hfull; [done|]. split; simpl.
  - intros id r. rewrite lookup_insert. case_decide; [naive_solver|apply Hk].
  - pose proof (map_size_insert_le (Catalog.items c) (SnapshotRecord.ID s) s). lia.
Qed.
Lemma Verify_wf `{Hasher} c id : well_formed c → well_formed (Verify c id).1.
Proof.
  intros [Hk Hb]. unfold Verify. destruct (Catalog.items c !! id) as [s|] eqn:E; [|done].
  split; simpl.
  - intros i r. rewrite lookup_insert. case_decide; [|apply Hk]. intros [= <-]. subst.
    simpl. by apply Hk.
  - by rewrite map_size_insert_Some by (by eexists).
Qed.

(** ** Properties *)

(** The catalog stays keyed by identifier and within its bound under [Put] and
    [Verify]; [Put] fails exactly when the catalog is full. *)
Theorem Catalog_invariant c s id :
  well_formed c →
  well_formed (Put c s).1 ∧ well_formed (Verify c id).1 ∧
  ((Put c s).2 = nilerr ↔ Z.of_nat (size (Catalog.items c)) < Catalog.max c).
Proof.
  intros Hc. split_and!; [by apply Put_wf|by apply Verify_wf|].
  unfold Put. case_decide; simpl; split; (done || lia).
Qed.

(** C38: [Verify] is sound and complete for snapshots made by [MakeSnapshot]: a
    record found under its identifier whose checksum was computed from [d] is
    verified exactly when its entries still are [d], unless the two printed maps
    collide; entries with NUL bytes are outside the guarantee. Only the flag of
    that record changes. *)
Theorem Verify_detects_tampering c id s d :
  Catalog.items c !! id = Some s →
  SnapshotRecord.Checksum s = checksum d →
  map_Forall (clean_entry NUL NUL) (SnapshotRecord.Entries s) →
  map_Forall (clean_entry NUL NUL) d →
  let '(c', b) := Verify c id in
  (SnapshotRecord.Entries s = d → b = true) ∧
  (b = true → SnapshotRecord.Entries s = d ∨
     Collision [checksum_input (map_keys (SnapshotRecord.Entries s)) (SnapshotRecord.Entries s)]
               [checksum_input (map_keys d) d]) ∧
  c' = Catalog.mk (<[id := SnapshotRecord.set_Verified s b]> (Catalog.items c)) (Catalog.max c).
Proof.
  intros Hs Hc C1 C2. unfold Verify. rewrite Hs, Hc. simpl. split_and!; [| |done].
  - intros ->. by apply bool_decide_eq_true.
  - intros E%bool_decide_eq_true. unfold checksum in E.
    destruct (digest_eq _ _
      [checksum_input (map_keys (SnapshotRecord.Entries s)) (SnapshotRecord.Entries s)]
      [checksum_input (map_keys d) d] ltac:(by left) ltac:(by left) E) as [Ei|?]; [left|by right].
    by apply (print_entries_inj NUL NUL).
Qed.

Definition snap_data : gmap string string := list_to_map [("a", "1"); ("b", "2")].
Definition snap_catalog : Catalog.t := (Put (NewCatalog 4) (MakeSnapshot 5 "s1" 1 snap_data)).1.

Lemma Catalog_invariant_witness :
  well_formed (Put snap_catalog (MakeSnapshot 9 "s2" 2 snap_data)).1 ∧
  well_formed (Verify snap_catalog "s1").1 ∧
  ((Put snap_catalog (MakeSnapshot 9 "s2" 2 snap_data)).2 = nilerr ↔
   Z.of_nat (size (Catalog.items snap_catalog)) < Catalog.max snap_catalog).
Proof.
  apply Catalog_invariant. apply Put_wf. split; [|by vm_compute].
  intros id s H. simpl in H. by rewrite lookup_empty in H.
Defined.

Lemma Verify_detects_tampering_witness :
  let s := MakeSnapshot 5 "s1" 1 snap_data in
  let '(c', b) := Verify snap_catalog "s1" in
  (SnapshotRecord.Entries s = snap_data → b = true) ∧
  (b = true → SnapshotRecord.Entries s = snap_data ∨
     Collision [checksum_input (map_keys (SnapshotRecord.Entries s)) (SnapshotRecord.Entries s)]
               [checksum_input (map_keys snap_data) snap_data]) ∧
  c' = Catalog.mk (<["s1" := SnapshotRecord.set_Verified s b]> (Catalog.items snap_catalog))
         (Catalog.max snap_catalog).
Proof.
  intros s. apply (Verify_detects_tampering snap_catalog "s1" s snap_data).
  - reflexivity.
  - reflexivity.
  - apply (bool_decide_unpack _). by vm_compute.
  - apply (bool_decide_unpack _). by vm_compute.
Defined.

(** [List] returns every snapshot once, by falling height, whatever the order
    in which the map is ranged. *)
Theorem List_sorted_all c it :
  ranges it (Catalog.items c) →
  List it c ≡ₚ (map_to_list (Catalog.items c)).*2 ∧ Sorted height_ge (List it c).
Proof.
  intros Hit. unfold List. split; [|apply isort_sorted; apply _].
  rewrite isort_perm. by apply omap_lookup_ranges.
Qed.

Lemma List_sorted_all_witness :
  List ["s1"] snap_catalog ≡ₚ (map_to_list (Catalog.items snap_catalog)).*2 ∧
  Sorted height_ge (List ["s1"] snap_catalog).
Proof. apply List_sorted_all. apply (bool_decide_unpack _). by vm_compute. Defined.
