(* ===== verification/LightProof.v ===== *)
(** * proof/proof.go: the light-client proof of the API

    [Build], served by [GET /api/v1/proofs/{key}], and its [Verify]. [Build] reads
    the state three times ([Get], [Data], [Root]), each under its own lock: the
    model takes the three states it may see, and [Build] is the quiet case. *)
From S2P Require Import Prelude Machine GoString GoSort GoMap Sha256 Collision.
From S2P Require Import ChainDomain StateMachine.

(** ** Model *)
Module Item.
Record t := mk { Key : string; Value : string; Root : string; Path : list string }.
End Item.

(** [k + "=" + d[k]] *)
Definition pair_input (k v : string) : string := k +:+ "=" +:+ v.

(** [func Build(s *State, key string) Item], its three reads at three moments. *)
Definition Build_at `{Hasher} (s_get s_data s_root : State.t) (key : string) : Item.t :=
  match Get s_get key with
  | None => Item.mk key "" "" []
  | Some v =>
      let d := Data s_data in
      let keys := sort_Strings (map_keys d) in
      let p := (λ k, hex_digest (pair_input k (sget d k))) <$> filter (λ k, k ≠ key) keys in
      Item.mk key v (Root s_root) p
  end.
Definition Build `{Hasher} (s : State.t) (key : string) : Item.t := Build_at s s s key.

(** [func Verify(i Item) bool] *)
Definition Verify `{Hasher} (i : Item.t) : bool :=
  if decide (Item.Key i = "" ∨ Item.Root i = "") then false else
  let leaf := hex_digest (pair_input (Item.Key i) (Item.Value i)) in
  if decide (len (Item.Path i) = 0) then bool_decide (leaf = Item.Root i)
  else bool_decide (Item.Root i ≠ "" ∧ 0 < len (Item.Path i)).

(** ** Lemmas *)
Lemma len_0 {A} (l : list A) : len l = 0 ↔ l = [].
Proof. destruct l; simpl; split; (done || lia). Qed.

Lemma Verify_iff `{Hasher} i :
  Verify i = true ↔
    Item.Key i ≠ "" ∧ Item.Root i ≠ "" ∧
    (Item.Path i ≠ [] ∨ hex_digest (pair_input (Item.Key i) (Item.Value i)) = Item.Root i).
Proof.
  unfold Verify. case_decide as H1; [split; [done|tauto]|].
  case_decide as H2; rewrite len_0 in H2; rewrite bool_decide_eq_true.
  - split; [tauto|]. intros (_ & _ & [?|?]); tauto.
  - assert (0 < len (Item.Path i)) by (destruct (Item.Path i); simpl; [done|lia]). tauto.
Qed.

Lemma Root_nonempty `{Hasher} s : Root s ≠ "".
Proof. unfold Root, root, root_from. apply digest_nonempty. Qed.

Lemma Verify_forged `{Hasher} s k v :
  k ≠ "" → ∃ i, Verify i = true ∧ Item.Key i = k ∧ Item.Value i = v ∧ Item.Root i = Root s.
Proof.
  intros Hk. exists (Item.mk k v (Root s) [""]). split; [|done].
  apply Verify_iff. simpl. split; [done|]. split; [apply Root_nonempty|by left].
Qed.

(** The leaf [k=v] is a proper prefix of the text under the root of [{k: v}]. *)
Lemma single_entry_text k v h :
  let s := State.mk {[k := v]} h in
  sort_Strings (map_keys (State.data s)) = [k] ∧ pair_input k v ≠ root_input [k] (State.data s).
Proof.
  simpl. unfold map_keys. rewrite map_to_list_singleton. split; [done|].
  intros E%(f_equal String.length). revert E. unfold pair_input, root_input, print_entries.
  simpl. unfold sget. rewrite lookup_singleton_eq. simpl. rewrite !string_length_app. simpl.
  rewrite !string_length_app. simpl. lia.
Qed.

Lemma Verify_single `{Hasher} k v h :
  let s := State.mk {[k := v]} h in
  Verify (Build s k) = false ∨ Collision [pair_input k v] [root_input [k] {[k := v]}].
Proof.
  intros s. destruct (single_entry_text k v h) as [Hk Hne]. fold s in Hk.
  destruct (Verify (Build s k)) eqn:E; [right|by left]. revert E.
  unfold Build, Build_at, Get, Data. simpl. rewrite lookup_singleton_eq.
  unfold map_keys. rewrite map_to_list_singleton. simpl.
  unfold filter. simpl. rewrite decide_False by tauto.
  intros (_ & _ & [?|E])%Verify_iff; [done|]. simpl in E.
  unfold Root in E. rewrite (root_sorted _ [k]) in E;
    [|rewrite <- Hk; by rewrite sort_Strings_perm|by repeat constructor].
  exists (pair_input k v), (root_input [k] {[k := v]}). split; [by left|].
  split; [by left|]. split; [exact Hne|exact E].
Qed.

(** ** Properties *)

(** What the light client's [Verify] checks: a key, a root, and either some
    path or the leaf as root. The hashes of the path are never used. *)
Theorem light_Verify_spec i :
  Verify i = true ↔
    Item.Key i ≠ "" ∧ Item.Root i ≠ "" ∧
    (Item.Path i ≠ [] ∨ hex_digest (pair_input (Item.Key i) (Item.Value i)) = Item.Root i).
Proof. apply Verify_iff. Qed.

(** The light-client proof proves nothing: for every state, every non-empty key
    and every value there is an item that [Verify] accepts under the root of that
    state, whether or not the state maps the key to the value. *)
Theorem light_Verify_unsound s k v :
  k ≠ "" → ∃ i, Verify i = true ∧ Item.Key i = k ∧ Item.Value i = v ∧ Item.Root i = Root s.
Proof. exact (Verify_forged s k v). Qed.

Lemma light_Verify_unsound_witness :
  ∃ i, Verify i = true ∧ Item.Key i = "alice" ∧ Item.Value i = "1000000" ∧
       Item.Root i = Root New.
Proof. exact (light_Verify_unsound New "alice" "1000000" ltac:(discriminate)). Defined.

(** It is not complete either: the honest item of a state with a single entry
    is refused, unless SHA-256 collides on ["k=v"] and ["k=v;"], because the state
    root hashes a terminator that the leaf does not. *)
Theorem light_Verify_single_entry k v h :
  let s := State.mk {[k := v]} h in
  Verify (Build s k) = false ∨ Collision [pair_input k v] [root_input [k] {[k := v]}].
Proof. exact (Verify_single k v h). Qed.
