(* ===== verification/Codec.v ===== *)
(** * codec/canonical.go: the binary encoding of transactions and blocks

    Byte strings are lists of bytes; a reader is the list of bytes left. Strings
    are length-prefixed with 16 bits, integers are 64 bits, all big-endian. *)
From S2P Require Import Prelude Machine GoString ChainDomain.

(** ** Model *)
Definition MaxBlockBytes : Z := Z.shiftl 2 20.
Definition ErrMalformed : string := "malformed canonical encoding".

(** [binary.BigEndian]: the [k] low bytes of [x], the highest first, and back. *)
Fixpoint be (k : nat) (x : Z) : list Z :=
  match k with
  | O => []
  | S k' => Z.land (Z.shiftr x (8 * Z.of_nat k')) 255 :: be k' x
  end.
Definition unbe (l : list Z) : Z := fold_left (λ a b, a * 256 + b) l 0.
(** [binary.Read] of an unsigned integer of [k] bytes. *)
Definition read_be (k : nat) (r : list Z) : option (Z * list Z) :=
  if decide (len r < Z.of_nat k) then None else Some (unbe (take k r), drop k r).

(** [func put(w *bytes.Buffer, s string) error]: what it writes. *)
Definition put (s : string) : res (list Z) :=
  if decide (65535 < slen s) then Err ErrMalformed else Ok (be 2 (slen s) ++ bytes s).
(** [func get(r *bytes.Reader) (string, error)] *)
Definition get (r : list Z) : res (string * list Z) :=
  match read_be 2 r with
  | None => Err ErrMalformed
  | Some (x, r) => if decide (len r < x) then Err ErrMalformed
                   else Ok (of_bytes (take (Z.to_nat x) r), drop (Z.to_nat x) r)
  end.
(** The loop of [put] over some strings. *)
Fixpoint put_all (l : list string) : res (list Z) :=
  match l with
  | [] => Ok []
  | s :: l => b ← put s; d ← put_all l; Ok (b ++ d)
  end.
(** The loops of [get] and of [binary.Read] for [n] values. *)
Fixpoint get_all (n : nat) (r : list Z) : res (list string * list Z) :=
  match n with
  | O => Ok ([], r)
  | S n => '(s, r) ← get r; '(l, r) ← get_all n r; Ok (s :: l, r)
  end.
Fixpoint read_nums (n : nat) (r : list Z) : res (list Z * list Z) :=
  match n with
  | O => Ok ([], r)
  | S n => match read_be 8 r with
           | None => Err ErrMalformed
           | Some (x, r) => '(l, r) ← read_nums n r; Ok (x :: l, r)
           end
  end.
(** [binary.Write] of 64-bit integers. *)
Definition write_nums (l : list Z) : list Z := concat (be 8 <$> l).

Definition tx_strings (t : Tx.t) : list string :=
  [Tx.ID t; Tx.From t; Tx.To t; Tx.Key t; Tx.Value t; Tx.Signature t].
Definition tx_nums (t : Tx.t) : list Z :=
  [Tx.Nonce t; Tx.Fee t; Tx.Gas t; u64 (Tx.ExpiresAt t); Tx.Size t].
(** [func EncodeTx(t Tx) ([]byte, error)] *)
Definition EncodeTx (t : Tx.t) : res (list Z) :=
  s ← put_all (tx_strings t);
  let b := s ++ write_nums (tx_nums t) in
  if decide (MaxBlockBytes < len b) then Err ErrMalformed else Ok b.
(** [func DecodeTx(data []byte) (Tx, error)] *)
Definition DecodeTx (data : list Z) : res Tx.t :=
  if decide (MaxBlockBytes < len data) then Err ErrMalformed else
  '(vals, r) ← get_all 6 data;
  '(nums, _) ← read_nums 5 r;
  Ok (Tx.mk (nth 0 vals "") (nth 1 vals "") (nth 2 vals "") (nth 0 nums 0) (nth 1 nums 0)
        (nth 2 nums 0) (nth 3 vals "") (nth 4 vals "") (i64 (nth 3 nums 0)) (u32 (nth 4 nums 0))
        (nth 5 vals "")).
Definition block_strings (b : Block.t) : list string :=
  let h := Block.header b in
  [Block.Hash b; Header.PrevHash h; Header.StateRoot h; Header.TxRoot h; Header.Proposer h].
Definition block_nums (b : Block.t) : list Z :=
  let h := Block.header b in
  [Header.Height h; Header.View h; u64 (Header.Timestamp h); Header.Version h;
   len (Block.Transactions b)].
(** The loop of [EncodeBlock] over the transactions. *)
Fixpoint put_txs (l : list Tx.t) : res (list Z) :=
  match l with
  | [] => Ok []
  | t :: l => d ← EncodeTx t; r ← put_txs l; Ok (be 4 (u32 (len d)) ++ d ++ r)
  end.
(** [func EncodeBlock(b Block) ([]byte, error)] *)
Definition EncodeBlock (b : Block.t) : res (list Z) :=
  s ← put_all (block_strings b);
  ts ← put_txs (Block.Transactions b);
  let out := s ++ write_nums (block_nums b) ++ ts in
  if decide (MaxBlockBytes < len out) then Err "block too large" else Ok out.

(** ** Specification *)
Definition short (s : string) : Prop := slen s ≤ 65535.
#[export] Instance short_dec s : Decision (short s).
Proof. unfold short. apply _. Defined.
(** The header's integers are in the range of their Go types, as are those of every
    transaction. *)
Record typed_block (b : Block.t) : Prop := {
  typed_Height : is_u64 (Header.Height (Block.header b));
  typed_View : is_u64 (Header.View (Block.header b));
  typed_Timestamp : is_i64 (Header.Timestamp (Block.header b));
  typed_Version : is_u32 (Header.Version (Block.header b));
  typed_Txs : Forall Tx.typed (Block.Transactions b);
  typed_count : is_u64 (len (Block.Transactions b)) }.
Definition without_commit (b : Block.t) : Block.t :=
  Block.mk (Block.header b) (Block.Transactions b) [] (Block.Hash b).

(** ** Lemmas: bytes *)
Lemma length_bytes s : len (bytes s) = slen s.
Proof. unfold bytes. by rewrite length_fmap, length_chars. Qed.
Lemma length_be k x : length (be k x) = k.
Proof. induction k; simpl; auto. Qed.

Lemma unbe_be_acc k x a :
  0 ≤ x → fold_left (λ a b, a * 256 + b) (be k x) a = a * 256 ^ Z.of_nat k + x mod 256 ^ Z.of_nat k.
Proof.
  intros Hx. revert a. induction k as [|k IH]; intros a; [simpl; rewrite Z.mod_1_r; lia|].
  cbn [be fold_left]. rewrite IH. clear IH.
  change 255 with (Z.ones 8). rewrite Z.land_ones, Z.shiftr_div_pow2 by lia.
  replace (2 ^ (8 * Z.of_nat k)) with (256 ^ Z.of_nat k) by (rewrite Z.pow_mul_r by lia; done).
  replace (Z.of_nat (S k)) with (Z.succ (Z.of_nat k)) by lia. rewrite Z.pow_succ_r by lia.
  change (2 ^ 8) with 256. set (m := 256 ^ Z.of_nat k). assert (0 < m) by (apply Z.pow_pos_nonneg; lia).
  rewrite (Z.mul_comm 256 m), Z.rem_mul_r by lia. lia.
Qed.
Lemma read_be_app k x r :
  0 ≤ x < 256 ^ Z.of_nat k → read_be k (be k x ++ r) = Some (x, r).
Proof.
  intros Hx. unfold read_be. rewrite length_app, length_be, decide_False by lia.
  rewrite take_app_le, firstn_all2, drop_app_length' by (rewrite length_be; lia).
  unfold unbe. rewrite unbe_be_acc by lia. rewrite Z.mod_small by lia. done.
Qed.

(** ** Lemmas: reading what was written *)
Lemma put_ok s b : put s = Ok b → short s ∧ b = be 2 (slen s) ++ bytes s.
Proof. unfold put, short. case_decide; intros E; simplify_eq. split; [lia|done]. Qed.
Lemma get_put s b r : put s = Ok b → get (b ++ r) = Ok (s, r).
Proof.
  intros [Hs ->]%put_ok. unfold get, short in *. rewrite <- app_assoc, read_be_app by lia.
  rewrite length_app, decide_False by (pose proof (length_bytes s); lia).
  rewrite take_app_length', drop_app_length' by (pose proof (length_bytes s); lia).
  by rewrite of_bytes_bytes.
Qed.
Lemma get_all_put l b r : put_all l = Ok b → get_all (length l) (b ++ r) = Ok (l, r).
Proof.
  revert b. induction l as [|s l IH]; intros b; cbn [put_all length get_all].
  - intros [= <-]. done.
  - intros (b1 & Hs & (b2 & Hl & [= <-])%res_bind_ok)%res_bind_ok.
    rewrite <- app_assoc, (get_put _ _ _ Hs). cbn [mbind res_bind]. by rewrite (IH _ Hl).
Qed.
Lemma read_write_nums l r : Forall is_u64 l → read_nums (length l) (write_nums l ++ r) = Ok (l, r).
Proof.
  unfold write_nums. induction 1 as [|x l Hx _ IH]; [done|]. cbn [fmap list_fmap concat length read_nums].
  rewrite <- app_assoc, read_be_app by (revert Hx; mlia). cbn [mbind res_bind]. by rewrite IH.
Qed.

Lemma length_write_nums l : length (write_nums l) = (8 * length l)%nat.
Proof.
  unfold write_nums. induction l as [|x l IH]; [done|].
  cbn [fmap list_fmap concat]. rewrite length_app, length_be, IH. simpl. lia.
Qed.
Lemma put_all_short l :
  Forall short l → ∃ b, put_all l = Ok b ∧ len b ≤ 65537 * len l.
Proof.
  induction 1 as [|s l Hs _ (b & Hb & Hl)]; [by exists []|]. unfold short in Hs.
  cbn [put_all]. unfold put. rewrite decide_False by lia. cbn [mbind res_bind]. rewrite Hb.
  eexists. split; [done|]. rewrite !length_app, length_be. pose proof (length_bytes s).
  simpl length. lia.
Qed.
Lemma put_all_long l : ¬ Forall short l → put_all l = Err ErrMalformed.
Proof.
  induction l as [|s l IH]; intros Hn; [by destruct Hn|].
  cbn [put_all]. unfold put. unfold short in Hn. case_decide as Hs; [done|]. cbn [mbind res_bind].
  rewrite IH; [done|]. intros Hl. apply Hn. constructor; [lia|done].
Qed.

(** ** Lemmas: transactions *)
Lemma EncodeTx_ok t b :
  EncodeTx t = Ok b ↔ ∃ s, put_all (tx_strings t) = Ok s ∧ b = s ++ write_nums (tx_nums t) ∧
                           len b ≤ MaxBlockBytes.
Proof.
  unfold EncodeTx. rewrite res_bind_ok. split.
  - intros (s & Hs & E). case_decide; simplify_eq. exists s. split_and!; [done|done|lia].
  - intros (s & Hs & -> & Hl). exists s. split; [done|]. by rewrite decide_False by lia.
Qed.

Lemma Tx_nums_u64 t : Tx.typed t → Forall is_u64 (tx_nums t).
Proof.
  intros [H1 H2 H3 H4 H5]. unfold tx_nums. repeat constructor; try apply H1; try apply H2;
    try apply H3; mlia.
Qed.

Lemma DecodeTx_Encode t b rest :
  Tx.typed t → EncodeTx t = Ok b → len (b ++ rest) ≤ MaxBlockBytes → DecodeTx (b ++ rest) = Ok t.
Proof.
  intros Ht (s & Hs & -> & _)%EncodeTx_ok Hl. unfold DecodeTx. rewrite decide_False by lia.
  rewrite <- app_assoc. change 6%nat with (length (tx_strings t)).
  rewrite (get_all_put _ _ _ Hs). cbn [mbind res_bind].
  change 5%nat with (length (tx_nums t)). rewrite read_write_nums by (by apply Tx_nums_u64).
  cbn [mbind res_bind]. unfold tx_strings, tx_nums. cbn [nth].
  destruct Ht. autorewrite with machine. by destruct t.
Qed.

Lemma EncodeTx_inj t1 t2 b :
  Tx.typed t1 → Tx.typed t2 → EncodeTx t1 = Ok b → EncodeTx t2 = Ok b → t1 = t2.
Proof.
  intros H1 H2 E1 E2. pose proof E1 as (_ & _ & _ & Hl)%EncodeTx_ok.
  pose proof (DecodeTx_Encode t1 b [] H1 E1) as D1. pose proof (DecodeTx_Encode t2 b [] H2 E2) as D2.
  rewrite app_nil_r in *. specialize (D1 Hl). specialize (D2 Hl). congruence.
Qed.

(** ** Lemmas: what reading any bytes gives *)
Lemma unbe_snoc l b : unbe (l ++ [b]) = unbe l * 256 + b.
Proof. unfold unbe. by rewrite fold_left_app. Qed.
Lemma unbe_bound l : Forall is_byte l → 0 ≤ unbe l < 256 ^ len l.
Proof.
  induction l as [|b l IH] using rev_ind; [by intros|]. intros [Hl Hb]%Forall_app.
  rewrite Forall_singleton in Hb. specialize (IH Hl). rewrite unbe_snoc, length_app. simpl length.
  replace (Z.of_nat (length l + 1)) with (Z.succ (Z.of_nat (length l))) by lia.
  rewrite Z.pow_succ_r by lia. revert IH. generalize (256 ^ len l). unfold is_byte in Hb. intros; lia.
Qed.
Lemma read_be_any k r x r' :
  Forall is_byte r → read_be k r = Some (x, r') →
  0 ≤ x < 256 ^ Z.of_nat k ∧ Forall is_byte r' ∧ len r' + Z.of_nat k = len r.
Proof.
  unfold read_be. intros Hr. case_decide as Hl; [done|]. intros [= <- <-].
  rewrite <- (take_drop k r), Forall_app in Hr. destruct Hr as [Ht Hd]. split; [|split; [done|]].
  - apply unbe_bound in Ht. rewrite length_take in Ht.
    by replace (k `min` length r)%nat with k in Ht by lia.
  - rewrite length_drop. lia.
Qed.
Lemma get_any r s r' :
  Forall is_byte r → get r = Ok (s, r') → short s ∧ Forall is_byte r' ∧ len r' + 2 + slen s = len r.
Proof.
  unfold get. intros Hr. destruct (read_be 2 r) as [[x r1]|] eqn:E; [|done].
  apply read_be_any in E as (Hx & Hr1 & Hl); [|done]. case_decide as Hlen; [done|]. intros [= <- <-].
  assert (slen (of_bytes (take (Z.to_nat x) r1)) = x) as Hs.
  { rewrite <- length_chars. unfold of_bytes. rewrite String.list_ascii_of_string_of_list_ascii, length_fmap, length_take. lia. }
  unfold short. rewrite Hs, length_drop. change (256 ^ Z.of_nat 2) with 65536 in Hx.
  split_and!; [lia| |lia]. rewrite <- (take_drop (Z.to_nat x) r1), Forall_app in Hr1. apply Hr1.
Qed.
Lemma get_all_any n r l r' :
  Forall is_byte r → get_all n r = Ok (l, r') →
  length l = n ∧ Forall short l ∧ Forall is_byte r' ∧ ∃ b, put_all l = Ok b ∧ len r' + len b = len r.
Proof.
  revert r l. induction n as [|n IH]; intros r l Hr; cbn [get_all].
  - intros [= <- <-]. split_and!; [done..|]. exists []. split; [done|simpl; lia].
  - intros ([s r1] & Hs & ([l1 r2] & Hl & [= <- <-])%res_bind_ok)%res_bind_ok.
    apply get_any in Hs as (Hs & Hr1 & E1); [|done].
    apply IH in Hl as (<- & Hl & Hr2 & b & Hb & E2); [|done]. split_and!; [done|by constructor|done|].
    exists ((be 2 (slen s) ++ bytes s) ++ b). cbn [put_all]. unfold put, short in *.
    rewrite decide_False by lia. cbn [mbind res_bind]. rewrite Hb. split; [done|].
    rewrite !length_app, length_be. pose proof (length_bytes s). lia.
Qed.
Lemma read_nums_any n r l r' :
  Forall is_byte r → read_nums n r = Ok (l, r') →
  length l = n ∧ Forall is_u64 l ∧ len r' + 8 * Z.of_nat n = len r.
Proof.
  revert r l. induction n as [|n IH]; intros r l Hr; cbn [read_nums].
  - intros [= <- <-]. split_and!; [done..|lia].
  - destruct (read_be 8 r) as [[x r1]|] eqn:E; [|done].
    apply read_be_any in E as (Hx & Hr1 & E1); [|done].
    intros ([l1 r2] & Hl & [= <- <-])%res_bind_ok. apply IH in Hl as (<- & Hl & E2); [|done].
    split_and!; [done| |lia]. constructor; [|done]. change (256 ^ Z.of_nat 8) with 18446744073709551616 in Hx. mlia.
Qed.
Lemma EncodeTx_short t : Forall short (tx_strings t) → ∃ b, EncodeTx t = Ok b ∧ len b ≤ 393262.
Proof.
  intros Hs. destruct (put_all_short _ Hs) as (s & Es & Hl). exists (s ++ write_nums (tx_nums t)).
  assert (len (s ++ write_nums (tx_nums t)) ≤ 393262) as Hlen.
  { rewrite length_app, length_write_nums. simpl length in *. lia. }
  split; [|done]. apply EncodeTx_ok. exists s. split; [done|]. split; [done|].
  change MaxBlockBytes with 2097152. lia.
Qed.

(** ** Lemmas: blocks *)
Lemma put_txs_inj l1 l2 b :
  length l1 = length l2 → Forall Tx.typed l1 → Forall Tx.typed l2 →
  put_txs l1 = Ok b → put_txs l2 = Ok b → l1 = l2.
Proof.
  revert l2 b. induction l1 as [|t1 l1 IH]; intros [|t2 l2] b L F1 F2 E1 E2; try done.
  injection L as L. inv F1; inv F2. cbn [put_txs] in E1, E2.
  apply res_bind_ok in E1 as (d1 & Ed1 & (r1 & Er1 & E1)%res_bind_ok).
  apply (inj Ok) in E1. subst b.
  apply res_bind_ok in E2 as (d2 & Ed2 & (r2 & Er2 & E)%res_bind_ok).
  apply (inj Ok) in E. symmetry in E.
  assert (∀ t d, EncodeTx t = Ok d → len d ≤ 2097152) as Hlen.
  { intros t d (_ & _ & _ & Hl)%EncodeTx_ok. exact Hl. }
  pose proof (Hlen _ _ Ed1). pose proof (Hlen _ _ Ed2).
  apply (f_equal (read_be 4)) in E. rewrite !read_be_app in E by mlia.
  apply (inj Some), pair_eq in E as [El E].
  rewrite !u32_small in El by mlia.
  apply app_inj_1 in E as [-> ->]; [|lia]. f_equal; [|by eapply IH].
  by eapply EncodeTx_inj.
Qed.

Lemma EncodeBlock_ok b d :
  EncodeBlock b = Ok d → ∃ s ts, put_all (block_strings b) = Ok s ∧
    put_txs (Block.Transactions b) = Ok ts ∧ d = s ++ write_nums (block_nums b) ++ ts.
Proof.
  unfold EncodeBlock. intros (s & Hs & (ts & Ht & E)%res_bind_ok)%res_bind_ok.
  case_decide; simplify_eq. by exists s, ts.
Qed.

Lemma EncodeBlock_inj b1 b2 d :
  typed_block b1 → typed_block b2 → EncodeBlock b1 = Ok d → EncodeBlock b2 = Ok d →
  without_commit b1 = without_commit b2.
Proof.
  assert (∀ b, typed_block b → Forall is_u64 (block_nums b)) as Hn.
  { intros b [? ? ? Hv ? ?]. unfold block_nums. repeat constructor; try (revert Hv); mlia. }
  intros T1 T2 (s1 & ts1 & Hs1 & Ht1 & E1)%EncodeBlock_ok (s2 & ts2 & Hs2 & Ht2 & E2)%EncodeBlock_ok.
  subst d. apply (f_equal (get_all 5)) in E2. change 5%nat with (length (block_strings b1)) in E2 at 1.
  change 5%nat with (length (block_strings b2)) in E2.
  rewrite (get_all_put _ _ _ Hs1), (get_all_put _ _ _ Hs2) in E2.
  apply (inj Ok), pair_eq in E2 as [Es E2]. injection Es as Eh Ep Est Etr Epr.
  apply (f_equal (read_nums 5)) in E2. change 5%nat with (length (block_nums b1)) in E2 at 1.
  change 5%nat with (length (block_nums b2)) in E2. rewrite !read_write_nums in E2 by auto.
  apply (inj Ok), pair_eq in E2 as [En Ets]. injection En as Ehe Evi Eti Eve Ele. subst ts2.
  assert (Header.Timestamp (Block.header b1) = Header.Timestamp (Block.header b2)) as Etim.
  { destruct T1 as [_ _ I1 _ _ _], T2 as [_ _ I2 _ _ _].
    rewrite <- (i64_u64 _ I1), <- (i64_u64 _ I2). congruence. }
  unfold without_commit. f_equal; [| |done].
  - destruct (Block.header b1), (Block.header b2). simpl in *. congruence.
  - eapply put_txs_inj; [lia|apply T1|apply T2|done|done].
Qed.

(** ** Properties *)

(** C10: decoding undoes encoding: every transaction whose fields are in the range of
    their Go types and whose encoding succeeds is read back, also when other bytes
    follow, as long as the whole input is within the 2 MiB that [DecodeTx] takes
    ([MaxBlockBytes]); so the decoder is not canonical: within that limit it accepts
    every continuation of an encoding as the same transaction. *)
Theorem DecodeTx_EncodeTx t b rest :
  Tx.typed t → EncodeTx t = Ok b → len (b ++ rest) ≤ MaxBlockBytes → DecodeTx (b ++ rest) = Ok t.
Proof. apply DecodeTx_Encode. Qed.

Definition codec_tx : Tx.t := Tx.mk "t1" "alice" "bob" 7 10 21000 "k" "v" (-5) 100 "sig".
Definition codec_bytes : list Z := match EncodeTx codec_tx with Ok b => b | Err _ => [] end.
Lemma codec_tx_typed : Tx.typed codec_tx.
Proof. by repeat split. Qed.

Lemma DecodeTx_EncodeTx_witness : DecodeTx (codec_bytes ++ [1; 2; 3]) = Ok codec_tx.
Proof.
  apply (DecodeTx_EncodeTx codec_tx codec_bytes [1; 2; 3] codec_tx_typed); [reflexivity|].
  by vm_compute.
Defined.

(** C19: what the decoder returns is a Go transaction, whatever the bytes: every integer
    is in the range of its type and every string short enough to be encoded; and
    encoding it again succeeds, in no more bytes than were read, with an
    encoding that decodes to it: decoding and encoding once makes any accepted
    input canonical. *)
Theorem DecodeTx_typed data t :
  Forall is_byte data → DecodeTx data = Ok t →
  Tx.typed t ∧ Forall short (tx_strings t) ∧
  ∃ b, EncodeTx t = Ok b ∧ len b ≤ len data ∧ DecodeTx b = Ok t.
Proof.
  intros Hd. unfold DecodeTx. case_decide as Hmax; [done|].
  intros ([vals r] & Hv & ([nums r'] & Hn & [= Ht])%res_bind_ok)%res_bind_ok.
  apply get_all_any in Hv as (Lv & Sv & Hr & s & Es & Ls); [|done].
  apply read_nums_any in Hn as (Ln & Un & Lr); [|done].
  destruct vals as [|v0 [|v1 [|v2 [|v3 [|v4 [|v5 [|? ?]]]]]]]; try done.
  destruct nums as [|n0 [|n1 [|n2 [|n3 [|n4 [|? ?]]]]]]; try done. cbn [nth] in Ht.
  rewrite !Forall_cons in Un. destruct Un as (U0 & U1 & U2 & U3 & U4 & _).
  assert (Tx.typed t) as Hty by (subst t; split; simpl; [done..|clear; mlia|clear; mlia]).
  assert (tx_strings t = [v0; v1; v2; v3; v4; v5]) as Est by by subst t.
  rewrite <- Est in *. split; [done|]. split; [done|].
  destruct (EncodeTx_short t Sv) as (b & Eb & _). exists b. split; [done|].
  pose proof Eb as (s' & Es' & -> & Hl)%EncodeTx_ok. rewrite Es in Es'. apply (inj Ok) in Es'. subst s'.
  split; [rewrite length_app, length_write_nums; simpl length; lia|].
  pose proof (DecodeTx_Encode t _ [] Hty Eb) as Hdec. rewrite app_nil_r in Hdec. by apply Hdec.
Qed.
Definition codec_wide : list Z :=
  match EncodeTx codec_tx with Ok b => take 57 b ++ [1] ++ drop 58 b ++ [9] | Err _ => [] end.
Definition codec_wide_tx : Tx.t := match DecodeTx codec_wide with Ok t => t | Err _ => Tx.zero end.
Lemma DecodeTx_typed_witness :
  Tx.typed codec_wide_tx ∧ Forall short (tx_strings codec_wide_tx) ∧
  ∃ b, EncodeTx codec_wide_tx = Ok b ∧ len b ≤ len codec_wide ∧ DecodeTx b = Ok codec_wide_tx.
Proof.
  apply (DecodeTx_typed codec_wide codec_wide_tx); [|by vm_compute].
  apply (bool_decide_unpack _). by vm_compute.
Defined.

(** [EncodeTx] fails exactly on a string of more than 65535 bytes; its check of
    the total size never fires: the longest encoding has 393262 bytes. *)
Theorem EncodeTx_total t :
  (Forall short (tx_strings t) → ∃ b, EncodeTx t = Ok b ∧ len b ≤ 393262) ∧
  (¬ Forall short (tx_strings t) → EncodeTx t = Err ErrMalformed).
Proof.
  split; intros Hs.
  - by apply EncodeTx_short.
  - unfold EncodeTx. by rewrite put_all_long.
Qed.

(** C22: the encoding of blocks is injective up to the commit votes, which it leaves
    out: two well-typed blocks with one encoding have the same hash, header and
    transactions. *)
Theorem EncodeBlock_injective b1 b2 d :
  typed_block b1 → typed_block b2 → EncodeBlock b1 = Ok d → EncodeBlock b2 = Ok d →
  without_commit b1 = without_commit b2.
Proof. apply EncodeBlock_inj. Qed.

Definition codec_block (votes : list Vote.t) : Block.t :=
  Block.mk (Header.mk 1 0 "" "root" "txs" "p" 5 1) [codec_tx; codec_tx] votes "hash".
Lemma codec_block_typed votes : typed_block (codec_block votes).
Proof. split; try (by split). repeat constructor; apply codec_tx_typed. Qed.

Lemma EncodeBlock_injective_witness :
  without_commit (codec_block []) = without_commit (codec_block [Vote.mk "a" 1 0 "commit" "s"]).
Proof.
  apply (EncodeBlock_injective _ _ (match EncodeBlock (codec_block []) with Ok b => b | Err _ => [] end)
           (codec_block_typed _) (codec_block_typed _)); reflexivity.
Defined.
