(* ===== verification/CodecLimits.v ===== *)
(** * codec/limits.go: limits, checked arithmetic, framing

    The bounds checks, the overflow-checked [uint64] arithmetic, version
    negotiation, the FNV-1a checksum and the length-prefixed frames. *)
From S2P Require Import Prelude Machine GoString Codec.

(** ** Model *)
Module Limits.
Record t := mk { MaxBytes : Z; MaxString : Z; MaxList : Z; MaxDepth : Z; MaxMap : Z }.
End Limits.
(** [func DefaultLimits() Limits] *)
Definition DefaultLimits : Limits.t := Limits.mk (Z.shiftl 2 20) 65535 4096 64 100000.
(** [CheckString], [CheckBytes], [CheckList], [CheckDepth], [CheckMap] *)
Definition CheckString (l : Limits.t) (s : string) : error :=
  if decide (Limits.MaxString l < slen s) then errors_New "string limit exceeded" else nilerr.
Definition CheckBytes (l : Limits.t) (b : list Z) : error :=
  if decide (Limits.MaxBytes l < len b) then errors_New "byte limit exceeded" else nilerr.
Definition CheckList (l : Limits.t) (n : Z) : error :=
  if decide (n < 0 ∨ Limits.MaxList l < n) then errors_New "list limit exceeded" else nilerr.
Definition CheckDepth (l : Limits.t) (n : Z) : error :=
  if decide (n < 0 ∨ Limits.MaxDepth l < n) then errors_New "depth limit exceeded" else nilerr.
Definition CheckMap (l : Limits.t) (n : Z) : error :=
  if decide (n < 0 ∨ Limits.MaxMap l < n) then errors_New "map limit exceeded" else nilerr.
(** [func safeAdd(a, b uint64) (uint64, error)] *)
Definition safeAdd (a b : Z) : res Z :=
  if decide (u64 (MaxUint64 - a) < b) then Err "integer overflow" else Ok (u64 (a + b)).
(** [func safeMul(a, b uint64) (uint64, error)] *)
Definition safeMul (a b : Z) : res Z :=
  if decide (a ≠ 0 ∧ MaxUint64 / a < b) then Err "integer overflow" else Ok (u64 (a * b)).
(** [func encodeVersion(v uint32) string] *)
Definition encodeVersion (v : Z) : string := "v" +:+ fmt_d v.
(** [func negotiate(local, remote []uint32) uint32]: the outer loop runs down from
    the last local version. *)
Fixpoint negotiate_loop (rev_local remote : list Z) : Z :=
  match rev_local with
  | [] => 0
  | l :: ls => match list_find (λ r, l = r) remote with
               | Some (_, r) => r
               | None => negotiate_loop ls remote
               end
  end.
Definition negotiate (local remote : list Z) : Z := negotiate_loop (rev local) remote.
(** [func versionAllowed(v uint32, allowed []uint32) bool] *)
Definition versionAllowed (v : Z) (allowed : list Z) : bool :=
  existsb (λ x, bool_decide (x = v)) allowed.
(** [func checksum(data []byte) uint32] *)
Definition checksum (data : list Z) : Z :=
  fold_left (λ h b, u32 (Z.lxor h b * 16777619)) data 2166136261.
(** [byte(x)] *)
Definition byte_of (x : Z) : Z := Z.land x 255.
(** [func frame(payload []byte, l Limits) ([]byte, error)] *)
Definition frame (payload : list Z) (l : Limits.t) : res (list Z) :=
  match CheckBytes l payload with
  | Some e => Err e
  | None =>
      let n := len payload in
      Ok (byte_of (Z.shiftr n 24) :: byte_of (Z.shiftr n 16) :: byte_of (Z.shiftr n 8)
          :: byte_of n :: payload)
  end.
(** [func unframe(data []byte, l Limits) ([]byte, error)] *)
Definition unframe (data : list Z) (l : Limits.t) : res (list Z) :=
  match data with
  | d0 :: d1 :: d2 :: d3 :: payload =>
      let n := Z.lor (Z.lor (Z.lor (Z.shiftl d0 24) (Z.shiftl d1 16)) (Z.shiftl d2 8)) d3 in
      if decide (n ≠ len payload) then Err ErrMalformed else
      match CheckBytes l payload with Some e => Err e | None => Ok payload end
  | _ => Err ErrMalformed
  end.

(** ** Lemmas *)
Lemma lor_bytes a b k : 0 ≤ b < 2 ^ k → 0 ≤ k → Z.lor (Z.shiftl a k) b = a * 2 ^ k + b.
Proof.
  intros Hb Hk. rewrite <- Z.shiftl_mul_pow2 by done.
  pose proof (Z.add_lor_land (Z.shiftl a k) b) as E.
  enough (Z.land (Z.shiftl a k) b = 0) by lia. rewrite Z.land_comm.
  apply Z.bits_inj'. intros i Hi. rewrite Z.land_spec, Z.bits_0.
  destruct (decide (i < k)) as [Hlt|Hge].
  - by rewrite Z.shiftl_spec_low, andb_false_r.
  - rewrite (Z.testbit_eqb b) by done. rewrite Z.div_small; [done|].
    split; [lia|]. eapply Z.lt_le_trans; [apply Hb|]. apply Z.pow_le_mono_r; lia.
Qed.

(** The four bytes of a header, joined again. *)
Definition join4 (d0 d1 d2 d3 : Z) : Z :=
  Z.lor (Z.lor (Z.lor (Z.shiftl d0 24) (Z.shiftl d1 16)) (Z.shiftl d2 8)) d3.
Lemma join4_sum d0 d1 d2 d3 :
  is_byte d0 → is_byte d1 → is_byte d2 → is_byte d3 →
  join4 d0 d1 d2 d3 = ((d0 * 256 + d1) * 256 + d2) * 256 + d3.
Proof.
  unfold join4, is_byte. intros H0 H1 H2 H3.
  replace (Z.shiftl d0 24) with (Z.shiftl (Z.shiftl d0 8) 16) by (by rewrite Z.shiftl_shiftl by lia).
  rewrite <- Z.shiftl_lor. rewrite (lor_bytes d0 d1 8) by lia.
  replace (Z.shiftl (d0 * 2 ^ 8 + d1) 16) with (Z.shiftl (Z.shiftl (d0 * 2 ^ 8 + d1) 8) 8)
    by (by rewrite Z.shiftl_shiftl by lia).
  rewrite <- Z.shiftl_lor, (lor_bytes _ d2 8) by lia. rewrite (lor_bytes _ d3 8) by lia. lia.
Qed.
Lemma byte_of_mod x : byte_of x = x mod 256.
Proof. unfold byte_of. change 255 with (Z.ones 8). by rewrite Z.land_ones by lia. Qed.
Lemma byte_of_byte x : is_byte (byte_of x).
Proof. rewrite byte_of_mod. unfold is_byte. lia. Qed.
Lemma join4_split n :
  0 ≤ n < 4294967296 →
  join4 (byte_of (Z.shiftr n 24)) (byte_of (Z.shiftr n 16)) (byte_of (Z.shiftr n 8)) (byte_of n) = n.
Proof.
  intros Hn. rewrite join4_sum by apply byte_of_byte.
  rewrite !byte_of_mod, !Z.shiftr_div_pow2 by lia. change (2 ^ 24) with 16777216.
  change (2 ^ 16) with 65536. change (2 ^ 8) with 256. lia.
Qed.

Lemma negotiate_loop_spec ls remote :
  negotiate_loop ls remote = match list_find (λ l, l ∈ remote) ls with Some (_, l) => l | None => 0 end.
Proof.
  induction ls as [|l ls IH]; [done|]. cbn [negotiate_loop list_find].
  destruct (list_find (λ r, l = r) remote) as [[i r]|] eqn:E.
  - apply list_find_Some in E as (Hi & -> & _). rewrite decide_True; [done|].
    by eapply list_elem_of_lookup_2.
  - apply list_find_None in E. rewrite decide_False.
    + rewrite IH. by destruct (list_find _ ls) as [[j x]|].
    + intros Hl. rewrite list.Forall_forall in E. by apply (E l).
Qed.

(** ** Properties *)

(** Framing round trips: a payload within the limit and below 2^32 bytes is
    framed and read back, and only frames are read back: [unframe] accepts nothing
    but the frame of its result. *)
Theorem frame_roundtrip l p :
  len p < 4294967296 → len p ≤ Limits.MaxBytes l →
  ∃ d, frame p l = Ok d ∧ unframe d l = Ok p ∧
    ∀ d', Forall is_byte d' → unframe d' l = Ok p → d' = d.
Proof.
  intros Hp Hl. unfold frame, CheckBytes. rewrite decide_False by lia. eexists. split; [done|].
  set (n := len p) in *.
  split.
  - unfold unframe. fold (join4 (byte_of (Z.shiftr n 24)) (byte_of (Z.shiftr n 16))
      (byte_of (Z.shiftr n 8)) (byte_of n)). rewrite join4_split by lia. fold n.
    rewrite decide_False by tauto. unfold CheckBytes. by rewrite decide_False by lia.
  - intros d' Hd' Hu. destruct d' as [|d0 [|d1 [|d2 [|d3 q]]]]; try done. cbn [unframe] in Hu.
    fold (join4 d0 d1 d2 d3) in Hu. case_decide as Hn; [done|].
    destruct (CheckBytes l q); [done|]. injection Hu as ->. fold n in Hn.
    rewrite !Forall_cons in Hd'. destruct Hd' as (B0 & B1 & B2 & B3 & _).
    rewrite join4_sum in Hn by done. unfold is_byte in *.
    rewrite !byte_of_mod, !Z.shiftr_div_pow2 by lia. change (2 ^ 24) with 16777216.
    change (2 ^ 16) with 65536. change (2 ^ 8) with 256. rewrite <- Hn. repeat f_equal; lia.
Qed.

Lemma frame_roundtrip_witness :
  ∃ d, frame [1; 2; 3] DefaultLimits = Ok d ∧ unframe d DefaultLimits = Ok [1; 2; 3] ∧
    ∀ d', Forall is_byte d' → unframe d' DefaultLimits = Ok [1; 2; 3] → d' = d.
Proof. apply (frame_roundtrip DefaultLimits [1; 2; 3]); by vm_compute. Defined.

(** The checked arithmetic is exact: it returns the mathematical sum or product
    when that fits in 64 bits, and an error otherwise. *)
Theorem safe_arithmetic a b :
  is_u64 a → is_u64 b →
  safeAdd a b = (if decide (a + b ≤ MaxUint64) then Ok (a + b) else Err "integer overflow") ∧
  safeMul a b = (if decide (a * b ≤ MaxUint64) then Ok (a * b) else Err "integer overflow").
Proof.
  intros Ha Hb. split.
  - unfold safeAdd. repeat case_decide; try (exfalso; mlia); [done|]. f_equal. mlia.
  - unfold safeMul.
    assert (a ≠ 0 ∧ MaxUint64 / a < b ↔ MaxUint64 < a * b) as E.
    { destruct (decide (a = 0)) as [->|Hz]; [lia|]. assert (0 < a) by mlia.
      split; [intros [_ Hlt]|intros Hlt; split; [done|]].
      - apply Z.nle_gt. intros Hle. apply Z.lt_nge in Hlt. apply Hlt. apply Z.div_le_lower_bound; lia.
      - apply Z.div_lt_upper_bound; lia. }
    repeat case_decide; try tauto; try lia. f_equal. unfold u64. apply Z.mod_small. mlia || nia.
Qed.

Lemma safe_arithmetic_witness :
  safeAdd 7 MaxUint64 = (if decide (7 + MaxUint64 ≤ MaxUint64) then Ok (7 + MaxUint64) else Err "integer overflow") ∧
  safeMul 7 MaxUint64 = (if decide (7 * MaxUint64 ≤ MaxUint64) then Ok (7 * MaxUint64) else Err "integer overflow").
Proof. apply (safe_arithmetic 7 MaxUint64); split; by vm_compute. Defined.

(** [negotiate] returns the last local version that the remote side knows: no
    later local version is known to it; without a common version it returns 0. *)
Theorem negotiate_last local remote :
  (∃ l1 v l2, local = l1 ++ v :: l2 ∧ v ∈ remote ∧ (∀ w, w ∈ l2 → w ∉ remote) ∧
     negotiate local remote = v) ∨
  ((∀ w, w ∈ local → w ∉ remote) ∧ negotiate local remote = 0).
Proof.
  unfold negotiate. rewrite negotiate_loop_spec.
  destruct (list_find (λ l, l ∈ remote) (rev local)) as [[i v]|] eqn:E.
  - left. apply list_find_Some in E as (Hi & Hv & Hbefore).
    exists (rev (drop (S i) (rev local))), v, (rev (take i (rev local))).
    split; [|split; [done|split; [|done]]].
    + rewrite <- (rev_involutive local) at 1. rewrite <- (take_drop_middle _ _ _ Hi) at 1.
      rewrite rev_app_distr. simpl. by rewrite <- app_assoc.
    + intros w Hw. rewrite list_elem_of_In, <- in_rev, <- list_elem_of_In in Hw.
      apply list_elem_of_lookup in Hw as [j Hj]. apply lookup_take_Some in Hj as [Hj Hlt]. eauto.
  - right. apply list_find_None in E. split; [|done]. intros w Hw. rewrite list.Forall_forall in E.
    apply E. rewrite list_elem_of_In, <- in_rev, <- list_elem_of_In. done.
Qed.
