(* ===== verification/Mempool.v ===== *)
(** * mempool/pool.go: the transaction pool

    The pool keeps the transactions by identifier and, per account, the
    identifier that holds each nonce. Every method runs under the pool's mutex:
    one step on the record [Pool.t]. *)
From S2P Require Import Prelude Machine GoString GoSort GoMap Sha256 ChainDomain.

(** ** Model *)
Module Pool.
Record t := mk { max : Z; tx : gmap string Tx.t; byAcct : gmap string (gmap Z string) }.
End Pool.

Definition ErrDuplicate : string := "duplicate transaction".
Definition ErrNonce : string := "nonce conflict".

(** [func New(max int) *Pool] *)
Definition New (max : Z) : Pool.t := Pool.mk max ∅ ∅.

(** [p.byAcct[from]], the nil map read as empty. *)
Definition acct (p : Pool.t) (from : string) : gmap Z string := default ∅ (Pool.byAcct p !! from).

(** [func (p *Pool) Add(t Tx) error] *)
Definition Add `{Hasher} (p : Pool.t) (t : Tx.t) : Pool.t * error :=
  if decide (Pool.max p ≤ Z.of_nat (size (Pool.tx p))) then (p, errors_New "mempool full") else
  let t := if decide (Tx.ID t = "") then Tx.with_ID t (TxHash t) else t in
  match Pool.tx p !! Tx.ID t with
  | Some _ => (p, Some ErrDuplicate)
  | None =>
      let m := acct p (Tx.From t) in
      let byAcct := <[Tx.From t := m]> (Pool.byAcct p) in
      let store txs :=
        (Pool.mk (Pool.max p) (<[Tx.ID t := t]> txs)
           (<[Tx.From t := <[Tx.Nonce t := Tx.ID t]> m]> byAcct), nilerr) in
      match m !! Tx.Nonce t with
      | Some old =>
          if decide (Tx.Fee t ≤ Tx.Fee (default Tx.zero (Pool.tx p !! old)))
          then (Pool.mk (Pool.max p) (Pool.tx p) byAcct, Some ErrNonce)
          else store (delete old (Pool.tx p))
      | None => store (Pool.tx p)
      end
  end.

(** [List] skips a transaction that expired before the clock reading [now]. *)
Definition unexpired (now : Z) (t : Tx.t) : Prop := ¬ (0 < Tx.ExpiresAt t ∧ Tx.ExpiresAt t < now).
#[export] Instance unexpired_dec now t : Decision (unexpired now t).
Proof. unfold unexpired. apply _. Defined.
Definition fee_ge (a b : Tx.t) : Prop := Tx.Fee b ≤ Tx.Fee a.
#[export] Instance fee_ge_dec a b : Decision (fee_ge a b).
Proof. unfold fee_ge. apply _. Defined.
(** [func (p *Pool) List() []Tx]: [it] is the order of the range and [now id] the
    Unix time read when [id] is visited. [sort.Slice] may leave equal fees in any
    order: so does the stable sort of an arbitrary [it]. *)
Definition List (it : list string) (now : string → Z) (p : Pool.t) : list Tx.t :=
  isort fee_ge
    (omap (λ id, t ← Pool.tx p !! id; if decide (unexpired (now id) t) then Some t else None) it).

(** The body of the loop of [Remove]. *)
Definition remove_one (p : Pool.t) (id : string) : Pool.t :=
  match Pool.tx p !! id with
  | None => p
  | Some t =>
      Pool.mk (Pool.max p) (delete id (Pool.tx p))
        (match Pool.byAcct p !! Tx.From t with
         | Some m => <[Tx.From t := delete (Tx.Nonce t) m]> (Pool.byAcct p)
         | None => Pool.byAcct p
         end)
  end.
(** [func (p *Pool) Remove(ids []string)] *)
Definition Remove (p : Pool.t) (ids : list string) : Pool.t := fold_left remove_one ids p.

(** ** policy.go: expiry and statistics *)

Definition expired (now : Z) (t : Tx.t) : Prop :=
  0 < Tx.ExpiresAt t ∧ Time.Before (Time.of_Unix (Tx.ExpiresAt t)) now = true.
#[export] Instance expired_dec now t : Decision (expired now t).
Proof. unfold expired. apply _. Defined.
(** The body of the loop of [Expire]: the pool and the count. *)
Definition expire_one (now : Z) (pn : Pool.t * Z) (id : string) : Pool.t * Z :=
  let '(p, n) := pn in
  match Pool.tx p !! id with
  | None => (p, n)
  | Some t =>
      if decide (expired now t) then
        (Pool.mk (Pool.max p) (delete id (Pool.tx p))
           (match Pool.byAcct p !! Tx.From t with
            | Some m =>
                let m := delete (Tx.Nonce t) m in
                if decide (size m = 0%nat) then delete (Tx.From t) (Pool.byAcct p)
                else <[Tx.From t := m]> (Pool.byAcct p)
            | None => Pool.byAcct p
            end), n + 1)
      else (p, n)
  end.
(** [func (p *Pool) Expire(now time.Time) int] *)
Definition Expire (it : list string) (now : Z) (p : Pool.t) : Pool.t * Z :=
  fold_left (expire_one now) it (p, 0).

Module Stats.
Record t := mk { Count : Z; Bytes : Z; Accounts : Z; Expired : Z; Replaced : Z }.
End Stats.
(** [func (p *Pool) Stats() Stats] *)
Definition Stats (it : list string) (p : Pool.t) : Stats.t :=
  Stats.mk (Z.of_nat (size (Pool.tx p)))
    (fold_left (λ b id, match Pool.tx p !! id with
                        | Some t => i64 (b + Tx.Size t) | None => b end) it 0)
    (Z.of_nat (size (Pool.byAcct p))) 0 0.

(** ** Specification *)

(** The two indexes agree: a transaction is stored under its identifier, its
    account and nonce lead back to it, and every nonce entry leads to a stored
    transaction of that account and nonce. *)
Record consistent (p : Pool.t) : Prop := {
  con_fwd id t : Pool.tx p !! id = Some t →
    Tx.ID t = id ∧ acct p (Tx.From t) !! Tx.Nonce t = Some id;
  con_bwd from nonce id : acct p from !! nonce = Some id →
    ∃ t, Pool.tx p !! id = Some t ∧ Tx.From t = from ∧ Tx.Nonce t = nonce;
}.
Definition bounded (p : Pool.t) : Prop := Z.of_nat (size (Pool.tx p)) ≤ Z.max 0 (Pool.max p).

(** The operations of the pool as steps. *)
Inductive op :=
  | OpAdd (t : Tx.t)
  | OpRemove (ids : list string)
  | OpExpire (it : list string) (now : Z).
Definition run_op `{Hasher} (p : Pool.t) (o : op) : Pool.t :=
  match o with
  | OpAdd t => (Add p t).1
  | OpRemove ids => Remove p ids
  | OpExpire it now => (Expire it now p).1
  end.

(** The transaction that holds a nonce of an account. *)
Definition pending (p : Pool.t) (from : string) (nonce : Z) : option Tx.t :=
  id ← acct p from !! nonce; Pool.tx p !! id.
(** The transaction as [Add] stores it. *)
Definition identified `{Hasher} (t : Tx.t) : Tx.t :=
  if decide (Tx.ID t = "") then Tx.with_ID t (TxHash t) else t.

(** ** Lemmas *)
Lemma acct_insert max tx b f m g :
  acct (Pool.mk max tx (<[f := m]> b)) g = if decide (g = f) then m else default ∅ (b !! g).
Proof. unfold acct. simpl. rewrite lookup_insert. repeat case_decide; by subst. Qed.

Lemma New_consistent max : consistent (New max).
Proof.
  split; unfold New, acct; simpl; intros *; rewrite lookup_empty; [done|].
  simpl. by rewrite lookup_empty.
Qed.

Section consistent.
Context (p : Pool.t) (Hp : consistent p).

(** Two stored transactions of one account and nonce are one. *)
Lemma consistent_inj id1 id2 t1 t2 :
  Pool.tx p !! id1 = Some t1 → Pool.tx p !! id2 = Some t2 →
  Tx.From t1 = Tx.From t2 → Tx.Nonce t1 = Tx.Nonce t2 → id1 = id2.
Proof using Hp.
  intros H1 H2 Ef En. apply (con_fwd _ Hp) in H1 as [_ H1], H2 as [_ H2].
  rewrite Ef, En in H1. congruence.
Qed.

Lemma consistent_pending id t :
  Pool.tx p !! id = Some t ↔ Tx.ID t = id ∧ pending p (Tx.From t) (Tx.Nonce t) = Some t.
Proof using Hp.
  unfold pending. split.
  - intros Ht. destruct (con_fwd _ Hp _ _ Ht) as [? E]. by rewrite E.
  - intros [<- E]. apply bind_Some in E as (id & E1 & E2).
    destruct (con_fwd _ Hp _ _ E2) as [-> _]. done.
Qed.

(** Deleting a transaction and its nonce. *)
Lemma consistent_delete id t b :
  Pool.tx p !! id = Some t →
  (∀ f, default ∅ (b !! f) = if decide (f = Tx.From t) then delete (Tx.Nonce t) (acct p f)
                             else acct p f) →
  consistent (Pool.mk (Pool.max p) (delete id (Pool.tx p)) b).
Proof using Hp.
  intros Ht Hb. split; unfold acct at 1; simpl.
  - intros i u [Hi Hu]%lookup_delete_Some. rewrite Hb.
    destruct (con_fwd _ Hp _ _ Hu) as [Eu Ea]. split; [done|].
    case_decide as Ef; [|done]. rewrite lookup_delete_ne; [done|].
    intros En. apply Hi. by apply (consistent_inj _ _ t u).
  - intros f n i. rewrite Hb. case_decide as Ef; intros Hi.
    + apply lookup_delete_Some in Hi as [Hn Hi].
      destruct (con_bwd _ Hp _ _ _ Hi) as (u & Hu & Hf & Hn'). exists u. split; [|done].
      rewrite lookup_delete_ne; [done|]. intros ->. congruence.
    + destruct (con_bwd _ Hp _ _ _ Hi) as (u & Hu & Hf & Hn'). exists u. split; [|done].
      rewrite lookup_delete_ne; [done|]. intros ->. congruence.
Qed.

(** Storing a transaction at a free identifier and a free nonce. *)
Lemma consistent_insert t b :
  Pool.tx p !! Tx.ID t = None → acct p (Tx.From t) !! Tx.Nonce t = None →
  (∀ f, default ∅ (b !! f) = if decide (f = Tx.From t) then <[Tx.Nonce t := Tx.ID t]> (acct p f)
                             else acct p f) →
  consistent (Pool.mk (Pool.max p) (<[Tx.ID t := t]> (Pool.tx p)) b).
Proof using Hp.
  intros Ht Hn Hb. split; unfold acct at 1; simpl.
  - intros i u. rewrite lookup_insert, Hb. case_decide as Ei.
    + intros [= <-]. subst i. rewrite decide_True by done. by rewrite lookup_insert_eq.
    + intros Hu. destruct (con_fwd _ Hp _ _ Hu) as [? Ea]. split; [done|].
      case_decide as Ef; [|done]. rewrite lookup_insert_ne; [done|]. intros En. congruence.
  - intros f n i. rewrite Hb. case_decide as Ef; [rewrite lookup_insert; case_decide as En|].
    + intros [= <-]. exists t. rewrite lookup_insert_eq. by subst.
    + intros Hi. destruct (con_bwd _ Hp _ _ _ Hi) as (u & Hu & ?). exists u. split; [|done].
      rewrite lookup_insert_ne; [done|]. intros <-. congruence.
    + intros Hi. destruct (con_bwd _ Hp _ _ _ Hi) as (u & Hu & ?). exists u. split; [|done].
      rewrite lookup_insert_ne; [done|]. intros <-. congruence.
Qed.

(** What the two updates do to the pending transactions. *)
Lemma pending_delete id t b :
  Pool.tx p !! id = Some t →
  (∀ f, default ∅ (b !! f) = if decide (f = Tx.From t) then delete (Tx.Nonce t) (acct p f)
                             else acct p f) →
  ∀ f n, pending (Pool.mk (Pool.max p) (delete id (Pool.tx p)) b) f n =
         if decide (f = Tx.From t ∧ n = Tx.Nonce t) then None else pending p f n.
Proof using Hp.
  intros Ht Hb f n. unfold pending, acct at 1. simpl. rewrite Hb.
  assert (∀ i, acct p f !! n = Some i → ¬ (f = Tx.From t ∧ n = Tx.Nonce t) → i ≠ id) as Hne.
  { intros i Hi Hfn ->. destruct (con_bwd _ Hp _ _ _ Hi) as (u & Hu & ? & ?). naive_solver. }
  destruct (decide (f = Tx.From t)) as [Ef|Ef];
    [destruct (decide (n = Tx.Nonce t)) as [En|En]|].
  - rewrite decide_True by done. by rewrite En, lookup_delete_eq.
  - rewrite decide_False, lookup_delete_ne by naive_solver.
    destruct (acct p f !! n) as [i|]; simpl; [|done]. by rewrite lookup_delete_ne by naive_solver.
  - rewrite decide_False by naive_solver.
    destruct (acct p f !! n) as [i|]; simpl; [|done]. by rewrite lookup_delete_ne by naive_solver.
Qed.

Lemma pending_insert t b :
  Pool.tx p !! Tx.ID t = None →
  (∀ f, default ∅ (b !! f) = if decide (f = Tx.From t) then <[Tx.Nonce t := Tx.ID t]> (acct p f)
                             else acct p f) →
  ∀ f n, pending (Pool.mk (Pool.max p) (<[Tx.ID t := t]> (Pool.tx p)) b) f n =
         if decide (f = Tx.From t ∧ n = Tx.Nonce t) then Some t else pending p f n.
Proof using Hp.
  intros Ht Hb f n. unfold pending, acct at 1. simpl. rewrite Hb.
  assert (∀ i, acct p f !! n = Some i → i ≠ Tx.ID t) as Hne.
  { intros i Hi ->. destruct (con_bwd _ Hp _ _ _ Hi) as (u & Hu & ? & ?). congruence. }
  destruct (decide (f = Tx.From t)) as [Ef|Ef];
    [destruct (decide (n = Tx.Nonce t)) as [En|En]|].
  - rewrite decide_True by done. rewrite En, lookup_insert_eq. simpl. by rewrite lookup_insert_eq.
  - rewrite decide_False, lookup_insert_ne by naive_solver.
    destruct (acct p f !! n) as [i|]; simpl; [|done].
    by rewrite lookup_insert_ne by (symmetry; auto).
  - rewrite decide_False by naive_solver.
    destruct (acct p f !! n) as [i|]; simpl; [|done].
    by rewrite lookup_insert_ne by (symmetry; auto).
Qed.
End consistent.

(** Account maps are only read through [acct]. *)
Lemma consistent_ext max max' tx b b' :
  (∀ f, default ∅ (b !! f) = default ∅ (b' !! f)) →
  consistent (Pool.mk max tx b) → consistent (Pool.mk max' tx b').
Proof.
  intros Hb [H1 H2]. unfold acct in *. simpl in *.
  split; unfold acct; simpl; intros *; rewrite <- Hb; auto.
Qed.

Section add.
Context `{Hasher}.
Implicit Types (p : Pool.t) (t : Tx.t).

(** [Add] on a transaction that has its identifier: the refusals, then the room
    made by a replaced transaction, then the insertion. *)
Definition with_acct p f : Pool.t :=
  Pool.mk (Pool.max p) (Pool.tx p) (<[f := acct p f]> (Pool.byAcct p)).
Definition make_room p t : Pool.t :=
  match acct p (Tx.From t) !! Tx.Nonce t with
  | Some old => Pool.mk (Pool.max p) (delete old (Pool.tx p))
      (<[Tx.From t := delete (Tx.Nonce t) (acct p (Tx.From t))]> (Pool.byAcct p))
  | None => with_acct p (Tx.From t)
  end.
Definition store p t : Pool.t :=
  Pool.mk (Pool.max p) (<[Tx.ID t := t]> (Pool.tx p))
    (<[Tx.From t := <[Tx.Nonce t := Tx.ID t]> (acct p (Tx.From t))]> (Pool.byAcct p)).
Lemma Add_cases p t :
  Add p t =
    let t := identified t in
    if decide (Pool.max p ≤ Z.of_nat (size (Pool.tx p))) then (p, errors_New "mempool full") else
    if decide (is_Some (Pool.tx p !! Tx.ID t)) then (p, Some ErrDuplicate) else
    if decide (is_Some (acct p (Tx.From t) !! Tx.Nonce t) ∧
               Tx.Fee t ≤ Tx.Fee (default Tx.zero (pending p (Tx.From t) (Tx.Nonce t))))
    then (with_acct p (Tx.From t), Some ErrNonce) else (store (make_room p t) t, nilerr).
Proof.
  unfold Add. fold (identified t). case_decide; [done|]. cbv zeta.
  generalize (identified t). intros u.
  destruct (Pool.tx p !! Tx.ID u) as [x|].
  { by rewrite decide_True by eauto. }
  rewrite decide_False by (intros [? ?]; done). unfold pending, make_room, store.
  destruct (acct p (Tx.From u) !! Tx.Nonce u) as [old|]; cbn [mbind option_bind].
  - case_decide.
    + rewrite decide_True; [done|]. split; [by eexists|]. done.
    + rewrite decide_False by naive_solver.
      rewrite acct_insert, decide_True, insert_delete_eq by done. simpl. by rewrite !insert_insert_eq.
  - rewrite decide_False by (intros [[? ?] ?]; done). unfold with_acct.
    rewrite acct_insert, decide_True by done. simpl. by rewrite !insert_insert_eq.
Qed.

Section room.
Context p (Hp : consistent p) t.

Lemma with_acct_spec f :
  consistent (with_acct p f) ∧ ∀ g n, pending (with_acct p f) g n = pending p g n.
Proof using Hp.
  unfold with_acct. assert (∀ g, acct p g = default ∅ (<[f := acct p f]> (Pool.byAcct p) !! g)) as E.
  { intros g. rewrite lookup_insert. case_decide; by subst. }
  split.
  - destruct p as [mx tx b]. by apply (consistent_ext mx mx tx b).
  - intros g n. unfold pending. rewrite acct_insert. case_decide; by subst.
Qed.

Lemma make_room_spec :
  consistent (make_room p t) ∧
  acct (make_room p t) (Tx.From t) !! Tx.Nonce t = None ∧
  (∀ id, Pool.tx p !! id = None → Pool.tx (make_room p t) !! id = None) ∧
  (size (Pool.tx (make_room p t)) ≤ size (Pool.tx p))%nat ∧
  ∀ f n, ¬ (f = Tx.From t ∧ n = Tx.Nonce t) → pending (make_room p t) f n = pending p f n.
Proof using Hp.
  unfold make_room. destruct (acct p (Tx.From t) !! Tx.Nonce t) as [old|] eqn:Ho.
  - destruct (con_bwd _ Hp _ _ _ Ho) as (u & Hu & <- & <-).
    assert (∀ f, default ∅ (<[Tx.From u := delete (Tx.Nonce u) (acct p (Tx.From u))]>
        (Pool.byAcct p) !! f) =
      if decide (f = Tx.From u) then delete (Tx.Nonce u) (acct p f) else acct p f) as Hb.
    { intros f. rewrite lookup_insert. repeat case_decide; by subst. }
    split; [by apply (consistent_delete p Hp _ u)|].
    split; [rewrite acct_insert, decide_True by done; apply lookup_delete_eq|].
    split; [intros id Hid; simpl; rewrite lookup_delete_None; by right|].
    split; [simpl; rewrite map_size_delete, Hu; lia|].
    intros f n Hfn. rewrite (pending_delete p Hp old u) by done. by rewrite decide_False.
  - destruct (with_acct_spec (Tx.From t)) as [Hc Hq]. unfold with_acct in *.
    split; [done|]. split; [by rewrite acct_insert, decide_True|].
    split; [done|]. split; [done|]. auto.
Qed.
End room.

Lemma store_spec q t :
  consistent q → Pool.tx q !! Tx.ID t = None → acct q (Tx.From t) !! Tx.Nonce t = None →
  consistent (store q t) ∧
  ∀ f n, pending (store q t) f n =
    if decide (f = Tx.From t ∧ n = Tx.Nonce t) then Some t else pending q f n.
Proof.
  intros Hq Ht Hn.
  assert (∀ f, default ∅ (<[Tx.From t := <[Tx.Nonce t := Tx.ID t]> (acct q (Tx.From t))]>
      (Pool.byAcct q) !! f) =
    if decide (f = Tx.From t) then <[Tx.Nonce t := Tx.ID t]> (acct q f) else acct q f) as Hb.
  { intros f. rewrite lookup_insert. repeat case_decide; by subst. }
  split; [by apply consistent_insert|by apply pending_insert].
Qed.

Lemma Add_consistent p t : consistent p → consistent (Add p t).1.
Proof.
  intros Hp. rewrite Add_cases. cbv zeta. generalize (identified t). clear t. intros t.
  case_decide; [done|]. case_decide as Hd; [done|]. apply eq_None_not_Some in Hd.
  case_decide; simpl; [by apply with_acct_spec|].
  destruct (make_room_spec p Hp t) as (Hc & Hn & Hi & _). apply store_spec; auto.
Qed.

Lemma Add_bounded p t :
  consistent p → bounded p → bounded (Add p t).1 ∧ Pool.max (Add p t).1 = Pool.max p.
Proof.
  unfold bounded. intros Hp Hb. rewrite Add_cases. cbv zeta. generalize (identified t). clear t.
  intros t. repeat (case_decide; [done|]). simpl.
  destruct (make_room_spec p Hp t) as (_ & _ & _ & Hs & _).
  assert (Pool.max (make_room p t) = Pool.max p) as -> by (unfold make_room; by case_match).
  split; [|done].
  pose proof (map_size_insert_le (Pool.tx (make_room p t)) (Tx.ID t) t). lia.
Qed.

(** The effect of a call of [Add] on the pending transactions. *)
Lemma Add_pending p t :
  consistent p →
  let u := identified t in
  let '(p', e) := Add p t in
  e = (if decide (Pool.max p ≤ Z.of_nat (size (Pool.tx p))) then errors_New "mempool full"
       else if decide (is_Some (Pool.tx p !! Tx.ID u)) then Some ErrDuplicate
       else match pending p (Tx.From u) (Tx.Nonce u) with
            | Some old => if decide (Tx.Fee u ≤ Tx.Fee old) then Some ErrNonce else nilerr
            | None => nilerr end) ∧
  ∀ f n, pending p' f n =
    if decide (e = nilerr ∧ f = Tx.From u ∧ n = Tx.Nonce u) then Some u else pending p f n.
Proof.
  intros Hp. cbv zeta. rewrite Add_cases. cbv zeta. generalize (identified t). clear t. intros t.
  case_decide; [split; [done|]; intros; by rewrite decide_False by naive_solver|].
  case_decide as Hd; [split; [done|]; intros; by rewrite decide_False by naive_solver|].
  apply eq_None_not_Some in Hd.
  assert (is_Some (acct p (Tx.From t) !! Tx.Nonce t) ↔
          is_Some (pending p (Tx.From t) (Tx.Nonce t))) as Hs.
  { unfold pending. split; intros [x Hx]; [|apply bind_Some in Hx as (? & ? & ?); by eexists].
    rewrite Hx. destruct (con_bwd _ Hp _ _ _ Hx) as (u & Hu & _). by eexists. }
  case_decide as Hf; rewrite Hs in Hf.
  - destruct Hf as [[old Ho] Hf]. rewrite Ho in *. split; [by rewrite decide_True|].
    intros. rewrite decide_False by naive_solver. by apply with_acct_spec.
  - destruct (make_room_spec p Hp t) as (Hc & Hn & Hi & _ & Hq). split.
    + destruct (pending p _ _) as [old|]; [|done]. rewrite decide_False; [done|].
      intros ?. apply Hf. by split.
    + destruct (store_spec (make_room p t) t) as [_ E]; auto. intros f n. rewrite E.
      destruct (decide (f = Tx.From t ∧ n = Tx.Nonce t)).
      * by rewrite decide_True.
      * rewrite decide_False by naive_solver. by apply Hq.
Qed.
End add.

(** [Remove] and [Expire] *)
Section remove.
Implicit Types (p : Pool.t).

Lemma remove_one_spec p id :
  consistent p →
  consistent (remove_one p id) ∧ Pool.tx (remove_one p id) = delete id (Pool.tx p).
Proof.
  intros Hp. unfold remove_one. destruct (Pool.tx p !! id) as [t|] eqn:Ht.
  - split; [|done]. apply (consistent_delete p Hp id t); [done|]. intros f. unfold acct.
    destruct (Pool.byAcct p !! Tx.From t) as [m|] eqn:Hm.
    + rewrite lookup_insert. repeat case_decide; subst; try done. by rewrite Hm.
    + case_decide; [subst|done]. rewrite Hm. simpl. by rewrite delete_empty.
  - split; [done|]. by rewrite delete_id.
Qed.
Lemma remove_one_accounts p id :
  size (Pool.byAcct (remove_one p id)) = size (Pool.byAcct p) ∧
  Pool.max (remove_one p id) = Pool.max p.
Proof.
  unfold remove_one. destruct (Pool.tx p !! id) as [t|]; [simpl|done].
  destruct (Pool.byAcct p !! Tx.From t) as [m|] eqn:Hm; [|done].
  by rewrite map_size_insert_Some by (by eexists).
Qed.

Lemma Remove_shrinks p ids : Pool.tx (Remove p ids) ⊆ Pool.tx p.
Proof.
  unfold Remove. revert p. induction ids as [|id ids IH]; intros p; cbn [fold_left]; [done|].
  rewrite IH. unfold remove_one. case_match; [apply delete_subseteq|done].
Qed.
Lemma Remove_spec p ids :
  consistent p →
  consistent (Remove p ids) ∧
  ∀ i, Pool.tx (Remove p ids) !! i = if decide (i ∈ ids) then None else Pool.tx p !! i.
Proof.
  unfold Remove. revert p. induction ids as [|id ids IH]; intros p Hp; cbn [fold_left].
  - split; [done|]. intros i. by rewrite decide_False by apply not_elem_of_nil.
  - destruct (remove_one_spec p id Hp) as [Hc Ht]. destruct (IH _ Hc) as [Hc' Hl].
    split; [done|]. intros i. rewrite Hl, Ht, lookup_delete.
    repeat case_decide; try done; rewrite elem_of_cons in *; naive_solver.
Qed.
Lemma Remove_accounts p ids :
  size (Pool.byAcct (Remove p ids)) = size (Pool.byAcct p) ∧ Pool.max (Remove p ids) = Pool.max p.
Proof.
  unfold Remove. revert p. induction ids as [|id ids IH]; intros p; simpl; [done|].
  destruct (remove_one_accounts p id), (IH (remove_one p id)). split; congruence.
Qed.

(** No account is kept without a nonce. *)
Definition lean p : Prop := ∀ f m, Pool.byAcct p !! f = Some m → m ≠ ∅.

Lemma expire_one_spec now p n id :
  consistent p →
  let '(p', n') := expire_one now (p, n) id in
  consistent p' ∧ (lean p → lean p') ∧ Pool.max p' = Pool.max p ∧
  Pool.tx p' = (match Pool.tx p !! id with
                | Some t => if decide (expired now t) then delete id (Pool.tx p) else Pool.tx p
                | None => Pool.tx p end) ∧
  n' + Z.of_nat (size (Pool.tx p')) = n + Z.of_nat (size (Pool.tx p)).
Proof.
  intros Hp. unfold expire_one. destruct (Pool.tx p !! id) as [t|] eqn:Ht; [|done].
  case_decide; [|done]. simpl. cbv zeta.
  destruct (con_fwd _ Hp _ _ Ht) as [Hid Ha]. split; [|split; [|split; [done|split; [done|]]]].
  - apply (consistent_delete p Hp id t); [done|]. intros f. unfold acct in *.
    destruct (Pool.byAcct p !! Tx.From t) as [m|] eqn:Hm; [|done].
    case_decide as Hs.
    + apply map_size_empty_inv in Hs. rewrite lookup_delete.
      repeat case_decide; subst; try done. by rewrite Hm.
    + rewrite lookup_insert. repeat case_decide; subst; try done. by rewrite Hm.
  - intros Hl f m' Hm'. destruct (Pool.byAcct p !! Tx.From t) as [m|] eqn:Hm; [|by eapply Hl].
    case_decide as Hs; simpl in Hm'.
    + apply lookup_delete_Some in Hm' as [_ Hm']. by eapply Hl.
    + apply lookup_insert_Some in Hm' as [[_ <-]|[_ Hm']]; [|by eapply Hl].
      intros E. apply Hs. by rewrite E, map_size_empty.
  - rewrite map_size_delete, Ht. assert (size (Pool.tx p) ≠ 0%nat); [|lia].
    apply map_size_ne_0_lookup_2 with id. by exists t.
Qed.

Lemma Expire_spec it now p :
  consistent p →
  let '(p', n) := Expire it now p in
  consistent p' ∧ (lean p → lean p') ∧ Pool.max p' = Pool.max p ∧
  Pool.tx p' = delete_if (λ _ t, expired now t) it (Pool.tx p) ∧
  n = Z.of_nat (size (Pool.tx p)) - Z.of_nat (size (Pool.tx p')).
Proof.
  unfold Expire, delete_if. intros Hp.
  enough (∀ n, let '(p', n') := fold_left (expire_one now) it (p, n) in
    consistent p' ∧ (lean p → lean p') ∧ Pool.max p' = Pool.max p ∧
    Pool.tx p' = fold_left (λ m' k, match m' !! k with
                     | Some v => if decide (expired now v) then delete k m' else m'
                     | None => m' end) it (Pool.tx p) ∧
    n' + Z.of_nat (size (Pool.tx p')) = n + Z.of_nat (size (Pool.tx p))) as HH.
  { specialize (HH 0). destruct (fold_left _ _ _) as [p' n']. naive_solver lia. }
  revert p Hp. induction it as [|id it IH]; intros p Hp n; [done|].
  cbn [fold_left]. pose proof (expire_one_spec now p n id Hp) as H1.
  destruct (expire_one now (p, n) id) as [p1 n1]. destruct H1 as (Hc & Hl & Hm & Ht & Hn).
  specialize (IH p1 Hc n1). destruct (fold_left _ _ (p1, n1)) as [p' n'].
  destruct IH as (Hc' & Hl' & Hm' & Ht' & Hn'). rewrite <- Ht.
  split; [done|]. split; [auto|]. split; [congruence|]. split; [done|lia].
Qed.
End remove.

(** Every operation keeps the invariant. *)
Section runs.
Context `{Hasher}.

Lemma run_op_invariant p o :
  consistent p → bounded p →
  consistent (run_op p o) ∧ bounded (run_op p o) ∧ Pool.max (run_op p o) = Pool.max p.
Proof.
  intros Hp Hb. unfold bounded in *. destruct o as [t|ids|it now]; simpl.
  - split; [by apply Add_consistent|]. by apply Add_bounded.
  - destruct (Remove_spec p ids Hp) as [Hc Hl], (Remove_accounts p ids) as [_ Hm].
    split; [done|]. split; [|done]. rewrite Hm.
    pose proof (map_subseteq_size _ _ (Remove_shrinks p ids)). lia.
  - pose proof (Expire_spec it now p Hp) as HE. destruct (Expire it now p) as [p' n].
    destruct HE as (Hc & _ & Hm & Ht & _). simpl. split; [done|]. split; [|done]. rewrite Hm.
    assert (Pool.tx p' ⊆ Pool.tx p) as Hs%map_subseteq_size; [|lia].
    rewrite Ht. apply delete_if_subseteq.
Qed.

Lemma run_ops_invariant max ops :
  let p := fold_left run_op ops (New max) in
  consistent p ∧ bounded p ∧ Pool.max p = max.
Proof.
  cbv zeta. assert (consistent (New max) ∧ bounded (New max) ∧ Pool.max (New max) = max) as H0.
  { split; [apply New_consistent|]. split; [|done]. unfold bounded. cbn -[Z.max]. rewrite map_size_empty. lia. }
  revert H0. generalize (New max). induction ops as [|o ops IH]; intros p (Hc & Hb & Hm); simpl.
  - done.
  - destruct (run_op_invariant p o Hc Hb) as (? & ? & ?). apply IH. split_and!; [done|done|congruence].
Qed.

Definition removes (o : op) : bool := match o with OpRemove _ => true | _ => false end.

Lemma Add_lean p t : consistent p → lean p → lean (Add p t).1.
Proof.
  intros Hp Hl. rewrite Add_cases. cbv zeta. generalize (identified t). clear t. intros t.
  case_decide; [done|]. case_decide; [done|]. case_decide as Hd; simpl.
  - destruct Hd as [[x Hx] _]. intros f m. simpl. rewrite lookup_insert. case_decide; [|apply Hl].
    intros [= <-] E. rewrite E in Hx. by rewrite lookup_empty in Hx.
  - intros f m. simpl. rewrite lookup_insert. case_decide.
    + intros [= <-]. apply insert_non_empty.
    + unfold make_room. case_match; simpl; (rewrite lookup_insert_ne by done); apply Hl.
Qed.

(** The accounts of the stored transactions. *)
Definition senders (p : Pool.t) : gset string := list_to_set (Tx.From <$> (map_to_list (Pool.tx p)).*2).

Lemma lean_accounts p : consistent p → lean p → size (Pool.byAcct p) = size (senders p).
Proof.
  intros Hp Hl. rewrite <- (size_dom (D := gset string)). f_equal. apply leibniz_equiv. intros f.
  unfold senders. rewrite elem_of_dom, elem_of_list_to_set, list_elem_of_fmap. split.
  - intros [m Hm]. destruct (map_choose m (Hl _ _ Hm)) as (n & i & Hi).
    destruct (con_bwd _ Hp f n i) as (t & Ht & Hf & _).
    { unfold acct. by rewrite Hm. }
    exists t. split; [done|]. apply list_elem_of_fmap. exists (i, t). split; [done|].
    by apply elem_of_map_to_list.
  - intros (t & -> & ([i t'] & -> & Ht)%list_elem_of_fmap). apply elem_of_map_to_list in Ht.
    destruct (con_fwd _ Hp _ _ Ht) as [_ Ha]. unfold acct in Ha. simpl in *.
    destruct (Pool.byAcct p !! Tx.From t'); [by eexists|done].
Qed.

Lemma run_ops_lean max ops :
  forallb (λ o, negb (removes o)) ops = true → lean (fold_left run_op ops (New max)).
Proof.
  induction ops as [|o ops IH] using rev_ind; intros Hf.
  { intros f m. simpl. by rewrite lookup_empty. }
  rewrite forallb_app in Hf. apply andb_true_iff in Hf as [Hf Ho].
  rewrite fold_left_app. simpl. specialize (IH Hf).
  destruct (run_ops_invariant max ops) as (Hc & _).
  destruct o as [t|ids|it now]; [by apply Add_lean|done|]. simpl.
  pose proof (Expire_spec it now _ Hc) as HE. destruct (Expire it now _) as [p' n].
  by apply HE.
Qed.
End runs.

#[export] Instance fee_ge_total : Total fee_ge.
Proof. intros a b. unfold fee_ge. lia. Qed.

(** ** Properties *)

(** C9: after any sequence of additions, removals and expirations, in any order and
    with any arguments, the two indexes of the pool agree and the pool holds at
    most [max] transactions: one per identifier and one per account and nonce. *)
Theorem pool_invariant max ops :
  let p := fold_left run_op ops (New max) in consistent p ∧ bounded p.
Proof. split; apply (run_ops_invariant max ops). Qed.

(** C8: [Add] on every branch, against the map from (account, nonce) to the pending
    transaction: which error it returns, that a refused transaction leaves the
    map alone, and that an accepted one takes its (account, nonce) and nothing
    else, replacing a transaction of strictly lower fee. *)
Theorem Add_refines p t :
  consistent p →
  let u := identified t in
  let '(p', e) := Add p t in
  e = (if decide (Pool.max p ≤ Z.of_nat (size (Pool.tx p))) then errors_New "mempool full"
       else if decide (is_Some (Pool.tx p !! Tx.ID u)) then Some ErrDuplicate
       else match pending p (Tx.From u) (Tx.Nonce u) with
            | Some old => if decide (Tx.Fee u ≤ Tx.Fee old) then Some ErrNonce else nilerr
            | None => nilerr end) ∧
  ∀ f n, pending p' f n =
    if decide (e = nilerr ∧ f = Tx.From u ∧ n = Tx.Nonce u) then Some u else pending p f n.
Proof. exact (Add_pending p t). Qed.

Definition tx_a : Tx.t := Tx.mk "t1" "alice" "bob" 7 10 21000 "k" "v" 0 100 "".
Definition tx_b : Tx.t := Tx.mk "t2" "alice" "carol" 7 20 21000 "k" "w" 0 100 "".
Definition tx_c : Tx.t := Tx.mk "t3" "dave" "carol" 1 5 21000 "k" "w" 1000 100 "".

Lemma Add_refines_witness :
  let p := fold_left run_op [OpAdd tx_a; OpAdd tx_c] (New 10) in
  let u := identified tx_b in
  let '(p', e) := Add p tx_b in
  e = (if decide (Pool.max p ≤ Z.of_nat (size (Pool.tx p))) then errors_New "mempool full"
       else if decide (is_Some (Pool.tx p !! Tx.ID u)) then Some ErrDuplicate
       else match pending p (Tx.From u) (Tx.Nonce u) with
            | Some old => if decide (Tx.Fee u ≤ Tx.Fee old) then Some ErrNonce else nilerr
            | None => nilerr end) ∧
  ∀ f n, pending p' f n =
    if decide (e = nilerr ∧ f = Tx.From u ∧ n = Tx.Nonce u) then Some u else pending p f n.
Proof. intros p. apply (Add_refines p tx_b), (run_ops_invariant 10). Defined.

(** [Expire] deletes exactly the transactions whose deadline has passed and
    returns their number, whatever the order of the range. *)
Theorem Expire_exact p it now :
  consistent p → ranges it (Pool.tx p) →
  let '(p', n) := Expire it now p in
  (∀ id, Pool.tx p' !! id =
     match Pool.tx p !! id with
     | Some t => if decide (expired now t) then None else Some t
     | None => None end) ∧
  n = Z.of_nat (size (Pool.tx p)) - Z.of_nat (size (Pool.tx p')).
Proof.
  intros Hp Hit. pose proof (Expire_spec it now p Hp) as HE.
  destruct (Expire it now p) as [p' n]. destruct HE as (_ & _ & _ & Ht & Hn).
  split; [|done]. intros id. rewrite Ht.
  rewrite (delete_if_lookup (λ _ t, expired now t)); [done|].
  intros i Hi. by apply (elem_of_ranges it (Pool.tx p)).
Qed.

Lemma Expire_exact_witness :
  let p := fold_left run_op [OpAdd tx_a; OpAdd tx_c] (New 10) in
  let now := Time.of_Unix 2000 in
  let '(p', n) := Expire ["t3"; "t1"] now p in
  (∀ id, Pool.tx p' !! id =
     match Pool.tx p !! id with
     | Some t => if decide (expired now t) then None else Some t
     | None => None end) ∧
  n = Z.of_nat (size (Pool.tx p)) - Z.of_nat (size (Pool.tx p')).
Proof.
  intros p now. apply (Expire_exact p ["t3"; "t1"] now).
  - apply (run_ops_invariant 10).
  - apply (bool_decide_unpack _). by vm_compute.
Defined.

(** [List] returns every transaction that has not expired, once, by falling
    fee. *)
Theorem List_by_fee p it now :
  consistent p → ranges it (Pool.tx p) →
  Sorted fee_ge (List it now p) ∧ NoDup (List it now p) ∧
  ∀ t, t ∈ List it now p ↔ Pool.tx p !! Tx.ID t = Some t ∧ unexpired (now (Tx.ID t)) t.
Proof.
  intros Hp Hit. unfold List. split; [apply isort_sorted, _|].
  rewrite isort_perm. split.
  - apply NoDup_omap; [|by apply (ranges_NoDup _ _ Hit)].
    intros i j t Hi Hj. apply bind_Some in Hi as (u & Hu & Eu), Hj as (v & Hv & Ev).
    repeat case_decide; simplify_eq.
    destruct (con_fwd _ Hp _ _ Hu), (con_fwd _ Hp _ _ Hv). congruence.
  - intros t. rewrite isort_perm, list_elem_of_omap. split.
    + intros (i & _ & Hi). apply bind_Some in Hi as (u & Hu & Eu). case_decide; simplify_eq.
      by destruct (con_fwd _ Hp _ _ Hu) as [<- _].
    + intros [Ht Hu]. exists (Tx.ID t). split; [apply (elem_of_ranges _ _ _ Hit); by eexists|].
      rewrite Ht. simpl. by rewrite decide_True.
Qed.

Lemma List_by_fee_witness :
  let p := fold_left run_op [OpAdd tx_a; OpAdd tx_c] (New 10) in
  let now := λ _, 1500 in
  Sorted fee_ge (List ["t3"; "t1"] now p) ∧ NoDup (List ["t3"; "t1"] now p) ∧
  ∀ t, t ∈ List ["t3"; "t1"] now p ↔ Pool.tx p !! Tx.ID t = Some t ∧ unexpired (now (Tx.ID t)) t.
Proof.
  intros p now. apply (List_by_fee p ["t3"; "t1"] now).
  - apply (run_ops_invariant 10).
  - apply (bool_decide_unpack _). by vm_compute.
Defined.

(** [List] and [Expire] disagree on far deadlines: [time.Unix] wraps on a
    deadline beyond [MaxInt64 - 62135596800], so that [Expire] deletes, at every
    clock reading since 1970, a transaction that [List] still shows. *)
Theorem Expire_far_deadline t now :
  9223372036854775807 - 62135596800 < Tx.ExpiresAt t ≤ MaxInt64 →
  Time.sane now → Time.of_Unix 0 ≤ now →
  expired now t ∧ unexpired (Time.Unix now) t.
Proof.
  intros Ht [Hn Hs] H0. unfold expired, unexpired, Time.Before, Time.of_Unix, Time.Unix,
    Time.unixToInternal, Time.second in *. rewrite bool_decide_eq_true. mlia.
Qed.

Lemma Expire_far_deadline_witness :
  let t := Tx.mk "t4" "erin" "bob" 1 5 21000 "k" "v" MaxInt64 10 "" in
  let now := Time.of_Unix 1700000000 in
  expired now t ∧ unexpired (Time.Unix now) t.
Proof. intros t now. apply (Expire_far_deadline t now); [split|split|]; vm_compute; congruence. Defined.

(** As long as nothing is removed, [Stats] counts in [Accounts] the accounts that
    have a transaction in the pool. *)
Theorem Stats_accounts_exact max ops it :
  forallb (λ o, negb (removes o)) ops = true →
  let p := fold_left run_op ops (New max) in
  Stats.Accounts (Stats it p) = Z.of_nat (size (senders p)).
Proof.
  intros Hops. cbv zeta. simpl. f_equal. apply lean_accounts; [apply (run_ops_invariant max ops)|].
  exact (run_ops_lean max ops Hops).
Qed.

Lemma Stats_accounts_exact_witness :
  let p := fold_left run_op [OpAdd tx_a; OpAdd tx_c; OpExpire ["t3"; "t1"] (Time.of_Unix 2000)] (New 10) in
  Stats.Accounts (Stats ["t1"] p) = Z.of_nat (size (senders p)).
Proof.
  exact (Stats_accounts_exact 10 [OpAdd tx_a; OpAdd tx_c; OpExpire ["t3"; "t1"] (Time.of_Unix 2000)]
           ["t1"] eq_refl).
Defined.

(** [Remove] deletes exactly the transactions it is given, but never an account:
    [Stats] keeps counting accounts that have no transaction left. *)
Theorem Remove_keeps_accounts max ops ids it :
  let p := fold_left run_op ops (New max) in
  (∀ id, Pool.tx (Remove p ids) !! id = if decide (id ∈ ids) then None else Pool.tx p !! id) ∧
  Stats.Accounts (Stats it (Remove p ids)) = Stats.Accounts (Stats it p).
Proof.
  cbv zeta. split; [apply Remove_spec, (run_ops_invariant max ops)|].
  simpl. f_equal. apply Remove_accounts.
Qed.
