(* ===== verification/Policy.v ===== *)
(** * mempool/policy.go: selection, replacement, nonces, reservations

    The pure checks a block builder runs on pool transactions, and the
    reservation table. [Expire] and [Stats] are methods of the pool and are in
    [Mempool]. *)
From S2P Require Import Prelude Machine GoSort GoMap ChainDomain Mempool.

(** ** Model *)
Module Policy.
Record t := mk { MaxBytes : Z; MaxTx : Z; TTL : Z; MinFee : Z; AllowReplace : bool }.
End Policy.
(** [func DefaultPolicy() Policy] *)
Definition DefaultPolicy : Policy.t :=
  Policy.mk (Z.shiftl 64 20) 10000 (30 * 60 * Time.second) 1 true.

(** The order of [Select]: the comparison function says [a] comes before [b]. *)
Definition select_less (a b : Tx.t) : Prop :=
  if decide (Tx.Fee a = Tx.Fee b) then Tx.Nonce a < Tx.Nonce b else Tx.Fee b < Tx.Fee a.
#[export] Instance select_less_dec a b : Decision (select_less a b).
Proof. unfold select_less. case_decide; apply _. Defined.
Definition select_le (a b : Tx.t) : Prop := ¬ select_less b a.
#[export] Instance select_le_dec a b : Decision (select_le a b).
Proof. unfold select_le. apply _. Defined.
(** [func Select(txs []Tx, limit int) []Tx]: [out[:limit]] panics on a negative
    limit. *)
Definition Select (txs : list Tx.t) (limit : Z) : outcome (list Tx.t) :=
  let out := isort select_le txs in
  if decide (limit < len out) then
    if decide (limit < 0) then Panic "slice bounds out of range"
    else Ret (take (Z.to_nat limit) out)
  else Ret out.

(** [func CheckReplacement(old, new Tx) error] *)
Definition CheckReplacement (old new : Tx.t) : error :=
  if decide (Tx.From old ≠ Tx.From new ∨ Tx.Nonce old ≠ Tx.Nonce new)
  then errors_New "replacement identity mismatch" else
  if decide (Tx.Fee new ≤ Tx.Fee old) then errors_New "replacement fee too low" else nilerr.

(** [func ValidateNonce(expected uint64, t Tx) error]: [expected+100] wraps. *)
Definition ValidateNonce (expected : Z) (t : Tx.t) : error :=
  if decide (Tx.Nonce t < expected) then errors_New "nonce too low" else
  if decide (u64 (expected + 100) < Tx.Nonce t) then errors_New "nonce gap too large" else nilerr.

(** [type Reservation]: the owner of each key. *)
Record Reservation := reservation { owner : gmap string string }.
(** [func NewReservation() *Reservation] *)
Definition NewReservation : Reservation := reservation ∅.
(** [func (r *Reservation) Acquire(key, id string) bool] *)
Definition Acquire (r : Reservation) (key id : string) : Reservation * bool :=
  let x := sget (owner r) key in
  if decide (x ≠ "" ∧ x ≠ id) then (r, false) else (reservation (<[key := id]> (owner r)), true).
(** [func (r *Reservation) Release(key, id string)] *)
Definition Release (r : Reservation) (key id : string) : Reservation :=
  if decide (sget (owner r) key = id) then reservation (delete key (owner r)) else r.

(** ** Specification *)

(** Reservations as steps of named clients. *)
Inductive reservation_op := RAcquire (key id : string) | RRelease (key id : string).
Definition run_reservation (r : Reservation) (o : reservation_op) : Reservation :=
  match o with RAcquire key id => (Acquire r key id).1 | RRelease key id => Release r key id end.
Definition released (key id : string) (o : reservation_op) : bool :=
  match o with RRelease k i => bool_decide (k = key ∧ i = id) | _ => false end.

(** ** Lemmas *)
Lemma select_le_iff a b :
  select_le a b ↔ Tx.Fee b < Tx.Fee a ∨ (Tx.Fee a = Tx.Fee b ∧ Tx.Nonce a ≤ Tx.Nonce b).
Proof. unfold select_le, select_less. case_decide; lia. Qed.
#[export] Instance select_le_total : Total select_le.
Proof. intros a b. rewrite !select_le_iff. lia. Qed.
#[export] Instance select_le_trans : Transitive select_le.
Proof. intros a b c. rewrite !select_le_iff. lia. Qed.

Lemma Select_take txs limit :
  0 ≤ limit → Select txs limit = Ret (take (Z.to_nat limit) (isort select_le txs)).
Proof.
  intros H. unfold Select. case_decide; [by rewrite decide_False by lia|].
  by rewrite take_ge by lia.
Qed.

Lemma Acquire_owner r key id :
  id ≠ "" →
  ((Acquire r key id).2 = true → sget (owner (Acquire r key id).1) key = id) ∧
  ((Acquire r key id).2 = false → (Acquire r key id).1 = r ∧ sget (owner r) key ≠ "" ∧ sget (owner r) key ≠ id).
Proof.
  intros Hid. unfold Acquire. case_decide; simpl; [naive_solver|].
  split; [|done]. unfold sget. by rewrite lookup_insert_eq.
Qed.

Lemma reservation_step r key id o :
  id ≠ "" → sget (owner r) key = id → released key id o = false → sget (owner (run_reservation r o)) key = id.
Proof.
  intros Hid Hr Ho. destruct o as [k i|k i]; simpl in *.
  - unfold Acquire. case_decide as Hx; simpl; [done|]. unfold sget at 1. rewrite lookup_insert.
    case_decide; subst; simpl; [|done]. destruct (decide (i = sget (owner r) key)); [done|].
    destruct Hx. split; [done|congruence].
  - apply bool_decide_eq_false in Ho. unfold Release. case_decide as Hx; [|done].
    unfold sget at 1. simpl. rewrite lookup_delete_ne; [done|]. intros ->. apply Ho. split; congruence.
Qed.

Lemma ValidateNonce_nil expected t :
  ValidateNonce expected t = nilerr ↔ expected ≤ Tx.Nonce t ≤ u64 (expected + 100).
Proof.
  unfold ValidateNonce. repeat case_decide; (split; [intros E; try discriminate E; lia|]);
    first [done | lia].
Qed.

(** ** Properties *)

(** [Select] with a non-negative limit returns the best [limit] transactions: a
    sorted list, and no transaction it leaves out comes before one it returns;
    with a negative limit it panics. *)
Theorem Select_best txs limit :
  (0 ≤ limit → ∃ out rest, Select txs limit = Ret out ∧ out ++ rest ≡ₚ txs ∧
     len out = Z.min limit (len txs) ∧ Sorted select_le out ∧
     ∀ a b, a ∈ out → b ∈ rest → select_le a b) ∧
  (limit < 0 → ∃ why, Select txs limit = Panic why).
Proof.
  split; intros H.
  - rewrite Select_take by done.
    pose proof (isort_sorted select_le txs) as Hs. apply Sorted_StronglySorted in Hs; [|apply _].
    rewrite <- (take_drop (Z.to_nat limit) (isort select_le txs)) in Hs.
    apply StronglySorted_app in Hs as (Hab & Hs & _).
    eexists _, (drop (Z.to_nat limit) (isort select_le txs)). split; [done|].
    split; [by rewrite take_drop, isort_perm|].
    split; [rewrite length_take, isort_perm; lia|].
    split; [by apply StronglySorted_Sorted|done].
  - unfold Select. rewrite decide_True, decide_True by lia. by eexists.
Qed.

Definition sel_txs : list Tx.t :=
  [Tx.mk "t1" "a" "b" 2 10 1 "" "" 0 0 ""; Tx.mk "t2" "a" "b" 1 10 1 "" "" 0 0 "";
   Tx.mk "t3" "c" "b" 9 30 1 "" "" 0 0 ""].
Example Select_run :
  Select sel_txs 2 = Ret [Tx.mk "t3" "c" "b" 9 30 1 "" "" 0 0 ""; Tx.mk "t2" "a" "b" 1 10 1 "" "" 0 0 ""].
Proof. reflexivity. Qed.

(** A reservation is exclusive: once a client with a non-empty identifier holds
    a key, it holds it through every sequence of operations in which it does not
    release the key itself, and every other client is refused meanwhile. *)
Theorem Reservation_exclusive r key id ops other :
  id ≠ "" → other ≠ id →
  (Acquire r key id).2 = true → forallb (λ o, negb (released key id o)) ops = true →
  let r' := fold_left run_reservation ops (Acquire r key id).1 in
  sget (owner r') key = id ∧ Acquire r' key other = (r', false).
Proof.
  intros Hid Ho Ha Hops. cbv zeta.
  assert (sget (owner (fold_left run_reservation ops (Acquire r key id).1)) key = id) as Hk.
  { apply (Acquire_owner r key id Hid) in Ha. revert Ha Hops.
    generalize (Acquire r key id).1. clear r. induction ops as [|o ops IH]; intros r Hr; [done|].
    simpl. intros [Ho1 Hops]%andb_true_iff. apply negb_true_iff in Ho1.
    apply IH; [|done]. by apply reservation_step. }
  split; [done|]. unfold Acquire at 1. rewrite Hk, decide_True; [done|]. by split.
Qed.

Lemma Reservation_exclusive_witness :
  let r' := fold_left run_reservation [RAcquire "k" "w2"; RRelease "k" "w2"; RRelease "j" "w1"]
              (Acquire NewReservation "k" "w1").1 in
  sget (owner r') "k" = "w1" ∧ Acquire r' "k" "w3" = (r', false).
Proof.
  apply (Reservation_exclusive NewReservation "k" "w1"
           [RAcquire "k" "w2"; RRelease "k" "w2"; RRelease "j" "w1"] "w3");
    [discriminate|discriminate|reflexivity|reflexivity].
Defined.

(** [ValidateNonce] accepts the window of 101 nonces from the expected one; in
    the last 100 values of the range the window wraps and every nonce from the
    expected one on is refused. *)
Theorem ValidateNonce_window expected t :
  is_u64 expected → is_u64 (Tx.Nonce t) →
  (expected ≤ MaxUint64 - 100 →
     ValidateNonce expected t = nilerr ↔ expected ≤ Tx.Nonce t ≤ expected + 100) ∧
  (MaxUint64 - 100 < expected → ValidateNonce expected t ≠ nilerr).
Proof. intros He Hn. split; intros Hx; [|intros Hy; revert Hy]; rewrite ValidateNonce_nil; mlia. Qed.

Lemma ValidateNonce_window_witness :
  let t := Tx.mk "t" "a" "b" 107 1 1 "k" "v" 0 0 "" in
  (7 ≤ MaxUint64 - 100 → ValidateNonce 7 t = nilerr ↔ 7 ≤ Tx.Nonce t ≤ 7 + 100) ∧
  (MaxUint64 - 100 < 7 → ValidateNonce 7 t ≠ nilerr).
Proof. intros t. apply (ValidateNonce_window 7 t); split; (discriminate || reflexivity). Defined.
