(* ===== verification/Repository.v ===== *)
(** * repository/repo.go and retention.go: blocks and snapshots

    The repository copies every block and snapshot on the way in and out
    ([cloneBlock], [cloneSnapshot]), so that its contents are values: no slice
    or map it holds is reachable from outside ([RepoHeap] has the copies, and shows
    that). [ChainStore] is what a block
    producer needs of a store; [Repo.t] is its instance. *)
From S2P Require Import Prelude Machine GoString GoSort GoMap Sha256 ChainDomain.

(** ** Model *)
Module Repo.
Record t := mk { blocks : gmap Z Block.t; snaps : gmap string Snapshot.t }.
End Repo.

(** [func New() *Repo] *)
Definition New : Repo.t := Repo.mk ∅ ∅.

(** [func (r *Repo) PutBlock(b Block) error] *)
Definition PutBlock (r : Repo.t) (b : Block.t) : Repo.t * error :=
  match Repo.blocks r !! Block.Height b with
  | Some _ => (r, errors_New "block exists")
  | None => (Repo.mk (<[Block.Height b := b]> (Repo.blocks r)) (Repo.snaps r), nilerr)
  end.
(** [func (r *Repo) Block(h Height) (Block, bool)] *)
Definition Block (r : Repo.t) (h : Z) : Block.t * bool :=
  match Repo.blocks r !! h with Some b => (b, true) | None => (Block.zero, false) end.
(** The body of the loop of [Latest]. *)
Definition later (r : Repo.t) (b : Block.t) (k : Z) : Block.t :=
  match Repo.blocks r !! k with
  | Some x => if decide (Block.Height b < Block.Height x) then x else b
  | None => b
  end.
(** [func (r *Repo) Latest() Block] *)
Definition Latest (it : list Z) (r : Repo.t) : Block.t := fold_left (later r) it Block.zero.

(** [func (r *Repo) PutSnapshot(s Snapshot)] *)
Definition PutSnapshot (r : Repo.t) (s : Snapshot.t) : Repo.t :=
  Repo.mk (Repo.blocks r) (<[Snapshot.ID s := s]> (Repo.snaps r)).
(** [func (r *Repo) Snapshot(id string) (Snapshot, bool)] *)
Definition Snapshot (r : Repo.t) (id : string) : Snapshot.t * bool :=
  match Repo.snaps r !! id with Some s => (s, true) | None => (Snapshot.zero, false) end.
(** [func (r *Repo) Snapshots() []Snapshot] *)
Definition Snapshots (it : list string) (r : Repo.t) : list Snapshot.t :=
  omap (Repo.snaps r !!.) it.

(** The loop of [Range]: [h++] wraps; [None] when the fuel is spent. *)
Fixpoint range_loop (fuel : nat) (r : Repo.t) (h to : Z) (o : list Block.t)
  : option (list Block.t) :=
  match fuel with
  | O => None
  | S fuel =>
      if decide (h ≤ to) then
        range_loop fuel r (u64 (h + 1)) to
          (match Repo.blocks r !! h with Some b => o ++ [b] | None => o end)
      else Some o
  end.
Definition height_le (a b : Block.t) : Prop := Block.Height a ≤ Block.Height b.
#[export] Instance height_le_dec a b : Decision (height_le a b).
Proof. unfold height_le. apply _. Defined.
(** [func (r *Repo) Range(from, to Height) []Block] *)
Definition Range (fuel : nat) (r : Repo.t) (from to : Z) : option (list Block.t) :=
  o ← range_loop fuel r from to []; Some (isort height_le o).

(** The loop of [VerifyChain] over [h = 1, ..., len(r.blocks)]. *)
Fixpoint verify_loop `{Hasher} (r : Repo.t) (hs : list Z) (prev : option Block.t) : error :=
  match hs with
  | [] => nilerr
  | h :: hs =>
      match Repo.blocks r !! h with
      | None => errors_New "chain gap"
      | Some b => match ValidateBlock b prev with
                  | Some e => Some e
                  | None => verify_loop r hs (Some b)
                  end
      end
  end.
(** [func (r *Repo) VerifyChain() error] *)
Definition VerifyChain `{Hasher} (r : Repo.t) : error :=
  verify_loop r (seqZ 1 (Z.of_nat (size (Repo.blocks r)))) None.
Definition above {V} (h x : Z) (_ : V) : Prop := h < x.
#[export] Instance above_dec {V} h x (v : V) : Decision (above h x v).
Proof. unfold above. apply _. Defined.
(** [func (r *Repo) DeleteAbove(h Height)] *)
Definition DeleteAbove (it : list Z) (r : Repo.t) (h : Z) : Repo.t :=
  Repo.mk (delete_if (above h) it (Repo.blocks r)) (Repo.snaps r).

(** ** Specification *)

(** A block is stored under its own height, which is a [uint64]. *)
Definition keyed (r : Repo.t) : Prop :=
  ∀ h b, Repo.blocks r !! h = Some b → Block.Height b = h ∧ is_u64 h.

(** The block stored at [h] is there and extends the block below. *)
Definition linked `{Hasher} (m : gmap Z Block.t) (h : Z) : Prop :=
  ∃ b, m !! h = Some b ∧ ValidateBlock b (if decide (h = 1) then None else m !! (h - 1)) = nilerr.
(** The blocks are exactly those of heights [1, ..., size], each linked. *)
Record chain `{Hasher} (m : gmap Z Block.t) : Prop := {
  chain_dom h : is_Some (m !! h) ↔ 1 ≤ h ≤ Z.of_nat (size m);
  chain_linked h : 1 ≤ h ≤ Z.of_nat (size m) → linked m h }.

(** What a block producer needs of its store: the tip it reads, whatever the order
    of the iteration, and a valid successor it may put. *)
Class ChainStore `{Hasher} (S : Type) := {
  cs_orders : list Z → S → Prop;
  cs_latest : list Z → S → Block.t;
  cs_put : S → Block.t → S * error;
  cs_blocks : S → gmap Z Block.t;
  cs_good : S → Prop;
  cs_chain s : cs_good s → chain (cs_blocks s);
  cs_keyed s h b : cs_good s → cs_blocks s !! h = Some b → Block.Height b = h;
  cs_latest_tip s it : cs_good s → cs_orders it s →
    cs_latest it s = default Block.zero (cs_blocks s !! Z.of_nat (size (cs_blocks s)));
  cs_put_next s b : cs_good s → is_u64 (Block.Height b) →
    Block.Height b = Z.of_nat (size (cs_blocks s)) + 1 →
    ValidateBlock b (cs_blocks s !! (Block.Height b - 1)) = nilerr →
    ∃ s', cs_put s b = (s', nilerr) ∧ cs_good s' ∧
          cs_blocks s' = <[Block.Height b := b]> (cs_blocks s) }.

(** ** Lemmas: the repository as a map *)
Lemma PutBlock_keyed r b : is_u64 (Block.Height b) → keyed r → keyed (PutBlock r b).1.
Proof.
  intros Hb Hr. unfold PutBlock. case_match; simpl; [done|]. intros h c. simpl.
  rewrite lookup_insert. case_decide; [|apply Hr]. intros [= <-]. by subst.
Qed.

Lemma PutBlock_ok r r' b :
  PutBlock r b = (r', nilerr) →
  Repo.blocks r !! Block.Height b = None ∧
  Repo.blocks r' = <[Block.Height b := b]> (Repo.blocks r) ∧ Repo.snaps r' = Repo.snaps r.
Proof. unfold PutBlock. destruct (Repo.blocks r !! Block.Height b); intros E; by simplify_eq. Qed.

Lemma range_loop_spec r to fuel h o :
  is_u64 h → to < MaxUint64 → h ≤ to + 1 → (Z.to_nat (to + 1 - h) < fuel)%nat →
  range_loop fuel r h to o = Some (o ++ omap (Repo.blocks r !!.) (seqZ h (to + 1 - h))).
Proof.
  revert h o. induction fuel as [|fuel IH]; intros h o Hh Ht Hle Hf; cbn [range_loop]; [lia|].
  case_decide as Hd.
  - rewrite u64_small by mlia. rewrite IH; [|mlia|done|lia|lia].
    rewrite (seqZ_cons h) by lia. replace (Z.pred (to + 1 - h)) with (to + 1 - (h + 1)) by lia.
    unfold Z.succ. csimpl. destruct (Repo.blocks r !! h); [|done].
    by rewrite <- app_assoc.
  - by rewrite seqZ_nil, app_nil_r by lia.
Qed.

Lemma range_loop_diverges r fuel h o : is_u64 h → range_loop fuel r h MaxUint64 o = None.
Proof.
  revert h o. induction fuel as [|fuel IH]; intros h o Hh; cbn [range_loop]; [done|].
  rewrite decide_True by mlia. apply IH, u64_range.
Qed.

(** The values at growing keys of a keyed map grow. *)
Lemma omap_seqZ_sorted r from n :
  keyed r → StronglySorted height_le (omap (Repo.blocks r !!.) (seqZ from n)).
Proof.
  intros Hr. destruct (Z_le_gt_dec n 0) as [Hn|Hn]; [rewrite seqZ_nil by lia; constructor|].
  revert from. assert (0 ≤ n) as Hn0 by lia. clear Hn. revert n Hn0.
  apply (natlike_ind (λ n, ∀ from, StronglySorted height_le (omap (Repo.blocks r !!.) (seqZ from n)))).
  - intros from. constructor.
  - intros n Hn IH from. rewrite seqZ_cons by lia. rewrite Z.pred_succ. csimpl.
    destruct (Repo.blocks r !! from) as [b|] eqn:Hb; [|apply IH]. constructor; [apply IH|].
    apply list.Forall_forall. intros c (k & Hk%elem_of_seqZ & Hc)%list_elem_of_omap.
    destruct (Hr _ _ Hb) as [Eb _], (Hr _ _ Hc) as [Ec _]. unfold height_le. lia.
Qed.

(** ** Lemmas: chains *)
Section chain.
Context `{Hasher}.
Implicit Types (m : gmap Z Block.t) (r : Repo.t).

Lemma verify_loop_iff r n h prev :
  0 ≤ n →
  verify_loop r (seqZ h n) prev = nilerr ↔
  ∀ k, h ≤ k < h + n → ∃ b, Repo.blocks r !! k = Some b ∧
    ValidateBlock b (if decide (k = h) then prev else Repo.blocks r !! (k - 1)) = nilerr.
Proof.
  intros Hn. revert n Hn h prev.
  apply (natlike_ind (λ n, ∀ h prev, verify_loop r (seqZ h n) prev = nilerr ↔ _)).
  { intros h prev. split; [|done]. intros _ k Hk. lia. }
  intros n Hn IH h prev. rewrite seqZ_cons, Z.pred_succ by lia. cbn [verify_loop].
  destruct (Repo.blocks r !! h) as [b|] eqn:Hb.
  - destruct (ValidateBlock b prev) eqn:Hv.
    + split; [done|]. intros HH. destruct (HH h) as (c & Hc & Hv'); [lia|].
      rewrite decide_True in Hv' by done. congruence.
    + rewrite IH. split; intros HH k Hk.
      * destruct (decide (k = h)) as [->|Hne]; [by exists b|].
        destruct (HH k) as (c & Hc & Hv'); [lia|]. exists c. split; [done|].
        case_decide as E; [|done]. rewrite E. replace (Z.succ h - 1) with h by lia. by rewrite Hb.
      * destruct (HH k) as (c & Hc & Hv'); [lia|]. exists c. split; [done|].
        rewrite decide_False in Hv' by lia. case_decide as E; [|done].
        rewrite E in Hv'. replace (Z.succ h - 1) with h in Hv' by lia. by rewrite Hb in Hv'.
  - split; [done|]. intros HH. destruct (HH h) as (c & Hc & _); [lia|]. congruence.
Qed.

Lemma VerifyChain_iff r :
  VerifyChain r = nilerr ↔
  ∀ h, 1 ≤ h ≤ Z.of_nat (size (Repo.blocks r)) → linked (Repo.blocks r) h.
Proof.
  unfold VerifyChain, linked. rewrite verify_loop_iff by lia.
  split; intros HH h Hh; apply HH; lia.
Qed.

(** [n] stored heights between [1] and [n] leave no room for another. *)
Lemma contiguous_dom m :
  (∀ h, 1 ≤ h ≤ Z.of_nat (size m) → is_Some (m !! h)) →
  ∀ h, is_Some (m !! h) ↔ 1 ≤ h ≤ Z.of_nat (size m).
Proof.
  intros Hin h. rewrite <- elem_of_dom.
  replace (dom m) with (list_to_set (seqZ 1 (Z.of_nat (size m))) : gset Z).
  { rewrite elem_of_list_to_set, elem_of_seqZ. lia. }
  apply set_subseteq_size_eq.
  - intros k. rewrite elem_of_list_to_set, elem_of_seqZ, elem_of_dom. intros. apply Hin. lia.
  - rewrite size_dom, size_list_to_set, length_seqZ by apply NoDup_seqZ. lia.
Qed.

Lemma linked_chain m : (∀ h, 1 ≤ h ≤ Z.of_nat (size m) → linked m h) → chain m.
Proof.
  intros Hl. split; [|done]. apply contiguous_dom. intros h Hh.
  destruct (Hl h Hh) as (b & Hb & _). by eexists.
Qed.
Lemma VerifyChain_chain r : VerifyChain r = nilerr ↔ chain (Repo.blocks r).
Proof.
  rewrite VerifyChain_iff. split; [apply linked_chain|]. by intros [_ ?].
Qed.

Lemma chain_empty : chain ∅.
Proof. apply linked_chain. rewrite map_size_empty. intros h Hh. lia. Qed.

Lemma chain_below m h : chain m → h ≤ 0 → m !! h = None.
Proof. intros Hm Hh. apply eq_None_not_Some. rewrite (chain_dom _ Hm). lia. Qed.

Lemma chain_prev m h :
  chain m → (if decide (h = 1) then None else m !! (h - 1)) = m !! (h - 1).
Proof. intros Hm. case_decide; [|done]. symmetry. apply chain_below; [done|lia]. Qed.

(** A valid successor of the tip extends the chain. *)
Lemma chain_extend m b :
  chain m → Block.Height b = Z.of_nat (size m) + 1 →
  ValidateBlock b (m !! (Block.Height b - 1)) = nilerr →
  chain (<[Block.Height b := b]> m).
Proof.
  intros Hm Hh Hv. assert (m !! Block.Height b = None) as Hnew.
  { apply eq_None_not_Some. rewrite (chain_dom _ Hm). lia. }
  apply linked_chain. rewrite map_size_insert_None by done. intros h Hhr.
  unfold linked. destruct (decide (h = Block.Height b)) as [->|Hne].
  - exists b. rewrite lookup_insert_eq. split; [done|].
    rewrite lookup_insert_ne, (chain_prev m) by (done || lia). done.
  - destruct (chain_linked _ Hm h) as (c & Hc & Hvc); [lia|]. exists c.
    rewrite !lookup_insert_ne by lia. by split.
Qed.

(** Deleting the blocks above a height cuts the chain there. *)
Lemma chain_cut m m' h :
  chain m → (∀ k, m' !! k = if decide (h < k) then None else m !! k) → chain m'.
Proof.
  intros Hm Hk.
  assert (size m' ≤ size m)%nat as Hs.
  { apply map_subseteq_size, map_subseteq_spec. intros k b. rewrite Hk. by case_decide. }
  assert (∀ k, is_Some (m' !! k) ↔ 1 ≤ k ≤ Z.min (Z.of_nat (size m)) h) as Hd.
  { intros k. rewrite Hk. case_decide; [split; [by intros [? ?]|lia]|]. rewrite (chain_dom _ Hm). lia. }
  assert (Z.of_nat (size m') = Z.max 0 (Z.min (Z.of_nat (size m)) h)) as Es.
  { rewrite <- (size_dom (D := gset Z)).
    replace (dom m') with (list_to_set (seqZ 1 (Z.min (Z.of_nat (size m)) h)) : gset Z).
    - rewrite size_list_to_set, length_seqZ by apply NoDup_seqZ. lia.
    - apply leibniz_equiv. intros k. rewrite elem_of_list_to_set, elem_of_seqZ, elem_of_dom, Hd. lia. }
  apply linked_chain. intros k Hkr.
  destruct (chain_linked _ Hm k) as (b & Hb & Hv); [lia|]. exists b.
  rewrite !Hk, (decide_False (P := h < k)), (decide_False (P := h < k - 1)) by lia. by split.
Qed.

(** [Latest] *)
Lemma Latest_fold r it b0 :
  let c := fold_left (later r) it b0 in
  (c = b0 ∨ ∃ k, Repo.blocks r !! k = Some c) ∧ Block.Height b0 ≤ Block.Height c ∧
  ∀ k x, k ∈ it → Repo.blocks r !! k = Some x → Block.Height x ≤ Block.Height c.
Proof.
  cbv zeta. revert b0. induction it as [|k it IH]; intros b0; cbn [fold_left].
  { split; [by left|]. split; [done|]. intros k x Hk. by apply elem_of_nil in Hk. }
  destruct (IH (later r b0 k)) as (H1 & H2 & H3).
  assert (Block.Height b0 ≤ Block.Height (later r b0 k)).
  { unfold later. destruct (Repo.blocks r !! k); [case_decide|]; lia. }
  split; [|split; [lia|]].
  - destruct H1 as [->|?]; [|by right]. unfold later. destruct (Repo.blocks r !! k) eqn:E; [|by left].
    case_decide; [right; by exists k|by left].
  - intros j x [->|Hj]%elem_of_cons Hx; [|by apply (H3 j)].
    unfold later in H2. rewrite Hx in H2. unfold later. rewrite Hx.
    case_decide; unfold later in *; rewrite ?Hx in *; lia.
Qed.

Lemma Latest_tip r it :
  keyed r → chain (Repo.blocks r) → ranges it (Repo.blocks r) →
  Latest it r = default Block.zero (Repo.blocks r !! Z.of_nat (size (Repo.blocks r))).
Proof.
  intros Hr Hm Hit. destruct (Latest_fold r it Block.zero) as (H1 & _ & H3).
  fold (Latest it r) in H1, H3. set (n := Z.of_nat (size (Repo.blocks r))) in *.
  destruct (decide (n = 0)) as [Hz|Hz].
  - rewrite chain_below by (done || lia). simpl. destruct H1 as [?|[k Hk]]; [done|].
    assert (1 ≤ k ≤ n) by (apply (chain_dom _ Hm); by eexists). lia.
  - destruct (chain_dom _ Hm n) as [_ [b Hb]]; [lia|]. rewrite Hb. simpl.
    assert (n ≤ Block.Height (Latest it r)) as Hle.
    { destruct (Hr _ _ Hb) as [Eb _]. rewrite <- Eb at 1. apply (H3 n); [|done].
      apply (elem_of_ranges _ _ _ Hit). by eexists. }
    destruct H1 as [H1|[k Hk]]; [rewrite H1 in Hle; simpl in Hle; unfold Block.Height in Hle; simpl in Hle; lia|].
    destruct (Hr _ _ Hk) as [Ek _].
    assert (1 ≤ k ≤ n) by (apply (chain_dom _ Hm); by eexists).
    replace k with n in Hk by lia. congruence.
Qed.
End chain.

(** The repository is a chain store. *)
#[export] Program Instance Repo_ChainStore `{Hasher} : ChainStore Repo.t := {|
  cs_orders it r := ranges it (Repo.blocks r);
  cs_latest := Latest;
  cs_put := PutBlock;
  cs_blocks := Repo.blocks;
  cs_good r := keyed r ∧ VerifyChain r = nilerr |}.
Next Obligation. intros ? r [_ Hc]. by apply VerifyChain_chain. Qed.
Next Obligation. intros ? r h b [Hk _] Hb. by apply (Hk _ _ Hb). Qed.
Next Obligation. intros ? r it [Hk Hc] Hit. apply Latest_tip; [done| |done]. by apply VerifyChain_chain. Qed.
Next Obligation.
  intros ? r b [Hk Hc] Hb Hh Hv. apply VerifyChain_chain in Hc. simpl in *.
  assert (Repo.blocks r !! Block.Height b = None) as Hnew.
  { apply eq_None_not_Some. rewrite (chain_dom _ Hc). lia. }
  eexists. split; [unfold PutBlock; by rewrite Hnew|]. simpl. split; [split|done].
  - pose proof (PutBlock_keyed r b Hb Hk) as HH. unfold PutBlock in HH. by rewrite Hnew in HH.
  - apply VerifyChain_chain. simpl. by apply chain_extend.
Qed.

Section store.
Context `{Hasher}.

Lemma PutBlock_extends_gen r it it' b :
  keyed r → VerifyChain r = nilerr → ranges it (Repo.blocks r) →
  is_u64 (Block.Height b) → Block.Height b = Block.Height (Latest it r) + 1 →
  ValidateBlock b (match Repo.blocks r !! (Block.Height b - 1) with
                   | Some _ => Some (Latest it r) | None => None end) = nilerr →
  let '(r', e) := PutBlock r b in
  e = nilerr ∧ keyed r' ∧ VerifyChain r' = nilerr ∧
  (ranges it' (Repo.blocks r') → Latest it' r' = b).
Proof.
  intros Hk Hc Hit Hb Hh Hv.
  assert (chain (Repo.blocks r)) as Hm by (by apply VerifyChain_chain).
  pose proof (Latest_tip r it Hk Hm Hit) as El.
  assert (Block.Height (Latest it r) = Z.of_nat (size (Repo.blocks r))) as En.
  { rewrite El. destruct (Repo.blocks r !! Z.of_nat (size (Repo.blocks r))) as [c|] eqn:Ec;
      simpl; [by apply (Hk _ _ Ec)|].
    apply eq_None_not_Some in Ec. rewrite (chain_dom _ Hm) in Ec. unfold Block.Height. simpl. lia. }
  rewrite En in Hh.
  replace (Block.Height b - 1) with (Z.of_nat (size (Repo.blocks r))) in Hv by lia.
  destruct (cs_put_next (S := Repo.t) r b) as (r' & E & [Hk' Hc'] & Eb); simpl in *; [by split|done|done| |].
  { replace (Block.Height b - 1) with (Z.of_nat (size (Repo.blocks r))) by lia.
    rewrite El in Hv. destruct (Repo.blocks r !! _); done. }
  rewrite E. split; [done|]. split; [done|]. split; [done|]. intros Hit'.
  rewrite (Latest_tip r' it'), Eb by (done || by apply VerifyChain_chain).
  rewrite map_size_insert_None.
  - replace (Z.of_nat (S (size (Repo.blocks r)))) with (Block.Height b) by lia.
    by rewrite lookup_insert_eq.
  - apply eq_None_not_Some. rewrite (chain_dom _ Hm). lia.
Qed.

Lemma DeleteAbove_lookup r it h k :
  ranges it (Repo.blocks r) →
  Repo.blocks (DeleteAbove it r h) !! k = if decide (h < k) then None else Repo.blocks r !! k.
Proof.
  intros Hit. simpl. rewrite delete_if_lookup.
  - unfold above. destruct (_ !! k); repeat case_decide; done.
  - intros i Hi. by apply (elem_of_ranges _ _ _ Hit).
Qed.
Lemma DeleteAbove_gen r it h :
  ranges it (Repo.blocks r) →
  (∀ k, Repo.blocks (DeleteAbove it r h) !! k =
        if decide (h < k) then None else Repo.blocks r !! k) ∧
  (VerifyChain r = nilerr → VerifyChain (DeleteAbove it r h) = nilerr).
Proof.
  intros Hit. split; [intros; by apply DeleteAbove_lookup|].
  rewrite !VerifyChain_chain. intros Hm. eapply chain_cut; [done|].
  intros k. by apply DeleteAbove_lookup.
Qed.
End store.

#[export] Instance height_le_total : Total height_le.
Proof. intros a b. unfold height_le. lia. Qed.

(** ** Properties *)

(** C6: [VerifyChain] succeeds exactly on a complete chain: the stored heights are
    [1, ..., n] without a gap and every block passes [ValidateBlock] against the
    block below it. *)
Theorem VerifyChain_complete r :
  VerifyChain r = nilerr ↔
    (∀ h, is_Some (Repo.blocks r !! h) ↔ 1 ≤ h ≤ Z.of_nat (size (Repo.blocks r))) ∧
    (∀ h, 1 ≤ h ≤ Z.of_nat (size (Repo.blocks r)) → linked (Repo.blocks r) h).
Proof. rewrite VerifyChain_chain. split; intros [? ?]; by split. Qed.

(** C23: appending a block that validates against the tip keeps the chain verified,
    and makes the block the tip. *)
Theorem PutBlock_extends r it it' b :
  keyed r → VerifyChain r = nilerr → ranges it (Repo.blocks r) →
  is_u64 (Block.Height b) → Block.Height b = Block.Height (Latest it r) + 1 →
  ValidateBlock b (match Repo.blocks r !! (Block.Height b - 1) with
                   | Some _ => Some (Latest it r) | None => None end) = nilerr →
  let '(r', e) := PutBlock r b in
  e = nilerr ∧ keyed r' ∧ VerifyChain r' = nilerr ∧
  (ranges it' (Repo.blocks r') → Latest it' r' = b).
Proof. apply PutBlock_extends_gen. Qed.

(** C37: [DeleteAbove] removes exactly the blocks above the height, whatever the
    order of the range, and leaves a verified chain verified. *)
Theorem DeleteAbove_keeps_chain r it h :
  ranges it (Repo.blocks r) →
  (∀ k, Repo.blocks (DeleteAbove it r h) !! k =
        if decide (h < k) then None else Repo.blocks r !! k) ∧
  (VerifyChain r = nilerr → VerifyChain (DeleteAbove it r h) = nilerr).
Proof. apply DeleteAbove_gen. Qed.

(** [Range] below the last height returns the stored blocks of the interval by
    rising height, and stops after at most [to - from + 2] tests of its loop. *)
Theorem Range_complete r from to fuel :
  keyed r → is_u64 from → to < MaxUint64 → from ≤ to + 1 →
  (Z.to_nat (to + 1 - from) < fuel)%nat →
  ∃ out, Range fuel r from to = Some out ∧ Sorted height_le out ∧
    ∀ b, b ∈ out ↔ from ≤ Block.Height b ≤ to ∧ Repo.blocks r !! Block.Height b = Some b.
Proof.
  intros Hr Hf Ht Hle Hfuel. unfold Range. rewrite range_loop_spec by done. cbn [mbind option_bind app].
  eexists. split; [done|]. split; [apply isort_sorted, _|]. intros b.
  rewrite isort_perm, list_elem_of_omap. split.
  - intros (k & Hk%elem_of_seqZ & Hb). destruct (Hr _ _ Hb) as [-> _]. split; [lia|done].
  - intros [Hb Hs]. exists (Block.Height b). rewrite elem_of_seqZ. split; [lia|done].
Qed.

(** [Range] up to the last height, [MaxUint64], never returns: the loop counter
    wraps to 0 and the loop condition never fails. *)
Theorem Range_never_returns r from fuel : is_u64 from → Range fuel r from MaxUint64 = None.
Proof. intros Hf. unfold Range. by rewrite range_loop_diverges. Qed.

Lemma Range_never_returns_witness : Range 1000 New (MaxUint64 - 5) MaxUint64 = None.
Proof. apply (Range_never_returns New (MaxUint64 - 5) 1000). split; [discriminate|reflexivity]. Defined.

(** ** Witnesses: a chain of two blocks *)
Definition seal `{Hasher} (prev : Block.t) (txs : list Tx.t) : Block.t :=
  let hd := Header.mk (Block.Height prev + 1) 0 (Block.Hash prev) "" (MerkleRoot txs) "p" 5 1 in
  Block.mk hd txs [] (Header.Hash hd).
Definition block1 : Block.t := seal Block.zero [].
Definition block2 : Block.t := seal block1 [Tx.mk "t1" "a" "b" 1 2 21000 "k" "v" 0 9 ""].
Definition repo1 : Repo.t := (PutBlock New block1).1.
Definition repo2 : Repo.t := (PutBlock repo1 block2).1.

Lemma New_keyed : keyed New.
Proof. intros h b. simpl. by rewrite lookup_empty. Qed.
Lemma repo1_keyed : keyed repo1.
Proof. apply (PutBlock_keyed New block1); [split; by vm_compute|apply New_keyed]. Qed.
Lemma repo2_keyed : keyed repo2.
Proof. apply (PutBlock_keyed repo1 block2); [split; by vm_compute|apply repo1_keyed]. Qed.

Lemma PutBlock_extends_witness :
  let '(r', e) := PutBlock repo1 block2 in
  e = nilerr ∧ keyed r' ∧ VerifyChain r' = nilerr ∧
  (ranges [2; 1] (Repo.blocks r') → Latest [2; 1] r' = block2).
Proof.
  apply (PutBlock_extends repo1 [1] [2; 1] block2 repo1_keyed).
  - by vm_compute.
  - apply (bool_decide_unpack _). by vm_compute.
  - split; by vm_compute.
  - by vm_compute.
  - by vm_compute.
Defined.

Lemma DeleteAbove_keeps_chain_witness :
  (∀ k, Repo.blocks (DeleteAbove [1; 2] repo2 1) !! k =
        if decide (1 < k) then None else Repo.blocks repo2 !! k) ∧
  (VerifyChain repo2 = nilerr → VerifyChain (DeleteAbove [1; 2] repo2 1) = nilerr).
Proof.
  apply (DeleteAbove_keeps_chain repo2 [1; 2] 1). apply (bool_decide_unpack _). by vm_compute.
Defined.

Lemma Range_complete_witness :
  ∃ out, Range 4 repo2 1 2 = Some out ∧ Sorted height_le out ∧
    ∀ b, b ∈ out ↔ 1 ≤ Block.Height b ≤ 2 ∧ Repo.blocks repo2 !! Block.Height b = Some b.
Proof.
  apply (Range_complete repo2 1 2 4 repo2_keyed); [split; by vm_compute|lia..].
Defined.
