(* ===== verification/RepoHeap.v ===== *)
(** * repository/repo.go: the defensive copies

    The repository of [Repository] keeps values; the one of the source keeps
    structs whose [Transactions], [Commit] and [Data] are references into memory it
    could share with its callers. This file models that memory ([GoHeap]): the
    repository and its callers, who may write any array or table they can reach.
    The copies [cloneBlock] and [cloneSnapshot] make are what separates the two:
    the repository of the source behaves, in every interleaving with writes of
    its callers, like the repository of values. *)
From S2P Require Import Prelude Machine GoString GoSort GoMap Sha256 ChainDomain GoHeap Repository.

(** ** Model *)
Module HBlock.
Record t := mk { header : Header.t; Transactions : slice; Commit : slice; Hash : string }.
Definition zero : t := mk Header.zero SNil SNil "".
Definition Height (b : t) : Z := Header.Height (header b).
(** The objects a block refers to, and its value. *)
Definition locs (b : t) : gset nat := slice_locs (Transactions b) ∪ slice_locs (Commit b).
Definition view (h : heap) (b : t) : Block.t :=
  Block.mk (header b) (read h (Transactions b)) (read h (Commit b)) (Hash b).
End HBlock.
Module HSnapshot.
Record t := mk { ID : string; Height : Z; Root : string; Data : option nat;
                 CreatedAt : Z; Verified : bool }.
Definition zero : t := mk "" 0 "" None 0 false.
Definition locs (s : t) : gset nat := map_locs (Data s).
Definition view (h : heap) (s : t) : Snapshot.t :=
  Snapshot.mk (ID s) (Height s) (Root s) (read_map h (Data s)) (CreatedAt s) (Verified s).
End HSnapshot.
Module HRepo.
Record t := mk { blocks : gmap Z HBlock.t; snaps : gmap string HSnapshot.t }.
Definition view (h : heap) (r : t) : Repo.t :=
  Repo.mk (HBlock.view h <$> blocks r) (HSnapshot.view h <$> snaps r).
End HRepo.

(** [func cloneBlock(b Block) Block] *)
Definition cloneBlock (h : heap) (b : HBlock.t) : heap * HBlock.t :=
  let '(h, txs) := append_nil (A := Tx.t) h (HBlock.Transactions b) in
  let '(h, commit) := append_nil (A := Vote.t) h (HBlock.Commit b) in
  (h, HBlock.mk (HBlock.header b) txs commit (HBlock.Hash b)).
(** [func cloneSnapshot(s Snapshot) Snapshot] *)
Definition cloneSnapshot (h : heap) (s : HSnapshot.t) : heap * HSnapshot.t :=
  let '(h, data) := copy_map h (HSnapshot.Data s) in
  (h, HSnapshot.mk (HSnapshot.ID s) (HSnapshot.Height s) (HSnapshot.Root s) (Some data)
        (HSnapshot.CreatedAt s) (HSnapshot.Verified s)).

(** [func (r *Repo) PutBlock(b Block) error] *)
Definition HPutBlock (h : heap) (r : HRepo.t) (b : HBlock.t) : heap * HRepo.t * error :=
  match HRepo.blocks r !! HBlock.Height b with
  | Some _ => (h, r, errors_New "block exists")
  | None => let '(h, b') := cloneBlock h b in
            (h, HRepo.mk (<[HBlock.Height b := b']> (HRepo.blocks r)) (HRepo.snaps r), nilerr)
  end.
(** [func (r *Repo) Block(h Height) (Block, bool)] *)
Definition HBlock_ (h : heap) (r : HRepo.t) (k : Z) : heap * HBlock.t * bool :=
  let b := HRepo.blocks r !! k in
  (cloneBlock h (default HBlock.zero b), match b with Some _ => true | None => false end).
(** [func (r *Repo) Latest() Block] *)
Definition hlater (r : HRepo.t) (b : HBlock.t) (k : Z) : HBlock.t :=
  match HRepo.blocks r !! k with
  | Some x => if decide (HBlock.Height b < HBlock.Height x) then x else b
  | None => b
  end.
Definition HLatest (it : list Z) (h : heap) (r : HRepo.t) : heap * HBlock.t :=
  cloneBlock h (fold_left (hlater r) it HBlock.zero).
(** [func (r *Repo) PutSnapshot(s Snapshot)] *)
Definition HPutSnapshot (h : heap) (r : HRepo.t) (s : HSnapshot.t) : heap * HRepo.t :=
  let '(h, s') := cloneSnapshot h s in
  (h, HRepo.mk (HRepo.blocks r) (<[HSnapshot.ID s := s']> (HRepo.snaps r))).
(** [func (r *Repo) Snapshot(id string) (Snapshot, bool)] *)
Definition HSnapshot_ (h : heap) (r : HRepo.t) (id : string) : heap * HSnapshot.t * bool :=
  let s := HRepo.snaps r !! id in
  (cloneSnapshot h (default HSnapshot.zero s), match s with Some _ => true | None => false end).
(** The loop of [Snapshots]: append a clone of every value. *)
Fixpoint clone_snaps (h : heap) (l : list HSnapshot.t) : heap * list HSnapshot.t :=
  match l with
  | [] => (h, [])
  | s :: l => let '(h, s') := cloneSnapshot h s in let '(h, l') := clone_snaps h l in (h, s' :: l')
  end.
(** [func (r *Repo) Snapshots() []Snapshot] *)
Definition HSnapshots (it : list string) (h : heap) (r : HRepo.t) : heap * list HSnapshot.t :=
  clone_snaps h (omap (HRepo.snaps r !!.) it).
(** [func (r *Repo) Range(from, to Height) []Block] *)
Fixpoint hrange_loop (fuel : nat) (h : heap) (r : HRepo.t) (k to : Z) (o : list HBlock.t)
  : option (heap * list HBlock.t) :=
  match fuel with
  | O => None
  | S fuel =>
      if decide (k ≤ to) then
        match HRepo.blocks r !! k with
        | Some b => let '(h, b') := cloneBlock h b in hrange_loop fuel h r (u64 (k + 1)) to (o ++ [b'])
        | None => hrange_loop fuel h r (u64 (k + 1)) to o
        end
      else Some (h, o)
  end.
Definition hheight_le (a b : HBlock.t) : Prop := HBlock.Height a ≤ HBlock.Height b.
#[export] Instance hheight_le_dec a b : Decision (hheight_le a b).
Proof. unfold hheight_le. apply _. Defined.
Definition HRange (fuel : nat) (h : heap) (r : HRepo.t) (from to : Z) : option (heap * list HBlock.t) :=
  '(h, o) ← hrange_loop fuel h r from to []; Some (h, isort hheight_le o).
(** [func (r *Repo) DeleteAbove(h Height)] *)
Definition HDeleteAbove (it : list Z) (r : HRepo.t) (k : Z) : HRepo.t :=
  HRepo.mk (delete_if (above k) it (HRepo.blocks r)) (HRepo.snaps r).

(** ** The repository and its callers *)

(** The memory, the repository, and the objects its callers can reach. *)
Module World.
Record t := mk { mem : heap; repo : HRepo.t; known : gset nat }.
Definition init : t := mk ∅ (HRepo.mk ∅ ∅) ∅.
End World.

(** What can be observed of a step: the call, its arguments and results as values. *)
Inductive event :=
  | ELocal
  | EPutBlock (b : Block.t) (e : error)
  | EBlock (k : Z) (b : Block.t) (ok : bool)
  | ELatest (it : list Z) (b : Block.t)
  | EPutSnapshot (s : Snapshot.t)
  | ESnapshot (id : string) (s : Snapshot.t) (ok : bool)
  | ESnapshots (it : list string) (l : list Snapshot.t)
  | ERange (fuel : nat) (from to : Z) (l : list Block.t)
  | EDeleteAbove (it : list Z) (k : Z).

(** The callers allocate, write what they know, and call the repository with values
    they can reach; what they get back they can reach. *)
Inductive wstep : World.t → event → World.t → Prop :=
  | w_new h r kn o :
      wstep (World.mk h r kn) ELocal (World.mk (alloc h o).1 r ({[(alloc h o).2]} ∪ kn))
  | w_write h r kn p o :
      p ∈ kn → wstep (World.mk h r kn) ELocal (World.mk (<[p := o]> h) r kn)
  | w_put_block h r kn b h' r' e :
      HBlock.locs b ⊆ kn → HPutBlock h r b = (h', r', e) →
      wstep (World.mk h r kn) (EPutBlock (HBlock.view h b) e) (World.mk h' r' kn)
  | w_block h r kn k h' b ok :
      HBlock_ h r k = (h', b, ok) →
      wstep (World.mk h r kn) (EBlock k (HBlock.view h' b) ok) (World.mk h' r (HBlock.locs b ∪ kn))
  | w_latest h r kn it h' b :
      HLatest it h r = (h', b) →
      wstep (World.mk h r kn) (ELatest it (HBlock.view h' b)) (World.mk h' r (HBlock.locs b ∪ kn))
  | w_put_snapshot h r kn s h' r' :
      HSnapshot.locs s ⊆ kn → HPutSnapshot h r s = (h', r') →
      wstep (World.mk h r kn) (EPutSnapshot (HSnapshot.view h s)) (World.mk h' r' kn)
  | w_snapshot h r kn id h' s ok :
      HSnapshot_ h r id = (h', s, ok) →
      wstep (World.mk h r kn) (ESnapshot id (HSnapshot.view h' s) ok)
            (World.mk h' r (HSnapshot.locs s ∪ kn))
  | w_snapshots h r kn it h' l :
      HSnapshots it h r = (h', l) →
      wstep (World.mk h r kn) (ESnapshots it (HSnapshot.view h' <$> l))
            (World.mk h' r (⋃ (HSnapshot.locs <$> l) ∪ kn))
  | w_range h r kn fuel from to h' l :
      HRange fuel h r from to = Some (h', l) →
      wstep (World.mk h r kn) (ERange fuel from to (HBlock.view h' <$> l))
            (World.mk h' r (⋃ (HBlock.locs <$> l) ∪ kn))
  | w_delete h r kn it k :
      wstep (World.mk h r kn) (EDeleteAbove it k) (World.mk h (HDeleteAbove it r k) kn).
Inductive wsteps : World.t → list event → World.t → Prop :=
  | wsteps_nil w : wsteps w [] w
  | wsteps_cons w ev w' evs w'' : wstep w ev w' → wsteps w' evs w'' → wsteps w (ev :: evs) w''.

(** ** Specification: the repository of values *)
Inductive astep : Repo.t → event → Repo.t → Prop :=
  | a_local r : astep r ELocal r
  | a_put_block r b r' e : PutBlock r b = (r', e) → astep r (EPutBlock b e) r'
  | a_block r k b ok : Block r k = (b, ok) → astep r (EBlock k b ok) r
  | a_latest r it b : Latest it r = b → astep r (ELatest it b) r
  | a_put_snapshot r s : astep r (EPutSnapshot s) (PutSnapshot r s)
  | a_snapshot r id s ok : Snapshot r id = (s, ok) → astep r (ESnapshot id s ok) r
  | a_snapshots r it l : Snapshots it r = l → astep r (ESnapshots it l) r
  | a_range r fuel from to l : Range fuel r from to = Some l → astep r (ERange fuel from to l) r
  | a_delete r it k : astep r (EDeleteAbove it k) (DeleteAbove it r k).
Inductive asteps : Repo.t → list event → Repo.t → Prop :=
  | asteps_nil r : asteps r [] r
  | asteps_cons r ev r' evs r'' : astep r ev r' → asteps r' evs r'' → asteps r (ev :: evs) r''.

(** ** Lemmas: the copies *)
Lemma cloneBlock_copied h b :
  HBlock.locs b ⊆ dom h →
  let '(h', b') := cloneBlock h b in
  copied h h' (HBlock.locs b') ∧ HBlock.view h' b' = HBlock.view h b.
Proof.
  intros Hb. unfold cloneBlock, HBlock.view, HBlock.locs in *.
  pose proof (append_nil_copied (A := Tx.t) h (HBlock.Transactions b)) as H1.
  destruct (append_nil h (HBlock.Transactions b)) as [h1 t1]. destruct H1 as [C1 R1].
  pose proof (append_nil_copied (A := Vote.t) h1 (HBlock.Commit b)) as H2.
  destruct (append_nil h1 (HBlock.Commit b)) as [h2 c2]. destruct H2 as [C2 R2]. simpl.
  split; [by eapply copied_trans|]. rewrite R2, <- R1. f_equal.
  - apply read_agree, agree_extends; [apply C2|apply C1].
  - apply read_agree, agree_extends; [apply C1|set_solver].
Qed.
Lemma cloneSnapshot_copied h s :
  let '(h', s') := cloneSnapshot h s in
  copied h h' (HSnapshot.locs s') ∧ HSnapshot.view h' s' = HSnapshot.view h s.
Proof.
  unfold cloneSnapshot. pose proof (copy_map_copied h (HSnapshot.Data s)) as Hc.
  destruct (copy_map h (HSnapshot.Data s)) as [h' p]. destruct Hc as [Hc Hr].
  split; [exact Hc|]. unfold HSnapshot.view. simpl. by rewrite Hr.
Qed.

Lemma block_view_agree h h' b :
  (∀ l, l ∈ HBlock.locs b → h' !! l = h !! l) → HBlock.view h' b = HBlock.view h b.
Proof.
  unfold HBlock.locs, HBlock.view. intros Ha. f_equal; apply read_agree; set_solver.
Qed.
Lemma snapshot_view_agree h h' s :
  (∀ l, l ∈ HSnapshot.locs s → h' !! l = h !! l) → HSnapshot.view h' s = HSnapshot.view h s.
Proof. intros Ha. unfold HSnapshot.view. f_equal. by apply read_map_agree. Qed.

Lemma clone_snaps_copied h l :
  (∀ s, s ∈ l → HSnapshot.locs s ⊆ dom h) →
  let '(h', l') := clone_snaps h l in
  copied h h' (⋃ (HSnapshot.locs <$> l')) ∧ HSnapshot.view h' <$> l' = HSnapshot.view h <$> l.
Proof.
  revert h. induction l as [|s l IH]; intros h Hl; [split; [apply copied_refl|done]|].
  cbn [clone_snaps fmap list_fmap].
  pose proof (cloneSnapshot_copied h s) as H1. destruct (cloneSnapshot h s) as [h1 s1].
  destruct H1 as [C1 V1]. pose proof (subseteq_dom _ _ (copied_extends _ _ _ C1)) as Hd.
  specialize (IH h1). destruct (clone_snaps h1 l) as [h2 l2].
  destruct IH as [C2 V2]; [intros x Hx; specialize (Hl x); set_solver|].
  cbn [fmap list_fmap]. split; [by eapply copied_trans|]. rewrite V2, <- V1. f_equal.
  - apply snapshot_view_agree, agree_extends; [apply C2|apply C1].
  - apply list_fmap_ext. intros i x Hx%list_elem_of_lookup_2. apply snapshot_view_agree, agree_extends.
    + apply C1.
    + apply Hl. by right.
Qed.

(** ** Lemmas: separation *)

(** The objects the repository refers to. *)
Definition owned (r : HRepo.t) (l : nat) : Prop :=
  (∃ k b, HRepo.blocks r !! k = Some b ∧ l ∈ HBlock.locs b) ∨
  (∃ id s, HRepo.snaps r !! id = Some s ∧ l ∈ HSnapshot.locs s).
Record separated (w : World.t) : Prop := {
  sep_dom l : owned (World.repo w) l → l ∈ dom (World.mem w);
  sep_owned l : owned (World.repo w) l → l ∉ World.known w;
  sep_known : World.known w ⊆ dom (World.mem w) }.

Lemma view_agree h h' r :
  (∀ l, owned r l → h' !! l = h !! l) → HRepo.view h' r = HRepo.view h r.
Proof.
  intros Ha. unfold HRepo.view. f_equal; apply map_fmap_ext.
  - intros k b Hb. apply block_view_agree. intros l Hl. apply Ha. left. eauto.
  - intros k s Hs. apply snapshot_view_agree. intros l Hl. apply Ha. right. eauto.
Qed.
Lemma block_locs_dom h r kn k :
  separated (World.mk h r kn) → HBlock.locs (default HBlock.zero (HRepo.blocks r !! k)) ⊆ dom h.
Proof.
  intros Hs. destruct (HRepo.blocks r !! k) as [b|] eqn:E; [|set_solver].
  intros l Hl. apply (sep_dom _ Hs). left. eauto.
Qed.

(** New objects for the callers. *)
Lemma sep_copied h r kn h' new :
  separated (World.mk h r kn) → copied h h' new →
  HRepo.view h' r = HRepo.view h r ∧ separated (World.mk h' r (new ∪ kn)).
Proof.
  intros [S1 S2 S3] [C1 C2 C3]. simpl in *. pose proof (subseteq_dom _ _ C1) as Hd. split.
  - apply view_agree. intros l Hl. by apply (agree_extends h h' {[l]}); set_solver.
  - split; simpl; [set_solver| |set_solver].
    intros l Hl. specialize (S1 l Hl). specialize (S2 l Hl). set_solver.
Qed.
(** New objects for the repository. *)
Lemma sep_stored h r kn h' r' new :
  separated (World.mk h r kn) → copied h h' new → (∀ l, owned r' l → owned r l ∨ l ∈ new) →
  separated (World.mk h' r' kn).
Proof.
  intros [S1 S2 S3] [C1 C2 C3] Ho. simpl in *. pose proof (subseteq_dom _ _ C1) as Hd.
  split; simpl; [|intros l [Hl|Hl]%Ho|set_solver].
  - intros l [Hl%S1|Hl]%Ho; set_solver.
  - by apply S2.
  - set_solver.
Qed.

(** ** Lemmas: [Range] *)
Lemma union_locs_perm (l k : list HBlock.t) :
  l ≡ₚ k → ⋃ (HBlock.locs <$> l) = ⋃ (HBlock.locs <$> k).
Proof.
  intros Hp. apply set_eq. intros x. rewrite !elem_of_union_list. by setoid_rewrite Hp.
Qed.
Lemma hrange_copied fuel h r k to o h' o' :
  (∀ l, owned r l → l ∈ dom h) → ⋃ (HBlock.locs <$> o) ⊆ dom h →
  hrange_loop fuel h r k to o = Some (h', o') →
  ∃ new, copied h h' new ∧ ⋃ (HBlock.locs <$> o') = ⋃ (HBlock.locs <$> o) ∪ new ∧
    range_loop fuel (HRepo.view h r) k to (HBlock.view h <$> o) = Some (HBlock.view h' <$> o').
Proof.
  revert h k o. induction fuel as [|fuel IH]; intros h k o Hr Ho E; [done|].
  cbn [hrange_loop range_loop] in *. case_decide as Hk.
  2:{ simplify_eq. exists ∅. split; [apply copied_refl|]. split; [set_solver|done]. }
  simpl. rewrite lookup_fmap. destruct (HRepo.blocks r !! k) as [b|] eqn:Eb; [|by apply IH].
  assert (Hb : HBlock.locs b ⊆ dom h) by (intros l Hl; apply Hr; left; eauto).
  pose proof (cloneBlock_copied h b Hb) as Hc. destruct (cloneBlock h b) as [h1 b1].
  destruct Hc as [C1 V1]. pose proof (subseteq_dom _ _ (copied_extends _ _ _ C1)) as Hd.
  destruct (IH h1 (u64 (k + 1)) (o ++ [b1])) as (new & C2 & El & Er); [| |done|].
  - intros l Hl%Hr. set_solver.
  - rewrite fmap_app, union_list_app_L. pose proof (copied_dom _ _ _ C1). csimpl. set_solver.
  - exists (HBlock.locs b1 ∪ new). split; [by eapply copied_trans|]. split.
    + rewrite El, fmap_app, union_list_app_L. csimpl. set_solver.
    + rewrite <- Er. f_equal.
      * symmetry. apply view_agree. intros l Hl%Hr. by apply (agree_extends h h1 (dom h)); [apply C1|..].
      * rewrite fmap_app. csimpl. rewrite V1. f_equal. apply list_fmap_ext.
        intros i x Hx%list_elem_of_lookup_2. symmetry. apply block_view_agree, agree_extends; [apply C1|].
        intros l Hl. apply Ho, elem_of_union_list. exists (HBlock.locs x). split; [|done]. by apply list_elem_of_fmap_2.
Qed.
Lemma HRange_copied fuel h r kn from to h' l :
  separated (World.mk h r kn) → HRange fuel h r from to = Some (h', l) →
  copied h h' (⋃ (HBlock.locs <$> l)) ∧
  Range fuel (HRepo.view h r) from to = Some (HBlock.view h' <$> l).
Proof.
  intros Hs. unfold HRange, Range. destruct (hrange_loop fuel h r from to []) as [[h1 o]|] eqn:E; [|done].
  intros [= <- <-]. destruct (hrange_copied _ _ _ _ _ _ _ _ (sep_dom _ Hs) (empty_subseteq _) E) as (new & C & El & Er).
  simpl in Er. rewrite Er. cbn [mbind option_bind].
  rewrite (union_locs_perm _ o) by apply isort_perm. rewrite El. csimpl. rewrite (left_id_L ∅ (∪)). split; [done|].
  f_equal. by apply isort_fmap.
Qed.

(** ** Lemmas: every step of the program is a step of the repository of values *)
Definition value (w : World.t) : Repo.t := HRepo.view (World.mem w) (World.repo w).

Lemma sim_put_block h r kn b h' r' e :
  separated (World.mk h r kn) → HBlock.locs b ⊆ kn → HPutBlock h r b = (h', r', e) →
  PutBlock (HRepo.view h r) (HBlock.view h b) = (HRepo.view h' r', e) ∧
  separated (World.mk h' r' kn) ∧ h ⊆ h'.
Proof.
  intros Hs Hb. unfold HPutBlock, PutBlock. simpl. rewrite lookup_fmap.
  change (Block.Height (HBlock.view h b)) with (HBlock.Height b).
  destruct (HRepo.blocks r !! HBlock.Height b) as [c|] eqn:Ec; simpl; [by intros [= <- <- <-]|].
  pose proof (cloneBlock_copied h b ltac:(pose proof (sep_known _ Hs); set_solver)) as Hc.
  destruct (cloneBlock h b) as [h1 b1]. destruct Hc as [C V]. intros [= <- <- <-].
  destruct (sep_copied _ _ _ _ _ Hs C) as [Hv _]. split.
  - unfold HRepo.view in *. simpl in *. injection Hv as Hv1 Hv2.
    by rewrite fmap_insert, V, Hv1, Hv2.
  - split; [|apply C]. eapply sep_stored; [done..|]. intros l [(k & x & Hx & Hl)|Ho]; [|left; by right].
    simpl in Hx. apply lookup_insert_Some in Hx as [[_ <-]|[_ Hx]]; [by right|left; left; eauto].
Qed.
Lemma sim_put_snapshot h r kn s h' r' :
  separated (World.mk h r kn) → HPutSnapshot h r s = (h', r') →
  HRepo.view h' r' = PutSnapshot (HRepo.view h r) (HSnapshot.view h s) ∧
  separated (World.mk h' r' kn) ∧ h ⊆ h'.
Proof.
  intros Hs. unfold HPutSnapshot, PutSnapshot. pose proof (cloneSnapshot_copied h s) as Hc.
  destruct (cloneSnapshot h s) as [h1 s1]. destruct Hc as [C V]. intros [= <- <-].
  destruct (sep_copied _ _ _ _ _ Hs C) as [Hv _]. split.
  - unfold HRepo.view in *. simpl in *. injection Hv as Hv1 Hv2.
    by rewrite fmap_insert, V, Hv1, Hv2.
  - split; [|apply C]. eapply sep_stored; [done..|]. intros l [Ho|(k & x & Hx & Hl)]; [left; by left|].
    simpl in Hx. apply lookup_insert_Some in Hx as [[_ <-]|[_ Hx]]; [by right|left; right; eauto].
Qed.
Lemma sim_block h r kn k h' b ok :
  separated (World.mk h r kn) → HBlock_ h r k = (h', b, ok) →
  Block (HRepo.view h r) k = (HBlock.view h' b, ok) ∧ copied h h' (HBlock.locs b).
Proof.
  intros Hs. unfold HBlock_, Block. pose proof (cloneBlock_copied h _ (block_locs_dom _ _ _ k Hs)) as Hc.
  destruct (cloneBlock h (default HBlock.zero (HRepo.blocks r !! k))) as [h1 b1].
  destruct Hc as [C V]. intros [= <- <- <-]. split; [|done]. simpl. rewrite V, lookup_fmap.
  by destruct (HRepo.blocks r !! k).
Qed.
Lemma hlater_view h r it b :
  HBlock.view h (fold_left (hlater r) it b) = fold_left (later (HRepo.view h r)) it (HBlock.view h b).
Proof.
  revert b. induction it as [|k it IH]; intros b; [done|]. cbn [fold_left]. rewrite IH. f_equal.
  unfold hlater, later. simpl. rewrite lookup_fmap. destruct (HRepo.blocks r !! k); simpl; [|done].
  unfold Block.Height, HBlock.Height. simpl. by case_decide.
Qed.
Lemma hlater_locs h r kn it b :
  separated (World.mk h r kn) → HBlock.locs b ⊆ dom h →
  HBlock.locs (fold_left (hlater r) it b) ⊆ dom h.
Proof.
  intros Hs. revert b. induction it as [|k it IH]; intros b Hb; [done|]. cbn [fold_left]. apply IH.
  pose proof (block_locs_dom _ _ _ k Hs) as Hk. unfold hlater.
  destruct (HRepo.blocks r !! k); [by case_decide|done].
Qed.
Lemma sim_latest h r kn it h' b :
  separated (World.mk h r kn) → HLatest it h r = (h', b) →
  Latest it (HRepo.view h r) = HBlock.view h' b ∧ copied h h' (HBlock.locs b).
Proof.
  intros Hs. unfold HLatest, Latest.
  pose proof (cloneBlock_copied h _ (hlater_locs _ _ _ it HBlock.zero Hs ltac:(set_solver))) as Hc.
  destruct (cloneBlock h (fold_left (hlater r) it HBlock.zero)) as [h1 b1]. destruct Hc as [C V].
  intros [= <- <-]. split; [|done]. by rewrite V, hlater_view.
Qed.
Lemma sim_snapshot h r id h' s ok :
  HSnapshot_ h r id = (h', s, ok) →
  Snapshot (HRepo.view h r) id = (HSnapshot.view h' s, ok) ∧ copied h h' (HSnapshot.locs s).
Proof.
  unfold HSnapshot_, Snapshot.
  pose proof (cloneSnapshot_copied h (default HSnapshot.zero (HRepo.snaps r !! id))) as Hc.
  destruct (cloneSnapshot h (default HSnapshot.zero (HRepo.snaps r !! id))) as [h1 s1].
  destruct Hc as [C V]. intros [= <- <- <-]. split; [|done]. simpl. rewrite V, lookup_fmap.
  by destruct (HRepo.snaps r !! id).
Qed.
Lemma sim_snapshots it h r kn h' l :
  separated (World.mk h r kn) → HSnapshots it h r = (h', l) →
  Snapshots it (HRepo.view h r) = HSnapshot.view h' <$> l ∧ copied h h' (⋃ (HSnapshot.locs <$> l)).
Proof.
  intros Hs. unfold HSnapshots, Snapshots.
  pose proof (clone_snaps_copied h (omap (HRepo.snaps r !!.) it)) as Hc.
  destruct (clone_snaps h (omap (HRepo.snaps r !!.) it)) as [h1 l1]. destruct Hc as [C V].
  { intros s (id & _ & Hid)%list_elem_of_omap l0 Hl. apply (sep_dom _ Hs). right. eauto. }
  intros [= <- <-]. split; [|done]. rewrite V. clear.
  change (Repo.snaps (HRepo.view h r)) with (HSnapshot.view h <$> HRepo.snaps r).
  induction it as [|id it IH]; csimpl; [done|].
  rewrite lookup_fmap, IH. by destruct (HRepo.snaps r !! id).
Qed.
Lemma delete_if_view h k it (m : gmap Z HBlock.t) :
  delete_if (above k) it (HBlock.view h <$> m) = HBlock.view h <$> delete_if (above k) it m.
Proof.
  unfold delete_if. revert m. induction it as [|i it IH]; intros m; [done|]. simpl. rewrite lookup_fmap.
  destruct (m !! i) as [b|]; simpl; [|apply IH]. unfold above. do 2 case_decide; try done; rewrite <- IH;
    by rewrite ?fmap_delete.
Qed.
Lemma sim_delete h r kn it k :
  separated (World.mk h r kn) →
  HRepo.view h (HDeleteAbove it r k) = DeleteAbove it (HRepo.view h r) k ∧
  separated (World.mk h (HDeleteAbove it r k) kn).
Proof.
  intros Hs. unfold HDeleteAbove, DeleteAbove, HRepo.view. simpl. rewrite delete_if_view. split; [done|].
  apply (sep_stored h r kn h _ ∅); [done|apply copied_refl|].
  intros l [(i & b & Hb & Hl)|Ho]; [left; left|left; by right]. simpl in Hb. exists i, b. split; [|done].
  eapply lookup_weaken; [done|]. apply delete_if_subseteq.
Qed.

Lemma wstep_sim w ev w' :
  separated w → wstep w ev w' → astep (value w) ev (value w') ∧ separated w'.
Proof.
  intros Hs Hst. unfold value. destruct Hst as [h r kn o|h r kn p o Hp|h r kn b h' r' e Hb E
    |h r kn k h' b ok E|h r kn it h' b E|h r kn s h' r' Hl E|h r kn id h' s ok E|h r kn it h' l E
    |h r kn fuel from to h' l E|h r kn it k]; simpl.
  - destruct (sep_copied _ _ _ _ _ Hs (alloc_copied h o)) as [Hv Hs']. simpl in *. rewrite Hv.
    split; [constructor|done].
  - rewrite (view_agree h (<[p := o]> h)); [split; [constructor|]|].
    + destruct Hs as [S1 S2 S3]. simpl in *. split; simpl; set_solver.
    + intros l Hl%(sep_owned _ Hs). rewrite lookup_insert_ne; [done|]. by intros ->.
  - destruct (sim_put_block _ _ _ _ _ _ _ Hs Hb E) as (Ep & Hs' & _). split; [by constructor|done].
  - destruct (sim_block _ _ _ _ _ _ _ Hs E) as [Eb C].
    destruct (sep_copied _ _ _ _ _ Hs C) as [-> Hs']. split; [by constructor|done].
  - destruct (sim_latest _ _ _ _ _ _ Hs E) as [Eb C].
    destruct (sep_copied _ _ _ _ _ Hs C) as [-> Hs']. split; [by constructor|done].
  - destruct (sim_put_snapshot _ _ _ _ _ _ Hs E) as (-> & Hs' & _). split; [constructor|done].
  - destruct (sim_snapshot _ _ _ _ _ _ E) as [Eb C].
    destruct (sep_copied _ _ _ _ _ Hs C) as [-> Hs']. split; [by constructor|done].
  - destruct (sim_snapshots _ _ _ _ _ _ Hs E) as [Eb C].
    destruct (sep_copied _ _ _ _ _ Hs C) as [-> Hs']. split; [by constructor|done].
  - destruct (HRange_copied _ _ _ _ _ _ _ _ Hs E) as [C Er].
    destruct (sep_copied _ _ _ _ _ Hs C) as [-> Hs']. split; [by constructor|done].
  - destruct (sim_delete _ _ _ it k Hs) as [-> Hs']. split; [constructor|done].
Qed.
Lemma wsteps_sim w evs w' :
  separated w → wsteps w evs w' → asteps (value w) evs (value w') ∧ separated w'.
Proof.
  intros Hs Hst. induction Hst as [w|w ev w' evs w'' H1 _ IH]; [split; [constructor|done]|].
  destruct (wstep_sim _ _ _ Hs H1) as [Ha Hs']. destruct (IH Hs') as [Has Hs'']. split; [by econstructor|done].
Qed.
Lemma init_separated : separated World.init.
Proof.
  split; simpl; [|set_solver..].
  intros l [(k & b & Hb & _)|(k & s & Hk & _)]; simpl in *; by rewrite lookup_empty in *.
Qed.
(** What the repository writes is new: what its callers hold stays. *)
Lemma call_extends w ev w' :
  separated w → wstep w ev w' → ev ≠ ELocal → World.mem w ⊆ World.mem w'.
Proof.
  intros Hs Hst Hev. destruct Hst as [h r kn o|h r kn p o Hp|h r kn b h' r' e Hb E
    |h r kn k h' b ok E|h r kn it h' b E|h r kn s h' r' Hl E|h r kn id h' s ok E|h r kn it h' l E
    |h r kn fuel from to h' l E|h r kn it k]; simpl; try done.
  - apply (sim_put_block _ _ _ _ _ _ _ Hs Hb E).
  - apply (sim_block _ _ _ _ _ _ _ Hs E).
  - apply (sim_latest _ _ _ _ _ _ Hs E).
  - apply (sim_put_snapshot _ _ _ _ _ _ Hs E).
  - apply (sim_snapshot _ _ _ _ _ _ E).
  - apply (sim_snapshots _ _ _ _ _ _ Hs E).
  - apply (HRange_copied _ _ _ _ _ _ _ _ Hs E).
Qed.

(** ** Properties *)

(** C13: the repository hands out detached values: whatever arrays and tables its
    callers allocate and write, before, between and after their calls, through
    any value they passed in or got back, every result the repository gives is the
    one the repository of values gives to the same calls, and its contents are
    the same; and no call changes an object its callers hold. *)
Theorem Repo_detached evs w :
  wsteps World.init evs w →
  asteps New evs (value w) ∧
  ∀ ev w' l, wstep w ev w' → ev ≠ ELocal → l ∈ World.known w →
    World.mem w' !! l = World.mem w !! l.
Proof.
  intros Hw. destruct (wsteps_sim _ _ _ init_separated Hw) as [Ha Hs].
  assert (value World.init = New) as <- by (unfold value, HRepo.view; simpl; by rewrite !fmap_empty).
  split; [exact Ha|]. intros ev w' l Hst Hev Hl.
  apply (agree_extends _ _ (World.known w)); [by eapply call_extends|apply Hs|done].
Qed.

(** ** Witness: a caller stores a block, overwrites the array it passed in, reads the
    block back, overwrites that array too, and reads again *)
Definition tx_of (id : string) : Tx.t := Tx.mk id "alice" "bob" 1 7 21000 "k" "v" 0 50 "".
Definition hd1 : Header.t := Header.mk 1 0 "" "" "" "validator-1" 0 1.
Definition block_of (id : string) : Block.t := Block.mk hd1 [tx_of id] [] "block-1".
Definition detached_events : list event :=
  [ELocal; EPutBlock (block_of "tx-1") nilerr; ELocal; EBlock 1 (block_of "tx-1") true; ELocal;
   EBlock 1 (block_of "tx-1") true].
Definition passed : HBlock.t := HBlock.mk hd1 (Slice 0 0 1) SNil "block-1".
Definition w1 : World.t :=
  let '(h, p) := alloc ∅ (OTxs [tx_of "tx-1"]) in World.mk h (World.repo World.init) ({[p]} ∪ ∅).
Definition w2 : World.t :=
  let '(h, r, _) := HPutBlock (World.mem w1) (World.repo w1) passed in World.mk h r (World.known w1).
Definition overwrite (w : World.t) (p : nat) : World.t :=
  World.mk (<[p := OTxs [tx_of "changed"]]> (World.mem w)) (World.repo w) (World.known w).
Definition read_back (w : World.t) : World.t :=
  let '(h, b, _) := HBlock_ (World.mem w) (World.repo w) 1 in
  World.mk h (World.repo w) (HBlock.locs b ∪ World.known w).
Definition w3 : World.t := overwrite w2 0.
Definition w4 : World.t := read_back w3.
Definition w5 : World.t := overwrite w4 2.
Definition w6 : World.t := read_back w5.
Lemma read_back_step w :
  wstep w (EBlock 1 (HBlock.view (World.mem (read_back w)) (HBlock_ (World.mem w) (World.repo w) 1).1.2)
                    (HBlock_ (World.mem w) (World.repo w) 1).2) (read_back w).
Proof.
  destruct w as [h r kn]. unfold read_back. cbn [World.mem World.repo World.known].
  destruct (HBlock_ h r 1) as [[h' b] ok] eqn:E. by apply w_block.
Qed.
Lemma w6_steps : wsteps World.init detached_events w6.
Proof.
  apply (wsteps_cons _ _ w1); [exact (w_new ∅ (World.repo World.init) ∅ (OTxs [tx_of "tx-1"]))|].
  apply (wsteps_cons _ _ w2).
  { apply (w_put_block (World.mem w1) (World.repo w1) (World.known w1) passed); [|done].
    apply (bool_decide_unpack _). by vm_compute. }
  apply (wsteps_cons _ _ w3).
  { apply (w_write (World.mem w2)). apply (bool_decide_unpack _). by vm_compute. }
  apply (wsteps_cons _ _ w4); [exact (read_back_step w3)|].
  apply (wsteps_cons _ _ w5).
  { apply (w_write (World.mem w4)). apply (bool_decide_unpack _). by vm_compute. }
  apply (wsteps_cons _ _ w6); [exact (read_back_step w5)|].
  apply wsteps_nil.
Qed.
Lemma Repo_detached_witness :
  asteps New detached_events (value w6) ∧
  ∀ ev w' l, wstep w6 ev w' → ev ≠ ELocal → l ∈ World.known w6 →
    World.mem w' !! l = World.mem w6 !! l.
Proof. apply (Repo_detached detached_events w6 w6_steps). Defined.
