(* ===== verification/RepoIndex.v ===== *)
(** * repository/index.go: the block index and the metadata store

    [Index] keeps the heights of the indexed blocks three times: in order of
    arrival, by hash and by proposer. [MetaStore] keeps the metadata by height
    and by hash, with a query over the heights. *)
From S2P Require Import Prelude Machine GoString GoSort GoMap Sha256 ChainDomain Repository.

(** ** Model *)
Module Index.
Record t := mk { heights : list Z; hashes : gmap string Z;
                 proposers : gmap string (list Z); created : Z }.
End Index.

(** [func NewIndex() *Index], at the clock reading [now]. *)
Definition NewIndex (now : Z) : Index.t := Index.mk [] ∅ ∅ now.
(** [i.proposers[name]], the nil slice read as empty. *)
Definition heights_of (i : Index.t) (name : string) : list Z := default [] (Index.proposers i !! name).
(** [func (i *Index) Add(b Block) error] *)
Definition Add (i : Index.t) (b : Block.t) : Index.t * error :=
  if decide (Block.Hash b = "") then (i, errors_New "hash required") else
  match Index.hashes i !! Block.Hash b with
  | Some _ => (i, errors_New "hash already indexed")
  | None =>
      let p := Header.Proposer (Block.header b) in
      (Index.mk (Index.heights i ++ [Block.Height b])
         (<[Block.Hash b := Block.Height b]> (Index.hashes i))
         (<[p := heights_of i p ++ [Block.Height b]]> (Index.proposers i)) (Index.created i), nilerr)
  end.
(** [func (i *Index) Height(hash string) (Height, bool)] *)
Definition Height (i : Index.t) (hash : string) : Z * bool :=
  match Index.hashes i !! hash with Some h => (h, true) | None => (0, false) end.
(** [func (i *Index) Proposer(name string) []Height] *)
Definition Proposer (i : Index.t) (name : string) : list Z := heights_of i name.
(** [func (i *Index) Heights() []Height] *)
Definition Heights (i : Index.t) : list Z := isort Z.le (Index.heights i).
(** [func (i *Index) Count() int] and [Empty]. *)
Definition Count (i : Index.t) : Z := len (Index.heights i).
Definition Empty (i : Index.t) : bool := bool_decide (Count i = 0).
(** [func (i *Index) Created() time.Time] *)
Definition Created (i : Index.t) : Z := Index.created i.
(** The third loop of [RemoveAbove]: the filter in place of one proposer. *)
Definition trim (h : Z) (m : gmap string (list Z)) (p : string) : gmap string (list Z) :=
  match m !! p with
  | Some xs => <[p := filter (λ x, x ≤ h) xs]> m
  | None => m
  end.
(** [func (i *Index) RemoveAbove(h Height)]: [it] and [itp] are the orders of its
    two ranges. *)
Definition RemoveAbove (it itp : list string) (i : Index.t) (h : Z) : Index.t :=
  Index.mk (filter (λ x, x ≤ h) (Index.heights i))
    (delete_if (λ _ x, above h x ()) it (Index.hashes i))
    (fold_left (trim h) itp (Index.proposers i)) (Index.created i).

Module BlockMeta.
Record t := mk { Height : Z; Hash : string; Size : Z; TxCount : Z; StateRoot : string; CreatedAt : Z }.
End BlockMeta.
Module MetaStore.
Record t := mk { byHeight : gmap Z BlockMeta.t; byHash : gmap string BlockMeta.t }.
End MetaStore.
(** [func NewMetaStore() *MetaStore] *)
Definition NewMetaStore : MetaStore.t := MetaStore.mk ∅ ∅.
(** [func (s *MetaStore) Put(m BlockMeta)] *)
Definition Put (s : MetaStore.t) (m : BlockMeta.t) : MetaStore.t :=
  MetaStore.mk (<[BlockMeta.Height m := m]> (MetaStore.byHeight s))
               (<[BlockMeta.Hash m := m]> (MetaStore.byHash s)).
(** [func (s *MetaStore) Get(h Height) (BlockMeta, bool)] and [GetHash]. *)
Definition Get (s : MetaStore.t) (h : Z) : option BlockMeta.t := MetaStore.byHeight s !! h.
Definition GetHash (s : MetaStore.t) (hash : string) : option BlockMeta.t := MetaStore.byHash s !! hash.
(** The body of the loop of [DeleteAbove]. *)
Definition delete_meta (h : Z) (s : MetaStore.t) (x : Z) : MetaStore.t :=
  match MetaStore.byHeight s !! x with
  | Some m => if decide (h < x) then
                MetaStore.mk (delete x (MetaStore.byHeight s))
                             (delete (BlockMeta.Hash m) (MetaStore.byHash s))
              else s
  | None => s
  end.
(** [func (s *MetaStore) DeleteAbove(h Height)] *)
Definition DeleteAbove (it : list Z) (s : MetaStore.t) (h : Z) : MetaStore.t :=
  fold_left (delete_meta h) it s.
Definition meta_le (a b : BlockMeta.t) : Prop := BlockMeta.Height a ≤ BlockMeta.Height b.
#[export] Instance meta_le_dec a b : Decision (meta_le a b).
Proof. unfold meta_le. apply _. Defined.
(** [func (s *MetaStore) All() []BlockMeta] *)
Definition All (it : list Z) (s : MetaStore.t) : list BlockMeta.t :=
  isort meta_le (omap (MetaStore.byHeight s !!.) it).
Module Query.
Record t := mk { From : Z; To : Z; Proposer : string; Limit : Z }.
End Query.
(** The loop of [Query]: [continue] on the bounds, [break] on the limit. *)
Fixpoint query_loop (q : Query.t) (o out : list BlockMeta.t) : list BlockMeta.t :=
  match o with
  | [] => out
  | m :: o =>
      if decide (0 < Query.From q ∧ BlockMeta.Height m < Query.From q) then query_loop q o out else
      if decide (0 < Query.To q ∧ Query.To q < BlockMeta.Height m) then query_loop q o out else
      if decide (0 < Query.Limit q ∧ Query.Limit q ≤ len out) then out else
      query_loop q o (out ++ [m])
  end.
(** [func (s *MetaStore) Query(q Query) []BlockMeta] *)
Definition RunQuery (it : list Z) (s : MetaStore.t) (q : Query.t) : list BlockMeta.t :=
  query_loop q (All it s) [].
(** [func (s *MetaStore) Size() int] and [Clear]. *)
Definition Size (s : MetaStore.t) : Z := Z.of_nat (size (MetaStore.byHeight s)).
Definition Clear (s : MetaStore.t) : MetaStore.t := NewMetaStore.

(** ** Specification *)

(** The three copies of the heights agree: as multisets, and proposer by proposer. *)
Record agree (i : Index.t) : Prop := {
  agree_hashes : Index.heights i ≡ₚ (map_to_list (Index.hashes i)).*2;
  agree_proposers : Index.heights i ≡ₚ concat (map_to_list (Index.proposers i)).*2 }.

(** The bounds of a query; 0 stands for no bound. *)
Definition in_query (q : Query.t) (m : BlockMeta.t) : Prop :=
  (0 < Query.From q → Query.From q ≤ BlockMeta.Height m) ∧
  (0 < Query.To q → BlockMeta.Height m ≤ Query.To q).
#[export] Instance in_query_dec q m : Decision (in_query q m).
Proof. unfold in_query. apply _. Defined.
Definition limited {A} (limit : Z) (l : list A) : list A :=
  if decide (0 < limit) then take (Z.to_nat limit) l else l.

(** ** Lemmas *)
Lemma query_loop_spec q o out :
  (0 < Query.Limit q → len out ≤ Query.Limit q) →
  query_loop q o out =
    if decide (0 < Query.Limit q)
    then take (Z.to_nat (Query.Limit q)) (out ++ filter (in_query q) o)
    else out ++ filter (in_query q) o.
Proof.
  revert out. induction o as [|m o IH]; intros out Hout; cbn [query_loop].
  { rewrite filter_nil, app_nil_r. case_decide; [|done]. rewrite take_ge; [done|lia]. }
  rewrite filter_cons.
  destruct (decide (0 < Query.From q ∧ _)) as [H1|H1].
  { rewrite IH by done. by rewrite (decide_False (P := in_query q m)) by (unfold in_query; lia). }
  destruct (decide (0 < Query.To q ∧ _)) as [H2|H2].
  { rewrite IH by done. by rewrite (decide_False (P := in_query q m)) by (unfold in_query; lia). }
  rewrite (decide_True (P := in_query q m)) by (unfold in_query; lia).
  destruct (decide (0 < Query.Limit q ∧ _)) as [H3|H3].
  - rewrite decide_True by lia. rewrite take_app_le by lia. rewrite take_ge by lia. done.
  - rewrite IH by (rewrite length_app; simpl; lia). by rewrite <- app_assoc.
Qed.

Lemma trim_lookup h itp m p :
  NoDup itp → (∀ q, is_Some (m !! q) → q ∈ itp) →
  fold_left (trim h) itp m !! p = filter (λ x, x ≤ h) <$> (m !! p).
Proof.
  intros Hnd Hin.
  enough (fold_left (trim h) itp m !! p =
    if decide (p ∈ itp) then filter (λ x, x ≤ h) <$> (m !! p) else m !! p) as ->.
  { case_decide; [done|]. destruct (m !! p) eqn:E; [|done]. exfalso. eauto. }
  clear Hin. revert m. induction Hnd as [|q itp Hq Hnd IH]; intros m; cbn [fold_left].
  { by rewrite decide_False by apply not_elem_of_nil. }
  rewrite IH. unfold trim.
  destruct (decide (p = q)) as [->|Hne].
  - rewrite decide_False, decide_True by (done || by left).
    destruct (m !! q) eqn:E; [by rewrite lookup_insert_eq|by rewrite E].
  - assert ((match m !! q with Some xs => <[q := filter (λ x, x ≤ h) xs]> m | None => m end) !! p
            = m !! p) as -> by (destruct (m !! q); [by rewrite lookup_insert_ne|done]).
    destruct (decide (p ∈ itp)).
    + by rewrite decide_True by (by right).
    + rewrite decide_False; [done|]. by intros [?|?]%elem_of_cons.
Qed.

Lemma NewIndex_agree now : agree (NewIndex now).
Proof. split; simpl; unfold NewIndex; simpl; by rewrite map_to_list_empty. Qed.

(** The lists of a map at a key that grows by one element. *)
Lemma concat_values_insert (m : gmap string (list Z)) p h :
  concat (map_to_list (<[p := default [] (m !! p) ++ [h]]> m)).*2 ≡ₚ
  concat (map_to_list m).*2 ++ [h].
Proof.
  destruct (m !! p) as [xs|] eqn:E; simpl.
  - rewrite <- insert_delete_eq, map_to_list_insert by apply lookup_delete_eq. csimpl.
    rewrite <- (insert_delete_id m p xs) at 2 by done.
    rewrite map_to_list_insert by apply lookup_delete_eq. csimpl. solve_Permutation.
  - rewrite map_to_list_insert by done. csimpl. solve_Permutation.
Qed.

Lemma Add_agree i b : agree i → agree (Add i b).1.
Proof.
  intros [H1 H2]. unfold Add. case_decide; [done|].
  destruct (Index.hashes i !! Block.Hash b) eqn:E; [done|]. split; simpl.
  - rewrite map_to_list_insert by done. csimpl. rewrite <- H1. solve_Permutation.
  - unfold heights_of. by rewrite concat_values_insert, <- H2.
Qed.

Lemma filter_concat {A} (P : A → Prop) `{∀ x, Decision (P x)} (ls : list (list A)) :
  filter P (concat ls) = concat (filter P <$> ls).
Proof. induction ls as [|l ls IH]; simpl; [done|]. by rewrite filter_app, IH. Qed.

Lemma filter_values (m : gmap string Z) (P : Z → Prop) `{∀ x, Decision (P x)} :
  (map_to_list (filter (λ kv, P kv.2) m)).*2 ≡ₚ filter P (map_to_list m).*2.
Proof.
  induction m as [|k v m Hk IH] using map_ind; [by rewrite map_filter_empty, map_to_list_empty|].
  rewrite map_to_list_insert by done. csimpl. rewrite filter_cons. case_decide.
  - rewrite map_filter_insert_True by done. rewrite map_to_list_insert; [csimpl; by rewrite IH|].
    rewrite map_lookup_filter_None. by left.
  - rewrite map_filter_insert_False by done. rewrite delete_id by done. done.
Qed.

Lemma RemoveAbove_agree it itp i h :
  ranges it (Index.hashes i) → ranges itp (Index.proposers i) →
  agree i → agree (RemoveAbove it itp i h).
Proof.
  intros Hit Hitp [H1 H2]. split; simpl.
  - assert (delete_if (λ _ x, above h x ()) it (Index.hashes i) =
            filter (λ kv, kv.2 ≤ h) (Index.hashes i)) as ->.
    { apply map_eq. intros k. rewrite delete_if_lookup, map_lookup_filter.
      - destruct (Index.hashes i !! k) as [x|]; simpl; [|done].
        unfold above, guard. repeat case_decide; simpl; (done || lia).
      - intros k' Hk'. by apply (elem_of_ranges _ _ _ Hit). }
    rewrite H1. symmetry. exact (filter_values (Index.hashes i) (λ x, x ≤ h)).
  - assert (fold_left (trim h) itp (Index.proposers i) =
            filter (λ x, x ≤ h) <$> Index.proposers i) as ->.
    { apply map_eq. intros p. rewrite lookup_fmap. apply trim_lookup.
      - by apply (ranges_NoDup _ _ Hitp).
      - intros q Hq. by apply (elem_of_ranges _ _ _ Hitp). }
    rewrite map_to_list_fmap, H2, filter_concat, <- !list_fmap_compose. done.
Qed.

(** The calls that change an index, with the orders of their ranges. *)
Inductive index_step (i : Index.t) : Index.t → Prop :=
  | step_Add b : index_step i (Add i b).1
  | step_RemoveAbove it itp h :
      ranges it (Index.hashes i) → ranges itp (Index.proposers i) →
      index_step i (RemoveAbove it itp i h).

Lemma index_steps_agree i j : rtc index_step i j → agree i → agree j.
Proof.
  induction 1 as [|i j k [b|it itp h ? ?] _ IH]; intros Hi; [done| |]; apply IH.
  - by apply Add_agree.
  - by apply RemoveAbove_agree.
Qed.

(** ** Properties *)

(** Whatever blocks are added and heights cut, in any order, the index by hash,
    the index by proposer and the list of heights hold the same heights, each as
    often; [Count] is the number of indexed hashes. *)
Theorem Index_agree now i :
  rtc index_step (NewIndex now) i →
  agree i ∧ Count i = Z.of_nat (size (Index.hashes i)) ∧
  Heights i ≡ₚ concat (map_to_list (Index.proposers i)).*2 ∧ Sorted Z.le (Heights i).
Proof.
  intros Hr. pose proof (index_steps_agree _ _ Hr (NewIndex_agree now)) as Ha.
  pose proof Ha as [H1 H2]. split; [done|]. split; [|split].
  - unfold Count. by rewrite H1, length_fmap, length_map_to_list.
  - unfold Heights. by rewrite isort_perm, H2.
  - apply isort_sorted, _.
Qed.

Lemma Index_agree_witness :
  let i1 := (Add (NewIndex 3) block1).1 in
  let i := RemoveAbove [Block.Hash block1] ["p"] i1 0 in
  agree i ∧ Count i = Z.of_nat (size (Index.hashes i)) ∧
  Heights i ≡ₚ concat (map_to_list (Index.proposers i)).*2 ∧ Sorted Z.le (Heights i).
Proof.
  intros i1 i. apply (Index_agree 3 i).
  apply (rtc_l _ _ i1); [apply (step_Add (NewIndex 3) block1)|]. apply rtc_once.
  apply step_RemoveAbove; apply (bool_decide_unpack _); by vm_compute.
Defined.

(** [Query] returns, by rising height, the first [Limit] entries within its
    bounds (all of them without a limit); its [Proposer] field has no effect. *)
Theorem Query_spec it s q :
  RunQuery it s q = limited (Query.Limit q) (filter (in_query q) (All it s)) ∧
  Sorted meta_le (All it s) ∧
  ∀ name, RunQuery it s (Query.mk (Query.From q) (Query.To q) name (Query.Limit q)) = RunQuery it s q.
Proof.
  assert (∀ q, RunQuery it s q = limited (Query.Limit q) (filter (in_query q) (All it s))) as HQ.
  { intros q'. unfold RunQuery, limited. rewrite query_loop_spec by (simpl; lia). done. }
  split; [apply HQ|]. split; [|intros name; by rewrite !HQ].
  apply isort_sorted. intros a b. unfold meta_le. lia.
Qed.

(** [Put] at a height that is taken leaves the old entry under its hash: [Get]
    and [GetHash] disagree, and [DeleteAbove] empties the heights but never
    reaches the stale hash. *)
Theorem Put_stale_hash m1 m2 h :
  BlockMeta.Height m1 = BlockMeta.Height m2 → BlockMeta.Hash m1 ≠ BlockMeta.Hash m2 →
  h < BlockMeta.Height m1 →
  let s := Put (Put NewMetaStore m1) m2 in
  let s' := DeleteAbove [BlockMeta.Height m1] s h in
  Get s (BlockMeta.Height m1) = Some m2 ∧ GetHash s (BlockMeta.Hash m1) = Some m1 ∧
  Size s' = 0 ∧ GetHash s' (BlockMeta.Hash m1) = Some m1.
Proof.
  intros Eh Hne Hh. cbv zeta. unfold Get, GetHash, Size, DeleteAbove, delete_meta, Put. simpl.
  rewrite <- Eh, lookup_insert_eq, decide_True by done. simpl.
  rewrite insert_insert_eq, delete_insert_eq, delete_empty.
  rewrite lookup_delete_ne, lookup_insert_ne, lookup_insert_eq by done. done.
Qed.

Lemma Put_stale_hash_witness :
  let m1 := BlockMeta.mk 7 "old" 10 1 "r" 0 in
  let m2 := BlockMeta.mk 7 "new" 12 2 "r" 1 in
  let s := Put (Put NewMetaStore m1) m2 in
  let s' := DeleteAbove [BlockMeta.Height m1] s 5 in
  Get s (BlockMeta.Height m1) = Some m2 ∧ GetHash s (BlockMeta.Hash m1) = Some m1 ∧
  Size s' = 0 ∧ GetHash s' (BlockMeta.Hash m1) = Some m1.
Proof. intros m1 m2. apply (Put_stale_hash m1 m2 5); [done|discriminate|reflexivity]. Defined.
