(* ===== verification/AuditChain.v ===== *)
(** * audit/audit.go and audit/chain.go: the audit log and the audit chain

    [Log] is the log of the node, [Chain] the hash chain of records with its
    verification. The clock readings of a call are arguments. *)
From S2P Require Import Prelude Machine GoString Sha256 Collision.

(** ** Model: the log of audit.go *)
Module Event.
Record t := mk { At : Z; Action : string; Detail : string; Hash : string }.
End Event.
Module Log.
Record t := mk { prev : string; events : list Event.t }.
(** [func New() *Log] *)
Definition New : t := mk "" [].
(** [func (l *Log) Append(a, d string) Event]: [now] and [now'] are the two
    clock readings; [fmt.Sprint] puts no space next to a string. *)
Definition Append `{Hasher} (l : t) (a d : string) (now now' : Z) : t * Event.t :=
  let h := hex_digest (prev l +:+ (a +:+ (d +:+ fmt_d (Time.UnixNano now)))) in
  let e := Event.mk now' a d h in
  (mk (Event.Hash e) (events l ++ [e]), e).
(** [func (l *Log) Events() []Event] *)
Definition Events (l : t) : list Event.t := events l.
End Log.

(** ** Model: the chain of chain.go *)
Module Record_.
Record t := mk { Sequence : Z; At : Z; Actor : string; Action : string; Resource : string;
                 Payload : string; PrevHash : string; Hash : string; Signature : string }.
(** The text a record's hash is taken of, ended by the secret of the chain. *)
Definition text (secret : string) (r : t) : string :=
  bar_join [fmt_d (Sequence r); Actor r; Action r; Resource r; Payload r; PrevHash r; secret].
(** [func (r Record) Digest() string] *)
Definition Digest `{Hasher} (r : t) : string := hex_digest (Hash r +:+ Signature r).
(** [func (r Record) Valid() bool] *)
Definition Valid (r : t) : bool :=
  bool_decide (0 < Sequence r) && negb (Time.IsZero (At r)) && bool_decide (Hash r ≠ "") &&
  bool_decide (Signature r ≠ "").
(** [func (r Record) String() string] *)
Definition String (r : t) : string :=
  String.concat " " [fmt_d (Sequence r); Actor r; Action r; Resource r].
End Record_.

Module Chain.
Record t := mk { records : list Record_.t; secret : string }.
End Chain.
(** [func NewChain(secret string) *Chain] *)
Definition NewChain (secret : string) : Chain.t := Chain.mk [] secret.
(** [func (c *Chain) Append(actor, action, resource, payload string) Record] *)
Definition Append `{Hasher} (c : Chain.t) (actor action resource payload : string) (now : Z)
  : Chain.t * Record_.t :=
  let '(prev, seq) :=
    match last (Chain.records c) with
    | Some l => (Record_.Hash l, u64 (Record_.Sequence l + 1))
    | None => ("", 1)
    end in
  let h := hex_digest (bar_join [fmt_d seq; actor; action; resource; payload; prev; Chain.secret c]) in
  let r := Record_.mk seq now actor action resource payload prev h h in
  (Chain.mk (Chain.records c ++ [r]) (Chain.secret c), r).
(** The loop of [Verify], at index [i] after a record of hash [prev]. *)
Fixpoint verify_loop `{Hasher} (secret : string) (i : Z) (prev : string) (rs : list Record_.t)
  : error :=
  match rs with
  | [] => nilerr
  | r :: rs =>
      if decide (Record_.Sequence r ≠ u64 (i + 1)) then errors_New "sequence gap" else
      if decide (Record_.PrevHash r ≠ prev) then errors_New "audit link mismatch" else
      let expected := hex_digest (Record_.text secret r) in
      if decide (Record_.Hash r ≠ expected ∨ Record_.Signature r ≠ expected)
      then errors_New "audit digest mismatch"
      else verify_loop secret (i + 1) (Record_.Hash r) rs
  end.
(** [func (c *Chain) Verify() error] *)
Definition Verify `{Hasher} (c : Chain.t) : error :=
  verify_loop (Chain.secret c) 0 "" (Chain.records c).
(** [func (c *Chain) List() []Record] and [Since]. *)
Definition List (c : Chain.t) : list Record_.t := Chain.records c.
Definition Since (c : Chain.t) (seq : Z) : list Record_.t :=
  filter (λ r, seq < Record_.Sequence r) (Chain.records c).

(** ** Specification *)

(** The arguments of a call of [Append]. *)
Module Entry.
Record t := mk { actor : string; action : string; resource : string; payload : string; now : Z }.
End Entry.
Definition append_entry `{Hasher} (c : Chain.t) (e : Entry.t) : Chain.t :=
  (Append c (Entry.actor e) (Entry.action e) (Entry.resource e) (Entry.payload e) (Entry.now e)).1.

(** A record that the loop of [Verify] accepts at index [i] after [prev]. *)
Record good_record `{Hasher} (secret : string) (i : Z) (prev : string) (r : Record_.t) : Prop := {
  good_seq : Record_.Sequence r = u64 (i + 1);
  good_prev : Record_.PrevHash r = prev;
  good_hash : Record_.Hash r = hex_digest (Record_.text secret r);
  good_sig : Record_.Signature r = hex_digest (Record_.text secret r) }.
Definition last_hash (prev : string) (rs : list Record_.t) : string :=
  match last rs with Some r => Record_.Hash r | None => prev end.
(** Everything of a record but its time, which no hash covers. *)
Definition content (r : Record_.t) : Record_.t :=
  Record_.mk (Record_.Sequence r) 0 (Record_.Actor r) (Record_.Action r) (Record_.Resource r)
    (Record_.Payload r) (Record_.PrevHash r) (Record_.Hash r) (Record_.Signature r).
Definition plain (r : Record_.t) : Prop :=
  Forall no_bar [Record_.Actor r; Record_.Action r; Record_.Resource r; Record_.Payload r].
#[export] Instance plain_dec r : Decision (plain r).
Proof. unfold plain. apply _. Defined.
Definition texts (c : Chain.t) : list string := Record_.text (Chain.secret c) <$> Chain.records c.

(** ** Lemmas *)
Section chain.
Context `{Hasher}.

Lemma verify_one secret i prev r rs :
  verify_loop secret i prev (r :: rs) = nilerr ↔
  good_record secret i prev r ∧ verify_loop secret (i + 1) (Record_.Hash r) rs = nilerr.
Proof.
  cbn [verify_loop]. split.
  - repeat (case_decide; [done|]). intros Hv. split; [|done].
    split; apply dec_stable; tauto.
  - intros [[H1 H2 H3 H4] Hv]. rewrite !decide_False by tauto. done.
Qed.

Lemma verify_snoc secret i prev rs r :
  verify_loop secret i prev (rs ++ [r]) = nilerr ↔
  verify_loop secret i prev rs = nilerr ∧ good_record secret (i + len rs) (last_hash prev rs) r.
Proof.
  revert i prev. induction rs as [|s rs IH]; intros i prev; cbn [app].
  - rewrite verify_one. simpl. rewrite Z.add_0_r. naive_solver.
  - rewrite !verify_one, IH. unfold last_hash. rewrite (last_cons s rs). simpl length.
    replace (i + 1 + len rs) with (i + Z.of_nat (S (length rs))) by lia.
    destruct (last rs); tauto.
Qed.

Lemma verify_last_hash secret i prev rs :
  verify_loop secret i prev rs = nilerr →
  last_hash prev rs = prev ∨ is_digest (last_hash prev rs).
Proof.
  destruct rs as [|r rs _] using rev_ind; [by left|]. rewrite verify_snoc. intros [_ Hg].
  unfold last_hash. rewrite last_snoc, (good_hash _ _ _ _ Hg). right. apply digest_is_digest.
Qed.

Lemma append_verified c e : Verify c = nilerr → Verify (append_entry c e) = nilerr.
Proof.
  intros Hc. unfold append_entry, Append. destruct c as [rs s]. unfold Verify in *. simpl in *.
  assert (∀ prev seq, prev = last_hash "" rs → seq = u64 (len rs + 1) →
    verify_loop s 0 "" (rs ++ [Record_.mk seq (Entry.now e) (Entry.actor e) (Entry.action e)
      (Entry.resource e) (Entry.payload e) prev
      (hex_digest (bar_join [fmt_d seq; Entry.actor e; Entry.action e; Entry.resource e;
                             Entry.payload e; prev; s]))
      (hex_digest (bar_join [fmt_d seq; Entry.actor e; Entry.action e; Entry.resource e;
                             Entry.payload e; prev; s]))]) = nilerr) as Hgo.
  { intros prev seq -> ->. apply verify_snoc. split; [done|]. by split. }
  destruct rs as [|l rs _] using rev_ind; [by apply Hgo|].
  rewrite last_snoc. apply verify_snoc in Hc as [_ Hg]. apply Hgo.
  - unfold last_hash. by rewrite last_snoc.
  - rewrite (good_seq _ _ _ _ Hg), length_app. simpl. mlia.
Qed.

Lemma appends_verified s es : Verify (fold_left append_entry es (NewChain s)) = nilerr.
Proof.
  assert (Verify (NewChain s) = nilerr) as H0 by done. revert H0. generalize (NewChain s).
  induction es as [|e es IH]; intros c Hc; simpl; [done|]. by apply IH, append_verified.
Qed.

Lemma verify_take s n rs : verify_loop s 0 "" rs = nilerr → verify_loop s 0 "" (take n rs) = nilerr.
Proof.
  generalize 0, "". revert n. induction rs as [|r rs IH]; intros [|n] i prev; try done.
  cbn [take]. rewrite !verify_one. intros [? ?]. split; [done|]. by apply IH.
Qed.

Lemma no_bar_last s rs : verify_loop s 0 "" rs = nilerr → no_bar (last_hash "" rs).
Proof.
  intros [->|[_ Hd]]%verify_last_hash; [intros Hx; by apply elem_of_nil in Hx|].
  intros Hx%Hd. revert Hx. vm_compute. intros Hx. repeat (apply elem_of_cons in Hx as [Hx|Hx]; [done|]).
  by apply elem_of_nil in Hx.
Qed.

Lemma text_inj s r1 r2 :
  plain r1 → plain r2 → no_bar (Record_.PrevHash r1) → no_bar (Record_.PrevHash r2) →
  Record_.text s r1 = Record_.text s r2 →
  Record_.Hash r1 = Record_.Hash r2 → Record_.Signature r1 = Record_.Signature r2 →
  content r1 = content r2.
Proof.
  intros P1 P2 B1 B2 E Eh Es. unfold plain in *.
  rewrite !Forall_cons in P1. rewrite !Forall_cons in P2.
  apply bar_join_inj_gen in E; [|done|..].
  - injection E as E1 ?????. apply (inj fmt_d) in E1. unfold content. congruence.
  - simpl. rewrite !Forall_cons. pose proof (no_bar_fmt (Record_.Sequence r1)). unfold no_bar in *. tauto.
  - simpl. rewrite !Forall_cons. pose proof (no_bar_fmt (Record_.Sequence r2)). unfold no_bar in *. tauto.
Qed.

Lemma chain_binding s rs1 rs2 :
  length rs1 = length rs2 → Forall plain rs1 → Forall plain rs2 →
  verify_loop s 0 "" rs1 = nilerr → verify_loop s 0 "" rs2 = nilerr →
  last_hash "" rs1 = last_hash "" rs2 →
  content <$> rs1 = content <$> rs2 ∨
  Collision (Record_.text s <$> rs1) (Record_.text s <$> rs2).
Proof.
  revert rs2. induction rs1 as [|r1 rs1 IH] using rev_ind; intros rs2 L P1 P2 V1 V2 E.
  { destruct rs2; [by left|done]. }
  destruct rs2 as [|r2 rs2 _] using rev_ind; [rewrite length_app in L; simpl in L; lia|].
  rewrite !length_app in L. simpl in L.
  apply Forall_app in P1 as [P1 Q1], P2 as [P2 Q2].
  rewrite Forall_singleton in Q1. rewrite Forall_singleton in Q2.
  apply verify_snoc in V1 as [V1 G1], V2 as [V2 G2].
  unfold last_hash in E. rewrite !last_snoc in E. rewrite !fmap_app. simpl.
  pose proof E as E'. rewrite (good_hash _ _ _ _ G1), (good_hash _ _ _ _ G2) in E'.
  destruct (digest_eq _ _ ((Record_.text s <$> rs1) ++ [Record_.text s r1])
    ((Record_.text s <$> rs2) ++ [Record_.text s r2])
    ltac:(apply elem_of_app; right; by left) ltac:(apply elem_of_app; right; by left) E')
    as [Et|Hc]; [|by right].
  assert (content r1 = content r2) as Ec.
  { apply (text_inj s); [exact Q1|exact Q2| | |exact Et|exact E|].
    - rewrite (good_prev _ _ _ _ G1). by apply (no_bar_last s).
    - rewrite (good_prev _ _ _ _ G2). by apply (no_bar_last s).
    - rewrite (good_sig _ _ _ _ G1), (good_sig _ _ _ _ G2). exact E'. }
  assert (last_hash "" rs1 = last_hash "" rs2) as El.
  { rewrite <- (good_prev _ _ _ _ G1), <- (good_prev _ _ _ _ G2). injection Ec. done. }
  destruct (IH rs2) as [Ei|Hc]; [lia|done..| |].
  - left. by rewrite Ei, Ec.
  - right. eapply Collision_mono; [..|exact Hc]; intros x Hx; apply elem_of_app; by left.
Qed.
End chain.

(** ** Properties *)

(** C36: whatever is appended to a new chain, [Verify] accepts it: sequence numbers,
    links and digests are those it recomputes. *)
Theorem Append_verifies secret es : Verify (fold_left append_entry es (NewChain secret)) = nilerr.
Proof. apply appends_verified. Qed.

(** C25: two verified chains of one secret and one length whose last records have one
    hash agree on every field of every record but the time, or the two runs of
    [Verify] exhibit a collision; fields with a bar are outside the guarantee.
    So no record before the last can change unnoticed. *)
Theorem Verify_tamper_evident c1 c2 :
  Chain.secret c1 = Chain.secret c2 →
  length (Chain.records c1) = length (Chain.records c2) →
  Forall plain (Chain.records c1) → Forall plain (Chain.records c2) →
  Verify c1 = nilerr → Verify c2 = nilerr →
  last_hash "" (Chain.records c1) = last_hash "" (Chain.records c2) →
  content <$> Chain.records c1 = content <$> Chain.records c2 ∨ Collision (texts c1) (texts c2).
Proof.
  destruct c1 as [rs1 s], c2 as [rs2 s2]. simpl. intros <-. apply chain_binding.
Qed.

Definition audit_run : Chain.t :=
  fold_left append_entry [Entry.mk "node" "mine" "block" "1" 5; Entry.mk "node" "mine" "block" "2" 6]
    (NewChain "k3y").

Lemma Verify_tamper_evident_witness :
  content <$> Chain.records audit_run = content <$> Chain.records audit_run ∨
  Collision (texts audit_run) (texts audit_run).
Proof.
  apply (Verify_tamper_evident audit_run audit_run); [reflexivity|reflexivity| | | | |reflexivity].
  1, 2: apply (bool_decide_unpack _); by vm_compute.
  all: apply (appends_verified "k3y").
Defined.

(** [Verify] accepts every prefix of a verified chain: cutting off the latest
    records goes unnoticed. *)
Theorem Verify_truncation c n :
  Verify c = nilerr → Verify (Chain.mk (take n (Chain.records c)) (Chain.secret c)) = nilerr.
Proof. apply verify_take. Qed.

Lemma Verify_truncation_witness :
  Verify (Chain.mk (take 1 (Chain.records audit_run)) (Chain.secret audit_run)) = nilerr.
Proof. apply (Verify_truncation audit_run 1), (appends_verified "k3y"). Defined.
