(* ===== verification/AuditBus.v ===== *)
(** * audit/chain.go: the subscription bus

    The bus hands out buffered channels. A channel is an object shared by the
    bus and its consumer: the model has a heap of channels, and the bus maps
    subscribers to addresses. Closing a closed channel and sending on one are
    panics. Every method runs under the mutex of the bus; a consumer may receive
    at any time. *)
From S2P Require Import Prelude Machine GoMap AuditChain.

(** ** Model *)
Module Chan.
Record t := mk { buf : list Record_.t; closed : bool }.
(** [make(chan Record, 64)] *)
Definition cap : Z := 64.
Definition make : t := mk [] false.
End Chan.

(** The heap of channels and the map of the bus; of [Subscriber] only the channel is
    ever read. *)
Module Bus.
Record t := mk { heap : gmap nat Chan.t; subs : gmap string nat }.
End Bus.
(** [func NewBus() *Bus] *)
Definition NewBus : Bus.t := Bus.mk ∅ ∅.
(** [func (b *Bus) Subscribe(id string) chan Record]: a fresh channel; one that [id]
    already had is forgotten. *)
Definition Subscribe (b : Bus.t) (id : string) : Bus.t * nat :=
  let ch := fresh (dom (Bus.heap b)) in
  (Bus.mk (<[ch := Chan.make]> (Bus.heap b)) (<[id := ch]> (Bus.subs b)), ch).
(** The body of the loop of [Publish]: the [select] with a [default]. *)
Definition publish_one (r : Record_.t) (b : outcome Bus.t) (id : string) : outcome Bus.t :=
  match b with
  | Panic e => Panic e
  | Ret b =>
      match Bus.subs b !! id with
      | None => Ret b
      | Some a =>
          let c := default (Chan.mk [] true) (Bus.heap b !! a) in
          if Chan.closed c then Panic "send on closed channel" else
          if decide (len (Chan.buf c) < Chan.cap)
          then Ret (Bus.mk (<[a := Chan.mk (Chan.buf c ++ [r]) false]> (Bus.heap b)) (Bus.subs b))
          else Ret (Bus.mk (Bus.heap b) (delete id (Bus.subs b)))
      end
  end.
(** [func (b *Bus) Publish(r Record)] *)
Definition Publish (it : list string) (b : Bus.t) (r : Record_.t) : outcome Bus.t :=
  fold_left (publish_one r) it (Ret b).
(** [func (b *Bus) Unsubscribe(id string)] *)
Definition Unsubscribe (b : Bus.t) (id : string) : outcome Bus.t :=
  match Bus.subs b !! id with
  | None => Ret b
  | Some a =>
      let c := default (Chan.mk [] true) (Bus.heap b !! a) in
      if Chan.closed c then Panic "close of closed channel"
      else Ret (Bus.mk (<[a := Chan.mk (Chan.buf c) true]> (Bus.heap b)) (delete id (Bus.subs b)))
  end.
(** A consumer receives from the channel at [a]. *)
Definition receive (b : Bus.t) (a : nat) : Bus.t :=
  match Bus.heap b !! a with
  | Some c => Bus.mk (<[a := Chan.mk (tail (Chan.buf c)) (Chan.closed c)]> (Bus.heap b)) (Bus.subs b)
  | None => b
  end.

(** ** Specification *)
Inductive bus_op :=
  | BSubscribe (id : string)
  | BPublish (it : list string) (r : Record_.t)
  | BUnsubscribe (id : string)
  | BReceive (a : nat).
Definition run_bus_op (b : outcome Bus.t) (o : bus_op) : outcome Bus.t :=
  match b with
  | Panic e => Panic e
  | Ret b =>
      match o with
      | BSubscribe id => Ret (Subscribe b id).1
      | BPublish it r => Publish it b r
      | BUnsubscribe id => Unsubscribe b id
      | BReceive a => Ret (receive b a)
      end
  end.

(** The channels of the subscribers are open, and no two share one; every buffer
    fits its channel. *)
Record safe (b : Bus.t) : Prop := {
  safe_open id a : Bus.subs b !! id = Some a →
    ∃ c, Bus.heap b !! a = Some c ∧ Chan.closed c = false;
  safe_inj id1 id2 a : Bus.subs b !! id1 = Some a → Bus.subs b !! id2 = Some a → id1 = id2;
  safe_cap a c : Bus.heap b !! a = Some c → len (Chan.buf c) ≤ Chan.cap }.

(** ** Lemmas *)
Lemma NewBus_safe : safe NewBus.
Proof. split; simpl; intros *; by rewrite lookup_empty. Qed.

Lemma Subscribe_safe b id : safe b → safe (Subscribe b id).1.
Proof.
  intros [H1 H2 H3]. unfold Subscribe. set (ch := fresh _).
  assert (Bus.heap b !! ch = None) as Hch by (apply not_elem_of_dom, is_fresh).
  assert (∀ i, Bus.subs b !! i ≠ Some ch) as Hn.
  { intros i Hi. destruct (H1 _ _ Hi) as (c & Hc & _). congruence. }
  split; simpl.
  - intros i a. rewrite !lookup_insert. repeat case_decide; subst; intros E; simplify_eq; eauto.
  - intros i1 i2 a. rewrite !lookup_insert. repeat case_decide; subst; intros E1 E2; simplify_eq; eauto;
      exfalso; by eapply Hn.
  - intros a c. rewrite lookup_insert. case_decide; [|apply H3]. intros [= <-]. by vm_compute.
Qed.

(** Replacing the contents of an open channel by contents that fit. *)
Lemma set_buf_safe b a c buf :
  Bus.heap b !! a = Some c → len buf ≤ Chan.cap → safe b →
  safe (Bus.mk (<[a := Chan.mk buf (Chan.closed c)]> (Bus.heap b)) (Bus.subs b)).
Proof.
  intros Hc Hb [H1 H2 H3]. split; simpl; [|done|].
  - intros i a' Hi. destruct (H1 _ _ Hi) as (c' & Hc' & Ho). rewrite lookup_insert.
    case_decide; [|by eauto]. eexists. split; [done|]. simpl. congruence.
  - intros a' c'. rewrite lookup_insert. case_decide; [|apply H3]. by intros [= <-].
Qed.

Lemma delete_sub_safe b id : safe b → safe (Bus.mk (Bus.heap b) (delete id (Bus.subs b))).
Proof.
  intros [H1 H2 H3]. split; simpl; [| |done].
  - intros i a [_ Hi]%lookup_delete_Some. eauto.
  - intros i1 i2 a [_ E1]%lookup_delete_Some [_ E2]%lookup_delete_Some. eauto.
Qed.

Lemma publish_one_safe b r id :
  safe b → ∃ b', publish_one r (Ret b) id = Ret b' ∧ safe b' ∧
    match Bus.subs b !! id with
    | Some a =>
        ∀ c, Bus.heap b !! a = Some c →
        if decide (len (Chan.buf c) < Chan.cap)
        then b' = Bus.mk (<[a := Chan.mk (Chan.buf c ++ [r]) false]> (Bus.heap b)) (Bus.subs b)
        else b' = Bus.mk (Bus.heap b) (delete id (Bus.subs b))
    | None => b' = b
    end.
Proof.
  intros Hb. unfold publish_one. destruct (Bus.subs b !! id) as [a|] eqn:Ha; [|by exists b].
  destruct (safe_open _ Hb _ _ Ha) as (c & Hc & Ho). rewrite Hc. simpl. rewrite Ho.
  case_decide as Hl; eexists; (split; [done|]); (split; [|intros c' Hc'; simplify_eq]).
  - rewrite <- Ho. apply (set_buf_safe _ _ c); [done| |done]. rewrite length_app. simpl. lia.
  - by rewrite decide_True.
  - by apply delete_sub_safe.
  - by rewrite decide_False.
Qed.

Lemma Unsubscribe_safe b id :
  safe b → ∃ b', Unsubscribe b id = Ret b' ∧ safe b' ∧ Bus.subs b' = delete id (Bus.subs b).
Proof.
  intros Hb. unfold Unsubscribe. destruct (Bus.subs b !! id) as [a|] eqn:Ha.
  - destruct (safe_open _ Hb _ _ Ha) as (c & Hc & Ho). rewrite Hc. simpl. rewrite Ho.
    eexists. split; [done|]. split; [|done]. destruct Hb as [H1 H2 H3]. split; simpl.
    + intros i a' [Hne Hi]%lookup_delete_Some. destruct (H1 _ _ Hi) as (c' & Hc' & Ho').
      exists c'. rewrite lookup_insert_ne; [done|]. intros ->. by apply Hne, (H2 id i a').
    + intros i1 i2 a' [_ E1]%lookup_delete_Some [_ E2]%lookup_delete_Some. eauto.
    + intros a' c'. rewrite lookup_insert. case_decide; [|apply H3]. intros [= <-]. exact (H3 _ _ Hc).
  - exists b. split; [done|]. split; [done|]. by rewrite delete_id.
Qed.

Lemma receive_safe b a : safe b → safe (receive b a).
Proof.
  intros Hb. unfold receive. destruct (Bus.heap b !! a) as [c|] eqn:Hc; [|done].
  apply (set_buf_safe _ _ c); [done| |done].
  pose proof (safe_cap _ Hb _ _ Hc). destruct (Chan.buf c); simpl in *; lia.
Qed.

Lemma Publish_safe it b r : safe b → ∃ b', Publish it b r = Ret b' ∧ safe b'.
Proof.
  unfold Publish. revert b. induction it as [|id it IH]; intros b Hb; cbn [fold_left]; [by exists b|].
  destruct (publish_one_safe b r id Hb) as (b1 & -> & Hb1 & _). by apply IH.
Qed.

(** [Publish] leaves alone what is not subscribed under [it]. *)
Lemma Publish_frame it b b' r :
  safe b → Publish it b r = Ret b' →
  (∀ id, id ∉ it → Bus.subs b' !! id = Bus.subs b !! id) ∧
  (∀ a, (∀ id, id ∈ it → Bus.subs b !! id ≠ Some a) → Bus.heap b' !! a = Bus.heap b !! a).
Proof.
  unfold Publish. revert b. induction it as [|j it IH]; intros b Hb; cbn [fold_left].
  { intros [= <-]. done. }
  destruct (publish_one_safe b r j Hb) as (b1 & -> & Hb1 & E1). intros Hp.
  destruct (IH b1 Hb1 Hp) as [F1 F2].
  assert ((∀ id, id ≠ j → Bus.subs b1 !! id = Bus.subs b !! id) ∧
          (∀ id a, Bus.subs b1 !! id = Some a → Bus.subs b !! id = Some a) ∧
          (∀ a, Bus.subs b !! j ≠ Some a → Bus.heap b1 !! a = Bus.heap b !! a)) as (S1 & S2 & S3).
  { destruct (Bus.subs b !! j) as [aj|] eqn:Hj; [|by subst b1].
    destruct (safe_open _ Hb _ _ Hj) as (c & Hc & _). specialize (E1 c Hc).
    case_decide; subst b1; simpl; split_and!; try done; intros *.
    - intros. rewrite lookup_insert_ne; [done|]. congruence.
    - intros. by rewrite lookup_delete_ne.
    - by intros [_ ?]%lookup_delete_Some. }
  split.
  - intros id Hid. apply not_elem_of_cons in Hid as [Hne Hid]. rewrite F1 by done. by apply S1.
  - intros a Ha. rewrite F2; [apply S3, Ha; by left|]. intros id Hid E. apply (Ha id); [by right|auto].
Qed.

(** What one [Publish] does to the channel of each subscriber. *)
Lemma Publish_effect it b r :
  safe b → NoDup it → ∃ b', Publish it b r = Ret b' ∧
    ∀ id a c, id ∈ it → Bus.subs b !! id = Some a → Bus.heap b !! a = Some c →
      if decide (len (Chan.buf c) < Chan.cap)
      then Bus.heap b' !! a = Some (Chan.mk (Chan.buf c ++ [r]) false) ∧ Bus.subs b' !! id = Some a
      else Bus.heap b' !! a = Some c ∧ Bus.subs b' !! id = None.
Proof.
  intros Hb Hnd. revert b Hb. induction Hnd as [|j it Hj Hnd IH]; intros b Hb.
  { exists b. split; [done|]. intros id a c Hid. by apply elem_of_nil in Hid. }
  destruct (publish_one_safe b r j Hb) as (b1 & Es & Hb1 & E1).
  destruct (IH b1 Hb1) as (b' & Hp & He). exists b'.
  split; [unfold Publish; cbn [fold_left]; by rewrite Es|].
  destruct (Publish_frame it b1 b' r Hb1 Hp) as [F1 F2]. clear IH Es Hp.
  intros id a c Hid Ha Hc. destruct (decide (id = j)) as [->|Hne].
  - rewrite Ha in E1. specialize (E1 c Hc). rewrite F1 by done. clear He.
    assert (∀ i, i ∈ it → Bus.subs b !! i ≠ Some a) as Ho.
    { intros i Hi E. apply Hj. by rewrite (safe_inj _ Hb j i a). }
    case_decide as Hl; subst b1; rewrite F2; simpl in *; try done.
    + by rewrite lookup_insert_eq.
    + by rewrite lookup_delete_eq.
    + intros i Hi [_ ?]%lookup_delete_Some. by apply (Ho i).
  - apply elem_of_cons in Hid as [->|Hid]; [done|]. apply (He id a c Hid).
    + destruct (Bus.subs b !! j) as [aj|] eqn:Hsj; [|by subst b1].
      destruct (safe_open _ Hb _ _ Hsj) as (cj & Hcj & _). specialize (E1 cj Hcj).
      case_decide; subst b1; simpl; [done|]. by rewrite lookup_delete_ne.
    + destruct (Bus.subs b !! j) as [aj|] eqn:Hsj; [|by subst b1].
      destruct (safe_open _ Hb _ _ Hsj) as (cj & Hcj & _). specialize (E1 cj Hcj).
      case_decide; subst b1; simpl; [|done]. rewrite lookup_insert_ne; [done|].
      intros ->. apply Hne. by apply (safe_inj _ Hb id j a).
Qed.

Lemma run_bus_safe ops b : safe b → ∃ b', fold_left run_bus_op ops (Ret b) = Ret b' ∧ safe b'.
Proof.
  revert b. induction ops as [|o ops IH]; intros b Hb; cbn [fold_left]; [by exists b|].
  assert (∃ b1, run_bus_op (Ret b) o = Ret b1 ∧ safe b1) as (b1 & -> & Hb1); [|by apply IH].
  destruct o as [id|it r|id|a]; simpl.
  - eexists. split; [done|]. by apply Subscribe_safe.
  - by apply Publish_safe.
  - destruct (Unsubscribe_safe b id Hb) as (b' & ? & ? & _). by exists b'.
  - eexists. split; [done|]. by apply receive_safe.
Qed.

(** ** Properties *)

(** C30: no sequence of subscriptions, publications, cancellations and receptions
    makes the bus panic: it never sends on a closed channel nor closes one twice,
    and no buffer exceeds its capacity. *)
Theorem Bus_never_panics ops :
  ∃ b, fold_left run_bus_op ops (Ret NewBus) = Ret b ∧ safe b.
Proof. apply run_bus_safe, NewBus_safe. Qed.

(** [Publish] gives the record to every subscriber with room in its channel, in
    whatever order the map is ranged, and drops every other subscriber, whose
    channel it leaves open: its consumer waits for ever. *)
Theorem Publish_delivers it b r :
  safe b → ranges it (Bus.subs b) → ∃ b', Publish it b r = Ret b' ∧
    ∀ id a c, Bus.subs b !! id = Some a → Bus.heap b !! a = Some c →
      if decide (len (Chan.buf c) < Chan.cap)
      then Bus.heap b' !! a = Some (Chan.mk (Chan.buf c ++ [r]) false) ∧ Bus.subs b' !! id = Some a
      else Bus.heap b' !! a = Some c ∧ Chan.closed c = false ∧ Bus.subs b' !! id = None.
Proof.
  intros Hb Hit. destruct (Publish_effect it b r Hb (ranges_NoDup _ _ Hit)) as (b' & Hp & He).
  exists b'. split; [done|]. intros id a c Ha Hc.
  specialize (He id a c ltac:(apply (elem_of_ranges _ _ _ Hit); by eexists) Ha Hc).
  case_decide; [done|]. destruct He as [? ?]. split; [done|]. split; [|done].
  destruct (safe_open _ Hb _ _ Ha) as (c' & ? & ?). congruence.
Qed.

Lemma Publish_delivers_witness :
  let b := (Subscribe (Subscribe NewBus "a").1 "b").1 in
  let r := Record_.mk 1 5 "node" "mine" "block" "1" "" "h" "h" in
  ∃ b', Publish ["b"; "a"] b r = Ret b' ∧
    ∀ id a c, Bus.subs b !! id = Some a → Bus.heap b !! a = Some c →
      if decide (len (Chan.buf c) < Chan.cap)
      then Bus.heap b' !! a = Some (Chan.mk (Chan.buf c ++ [r]) false) ∧ Bus.subs b' !! id = Some a
      else Bus.heap b' !! a = Some c ∧ Chan.closed c = false ∧ Bus.subs b' !! id = None.
Proof.
  intros b r. apply (Publish_delivers ["b"; "a"] b r).
  - apply Subscribe_safe, Subscribe_safe, NewBus_safe.
  - apply (bool_decide_unpack _). by vm_compute.
Defined.
