(* ===== verification/P2P.v ===== *)
(** * p2p: peers, handshakes, back-off

    [peers.go] and [protocol.go] but for [ParseAddr], which is in [PeerAddr]. The
    manager's methods run under its mutex. *)
From S2P Require Import Prelude Machine GoString GoSort GoMap.

(** ** Model: peers.go *)
Module Peer.
Record t := mk { ID : string; Address : string; Score : Z; LastSeen : Z; Banned : bool }.
Definition zero : t := mk "" "" 0 0 false.
End Peer.
Record Manager := manager { peers : gmap string Peer.t }.
(** [func New() *Manager] *)
Definition New : Manager := manager ∅.
(** [func (m *Manager) Add(p Peer)] at the clock reading [now] *)
Definition Add (m : Manager) (p : Peer.t) (now : Z) : Manager :=
  manager (<[Peer.ID p := Peer.mk (Peer.ID p) (Peer.Address p) (Peer.Score p) now (Peer.Banned p)]> (peers m)).
(** [func (m *Manager) List() []Peer] *)
Definition List (it : list string) (m : Manager) : list Peer.t := omap (peers m !!.) it.
(** [m.peers[id]] *)
Definition peer (m : Manager) (id : string) : Peer.t := default Peer.zero (peers m !! id).
(** [func (m *Manager) Penalize(id string, n int)] *)
Definition Penalize (m : Manager) (id : string) (n : Z) : Manager :=
  let p := peer m id in
  let score := i64 (Peer.Score p - n) in
  manager (<[id := Peer.mk (Peer.ID p) (Peer.Address p) score (Peer.LastSeen p)
                     (if decide (score < -100) then true else Peer.Banned p)]> (peers m)).

(** ** Model: protocol.go *)

(** [func (m *Manager) HealthyCount() int] *)
Definition healthy (p : Peer.t) : Prop := Peer.Banned p = false ∧ 0 ≤ Peer.Score p.
#[export] Instance healthy_dec p : Decision (healthy p).
Proof. unfold healthy. apply _. Defined.
Definition HealthyCount (it : list string) (m : Manager) : Z :=
  fold_left (λ n p, if decide (healthy p) then n + 1 else n) (List it m) 0.
(** [func (m *Manager) Ban(id string, d time.Duration)] *)
Definition Ban (m : Manager) (id : string) (d now : Z) : Manager :=
  let p := peer m id in
  manager (<[id := Peer.mk (Peer.ID p) (Peer.Address p) (Peer.Score p) (now + d) true]> (peers m)).
(** [func (m *Manager) Unban(id string)] *)
Definition Unban (m : Manager) (id : string) : Manager :=
  let p := peer m id in
  manager (<[id := Peer.mk (Peer.ID p) (Peer.Address p) (Peer.Score p) (Peer.LastSeen p) false]> (peers m)).

Module Handshake.
Record t := mk { NodeID : string; NetworkID : string; ChainID : string; Version : Z;
                 Features : list string; Nonce : Z }.
End Handshake.
Module Limits.
Record t := mk { MaxPeers : Z; MaxMessage : Z; RatePerSecond : Z; Burst : Z }.
End Limits.
(** [func DefaultLimits() Limits] *)
Definition DefaultLimits : Limits.t := Limits.mk 64 (Z.shiftl 2 20) 100 200.
(** [func ValidateHandshake(h Handshake) error] *)
Definition ValidateHandshake (h : Handshake.t) : error :=
  if decide (Handshake.NodeID h = "" ∨ Handshake.NetworkID h = "" ∨ Handshake.ChainID h = "")
  then errors_New "identity missing" else
  if decide (Handshake.Version h = 0) then errors_New "version missing" else
  if decide (32 < len (Handshake.Features h)) then errors_New "too many features" else nilerr.
(** [func Compatible(a, b Handshake) bool] *)
Definition Compatible (a b : Handshake.t) : bool :=
  bool_decide (Handshake.NetworkID a = Handshake.NetworkID b ∧
               Handshake.ChainID a = Handshake.ChainID b ∧
               Handshake.Version a = Handshake.Version b).

(** [type Backoff]: the attempts of each peer. *)
Record Backoff := backoff { tries : gmap string Z }.
(** [func NewBackoff() *Backoff] *)
Definition NewBackoff : Backoff := backoff ∅.
(** [func (b *Backoff) Next(id string) time.Duration]: a shift by a negative count
    panics. *)
Definition Next (b : Backoff) (id : string) : Backoff * outcome Z :=
  let n := i64 (default 0 (tries b !! id) + 1) in
  let b := backoff (<[id := n]> (tries b)) in
  let n := if decide (8 < n) then 8 else n in
  (b, if decide (n < 0) then Panic "negative shift amount"
      else Ret (Z.shiftl 1 n * Time.second)).
(** [func (b *Backoff) Reset(id string)] *)
Definition Reset (b : Backoff) (id : string) : Backoff := backoff (delete id (tries b)).

(** [strings.Trim(s, "/")] *)
Fixpoint trim_left (c : ascii) (l : list ascii) : list ascii :=
  match l with
  | [] => []
  | x :: l' => if decide (x = c) then trim_left c l' else l
  end.
Definition Trim (s : string) (c : ascii) : string :=
  String.string_of_list_ascii (rev (trim_left c (rev (trim_left c (chars s))))).
(** [func EncodeTopic(network, topic string) string] *)
Definition EncodeTopic (network topic : string) : string :=
  Trim network "/" +:+ ("/" +:+ Trim topic "/").
(** [func TopicAllowed(topic string) bool] *)
Definition TopicAllowed (topic : string) : bool :=
  existsb (λ p, bool_decide (topic = p)) ["blocks"; "transactions"; "votes"; "snapshots"].

(** ** Specification *)

(** The steps of a retry loop, on any peers: the attempts, and the resets. *)
Inductive backoff_op := BNext (id : string) | BReset (id : string).
Definition run_backoff (b : Backoff) (o : backoff_op) : Backoff :=
  match o with BNext id => (Next b id).1 | BReset id => Reset b id end.
(** The attempts on [id] since its last reset. *)
Fixpoint attempts (id : string) (ops : list backoff_op) (n : Z) : Z :=
  match ops with
  | [] => n
  | BNext i :: ops => attempts id ops (if decide (i = id) then n + 1 else n)
  | BReset i :: ops => attempts id ops (if decide (i = id) then 0 else n)
  end.
Definition well_keyed (m : Manager) : Prop := ∀ id p, peers m !! id = Some p → Peer.ID p = id.

(** ** Lemmas *)
Lemma attempts_ge id ops n : 0 ≤ n → 0 ≤ attempts id ops n ≤ n + len ops.
Proof.
  revert n. induction ops as [|[i|i] ops IH]; intros n Hn; cbn [attempts]; [simpl; lia|..];
    simpl length; case_decide.
  - pose proof (IH (n + 1)). lia.
  - pose proof (IH n). lia.
  - pose proof (IH 0). lia.
  - pose proof (IH n). lia.
Qed.

Lemma run_backoff_attempts id ops b :
  0 ≤ default 0 (tries b !! id) → default 0 (tries b !! id) + len ops < 9223372036854775808 →
  default 0 (tries (fold_left run_backoff ops b) !! id) = attempts id ops (default 0 (tries b !! id)).
Proof.
  revert b. induction ops as [|o ops IH]; intros b H0 Hl; [done|].
  cbn [fold_left attempts]. simpl length in Hl.
  assert (default 0 (tries (run_backoff b o) !! id) =
    match o with BNext i => if decide (i = id) then default 0 (tries b !! id) + 1 else default 0 (tries b !! id)
               | BReset i => if decide (i = id) then 0 else default 0 (tries b !! id) end) as E.
  { destruct o as [i|i]; simpl; [rewrite lookup_insert|unfold Reset; rewrite lookup_delete];
      case_decide; subst; simpl; try done. apply i64_small. mlia. }
  destruct o as [i|i]; rewrite IH; rewrite E; try (case_decide; lia); done.
Qed.

(** ** Properties *)

(** The delay after the [k]-th attempt since the last reset is [2^min(k, 8)]
    seconds, between 2 and 256 seconds, whatever happens to other peers: [Next]
    never panics within the range of the counter. *)
Theorem Backoff_delay id ops :
  len ops < MaxInt64 →
  let k := attempts id ops 0 + 1 in
  (Next (fold_left run_backoff ops NewBackoff) id).2 = Ret (2 ^ Z.min k 8 * Time.second) ∧
  2 ≤ 2 ^ Z.min k 8 ≤ 256.
Proof.
  intros Hl. cbv zeta. pose proof (attempts_ge id ops 0 ltac:(lia)) as Ha.
  pose proof (run_backoff_attempts id ops NewBackoff) as Hr.
  cbn [NewBackoff tries] in Hr. rewrite lookup_empty in Hr. simpl in Hr. specialize (Hr ltac:(lia) ltac:(lia)).
  unfold Next. rewrite Hr, i64_small by mlia. simpl.
  set (k := attempts id ops 0 + 1) in *.
  assert ((if decide (8 < k) then 8 else k) = Z.min k 8) as -> by (case_decide; lia).
  rewrite decide_False by lia. rewrite Z.shiftl_mul_pow2 by lia. split; [f_equal; lia|].
  split; [change 2 with (2 ^ 1) at 1|change 256 with (2 ^ 8)]; apply Z.pow_le_mono_r; lia.
Qed.

Lemma Backoff_delay_witness :
  let ops := [BNext "a"; BNext "b"; BReset "a"; BNext "a"; BNext "a"] in
  let k := attempts "a" ops 0 + 1 in
  (Next (fold_left run_backoff ops NewBackoff) "a").2 = Ret (2 ^ Z.min k 8 * Time.second) ∧
  2 ≤ 2 ^ Z.min k 8 ≤ 256.
Proof. intros ops. apply (Backoff_delay "a" ops). reflexivity. Defined.

(** A ban does not stick: adding a banned peer again, as any client of the API
    may, makes it healthy at once; and a ban has no end of its own, since nothing
    reads the time it stores. *)
Theorem Ban_undone_by_Add m p id d now now' :
  Peer.ID p = id → Peer.Banned p = false → 0 ≤ Peer.Score p →
  Peer.Banned (peer (Ban m id d now) id) = true ∧
  healthy (peer (Add (Ban m id d now) p now') id).
Proof.
  intros <- Hb Hs. unfold Ban, Add, peer. simpl. rewrite !lookup_insert_eq. done.
Qed.

Lemma Ban_undone_by_Add_witness :
  let p := Peer.mk "evil" "10.0.0.9:1" 0 0 false in
  Peer.Banned (peer (Ban (Add New p 5) "evil" 3600 7) "evil") = true ∧
  healthy (peer (Add (Ban (Add New p 5) "evil" 3600 7) p 8) "evil").
Proof. intros p. apply (Ban_undone_by_Add (Add New p 5) p "evil" 3600 7 8); done || lia. Defined.

(** [Penalize], [Ban] and [Unban] of an unknown peer store a nameless peer under
    its identifier, so the peer map is no longer keyed by [ID]; [Add] alone keeps
    it so. *)
Theorem Penalize_unknown_peer m id n d now :
  id ≠ "" → peers m !! id = None →
  ¬ well_keyed (Penalize m id n) ∧ ¬ well_keyed (Ban m id d now) ∧ ¬ well_keyed (Unban m id) ∧
  (well_keyed m → ∀ p, well_keyed (Add m p now)).
Proof.
  intros Hid Hm. unfold Penalize, Ban, Unban, peer. rewrite Hm. simpl.
  split_and!; [intros Hk; apply Hid; symmetry; apply (Hk id _ (lookup_insert_eq _ _ _))..|].
  intros Hk p i q. unfold Add. simpl. rewrite lookup_insert. case_decide; [|apply Hk]. by intros [= <-].
Qed.

Lemma Penalize_unknown_peer_witness :
  ¬ well_keyed (Penalize New "ghost" 1) ∧ ¬ well_keyed (Ban New "ghost" 1 2) ∧
  ¬ well_keyed (Unban New "ghost") ∧ (well_keyed New → ∀ p, well_keyed (Add New p 2)).
Proof. by apply (Penalize_unknown_peer New "ghost" 1 1 2). Defined.
