(* ===== verification/PeerAddr.v ===== *)
(** * p2p/protocol.go: peer addresses

    [ParseAddr] with what it uses of the standard library: [net.SplitHostPort], byte
    by byte, and [fmt.Sscanf(p, "%d", &n)], which skips white space, refuses a
    newline, reads a sign and digits, and leaves the rest of its input alone. *)
From S2P Require Import Prelude Machine GoString.

(** ** Model *)

(** [bytealg.IndexByteString] and [LastIndexByteString] *)
Definition index (c : ascii) (l : list ascii) : option nat := fst <$> list_find (c =.) l.
Definition last_index (c : ascii) (l : list ascii) : option nat :=
  (λ i, (length l - 1 - i)%nat) <$> index c (rev l).
Definition str (l : list ascii) : string := String.string_of_list_ascii l.

(** [net.SplitHostPort]: the host and the port. *)
Definition SplitHostPort (hostport : string) : res (string * string) :=
  let l := chars hostport in
  match last_index ":" l with
  | None => Err "missing port in address"
  | Some i =>
      let finish host j k :=
        if decide ("["%char ∈ drop j l) then Err "unexpected '[' in address" else
        if decide ("]"%char ∈ drop k l) then Err "unexpected ']' in address" else
        Ok (str host, str (drop (S i) l)) in
      if decide (l !! 0%nat = Some "["%char) then
        match index "]" l with
        | None => Err "missing ']' in address"
        | Some e =>
            if decide (S e = length l) then Err "missing port in address" else
            if decide (S e = i) then finish (take (e - 1) (drop 1 l)) 1%nat (S e) else
            if decide (l !! S e = Some ":"%char) then Err "too many colons in address"
            else Err "missing port in address"
        end
      else
        let host := take i l in
        if decide (":"%char ∈ host) then Err "too many colons in address" else finish host 0%nat 0%nat
  end.

(** [SkipSpace] of package [fmt], on UTF-8 bytes: [None] for a newline. *)
Fixpoint skip_space (b : list Z) : option (list Z) :=
  match b with
  | x :: b1 =>
      if decide (x = 10) then None else
      if decide (x = 32 ∨ 9 ≤ x ≤ 13) then skip_space b1 else
      match b1 with
      | y :: b2 =>
          if decide (x = 194 ∧ (y = 133 ∨ y = 160)) then skip_space b2 else
          match b2 with
          | z :: b3 =>
              if decide ((x = 225 ∧ y = 154 ∧ z = 128) ∨
                         (x = 226 ∧ y = 128 ∧ (128 ≤ z ≤ 138 ∨ z = 168 ∨ z = 169 ∨ z = 175)) ∨
                         (x = 226 ∧ y = 129 ∧ z = 159) ∨
                         (x = 227 ∧ y = 128 ∧ z = 128))
              then skip_space b3 else Some b
          | [] => Some b
          end
      | [] => Some b
      end
  | [] => Some b
  end.
(** [fmt.Sscanf(s, "%d", &n)]: the integer, or [None] for any error. *)
Definition Sscanf_d (s : string) : option Z :=
  b ← skip_space (bytes s);
  match b with
  | 45 :: b => parse_int true (digit_run b)
  | 43 :: b => parse_int false (digit_run b)
  | b => parse_int false (digit_run b)
  end.

(** [func ParseAddr(s string) (string, int, error)] *)
Definition ParseAddr (s : string) : res (string * Z) :=
  match SplitHostPort s with
  | Err _ => Err "invalid address"
  | Ok (h, p) =>
      if decide (h = "") then Err "invalid address" else
      match Sscanf_d p with
      | None => Err "invalid port"
      | Some n => if decide (n < 1 ∨ 65535 < n) then Err "invalid port" else Ok (h, n)
      end
  end.

Example ParseAddr_run :
  ParseAddr "10.0.0.1:9001" = Ok ("10.0.0.1", 9001) ∧ ParseAddr "[::1]:80" = Ok ("::1", 80) ∧
  ParseAddr "::1:80" = Err "invalid address" ∧ ParseAddr ":80" = Err "invalid address" ∧
  ParseAddr "h:0" = Err "invalid port" ∧ ParseAddr "h: +80/x" = Ok ("h", 80).
Proof. by vm_compute. Qed.

(** ** Lemmas: positions *)
Definition absent (c : ascii) (s : string) : Prop := c ∉ chars s.
#[export] Instance absent_dec c s : Decision (absent c s).
Proof. unfold absent. apply _. Defined.

Lemma index_first c a b : c ∉ a → index c (a ++ c :: b) = Some (length a).
Proof.
  unfold index. induction a as [|x a IH]; simpl; intros Hc; [by rewrite decide_True|].
  rewrite not_elem_of_cons in Hc. destruct Hc as [Hx Ha]. rewrite decide_False by done.
  specialize (IH Ha). destruct (list_find (c =.) (a ++ c :: b)) as [[i y]|]; by simplify_eq/=.
Qed.
Lemma index_before c l e : index c l = Some e → c ∉ take e l.
Proof.
  unfold index. destruct (list_find (c =.) l) as [[i y]|] eqn:E; [|done]. intros [= <-].
  apply list_find_Some in E as (_ & _ & Hb). intros (k & Hk)%list_elem_of_lookup.
  apply lookup_take_Some in Hk as [Hk Hlt]. by apply (Hb _ _ Hk).
Qed.
Lemma str_chars s : str (chars s) = s.
Proof. apply String.string_of_list_ascii_of_string. Qed.
Lemma last_index_last c a b : c ∉ b → last_index c (a ++ c :: b) = Some (length a).
Proof.
  intros Hc. unfold last_index. rewrite rev_app_distr. simpl. rewrite <- app_assoc. simpl.
  rewrite index_first by (by rewrite list_elem_of_In, <- in_rev, <- list_elem_of_In).
  simpl. rewrite length_app, length_rev. simpl. f_equal. lia.
Qed.

(** ** Lemmas: reading a printed port *)

(** What may follow a port without being noticed: nothing, or anything that starts
    with no digit and holds no colon and no bracket. *)
Definition ignored (rest : string) : Prop :=
  absent ":" rest ∧ absent "[" rest ∧ absent "]" rest ∧
  match bytes rest with x :: _ => ¬ 48 ≤ x ≤ 57 | [] => True end.
#[export] Instance ignored_dec rest : Decision (ignored rest).
Proof. unfold ignored. destruct (bytes rest); apply _. Defined.

Lemma Sscanf_printed p rest :
  1 ≤ p ≤ 65535 → ignored rest → Sscanf_d (fmt_d p +:+ rest) = Some p.
Proof.
  intros Hp (_ & _ & _ & Hr). destruct (printed_bytes p ltac:(mlia)) as (Hne & Hf & Hv).
  unfold Sscanf_d. assert (bytes (fmt_d p +:+ rest) = bytes (fmt_d p) ++ bytes rest) as ->.
  { unfold bytes. by rewrite chars_app, fmap_app. }
  pose proof (digit_run_app _ _ Hf Hr) as Hd. revert Hne Hf Hv Hd. clear Hr.
  generalize (bytes (fmt_d p)) (bytes rest). intros [|x a] b; [done|]. intros _ Hf Hv Hd.
  apply Forall_cons in Hf as [Hx Hf].
  assert (skip_space ((x :: a) ++ b) = Some ((x :: a) ++ b)) as ->.
  { simpl. rewrite !decide_False by lia. destruct (a ++ b) as [|y [|z l]]; [done|..];
      rewrite !decide_False by lia; done. }
  cbn [mbind option_bind app].
  assert (parse_int false (digit_run (x :: a ++ b)) = Some p) as E.
  { change (x :: a ++ b) with ((x :: a) ++ b). rewrite Hd. unfold parse_int. rewrite Hv.
    rewrite decide_False by done. rewrite decide_True by mlia. done. }
  assert (48 ≤ x ≤ 57 → x ≠ 45 ∧ x ≠ 43) as Hs by lia. destruct (Hs Hx).
  repeat (case_match; try done).
Qed.

(** ** Lemmas: splitting *)
Lemma drop_S_cons {A} n (l : list A) x l' : drop n l = x :: l' → drop (S n) l = l'.
Proof. revert l. induction n as [|n IH]; intros [|y l]; simpl; try done; [by intros [= _ ->]|apply IH]. Qed.
Lemma drop_S_app {A} (a : list A) x b : drop (S (length a)) (a ++ x :: b) = b.
Proof. by apply (drop_S_cons _ _ x), drop_app_length. Qed.
Lemma split_plain host port :
  absent ":" host → absent "[" host → absent "]" host →
  absent ":" port → absent "[" port → absent "]" port →
  SplitHostPort (host +:+ (":" +:+ port)) = Ok (host, port).
Proof.
  unfold absent, SplitHostPort. intros H1 H2 H3 P1 P2 P3. rewrite !chars_app. cbn [String.list_ascii_of_string app].
  rewrite last_index_last by done. rewrite decide_False.
  - rewrite take_app_length, decide_False by done. rewrite !drop_0.
    rewrite !decide_False by (rewrite elem_of_app, elem_of_cons; intros [?|[?|?]]; done).
    rewrite drop_S_app. by rewrite !str_chars.
  - destruct (chars host) as [|c l]; simpl; [done|]. intros [= ->]. by destruct H2; left.
Qed.
Lemma split_bracketed host port :
  absent "[" host → absent "]" host → absent ":" port → absent "[" port → absent "]" port →
  SplitHostPort ("[" +:+ (host +:+ ("]:" +:+ port))) = Ok (host, port).
Proof.
  unfold absent, SplitHostPort. intros H2 H3 P1 P2 P3. rewrite !chars_app. cbn [String.list_ascii_of_string app].
  set (l := _ :: (chars host ++ _)).
  assert (l = ("["%char :: chars host ++ ["]"%char]) ++ ":"%char :: chars port) as El.
  { unfold l. simpl. by rewrite <- app_assoc. }
  assert (last_index ":" l = Some (S (S (length (chars host))))) as ->.
  { rewrite El, last_index_last by done. simpl. rewrite length_app. simpl. f_equal. lia. }
  assert (index "]" l = Some (S (length (chars host)))) as ->.
  { change l with (("["%char :: chars host) ++ "]"%char :: ":"%char :: chars port).
    rewrite index_first; [done|]. rewrite not_elem_of_cons. by split. }
  rewrite decide_True by done. rewrite decide_False.
  2:{ rewrite El. rewrite length_app. simpl. rewrite length_app. simpl. lia. }
  rewrite decide_True by lia.
  assert (drop (S (S (length (chars host)))) l = ":"%char :: chars port) as Ed.
  { rewrite El. replace (S (S (length (chars host)))) with (length ("["%char :: chars host ++ ["]"%char])).
    - apply drop_app_length.
    - simpl. rewrite length_app. simpl. lia. }
  rewrite Ed. change (drop 1 l) with (chars host ++ "]"%char :: ":"%char :: chars port).
  rewrite (decide_False (P := "["%char ∈ _)); [rewrite (decide_False (P := "]"%char ∈ _))|].
  - f_equal. f_equal.
    + replace (S (length (chars host)) - 1)%nat with (length (chars host)) by lia.
      by rewrite take_app_length, str_chars.
    + rewrite (drop_S_cons _ _ _ _ Ed). by rewrite str_chars.
  - rewrite elem_of_cons. intros [?|?]; done.
  - rewrite elem_of_app, !elem_of_cons. intros [?|[?|[?|?]]]; done.
Qed.
Lemma absent_app c a b : absent c a → absent c b → absent c (a +:+ b).
Proof. unfold absent. rewrite chars_app, elem_of_app. tauto. Qed.
Lemma printed_absent c n : c ∉ digits → absent c (fmt_d n).
Proof. unfold absent. intros Hc Hin. by apply Hc, (fmt_d_digits n). Qed.

Lemma split_absent s h p : SplitHostPort s = Ok (h, p) → absent "[" h ∧ absent "]" h.
Proof.
  unfold SplitHostPort, absent. set (l := chars s). destruct (last_index ":" l) as [i|]; [|done].
  assert (∀ m, chars (str m) = m) as Hs by apply String.list_ascii_of_string_of_list_ascii.
  destruct (decide (l !! 0%nat = _)) as [H0|H0].
  - destruct (index "]" l) as [e|] eqn:Ee; [|done]. repeat (case_decide; try done).
    intros [= <- _]. rewrite Hs. split.
    + intros Hin. match goal with H : "["%char ∉ _ |- _ => apply H end.
      eapply list_elem_of_lookup in Hin as [k Hk]. apply lookup_take_Some in Hk as [Hk _].
      by eapply list_elem_of_lookup_2.
    + apply index_before in Ee. intros Hin. apply Ee.
      destruct l as [|c l]; [by destruct e|]. destruct e as [|e]; simpl in *; [by apply elem_of_nil in Hin|].
      rewrite drop_0, Nat.sub_0_r in Hin. by right.
  - repeat (case_decide; try done). intros [= <- _]. rewrite Hs, !drop_0 in *.
    split; intros [k Hk]%list_elem_of_lookup; apply lookup_take_Some in Hk as [Hk _];
      apply list_elem_of_lookup_2 in Hk; done.
Qed.

(** ** Properties *)

(** C40: reading back a printed address: for a host without colon or bracket, and for a
    host in brackets, with a port from 1 to 65535, [ParseAddr] returns the host and
    the port; it does so too when the port is followed by anything that starts
    with no digit and holds no colon or bracket, which it does not notice. *)
Theorem ParseAddr_print host p rest :
  host ≠ "" → absent "[" host → absent "]" host → 1 ≤ p ≤ 65535 → ignored rest →
  (absent ":" host → ParseAddr (host +:+ (":" +:+ (fmt_d p +:+ rest))) = Ok (host, p)) ∧
  ParseAddr ("[" +:+ (host +:+ ("]:" +:+ (fmt_d p +:+ rest)))) = Ok (host, p).
Proof.
  intros Hh H2 H3 Hp Hr. pose proof Hr as (R1 & R2 & R3 & _).
  assert (∀ c, c ∉ digits → absent c rest → absent c (fmt_d p +:+ rest)) as Ha.
  { intros c Hc. by apply absent_app, printed_absent. }
  assert (absent ":" (fmt_d p +:+ rest) ∧ absent "[" (fmt_d p +:+ rest) ∧ absent "]" (fmt_d p +:+ rest))
    as (P1 & P2 & P3) by (split_and!; apply Ha; try done; by apply (bool_decide_unpack _); vm_compute).
  unfold ParseAddr. split; [intros H1; rewrite split_plain by done|rewrite split_bracketed by done];
    rewrite decide_False, Sscanf_printed, decide_False by (done || lia); done.
Qed.

(** What [ParseAddr] accepts: a host that is not empty and holds no bracket, and a
    port from 1 to 65535. *)
Theorem ParseAddr_sound s h n :
  ParseAddr s = Ok (h, n) → h ≠ "" ∧ absent "[" h ∧ absent "]" h ∧ 1 ≤ n ≤ 65535.
Proof.
  unfold ParseAddr. destruct (SplitHostPort s) as [[h' p]|] eqn:E; [|done].
  case_decide as Hh; [done|]. destruct (Sscanf_d p) as [m|]; [|done]. case_decide as Hn; [done|].
  intros [= <- <-]. destruct (split_absent _ _ _ E). split_and!; done || lia.
Qed.

Lemma ParseAddr_print_witness :
  (absent ":" "10.0.0.1" → ParseAddr ("10.0.0.1" +:+ (":" +:+ (fmt_d 9001 +:+ "/tcp"))) = Ok ("10.0.0.1", 9001)) ∧
  ParseAddr ("[" +:+ ("10.0.0.1" +:+ ("]:" +:+ (fmt_d 9001 +:+ "/tcp")))) = Ok ("10.0.0.1", 9001).
Proof.
  apply (ParseAddr_print "10.0.0.1" 9001 "/tcp"); try lia; try discriminate;
    apply (bool_decide_unpack _); by vm_compute.
Defined.
Lemma ParseAddr_sound_witness :
  "::1" ≠ "" ∧ absent "[" "::1" ∧ absent "]" "::1" ∧ 1 ≤ 80 ≤ 65535.
Proof. apply (ParseAddr_sound "[::1]:80" "::1" 80). by vm_compute. Defined.
