(* ===== verification/TxJson.v ===== *)
(** * app/node.go: the JSON bodies of requests

    [json.NewDecoder(r.Body).Decode] into a transaction ([txH]) and into a peer
    ([peerH]): neither struct has tags, so a member goes to the field of its name in
    any case. What the encoder writes of a transaction is read back. *)
From S2P Require Import Prelude Machine GoString GoTime GoJson ChainDomain P2P.

(** ** Model: transactions *)
Definition put_ID (s : string) (t : Tx.t) : Tx.t := Tx.with_ID t s.
Definition put_From (s : string) (t : Tx.t) : Tx.t :=
  Tx.mk (Tx.ID t) s (Tx.To t) (Tx.Nonce t) (Tx.Fee t) (Tx.Gas t) (Tx.Key t) (Tx.Value t)
    (Tx.ExpiresAt t) (Tx.Size t) (Tx.Signature t).
Definition put_To (s : string) (t : Tx.t) : Tx.t :=
  Tx.mk (Tx.ID t) (Tx.From t) s (Tx.Nonce t) (Tx.Fee t) (Tx.Gas t) (Tx.Key t) (Tx.Value t)
    (Tx.ExpiresAt t) (Tx.Size t) (Tx.Signature t).
Definition put_Nonce (n : Z) (t : Tx.t) : Tx.t :=
  Tx.mk (Tx.ID t) (Tx.From t) (Tx.To t) n (Tx.Fee t) (Tx.Gas t) (Tx.Key t) (Tx.Value t)
    (Tx.ExpiresAt t) (Tx.Size t) (Tx.Signature t).
Definition put_Fee (n : Z) (t : Tx.t) : Tx.t :=
  Tx.mk (Tx.ID t) (Tx.From t) (Tx.To t) (Tx.Nonce t) n (Tx.Gas t) (Tx.Key t) (Tx.Value t)
    (Tx.ExpiresAt t) (Tx.Size t) (Tx.Signature t).
Definition put_Gas (n : Z) (t : Tx.t) : Tx.t :=
  Tx.mk (Tx.ID t) (Tx.From t) (Tx.To t) (Tx.Nonce t) (Tx.Fee t) n (Tx.Key t) (Tx.Value t)
    (Tx.ExpiresAt t) (Tx.Size t) (Tx.Signature t).
Definition put_Key (s : string) (t : Tx.t) : Tx.t :=
  Tx.mk (Tx.ID t) (Tx.From t) (Tx.To t) (Tx.Nonce t) (Tx.Fee t) (Tx.Gas t) s (Tx.Value t)
    (Tx.ExpiresAt t) (Tx.Size t) (Tx.Signature t).
Definition put_Value (s : string) (t : Tx.t) : Tx.t :=
  Tx.mk (Tx.ID t) (Tx.From t) (Tx.To t) (Tx.Nonce t) (Tx.Fee t) (Tx.Gas t) (Tx.Key t) s
    (Tx.ExpiresAt t) (Tx.Size t) (Tx.Signature t).
Definition put_ExpiresAt (n : Z) (t : Tx.t) : Tx.t :=
  Tx.mk (Tx.ID t) (Tx.From t) (Tx.To t) (Tx.Nonce t) (Tx.Fee t) (Tx.Gas t) (Tx.Key t) (Tx.Value t)
    n (Tx.Size t) (Tx.Signature t).
Definition put_Size (n : Z) (t : Tx.t) : Tx.t :=
  Tx.mk (Tx.ID t) (Tx.From t) (Tx.To t) (Tx.Nonce t) (Tx.Fee t) (Tx.Gas t) (Tx.Key t) (Tx.Value t)
    (Tx.ExpiresAt t) n (Tx.Signature t).
Definition put_Signature (s : string) (t : Tx.t) : Tx.t :=
  Tx.mk (Tx.ID t) (Tx.From t) (Tx.To t) (Tx.Nonce t) (Tx.Fee t) (Tx.Gas t) (Tx.Key t) (Tx.Value t)
    (Tx.ExpiresAt t) (Tx.Size t) s.
Definition tx_fields : list (field Tx.t) :=
  [("ID", set_string put_ID); ("From", set_string put_From); ("To", set_string put_To);
   ("Nonce", set_uint MaxUint64 put_Nonce); ("Fee", set_uint MaxUint64 put_Fee);
   ("Gas", set_uint MaxUint64 put_Gas); ("Key", set_string put_Key);
   ("Value", set_string put_Value); ("ExpiresAt", set_int put_ExpiresAt);
   ("Size", set_uint MaxUint32 put_Size); ("Signature", set_string put_Signature)].
(** [var t Tx; json.NewDecoder(r.Body).Decode(&t)] *)
Definition decode_tx (body : list Z) : option Tx.t := decode false tx_fields Tx.zero body.

(** ** Model: peers *)
Definition peer_fields : list (field Peer.t) :=
  [("ID", set_string (λ s p, Peer.mk s (Peer.Address p) (Peer.Score p) (Peer.LastSeen p) (Peer.Banned p)));
   ("Address", set_string (λ s p, Peer.mk (Peer.ID p) s (Peer.Score p) (Peer.LastSeen p) (Peer.Banned p)));
   ("Score", set_int (λ n p, Peer.mk (Peer.ID p) (Peer.Address p) n (Peer.LastSeen p) (Peer.Banned p)));
   ("LastSeen", set_time (λ x p, Peer.mk (Peer.ID p) (Peer.Address p) (Peer.Score p) x (Peer.Banned p)));
   ("Banned", set_bool (λ b p, Peer.mk (Peer.ID p) (Peer.Address p) (Peer.Score p) (Peer.LastSeen p) b))].
(** [var p p2p.Peer; json.NewDecoder(r.Body).Decode(&p)] *)
Definition decode_peer (body : list Z) : option Peer.t := decode false peer_fields Peer.zero body.

(** ** Model: what the encoder writes of a transaction *)
Definition tx_members (t : Tx.t) : list (string * member) :=
  [("ID", MStr (Tx.ID t)); ("From", MStr (Tx.From t)); ("To", MStr (Tx.To t));
   ("Nonce", MInt (Tx.Nonce t)); ("Fee", MInt (Tx.Fee t)); ("Gas", MInt (Tx.Gas t));
   ("Key", MStr (Tx.Key t)); ("Value", MStr (Tx.Value t)); ("ExpiresAt", MInt (Tx.ExpiresAt t));
   ("Size", MInt (Tx.Size t)); ("Signature", MStr (Tx.Signature t))].
(** [json.NewEncoder(w).Encode(t)], without the final newline *)
Definition encode_tx (t : Tx.t) : list Z := object_text (tx_members t).

(** The body that the smoke test of the repository posts, an apostrophe for each quote. *)
Definition q (s : string) : list Z := flat_map (λ c, if decide (c = 39) then [34] else [c]) (bytes s).
Example smoke_body :
  decode_tx (q "{'from':'alice','to':'state','nonce':1,'fee':2,'gas':1000,'key':'demo','value':'ok'}") =
    Some (Tx.mk "" "alice" "state" 1 2 1000 "demo" "ok" 0 0 "").
Proof. by vm_compute. Qed.
Example decode_tx_run :
  decode_tx (q " {'Gas': 7, 'gAS': null, 'other': [1.5e3, {'x': '\u00e9'}], 'KEY': '\u0041\n'} junk") =
    Some (Tx.mk "" "" "" 0 0 7 ("A" +:+ of_bytes [10]) "" 0 0 "") ∧
  decode_tx (q "null") = Some Tx.zero ∧ decode_tx (q "{}") = Some Tx.zero ∧
  decode_tx (q "[]") = None ∧ decode_tx (q "{'Gas': -1}") = None ∧ decode_tx (q "{'Gas': 1.0}") = None ∧
  decode_tx (q "{'Size': 4294967296}") = None ∧ decode_tx (q "{'Gas': 1,}") = None ∧
  decode_tx (q "{'ExpiresAt': -5}") = Some (put_ExpiresAt (-5) Tx.zero) ∧
  decode_peer (q "{'id':'p','LASTSEEN':'1970-01-01T00:00:01Z','banned':true}") =
    Some (Peer.mk "p" "" 0 (Time.of_Unix 1) true).
Proof. by vm_compute. Qed.

(** ** Lemmas *)
Lemma store_member {T} strict (fields : list (field T)) k set v t t' ms :
  find_field fields (bytes k) = Some set → utf8 (bytes k) → set v t = Some t' →
  store strict fields ((escape 0 true (bytes k), v) :: ms) t = store strict fields ms t'.
Proof. intros Hf Hk Hs. cbn [store]. by rewrite unquote_escape, Hf, Hs. Qed.
Lemma set_string_member {T} (put : string → T → T) s t :
  utf8 (bytes s) → set_string put (member_json (MStr s)) t = Some (put s t).
Proof. intros Hs. simpl. by rewrite unquote_escape, of_bytes_bytes. Qed.
Lemma set_uint_member {T} max (put : Z → T → T) n t :
  is_u64 n → n ≤ max → set_uint max put (member_json (MInt n)) t = Some (put n t).
Proof.
  intros Hn Hm. simpl. rewrite of_bytes_bytes, ParseUint_fmt_d by done. simpl.
  by rewrite decide_False by lia.
Qed.
Lemma set_int_member {T} (put : Z → T → T) n t :
  is_i64 n → set_int put (member_json (MInt n)) t = Some (put n t).
Proof. intros Hn. simpl. by rewrite ParseInt_printed. Qed.
(** What storing a member can do. *)
Lemma find_field_in {T} (fields : list (field T)) key set :
  find_field fields key = Some set → ∃ f, f ∈ fields ∧ set = f.2.
Proof.
  assert (∀ (Q : field T → Prop) `{∀ f, Decision (Q f)} x, list_find Q fields = Some x → x.2 ∈ fields) as Hl.
  { intros Q ? [i f] (Hi & _)%list_find_Some. by eapply list_elem_of_lookup_2. }
  unfold find_field. destruct (list_find (λ f, bytes f.1 = key) fields) as [x|] eqn:E.
  - apply Hl in E. destruct x as [i f]. intros [= <-]. by exists f.
  - intros (x & E'%Hl & ->)%fmap_Some. by exists x.2.
Qed.
Lemma store_keeps {T} (P : T → Prop) strict (fields : list (field T)) ms t t' :
  Forall (λ f, ∀ v t t', P t → f.2 v t = Some t' → P t') fields →
  P t → store strict fields ms t = Some t' → P t'.
Proof.
  intros Hf. rewrite Forall_forall in Hf. revert t.
  induction ms as [|[k v] ms IH]; intros t Ht; cbn [store]; [by intros [= <-]|].
  intros (t1 & E1 & E2)%bind_Some. apply (IH t1); [|done].
  destruct (find_field fields (unquote 0 k)) as [set|] eqn:E.
  - apply find_field_in in E as (f & Hin & ->). by apply (Hf f Hin v t).
  - destruct strict; [done|]. by injection E1 as <-.
Qed.
Lemma set_string_put {T} (put : string → T → T) v t t' :
  set_string put v t = Some t' → t' = t ∨ ∃ s, t' = put s t.
Proof. destruct v; try done; intros [= <-]; eauto. Qed.
Lemma set_uint_put {T} max (put : Z → T → T) v t t' :
  set_uint max put v t = Some t' → t' = t ∨ ∃ n, is_u64 n ∧ n ≤ max ∧ t' = put n t.
Proof.
  destruct v as [| |tok| | |]; try done; simpl; [intros [= <-]; by left|].
  intros (n & Hn & E)%bind_Some. case_decide; [done|]. injection E as <-. right. exists n.
  split; [by eapply ParseUint_range|]. split; [lia|done].
Qed.
Lemma set_int_put {T} (put : Z → T → T) v t t' :
  set_int put v t = Some t' → t' = t ∨ ∃ n, is_i64 n ∧ t' = put n t.
Proof.
  destruct v as [| |tok| | |]; try done; simpl; [intros [= <-]; by left|].
  intros (n & Hn & [= <-])%bind_Some. right. exists n. split; [|done]. revert Hn.
  unfold ParseInt. destruct (match tok with [] => _ | _ => _ end) as [neg ds].
  case_decide; [|done]. unfold parse_int. repeat case_decide; try done. by intros [= <-].
Qed.
(** Whatever the bytes of the body, a transaction that is decoded is a Go value: every
    integer is in the range of its type. *)
Lemma decode_tx_typed body t : decode_tx body = Some t → Tx.typed t.
Proof.
  unfold decode_tx, decode. intros ([v r] & _ & E)%bind_Some.
  destruct v as [| | | | |ms]; try done; [injection E as <-; by repeat split|].
  revert E. apply store_keeps; [|by repeat split].
  repeat (apply Forall_cons; split); [..|by apply Forall_nil]; intros v x x' [? ? ? ? ?]; cbn [snd];
    first [intros [-> | (s & ->)]%set_string_put|intros [-> | (n & ? & ? & ->)]%set_uint_put
          |intros [-> | (n & ? & ->)]%set_int_put]; split; simpl; mlia.
Qed.
(** The strings of a transaction. *)
Definition texts (t : Tx.t) : list string :=
  [Tx.ID t; Tx.From t; Tx.To t; Tx.Key t; Tx.Value t; Tx.Signature t].

(** What is written of a transaction is read back, whatever follows it. *)
Lemma plain_utf8 k : bool_decide (Forall (λ b, 0 ≤ b < 128) (bytes k)) = true → utf8 (bytes k).
Proof. intros Hk%bool_decide_eq_true. by apply utf8_plain. Qed.
Lemma document_written t rest :
  Tx.typed t → Forall (λ s, utf8 (bytes s)) (texts t) →
  document (encode_tx t ++ rest) =
    Some (JObj ((λ p, (escape 0 true (bytes p.1), member_json p.2)) <$> tx_members t), rest).
Proof.
  intros [Hn Hfe Hg He Hsz] Hs. unfold texts in Hs. rewrite !Forall_cons in Hs.
  destruct Hs as (S1 & S2 & S3 & S4 & S5 & S6 & _). apply document_object; [done|].
  repeat (apply Forall_cons; split); [..|by apply Forall_nil];
    (split; [by apply plain_utf8; vm_compute|simpl; auto; mlia]).
Qed.
Lemma decode_written strict t rest :
  Tx.typed t → Forall (λ s, utf8 (bytes s)) (texts t) →
  decode strict tx_fields Tx.zero (encode_tx t ++ rest) = Some t.
Proof.
  intros Ht Hs. unfold decode. rewrite document_written by done. destruct Ht as [Hn Hfe Hg He Hsz].
  unfold texts in Hs. rewrite !Forall_cons in Hs. destruct Hs as (S1 & S2 & S3 & S4 & S5 & S6 & _).
  cbn [mbind option_bind fmap list_fmap tx_members fst snd].
  repeat (erewrite store_member;
    [|reflexivity|by apply plain_utf8; vm_compute
     |first [by apply set_string_member|apply set_int_member; done|apply set_uint_member; mlia]]).
  by destruct t.
Qed.

(** A transaction with extreme integers, and characters to escape. *)
Definition json_tx : Tx.t :=
  Tx.mk "t1" "alice" ("b<" +:+ of_bytes [195; 169; 34; 10]) 1 18446744073709551615 21000 "k" "v" (-5) 4294967295 "".
Lemma json_tx_texts : Forall (λ s, utf8 (bytes s)) (texts json_tx).
Proof.
  repeat (apply Forall_cons; split); [..|by apply Forall_nil];
    try (apply utf8_plain; apply (bool_decide_unpack _); by vm_compute).
  change (utf8 ([98; 60] ++ [195; 169] ++ [34; 10])). do 2 (apply utf8_ascii; [lia|]).
  apply utf8_rune; [done|]. apply utf8_plain. by repeat constructor.
Qed.
