(* ===== verification/Consensus.v ===== *)
(** * consensus/bft.go and simulator.go: the voting engine and its network

    The engine's methods run under its mutex: one step on [Engine.t] each. A
    phase is a string, as in the source. The simulator's queues are the messages
    in flight per receiver. *)
From S2P Require Import Prelude Machine GoString GoMap ChainDomain.

(** ** Model: bft.go *)
Definition Phase : Type := string.
Definition Proposal : Phase := "proposal".
Definition Prevote : Phase := "prevote".
Definition Precommit : Phase := "precommit".
Definition Commit : Phase := "commit".
Definition ViewChange : Phase := "view_change".

Module Engine.
Record t := mk { height : Z; view : Z; phase : Phase; validators : list Validator.t;
                 votes : gmap string Vote.t }.
End Engine.

(** [func New(v []Validator) *Engine] *)
Definition New (v : list Validator.t) : Engine.t := Engine.mk 0 0 Proposal v ∅.
Definition with_phase (e : Engine.t) (p : Phase) : Engine.t :=
  Engine.mk (Engine.height e) (Engine.view e) p (Engine.validators e) (Engine.votes e).
(** [func (e *Engine) Step()] *)
Definition Step (e : Engine.t) : Engine.t :=
  let p := Engine.phase e in
  if decide (p = Proposal) then with_phase e Prevote else
  if decide (p = Prevote) then with_phase e Precommit else
  if decide (p = Precommit) then with_phase e Commit else
  if decide (p = Commit)
  then Engine.mk (u64 (Engine.height e + 1)) 0 Proposal (Engine.validators e) (Engine.votes e)
  else with_phase e Proposal.
(** [func (e *Engine) Vote(v Vote) bool] *)
Definition Vote (e : Engine.t) (v : Vote.t) : Engine.t * bool :=
  if decide (Vote.Height v ≠ Engine.height e ∨ Vote.View v ≠ Engine.view e) then (e, false) else
  match Engine.votes e !! Vote.Validator v with
  | Some _ => (e, false)
  | None => (Engine.mk (Engine.height e) (Engine.view e) (Engine.phase e) (Engine.validators e)
               (<[Vote.Validator v := v]> (Engine.votes e)), true)
  end.
(** [func (e *Engine) Status() map[string]interface{}]: its four entries. *)
Definition Status (e : Engine.t) : Z * Z * Phase * Z :=
  (Engine.height e, Engine.view e, Engine.phase e, Z.of_nat (size (Engine.votes e))).

(** ** Model: simulator.go *)

(** [func (e *Engine) SetHeight(h Height)] *)
Definition SetHeight (e : Engine.t) (h : Z) : Engine.t :=
  Engine.mk h (Engine.view e) (Engine.phase e) (Engine.validators e) ∅.
(** [func (e *Engine) SetView(v View)] *)
Definition SetView (e : Engine.t) (v : Z) : Engine.t :=
  Engine.mk (Engine.height e) v Proposal (Engine.validators e) ∅.
(** [func (e *Engine) Quorum() uint64] *)
Definition Engine_Quorum (e : Engine.t) : Z := Quorum (Engine.validators e).
(** [func (e *Engine) Finalized() bool] *)
Definition Finalized (e : Engine.t) : bool :=
  bool_decide (Engine.phase e = Commit ∧
               Quorum (Engine.validators e) ≤ u64 (Z.of_nat (size (Engine.votes e)))).
(** [vs[int(v)%len(vs)].Address]: the conversion wraps, the remainder has the sign of
    the dividend and a negative index panics. *)
Definition proposer_at (vs : list Validator.t) (v : Z) : outcome string :=
  if decide (len vs = 0) then Ret "" else
  let i := Z.rem (i64 v) (len vs) in
  if decide (i < 0) then Panic "index out of range"
  else Ret (match vs !! Z.to_nat i with Some x => Validator.Address x | None => "" end).
(** [func (e *Engine) Proposer() string] *)
Definition Proposer (e : Engine.t) : outcome string :=
  proposer_at (Engine.validators e) (Engine.view e).
(** [func ValidateVote(v Vote, phase Phase) error] *)
Definition ValidateVote (v : Vote.t) (phase : Phase) : error :=
  if decide (Vote.Validator v = "" ∨ Vote.Height v = 0) then errors_New "vote identity missing" else
  if decide (Vote.Type_ v ≠ phase) then errors_New ("phase mismatch: " +:+ Vote.Type_ v) else
  if decide (Vote.Signature v = "") then errors_New "signature missing" else nilerr.

Module Message.
Record t := mk { From : string; To : string; Height : Z; View : Z; MPhase : Phase;
                 BlockHash : string; SentAt : Z }.
End Message.
Module Net.
Record t := mk { queues : gmap string (list Message.t); dropped : gmap string Z; latency : Z }.
End Net.
(** [func NewNetwork() *Network] *)
Definition NewNetwork : Net.t := Net.mk ∅ ∅ 1000000.
Definition queue (n : Net.t) (id : string) : list Message.t := default [] (Net.queues n !! id).
(** [func (n *Network) Send(m Message) error] *)
Definition Send (n : Net.t) (m : Message.t) : Net.t * error :=
  if decide (Message.To m = "" ∨ Message.From m = "") then (n, errors_New "route required") else
  (Net.mk (<[Message.To m := queue n (Message.To m) ++ [m]]> (Net.queues n)) (Net.dropped n)
     (Net.latency n), nilerr).
(** [func (n *Network) Recv(id string) []Message] *)
Definition Recv (n : Net.t) (id : string) : Net.t * list Message.t :=
  (Net.mk (delete id (Net.queues n)) (Net.dropped n) (Net.latency n), queue n id).
(** [func (n *Network) DropPeer(id string)] and [Dropped]. *)
Definition Dropped (n : Net.t) (id : string) : Z := default 0 (Net.dropped n !! id).
Definition DropPeer (n : Net.t) (id : string) : Net.t :=
  Net.mk (Net.queues n) (<[id := i64 (Dropped n id + 1)]> (Net.dropped n)) (Net.latency n).
(** The messages of [SimulateRound] in the order of its two loops; [now k] is the
    clock reading of the [k]-th. *)
Definition round_messages (vs : list Validator.t) (b : Block.t) (now : nat → Z) : list Message.t :=
  imap (λ k '(v, p), Message.mk (Validator.Address v) (Validator.Address v) (Block.Height b)
                       (Header.View (Block.header b)) p (Block.Hash b) (now k))
    (v ← vs; p ← [Proposal; Prevote; Precommit]; [(v, p)]).
(** [func SimulateRound(e *Engine, net *Network, b Block) []Message] *)
Definition SimulateRound (e : Engine.t) (n : Net.t) (b : Block.t) (now : nat → Z)
  : Net.t * list Message.t :=
  let out := round_messages (Engine.validators e) b now in
  (fold_left (λ n m, (Send n m).1) out n, out).

(** ** Specification *)
Inductive engine_op :=
  | EStep | EVote (v : Vote.t) | ESetHeight (h : Z) | ESetView (v : Z).
Definition run_engine (e : Engine.t) (o : engine_op) : Engine.t :=
  match o with
  | EStep => Step e
  | EVote v => (Vote e v).1
  | ESetHeight h => SetHeight e h
  | ESetView v => SetView e v
  end.
(** The phases the engine moves through. *)
Definition voting_phase (p : Phase) : Prop := p ∈ [Proposal; Prevote; Precommit; Commit].
Record engine_ok (e : Engine.t) : Prop := {
  ok_phase : voting_phase (Engine.phase e);
  ok_votes a v : Engine.votes e !! a = Some v → Vote.Validator v = a }.
(** The votes of the current height and view. *)
Definition current (e : Engine.t) (v : Vote.t) : Prop :=
  Vote.Height v = Engine.height e ∧ Vote.View v = Engine.view e.
#[export] Instance current_dec e v : Decision (current e v).
Proof. unfold current. apply _. Defined.
Definition cast (e : Engine.t) (vs : list Vote.t) : Engine.t := fold_left (λ e v, (Vote e v).1) vs e.
(** [Step] run [n] times. *)
Definition steps (n : nat) (e : Engine.t) : Engine.t := Nat.iter n Step e.

(** ** Lemmas *)
Lemma run_engine_ok e o : engine_ok e → engine_ok (run_engine e o).
Proof.
  intros [Hp Hv]. destruct o as [|v|h|v]; simpl.
  - unfold Step. repeat case_decide; (split; [unfold voting_phase; simpl|done]); by repeat constructor.
  - unfold Vote. case_decide; [done|]. destruct (_ !! _); [done|]. split; simpl; [done|].
    intros a w. rewrite lookup_insert. case_decide; [|apply Hv]. by intros [= <-].
  - split; simpl; [done|]. intros *. by rewrite lookup_empty.
  - split; simpl; [by repeat constructor|]. intros *. by rewrite lookup_empty.
Qed.

Lemma engine_runs_ok vals ops : engine_ok (fold_left run_engine ops (New vals)).
Proof.
  assert (engine_ok (New vals)) as H0.
  { split; simpl; [by repeat constructor|]. intros *. by rewrite lookup_empty. }
  revert H0. generalize (New vals). induction ops as [|o ops IH]; intros e He; simpl; [done|].
  by apply IH, run_engine_ok.
Qed.

Lemma Vote_frame e v :
  Engine.height (Vote e v).1 = Engine.height e ∧ Engine.view (Vote e v).1 = Engine.view e ∧
  Engine.phase (Vote e v).1 = Engine.phase e ∧ Engine.validators (Vote e v).1 = Engine.validators e.
Proof. unfold Vote. case_decide; [done|]. by destruct (_ !! _). Qed.

Lemma cast_distinct e vs :
  Forall (current e) vs → NoDup (Vote.Validator <$> vs) →
  (∀ v, v ∈ vs → Engine.votes e !! Vote.Validator v = None) →
  size (Engine.votes (cast e vs)) = (size (Engine.votes e) + length vs)%nat ∧
  Engine.phase (cast e vs) = Engine.phase e ∧ Engine.validators (cast e vs) = Engine.validators e ∧
  Engine.height (cast e vs) = Engine.height e ∧ Engine.view (cast e vs) = Engine.view e.
Proof.
  unfold cast. revert e. induction vs as [|v vs IH]; intros e Hc Hnd Hf; cbn [fold_left length].
  { split; [lia|done]. }
  inv Hc as [|? ? [Hh Hw] Hc']. inv Hnd as [|? ? Hv Hnd'].
  pose proof (Vote_frame e v) as (F1 & F2 & F3 & F4).
  assert (Engine.votes (Vote e v).1 = <[Vote.Validator v := v]> (Engine.votes e)) as Ev.
  { unfold Vote. rewrite decide_False by naive_solver. by rewrite Hf by (by left). }
  destruct (IH (Vote e v).1) as (I1 & I2 & I3 & I4 & I5).
  - eapply Forall_impl; [exact Hc'|]. unfold current. by rewrite F1, F2.
  - done.
  - intros w Hw'. rewrite Ev, lookup_insert_ne; [apply Hf; by right|].
    intros E. apply Hv. rewrite E. by apply list_elem_of_fmap_2.
  - rewrite I1, Ev, map_size_insert_None by (apply Hf; by left). split; [lia|]. split_and!; congruence.
Qed.

Lemma Step_commit e :
  Engine.phase e = Commit →
  Step e = Engine.mk (u64 (Engine.height e + 1)) 0 Proposal (Engine.validators e) (Engine.votes e).
Proof. intros Hp. unfold Step. by rewrite Hp. Qed.

(** The four steps from commit to commit. *)
Lemma steps_round e :
  Engine.phase e = Commit →
  steps 4 e = Engine.mk (u64 (Engine.height e + 1)) 0 Commit (Engine.validators e) (Engine.votes e).
Proof.
  intros Hp. unfold steps. cbn [Nat.iter nat_rect]. rewrite (Step_commit e) by done. done.
Qed.

Lemma steps_to_commit e : Engine.phase e = Proposal → steps 3 e = with_phase e Commit.
Proof. intros Hp. unfold steps. cbn [Nat.iter nat_rect]. unfold Step at 3. by rewrite Hp. Qed.

(** ** Properties *)

(** The engine's invariant: whatever the calls, the phase is one of the four
    voting phases and every vote is stored under its validator, so no validator
    has two votes; a vote is accepted exactly when it is for the current height
    and view and its validator has none. *)
Theorem Engine_invariant vals ops v :
  let e := fold_left run_engine ops (New vals) in
  engine_ok e ∧
  ((Vote e v).2 = true ↔ current e v ∧ Engine.votes e !! Vote.Validator v = None).
Proof.
  cbv zeta. split.
  - apply engine_runs_ok.
  - generalize (fold_left run_engine ops (New vals)). intros e. unfold Vote, current.
    case_decide; [split; [done|tauto]|]. destruct (_ !! _); simpl; [naive_solver|].
    split; [|done]. intros _. split; [|done]. split; apply dec_stable; tauto.
Qed.

(** Leaving [Commit], [Step] moves to the next height without clearing the votes:
    every validator that voted is refused at the new height, and if the old height
    was final, the next one is final after three more steps with no vote for it. *)
Theorem Finalized_stale_votes e v :
  Finalized e = true → Vote.Height v ≠ u64 (Engine.height e + 1) ∨
    is_Some (Engine.votes e !! Vote.Validator v) →
  (Vote (Step e) v).2 = false ∧
  Finalized (steps 4 e) = true ∧ Engine.height (steps 4 e) = u64 (Engine.height e + 1).
Proof.
  intros [Hp Hq]%bool_decide_eq_true Hv. rewrite steps_round, Step_commit by done.
  split; [|split; [|done]].
  - unfold Vote. case_decide as Hc; [done|]. simpl in *.
    destruct Hv as [?|[w ->]]; [tauto|done].
  - apply bool_decide_eq_true. by split.
Qed.

Definition abc : list Validator.t :=
  [Validator.mk "a" 1 ""; Validator.mk "b" 1 ""; Validator.mk "c" 1 ""].
Definition ballot (who : string) (h : Z) : Vote.t := Vote.mk who h 0 "prevote" "sig".
Definition final_abc : Engine.t :=
  steps 3 (cast (New abc) [ballot "a" 0; ballot "b" 0; ballot "c" 0]).

Lemma Finalized_stale_votes_witness :
  (Vote (Step final_abc) (ballot "a" 1)).2 = false ∧
  Finalized (steps 4 final_abc) = true ∧
  Engine.height (steps 4 final_abc) = u64 (Engine.height final_abc + 1).
Proof.
  apply (Finalized_stale_votes final_abc (ballot "a" 1)).
  - by vm_compute.
  - right. by eexists.
Defined.

(** [Finalized] counts names, not the power of members: as many distinct names as
    the power quorum, none of them a validator, finalize a block. *)
Theorem Finalized_outsiders vals votes :
  Forall (current (New vals)) votes → NoDup (Vote.Validator <$> votes) →
  Quorum vals ≤ len votes < 18446744073709551616 →
  Finalized (steps 3 (cast (New vals) votes)) = true.
Proof.
  intros Hc Hnd Hq.
  destruct (cast_distinct (New vals) votes Hc Hnd) as (Hs & Hp & Hv & _).
  { intros v _. apply lookup_empty. }
  rewrite steps_to_commit by done. apply bool_decide_eq_true. split; [done|].
  cbn [with_phase Engine.validators Engine.votes]. rewrite Hv, Hs. simpl.
  rewrite map_size_empty, u64_small by mlia. lia.
Qed.

Lemma Finalized_outsiders_witness :
  Finalized (steps 3 (cast (New abc) [ballot "x" 0; ballot "y" 0; ballot "z" 0])) = true.
Proof.
  apply (Finalized_outsiders abc [ballot "x" 0; ballot "y" 0; ballot "z" 0]).
  - apply (bool_decide_unpack _). by vm_compute.
  - apply (bool_decide_unpack _). by vm_compute.
  - by vm_compute.
Defined.

(** The proposer of a view below [2^63] is the validator at [view mod n]: each
    of the [n] validators in turn; from [2^63] on, a view that is not a multiple of
    [n] modulo [2^64] makes [Proposer] panic. *)
Theorem Proposer_round_robin vs v :
  vs ≠ [] → is_u64 v →
  (v ≤ MaxInt64 → ∃ x, vs !! Z.to_nat (v mod len vs) = Some x ∧
                       proposer_at vs v = Ret (Validator.Address x)) ∧
  (MaxInt64 < v → (18446744073709551616 - v) mod len vs ≠ 0 →
     ∃ why, proposer_at vs v = Panic why).
Proof.
  intros Hne Hv. assert (0 < len vs) as Hn by (destruct vs; simpl; [done|lia]).
  unfold proposer_at. rewrite decide_False by lia. split.
  - intros Hs. rewrite i64_small, Z.rem_mod_nonneg by mlia.
    pose proof (Z.mod_pos_bound v (len vs) Hn).
    destruct (lookup_lt_is_Some_2 vs (Z.to_nat (v mod len vs))) as [x Hx]; [lia|].
    exists x. rewrite Hx. rewrite decide_False by lia. done.
  - intros Hs Hm. replace (i64 v) with (- (18446744073709551616 - v)) by mlia.
    rewrite Z.rem_opp_l, Z.rem_mod_nonneg by mlia.
    pose proof (Z.mod_pos_bound (18446744073709551616 - v) (len vs) Hn).
    rewrite decide_True by lia. by eexists.
Qed.

Lemma Proposer_round_robin_witness :
  (7 ≤ MaxInt64 → ∃ x, abc !! Z.to_nat (7 mod len abc) = Some x ∧
                       proposer_at abc 7 = Ret (Validator.Address x)) ∧
  (MaxInt64 < 7 → (18446744073709551616 - 7) mod len abc ≠ 0 →
     ∃ why, proposer_at abc 7 = Panic why).
Proof. apply (Proposer_round_robin abc 7); [discriminate|split; done]. Defined.
