(* ===== verification/Evidence.v ===== *)
(** * consensus/evidence.go: evidence, rounds, validator schedules

    The evidence pool, the state of one round, and the schedule of validator
    sets by height. *)
From S2P Require Import Prelude Machine GoSort GoMap ChainDomain Consensus.

(** ** Model: evidence *)
Module Evidence.
Record t := mk { ID : string; Kind : string; Validator : string; Height : Z; View : Z;
                 First : Vote.t; Second : Vote.t; Reason : string; CreatedAt : Z; Resolved : bool }.
Definition with_CreatedAt (e : t) (now : Z) : t :=
  mk (ID e) (Kind e) (Validator e) (Height e) (View e) (First e) (Second e) (Reason e) now (Resolved e).
Definition resolve (e : t) : t :=
  mk (ID e) (Kind e) (Validator e) (Height e) (View e) (First e) (Second e) (Reason e)
     (CreatedAt e) true.
End Evidence.
(** The kinds. *)
Definition DoubleProposal : string := "double_proposal".
Definition DoublePrevote : string := "double_prevote".
Definition InvalidCommit : string := "invalid_commit".
Definition OldVote : string := "old_vote".

Module EvidencePool.
Record t := mk { items : gmap string Evidence.t; max : Z }.
End EvidencePool.
(** [func NewEvidencePool(max int) *EvidencePool] *)
Definition NewEvidencePool (max : Z) : EvidencePool.t := EvidencePool.mk ∅ max.
(** [func (p *EvidencePool) Add(e Evidence) error], at the clock reading [now] *)
Definition Add (p : EvidencePool.t) (e : Evidence.t) (now : Z) : EvidencePool.t * error :=
  if decide (Evidence.ID e = "" ∨ Evidence.Validator e = "")
  then (p, errors_New "evidence identity required") else
  match EvidencePool.items p !! Evidence.ID e with
  | Some _ => (p, errors_New "evidence duplicate")
  | None =>
      if decide (EvidencePool.max p ≤ Z.of_nat (size (EvidencePool.items p)))
      then (p, errors_New "evidence full") else
      let e := if Time.IsZero (Evidence.CreatedAt e) then Evidence.with_CreatedAt e now else e in
      (EvidencePool.mk (<[Evidence.ID e := e]> (EvidencePool.items p)) (EvidencePool.max p), nilerr)
  end.
(** [func (p *EvidencePool) Get(id string) (Evidence, bool)] *)
Definition Get (p : EvidencePool.t) (id : string) : option Evidence.t := EvidencePool.items p !! id.
Definition created_le (a b : Evidence.t) : Prop := Evidence.CreatedAt a ≤ Evidence.CreatedAt b.
#[export] Instance created_le_dec a b : Decision (created_le a b).
Proof. unfold created_le. apply _. Defined.
(** [func (p *EvidencePool) List() []Evidence] *)
Definition List (it : list string) (p : EvidencePool.t) : list Evidence.t :=
  isort created_le (omap (EvidencePool.items p !!.) it).
(** [func (p *EvidencePool) Resolve(id string) error] *)
Definition Resolve (p : EvidencePool.t) (id : string) : EvidencePool.t * error :=
  match EvidencePool.items p !! id with
  | None => (p, errors_New "evidence missing")
  | Some e => (EvidencePool.mk (<[id := Evidence.resolve e]> (EvidencePool.items p))
                 (EvidencePool.max p), nilerr)
  end.
(** [func (p *EvidencePool) Unresolved() []Evidence] and [Count]. *)
Definition Unresolved (it : list string) (p : EvidencePool.t) : list Evidence.t :=
  filter (λ e, Evidence.Resolved e = false) (List it p).
Definition Count (p : EvidencePool.t) : Z := Z.of_nat (size (EvidencePool.items p)).

(** ** Model: rounds *)
Module RoundState.
Record t := mk { Height : Z; View : Z; RPhase : Phase; Proposer : string;
                 Proposals : gmap string Block.t; Votes : gmap string Vote.t;
                 StartedAt : Z; Deadline : Z }.
End RoundState.
(** [func NewRound(h Height, v View, p string) RoundState]: two clock readings. *)
Definition NewRound (h v : Z) (p : string) (now now' : Z) : RoundState.t :=
  RoundState.mk h v Proposal p ∅ ∅ now (now' + 5 * Time.second).
(** [func (r *RoundState) AddProposal(b Block) error] *)
Definition AddProposal (r : RoundState.t) (b : Block.t) : RoundState.t * error :=
  if decide (RoundState.RPhase r ≠ Proposal) then (r, errors_New "proposal phase closed") else
  if decide (Block.Height b ≠ RoundState.Height r ∨ Header.View (Block.header b) ≠ RoundState.View r)
  then (r, errors_New "proposal round mismatch") else
  match RoundState.Proposals r !! Block.Hash b with
  | Some _ => (r, errors_New "proposal duplicate")
  | None => (RoundState.mk (RoundState.Height r) (RoundState.View r) (RoundState.RPhase r)
               (RoundState.Proposer r) (<[Block.Hash b := b]> (RoundState.Proposals r))
               (RoundState.Votes r) (RoundState.StartedAt r) (RoundState.Deadline r), nilerr)
  end.
(** [func (r *RoundState) AddVote(v Vote) error] *)
Definition AddVote (r : RoundState.t) (v : Vote.t) : RoundState.t * error :=
  if decide (Vote.Height v ≠ RoundState.Height r ∨ Vote.View v ≠ RoundState.View r)
  then (r, errors_New "vote round mismatch") else
  match RoundState.Votes r !! Vote.Validator v with
  | Some _ => (r, errors_New "vote duplicate")
  | None => (RoundState.mk (RoundState.Height r) (RoundState.View r) (RoundState.RPhase r)
               (RoundState.Proposer r) (RoundState.Proposals r)
               (<[Vote.Validator v := v]> (RoundState.Votes r))
               (RoundState.StartedAt r) (RoundState.Deadline r), nilerr)
  end.
(** [r.Phase = p], [r.View = v] *)
Definition set_phase (r : RoundState.t) (v : Z) (p : Phase) : RoundState.t :=
  RoundState.mk (RoundState.Height r) v p (RoundState.Proposer r) (RoundState.Proposals r)
    (RoundState.Votes r) (RoundState.StartedAt r) (RoundState.Deadline r).
(** [func (r *RoundState) Advance() Phase] *)
Definition Advance (r : RoundState.t) : RoundState.t * Phase :=
  let p := RoundState.RPhase r in
  let r :=
    if decide (p = Proposal) then set_phase r (RoundState.View r) Prevote else
    if decide (p = Prevote) then set_phase r (RoundState.View r) Precommit else
    if decide (p = Precommit) then set_phase r (RoundState.View r) Commit else
    if decide (p = Commit) then set_phase r (u64 (RoundState.View r + 1)) Proposal
    else set_phase r (RoundState.View r) Proposal in
  (r, RoundState.RPhase r).
(** The readers of a round. *)
Definition TimedOut (r : RoundState.t) (now : Z) : bool := Time.After now (RoundState.Deadline r).
Definition VoteCount (r : RoundState.t) : Z := Z.of_nat (size (RoundState.Votes r)).
Definition ProposalCount (r : RoundState.t) : Z := Z.of_nat (size (RoundState.Proposals r)).
Definition Committed (r : RoundState.t) : bool := bool_decide (RoundState.RPhase r = Commit).
Definition Valid (r : RoundState.t) : bool :=
  bool_decide (0 < RoundState.Height r) && bool_decide (RoundState.Proposer r ≠ "") &&
  negb (Time.IsZero (RoundState.StartedAt r)).

(** ** Model: schedules *)
Module Schedule.
Record t := mk { validators : list Validator.t; epoch : Z; history : gmap Z (list Validator.t) }.
End Schedule.
(** [func NewSchedule(v []Validator, epoch Height) *Schedule] *)
Definition NewSchedule (v : list Validator.t) (epoch : Z) : Schedule.t := Schedule.mk v epoch ∅.
(** The body of the loop of [At]: [best] and [out]. *)
Definition at_one (s : Schedule.t) (h : Z) (bo : Z * list Validator.t) (x : Z)
  : Z * list Validator.t :=
  match Schedule.history s !! x with
  | Some v => if decide (x ≤ h ∧ bo.1 ≤ x) then (x, v) else bo
  | None => bo
  end.
(** [func (s *Schedule) At(h Height) []Validator] *)
Definition At (it : list Z) (s : Schedule.t) (h : Z) : list Validator.t :=
  (fold_left (at_one s h) it (0, Schedule.validators s)).2.
(** [func (s *Schedule) Rotate(h Height, v []Validator) error] *)
Definition Rotate (s : Schedule.t) (h : Z) (v : list Validator.t) : Schedule.t * error :=
  if decide (h = 0 ∨ len v = 0) then (s, errors_New "invalid rotation") else
  (Schedule.mk (Schedule.validators s) (Schedule.epoch s) (<[h := v]> (Schedule.history s)), nilerr).
(** [func (s *Schedule) Epoch(h Height) uint64] *)
Definition Epoch (s : Schedule.t) (h : Z) : Z :=
  if decide (Schedule.epoch s = 0) then 0 else h / Schedule.epoch s.
(** [func (s *Schedule) Proposer(h Height, v View) string] *)
Definition Schedule_Proposer (it : list Z) (s : Schedule.t) (h v : Z) : outcome string :=
  proposer_at (At it s h) v.
(** [func (s *Schedule) History()] *)
Definition History (s : Schedule.t) : gmap Z (list Validator.t) := Schedule.history s.
(** [func (s *Schedule) Validator(h Height, id string) bool] *)
Definition Is_validator (it : list Z) (s : Schedule.t) (h : Z) (id : string) : bool :=
  existsb (λ v, bool_decide (Validator.Address v = id)) (At it s h).
(** [func (s *Schedule) Power(h Height) uint64] and [Quorum]. *)
Definition Power (it : list Z) (s : Schedule.t) (h : Z) : Z := total_power (At it s h).
Definition Schedule_Quorum (it : list Z) (s : Schedule.t) (h : Z) : Z :=
  u64 (u64 (Power it s h * 2) / 3 + 1).

(** ** Specification *)
Inductive evidence_op := VAdd (e : Evidence.t) (now : Z) | VResolve (id : string).
Definition run_evidence (p : EvidencePool.t) (o : evidence_op) : EvidencePool.t :=
  match o with VAdd e now => (Add p e now).1 | VResolve id => (Resolve p id).1 end.
Record pool_ok (p : EvidencePool.t) : Prop := {
  pool_keyed id e : EvidencePool.items p !! id = Some e →
    Evidence.ID e = id ∧ id ≠ "" ∧ Evidence.Validator e ≠ "";
  pool_bound : Z.of_nat (size (EvidencePool.items p)) ≤ Z.max 0 (EvidencePool.max p) }.

(** The validator set in force at [h]: that of the last rotation up to [h], or the
    initial one. *)
Definition in_force (s : Schedule.t) (h : Z) (out : list Validator.t) : Prop :=
  (∃ x, Schedule.history s !! x = Some out ∧ x ≤ h ∧
        ∀ y, is_Some (Schedule.history s !! y) → y ≤ h → y ≤ x) ∨
  (out = Schedule.validators s ∧ ∀ y, is_Some (Schedule.history s !! y) → h < y).
(** The schedules that [Rotate] builds. *)
Definition rotations (v : list Validator.t) (epoch : Z) (rs : list (Z * list Validator.t)) : Schedule.t :=
  fold_left (λ s r, (Rotate s r.1 r.2).1) rs (NewSchedule v epoch).

(** ** Lemmas *)
Lemma run_evidence_ok p o :
  pool_ok p → pool_ok (run_evidence p o) ∧ EvidencePool.max (run_evidence p o) = EvidencePool.max p.
Proof.
  intros [Hk Hb]. destruct o as [e now|id]; simpl.
  - unfold Add. case_decide as Hid; [done|]. apply Decidable.not_or in Hid as [Hid Hv].
    destruct (_ !! _) eqn:E; [done|]. case_decide; [done|]. cbv zeta.
    set (e' := if Time.IsZero (Evidence.CreatedAt e) then Evidence.with_CreatedAt e now else e).
    assert (Evidence.ID e' = Evidence.ID e ∧ Evidence.Validator e' = Evidence.Validator e) as [Ei Ev].
    { unfold e'. by destruct (Time.IsZero _). }
    split; [|done]. split; simpl.
    + intros i x. rewrite lookup_insert. case_decide; [|apply Hk]. intros [= <-]. split_and!; congruence.
    + pose proof (map_size_insert_le (EvidencePool.items p) (Evidence.ID e') e'). lia.
  - unfold Resolve. destruct (_ !! _) as [e|] eqn:E; [|done]. split; [|done]. split; simpl.
    + intros i x. rewrite lookup_insert. case_decide; [|apply Hk]. intros [= <-]. subst. by apply Hk in E.
    + by rewrite map_size_insert_Some by (by eexists).
Qed.

(** The loop of [At] after the keys [it]: the initial set while no rotation is in
    force, else the last one met. *)
Lemma at_fold s h it :
  (∀ y, is_Some (Schedule.history s !! y) → 0 ≤ y) →
  let bo := fold_left (at_one s h) it (0, Schedule.validators s) in
  (bo = (0, Schedule.validators s) ∧
     ∀ y, y ∈ it → is_Some (Schedule.history s !! y) → h < y) ∨
  (Schedule.history s !! bo.1 = Some bo.2 ∧ bo.1 ≤ h ∧
     ∀ y, y ∈ it → is_Some (Schedule.history s !! y) → y ≤ h → y ≤ bo.1).
Proof.
  intros Hpos. cbv zeta. induction it as [|x it IH] using rev_ind.
  { left. split; [done|]. intros y Hy. by apply elem_of_nil in Hy. }
  rewrite fold_left_app. cbn [fold_left].
  set (bo := fold_left (at_one s h) it (0, Schedule.validators s)) in *.
  unfold at_one. destruct (Schedule.history s !! x) as [v|] eqn:Hx.
  - assert (0 ≤ x) by (apply Hpos; by eexists). case_decide as Hd.
    + right. simpl. split; [done|]. split; [lia|]. intros y [Hy| ->%list_elem_of_singleton]%elem_of_app Hs Hle; [|done].
      destruct IH as [[_ IH]|(_ & _ & IH)]; [specialize (IH y Hy Hs); lia|].
      specialize (IH y Hy Hs Hle). lia.
    + destruct IH as [[E IH]|(E1 & E2 & IH)]; [left|right; split; [done|split; [done|]]].
      * split; [done|]. intros y [Hy| ->%list_elem_of_singleton]%elem_of_app Hs; [by apply IH|].
        rewrite E in Hd. simpl in Hd. lia.
      * intros y [Hy| ->%list_elem_of_singleton]%elem_of_app Hs Hle; [by apply IH|lia].
  - destruct IH as [[E IH]|(E1 & E2 & IH)]; [left|right; split; [done|split; [done|]]].
    + split; [done|]. intros y [Hy| ->%list_elem_of_singleton]%elem_of_app Hs; [by apply IH|].
      rewrite Hx in Hs. by destruct Hs.
    + intros y [Hy| ->%list_elem_of_singleton]%elem_of_app Hs Hle; [by apply IH|].
      rewrite Hx in Hs. by destruct Hs.
Qed.

Lemma At_in_force s h it :
  (∀ y, is_Some (Schedule.history s !! y) → 0 ≤ y) → ranges it (Schedule.history s) →
  in_force s h (At it s h).
Proof.
  intros Hpos Hit. unfold At, in_force.
  destruct (at_fold s h it Hpos) as [[E IH]|(E1 & E2 & IH)].
  - right. rewrite E. split; [done|]. intros y Hy. apply IH; [by apply (elem_of_ranges _ _ _ Hit)|done].
  - left. eexists. split; [exact E1|]. split; [done|]. intros y Hy Hle.
    apply IH; [by apply (elem_of_ranges _ _ _ Hit)|done..].
Qed.

Lemma in_force_unique s h o1 o2 : in_force s h o1 → in_force s h o2 → o1 = o2.
Proof.
  intros [(x & Hx & Lx & Mx)|[-> Nx]] [(y & Hy & Ly & My)|[-> Ny]]; try done.
  - assert (x = y) as -> by (pose proof (Mx y ltac:(by eexists) Ly);
      pose proof (My x ltac:(by eexists) Lx); lia). congruence.
  - specialize (Ny x ltac:(by eexists)). lia.
  - specialize (Nx y ltac:(by eexists)). lia.
Qed.

Lemma rotations_pos v epoch rs :
  Forall (λ r, 0 ≤ r.1) rs →
  ∀ y, is_Some (Schedule.history (rotations v epoch rs) !! y) → 0 < y.
Proof.
  unfold rotations. induction rs as [|r rs IH] using rev_ind; intros HF y.
  { simpl. rewrite lookup_empty. by intros [? ?]. }
  apply Forall_app in HF as [HF Hr]. rewrite Forall_singleton in Hr.
  rewrite fold_left_app. cbn [fold_left]. unfold Rotate at 1. case_decide; [by apply IH|].
  simpl. rewrite lookup_insert. case_decide; [lia|]. by apply IH.
Qed.

(** ** Properties *)

(** The evidence pool keeps every item under its identifier, with an identity
    and a validator, and never holds more than [max] of them. *)
Theorem EvidencePool_invariant max ops :
  let p := fold_left run_evidence ops (NewEvidencePool max) in
  pool_ok p ∧ EvidencePool.max p = max.
Proof.
  cbv zeta. assert (pool_ok (NewEvidencePool max) ∧ EvidencePool.max (NewEvidencePool max) = max) as H0.
  { split; [|done]. split; simpl; [intros *; by rewrite lookup_empty|]. rewrite map_size_empty. lia. }
  revert H0. generalize (NewEvidencePool max). induction ops as [|o ops IH]; intros p [Hp Hm]; [done|].
  simpl. destruct (run_evidence_ok p o Hp) as [Hp' Hm']. apply IH. split; [done|congruence].
Qed.

(** C31: [At] returns the validator set of the last rotation at or below the height,
    or the initial set before the first one, whatever the order in which the
    history is ranged; so the proposer and the quorum of a height are the same on
    every run. *)
Theorem At_deterministic v epoch rs it it' h :
  Forall (λ r, 0 ≤ r.1) rs →
  let s := rotations v epoch rs in
  ranges it (Schedule.history s) → ranges it' (Schedule.history s) →
  in_force s h (At it s h) ∧ At it s h = At it' s h ∧
  (∀ w, Schedule_Proposer it s h w = Schedule_Proposer it' s h w) ∧
  Schedule_Quorum it s h = Schedule_Quorum it' s h.
Proof.
  intros HF. cbv zeta. intros H1 H2.
  assert (∀ y, is_Some (Schedule.history (rotations v epoch rs) !! y) → 0 ≤ y) as Hpos.
  { intros y Hy. pose proof (rotations_pos _ _ _ HF y Hy). lia. }
  pose proof (At_in_force _ h _ Hpos H1) as F1. pose proof (At_in_force _ h _ Hpos H2) as F2.
  pose proof (in_force_unique _ _ _ _ F1 F2) as E.
  split; [done|]. split; [done|]. unfold Schedule_Proposer, Schedule_Quorum, Power. rewrite E. done.
Qed.

Lemma At_deterministic_witness :
  let s := rotations abc 100 [(10, [Validator.mk "d" 1 ""]); (0, abc); (20, [Validator.mk "e" 2 ""])] in
  in_force s 15 (At [10; 20] s 15) ∧ At [10; 20] s 15 = At [20; 10] s 15 ∧
  (∀ w, Schedule_Proposer [10; 20] s 15 w = Schedule_Proposer [20; 10] s 15 w) ∧
  Schedule_Quorum [10; 20] s 15 = Schedule_Quorum [20; 10] s 15.
Proof.
  intros s. apply (At_deterministic abc 100
    [(10, [Validator.mk "d" 1 ""]); (0, abc); (20, [Validator.mk "e" 2 ""])] [10; 20] [20; 10] 15).
  - by repeat constructor.
  - apply (bool_decide_unpack _). by vm_compute.
  - apply (bool_decide_unpack _). by vm_compute.
Defined.

(** A round that goes from [Commit] to its next view keeps the votes and proposals
    of the old view: every validator that voted is refused in the new one. *)
Theorem Advance_keeps_votes r v :
  RoundState.RPhase r = Commit → is_Some (RoundState.Votes r !! Vote.Validator v) →
  let '(r', p) := Advance r in
  p = Proposal ∧ RoundState.View r' = u64 (RoundState.View r + 1) ∧
  AddVote r' v = (r', if decide (Vote.Height v = RoundState.Height r' ∧ Vote.View v = RoundState.View r')
                      then errors_New "vote duplicate" else errors_New "vote round mismatch").
Proof.
  intros Hp [w Hw]. unfold Advance. rewrite Hp. simpl. split; [done|]. split; [done|].
  unfold AddVote. simpl. rewrite Hw. repeat case_decide; try done; exfalso; tauto.
Qed.

Lemma Advance_keeps_votes_witness :
  let r0 := NewRound 3 0 "a" 5 5 in
  let r1 := (AddVote r0 (ballot "a" 3)).1 in
  let r := (Advance (Advance (Advance r1).1).1).1 in
  let v := Vote.mk "a" 3 1 "prevote" "s" in
  let '(r', p) := Advance r in
  p = Proposal ∧ RoundState.View r' = u64 (RoundState.View r + 1) ∧
  AddVote r' v = (r', if decide (Vote.Height v = RoundState.Height r' ∧ Vote.View v = RoundState.View r')
                      then errors_New "vote duplicate" else errors_New "vote round mismatch").
Proof. intros r0 r1 r v. apply (Advance_keeps_votes r v); [done|by eexists]. Defined.
