(* ===== verification/Metrics.v ===== *)
(** * observability/metrics.go: the counters of the node

    Three atomic counters and the time of the start. [Snapshot] reads each counter
    on its own, so between the three readings other goroutines may count. *)
From S2P Require Import Prelude Machine.

(** ** Model *)
Module Metrics.
Record t := mk { Requests : Z; Blocks : Z; Errors : Z; Started : Z }.
(** [m.Requests.Add(1)] and the same of the two others: [atomic.Uint64] wraps. *)
Definition add_request (m : t) : t := mk (u64 (Requests m + 1)) (Blocks m) (Errors m) (Started m).
Definition add_block (m : t) : t := mk (Requests m) (u64 (Blocks m + 1)) (Errors m) (Started m).
Definition add_error (m : t) : t := mk (Requests m) (Blocks m) (u64 (Errors m + 1)) (Started m).
End Metrics.
(** [func New() *Metrics] *)
Definition New (now : Z) : Metrics.t := Metrics.mk 0 0 0 now.
(** What [Snapshot] puts in its map: a [uint64], or the [Seconds()] of a duration, of
    which the model keeps the exact nanoseconds. *)
Inductive value := Uint64 (n : Z) | Seconds (d : Z).
#[export] Instance value_eq_dec : EqDecision value.
Proof. solve_decision. Defined.
(** [func (m *Metrics) Snapshot() map[string]interface{}]: the three loads and the
    clock in turn, each at the metrics of its moment. *)
Definition Snapshot_at (m m' m'' : Metrics.t) (now : Z) : gmap string value :=
  {[ "requests" := Uint64 (Metrics.Requests m); "blocks" := Uint64 (Metrics.Blocks m');
     "errors" := Uint64 (Metrics.Errors m'');
     "uptime_seconds" := Seconds (Time.Since (Metrics.Started m) now) ]}.
(** When nobody counts in between. *)
Definition Snapshot (m : Metrics.t) (now : Z) : gmap string value := Snapshot_at m m m now.

(** ** Counting by other goroutines *)
Inductive counts : Metrics.t → Metrics.t → Prop :=
  | count_request m : counts m (Metrics.add_request m)
  | count_block m : counts m (Metrics.add_block m)
  | count_error m : counts m (Metrics.add_error m).
(** No counter is at its last value. *)
Definition below (m : Metrics.t) (k : Z) : Prop :=
  0 ≤ Metrics.Requests m ∧ 0 ≤ Metrics.Blocks m ∧ 0 ≤ Metrics.Errors m ∧
  Metrics.Requests m + k ≤ MaxUint64 ∧ Metrics.Blocks m + k ≤ MaxUint64 ∧
  Metrics.Errors m + k ≤ MaxUint64.
#[export] Instance below_dec m k : Decision (below m k).
Proof. unfold below. apply _. Defined.
Definition le (m m' : Metrics.t) : Prop :=
  Metrics.Requests m ≤ Metrics.Requests m' ∧ Metrics.Blocks m ≤ Metrics.Blocks m' ∧
  Metrics.Errors m ≤ Metrics.Errors m' ∧ Metrics.Started m = Metrics.Started m'.
Definition total (m : Metrics.t) : Z := Metrics.Requests m + Metrics.Blocks m + Metrics.Errors m.

Lemma counts_le m m' k :
  counts m m' → below m (Z.succ k) → 0 ≤ k → le m m' ∧ below m' k ∧ total m' = total m + 1.
Proof.
  intros Hc Hb Hk. destruct m as [r b e s]. unfold below, le, total in *. simpl in *.
  inversion Hc; subst; simpl; rewrite u64_small by mlia; lia.
Qed.
Lemma nsteps_counts_le n k m m' :
  nsteps counts n m m' → below m (Z.of_nat (n + k)) →
  le m m' ∧ below m' (Z.of_nat k) ∧ total m' = total m + Z.of_nat n.
Proof.
  intros Hs. revert k. induction Hs as [m|n m m1 m' Hc _ IH]; intros k Hb; [unfold le; split_and!; (done || lia)|].
  destruct (counts_le _ _ (Z.of_nat (n + k)) Hc) as (Hl & Hb1 & Ht);
    [by rewrite <- Nat2Z.inj_succ|lia|].
  destruct (IH k Hb1) as (Hl' & Hb' & Ht'). split_and!; [unfold le in *; lia|done|lia].
Qed.

(** ** Properties *)

(** Counting is exact under any interleaving: after [n] atomic additions by any
    goroutines, below the width, every counter is at least what it was and together
    they have grown by exactly [n]; and a snapshot whose three loads are spread
    over such additions reports each counter between its values at the start
    and at the end. *)
Theorem Snapshot_between n1 n2 n3 m0 m1 m2 m3 now :
  nsteps counts n1 m0 m1 → nsteps counts n2 m1 m2 → nsteps counts n3 m2 m3 →
  below m0 (Z.of_nat (n1 + n2 + n3)) →
  total m3 = total m0 + Z.of_nat (n1 + n2 + n3) ∧
  ∃ r b e,
    Snapshot_at m1 m2 m3 now !! "requests" = Some (Uint64 r) ∧
    Snapshot_at m1 m2 m3 now !! "blocks" = Some (Uint64 b) ∧
    Snapshot_at m1 m2 m3 now !! "errors" = Some (Uint64 e) ∧
    Metrics.Requests m0 ≤ r ≤ Metrics.Requests m3 ∧ Metrics.Blocks m0 ≤ b ≤ Metrics.Blocks m3 ∧
    Metrics.Errors m0 ≤ e ≤ Metrics.Errors m3.
Proof.
  intros H1 H2 H3 Hb.
  rewrite <- Nat.add_assoc in Hb.
  destruct (nsteps_counts_le _ _ _ _ H1 Hb) as (L1 & B1 & T1).
  destruct (nsteps_counts_le _ _ _ _ H2 B1) as (L2 & B2 & T2). rewrite <- (Nat.add_0_r n3) in B2.
  destruct (nsteps_counts_le _ _ _ _ H3 B2) as (L3 & _ & T3). split; [lia|].
  exists (Metrics.Requests m1), (Metrics.Blocks m2), (Metrics.Errors m3).
  unfold le in *. split_and!; done || lia.
Qed.

Lemma Snapshot_between_witness :
  let m1 := Metrics.add_request (New 0) in let m2 := Metrics.add_block m1 in
  let m3 := Metrics.add_request m2 in
  total m3 = total (New 0) + Z.of_nat (1 + 1 + 1) ∧
  ∃ r b e,
    Snapshot_at m1 m2 m3 7 !! "requests" = Some (Uint64 r) ∧
    Snapshot_at m1 m2 m3 7 !! "blocks" = Some (Uint64 b) ∧
    Snapshot_at m1 m2 m3 7 !! "errors" = Some (Uint64 e) ∧
    Metrics.Requests (New 0) ≤ r ≤ Metrics.Requests m3 ∧
    Metrics.Blocks (New 0) ≤ b ≤ Metrics.Blocks m3 ∧
    Metrics.Errors (New 0) ≤ e ≤ Metrics.Errors m3.
Proof.
  intros m1 m2 m3. apply (Snapshot_between 1 1 1 (New 0) m1 m2 m3 7).
  - apply nsteps_once, count_request.
  - apply nsteps_once, count_block.
  - apply nsteps_once, count_request.
  - apply (bool_decide_unpack _). by vm_compute.
Defined.
