(* ===== verification/Node.v ===== *)
(** * app/node.go: the node as a concurrent system

    The handlers of the API run concurrently. [opMu] serialises mining and
    snapshots; everything else interleaves with them at the granularity of the
    mutexes of the components. [step] is that system: a configuration is the
    node and the place of the handler that holds [opMu]. The block producer is
    stated over the interface [ChainStore]. *)
From S2P Require Import Prelude Machine GoString GoSort GoMap Sha256 ChainDomain StateMachine.
From S2P Require Import Mempool Repository AuditChain P2P Consensus Metrics.

(** ** Model: the node *)
Module Config.
Record t := mk { Network_ : Network.t; Addr : string }.
End Config.
(** [func DefaultConfig() Config] *)
Definition DefaultConfig : Config.t :=
  Config.mk (Network.mk "local" "Verifiable Chain" "vchain-1" 1
    [Validator.mk "validator-1" 1 ""; Validator.mk "validator-2" 1 "";
     Validator.mk "validator-3" 1 ""]) ":8080".

Module Node.
Record t := mk { cfg : Config.t; pool : Pool.t; state : State.t; repo : Repo.t;
                 peers : Manager; bft : Engine.t; audit : Log.t;
                 metrics : Metrics.t; checkpoints : list Block.t }.
Definition with_pool n p := mk (cfg n) p (state n) (repo n) (peers n) (bft n) (audit n)
  (metrics n) (checkpoints n).
Definition with_state n s := mk (cfg n) (pool n) s (repo n) (peers n) (bft n) (audit n)
  (metrics n) (checkpoints n).
Definition with_repo n r := mk (cfg n) (pool n) (state n) r (peers n) (bft n) (audit n)
  (metrics n) (checkpoints n).
Definition with_peers n p := mk (cfg n) (pool n) (state n) (repo n) p (bft n) (audit n)
  (metrics n) (checkpoints n).
(** [n.audit.Append(action, detail)] *)
Definition log `{Hasher} n action detail (now now' : Z) := mk (cfg n) (pool n) (state n) (repo n) (peers n) (bft n)
  (Log.Append (audit n) action detail now now').1 (metrics n) (checkpoints n).
Definition with_metrics n m := mk (cfg n) (pool n) (state n) (repo n) (peers n) (bft n) (audit n)
  m (checkpoints n).
(** [n.metrics.Requests.Add(1)] and the two other counters. *)
Definition count_request n := with_metrics n (Metrics.add_request (metrics n)).
Definition count_block n := with_metrics n (Metrics.add_block (metrics n)).
Definition count_error n := with_metrics n (Metrics.add_error (metrics n)).
End Node.

(** [func NewNode(c Config) *Node]; [now k] is its [k]-th clock reading *)
Definition NewNode (c : Config.t) (now : nat → Z) : Node.t :=
  Node.mk c (Mempool.New 1000) StateMachine.New Repository.New
    (P2P.Add P2P.New (Peer.mk "validator-1" "127.0.0.1:9001" 100 0 false) (now 1%nat))
    (Consensus.New (Network.Validators (Config.Network_ c))) Log.New (Metrics.New (now 0%nat)) [].

(** ** Model: mining *)

(** The block [mine] makes on the tip [prev] for the state root [root]. *)
Definition new_block `{Hasher} (prev : Block.t) (root : string) (txs : list Tx.t) (now : Z) : Block.t :=
  let hd := Header.mk (u64 (Block.Height prev + 1)) 0 (Block.Hash prev) root (MerkleRoot txs)
              "validator-1" (Time.Unix now) 1 in
  let b := Block.mk hd txs [] "" in
  Block.mk hd txs [] (Block.ComputeHash b).
(** The part of [mine] between the reading of the pool and the removal: the state
    it leaves and the outcome of [PutBlock], over any block store. *)
Definition produce `{Hasher} {Store : Type} `{!ChainStore Store} (it : list Z) (now : Z)
  (st : State.t) (s : Store) (txs : list Tx.t) : State.t * Store * Block.t * error :=
  let prev := cs_latest it s in
  let st := apply_all st txs in
  let b := new_block prev (Root st) txs now in
  let '(s, e) := cs_put s b in
  (st, s, b, e).

(** ** The concurrent system *)

(** Where the handler that holds [opMu] is. *)
Inductive place :=
  | Idle                                              (* opMu is free *)
  | Listed (txs : list Tx.t)                          (* mine: after pool.List *)
  | Applying (txs : list Tx.t) (prev : Block.t) (todo : list Tx.t) (* after repo.Latest *)
  | Committed (txs : list Tx.t) (b : Block.t)         (* after repo.PutBlock *)
  | Removed (b : Block.t).                            (* after pool.Remove *)
Abbreviation config := (Node.t * place)%type.

(** [snapH] while it holds [opMu]: all it reads and writes is guarded by [opMu].
    [now k] is its [k]-th clock reading. *)
Definition take_snapshot `{Hasher} (it : list Z) (now : nat → Z) (n : Node.t) : Node.t * Snapshot.t :=
  let id := "snap-" +:+ fmt_d (Time.UnixNano (now 0%nat)) in
  let s := Snapshot.mk id (Block.Height (Latest it (Node.repo n))) (Root (Node.state n))
             (Data (Node.state n)) (now 1%nat) false in
  let n := Node.with_repo n (PutSnapshot (Node.repo n) s) in
  let n := Node.with_state n (StateMachine.Snapshot (Node.state n) (Snapshot.Height s)).1 in
  (Node.log n "snapshot.create" id (now 2%nat) (now 3%nat), s).
(** [snapVerify] on a snapshot that is there. *)
Definition set_verified (s : Snapshot.t) (v : bool) : Snapshot.t :=
  Snapshot.mk (Snapshot.ID s) (Snapshot.Height s) (Snapshot.Root s) (Snapshot.Data s)
    (Snapshot.CreatedAt s) v.
Definition verify_snapshot `{Hasher} (n : Node.t) (s : Snapshot.t) : Node.t * bool :=
  let v := bool_decide (Snapshot.Root s = Root (Node.state n)) in
  (Node.with_repo n (PutSnapshot (Node.repo n) (set_verified s v)), v).

(** The atomic steps: those of [mine], those of the two snapshot handlers, and those
    of the handlers that do not take [opMu]. The root, the clock and [PutBlock] of
    [mine] are one step, as are the calls of a snapshot handler: only the holder
    of [opMu] changes the state, the blocks or the snapshots. Handlers that only
    read are no step. *)
Inductive step `{Hasher} : config → config → Prop :=
  | mine_list n it clock :
      ranges it (Pool.tx (Node.pool n)) →
      step (n, Idle) (n, Listed (Mempool.List it clock (Node.pool n)))
  | mine_latest n txs it :
      ranges it (Repo.blocks (Node.repo n)) →
      step (n, Listed txs) (n, Applying txs (Latest it (Node.repo n)) txs)
  | mine_apply n txs prev t todo :
      step (n, Applying txs prev (t :: todo))
           (Node.with_state n (Apply (Node.state n) t).1, Applying txs prev todo)
  | mine_put n txs prev now r b :
      b = new_block prev (Root (Node.state n)) txs now →
      PutBlock (Node.repo n) b = (r, nilerr) →
      step (n, Applying txs prev []) (Node.with_repo n r, Committed txs b)
  | mine_refused n txs prev now e :
      (PutBlock (Node.repo n) (new_block prev (Root (Node.state n)) txs now)).2 = Some e →
      step (n, Applying txs prev []) (n, Idle)
  | mine_remove n txs b :
      step (n, Committed txs b)
           (Node.with_pool n (Mempool.Remove (Node.pool n) (Tx.ID <$> txs)), Removed b)
  | mine_done n b now now' :
      step (n, Removed b)
           (Node.log (Node.count_block n) "block.commit" (fmt_d (Block.Height b)) now now', Idle)
  | snapshot_make n it now :
      ranges it (Repo.blocks (Node.repo n)) →
      step (n, Idle) ((take_snapshot it now n).1, Idle)
  | snapshot_verify n id s :
      Repo.snaps (Node.repo n) !! id = Some s →
      step (n, Idle) ((verify_snapshot n s).1, Idle)
  | tx_add n p t :
      step (n, p) (Node.with_pool n (Mempool.Add (Node.pool n) t).1, p)
  | tx_error n p : step (n, p) (Node.count_error n, p)
  | audit_append n p action detail now now' :
      step (n, p) (Node.log n action detail now now', p)
  | peer_add n p q now : step (n, p) (Node.with_peers n (P2P.Add (Node.peers n) q now), p)
  | request n p : step (n, p) (Node.count_request n, p).

#[export] Hint Constructors step : vchain.

(** ** Specification *)

(** What applying a transaction does to the entries of the state. *)
Definition write_tx (d : gmap string string) (t : Tx.t) : gmap string string :=
  if decide (Tx.Gas t = 0 ∨ Tx.Key t = "") then d else <[Tx.Key t := Tx.Value t]> d.
(** The entries after the blocks [1, ..., n], from the blocks alone: what a light
    client or a new node would compute. *)
Fixpoint replay (m : gmap Z Block.t) (n : nat) : gmap string string :=
  match n with
  | O => ∅
  | S k => fold_left write_tx
             (match m !! Z.of_nat n with Some b => Block.Transactions b | None => [] end) (replay m k)
  end.
Abbreviation blocks_of n := (Repo.blocks (Node.repo n)).
Abbreviation tip_of n := (size (Repo.blocks (Node.repo n))).

(** The state root of every block is that of the replay up to it. *)
Definition roots_ok `{Hasher} (m : gmap Z Block.t) : Prop :=
  ∀ h b, m !! h = Some b → Header.StateRoot (Block.header b) = root (replay m (Z.to_nat h)).
(** Every snapshot holds the entries of its height, and their root. *)
Definition snaps_ok `{Hasher} (n : Node.t) : Prop :=
  ∀ id s, Repo.snaps (Node.repo n) !! id = Some s →
    Snapshot.ID s = id ∧ Snapshot.Root s = root (Snapshot.Data s) ∧
    0 ≤ Snapshot.Height s ≤ Z.of_nat (tip_of n) ∧
    Snapshot.Data s = replay (blocks_of n) (Z.to_nat (Snapshot.Height s)).
(** The state against the replay, by the place of the miner. *)
Definition state_ok (n : Node.t) (p : place) : Prop :=
  let now := State.data (Node.state n) in
  let tip := replay (blocks_of n) (tip_of n) in
  match p with
  | Applying txs prev todo =>
      ∃ applied, txs = applied ++ todo ∧ now = fold_left write_tx applied tip ∧
                 prev = default Block.zero (blocks_of n !! Z.of_nat (tip_of n))
  | _ => now = tip
  end.
Record node_ok `{Hasher} (n : Node.t) (p : place) : Prop := {
  ok_pool : consistent (Node.pool n) ∧ bounded (Node.pool n);
  ok_repo : keyed (Node.repo n) ∧ VerifyChain (Node.repo n) = nilerr;
  ok_state : state_ok n p;
  ok_roots : roots_ok (blocks_of n);
  ok_snaps : snaps_ok n }.

(** ** Lemmas: replay *)
Lemma Apply_data s t : State.data (Apply s t).1 = write_tx (State.data s) t.
Proof. unfold Apply, write_tx. repeat case_decide; try done; tauto. Qed.
Lemma apply_all_data s txs : State.data (apply_all s txs) = fold_left write_tx txs (State.data s).
Proof.
  unfold apply_all. revert s. induction txs as [|t txs IH]; intros s; [done|].
  simpl. by rewrite IH, Apply_data.
Qed.

(** Blocks above the height do not matter to a replay. *)
Lemma replay_ext m m' n :
  (∀ h, 1 ≤ h ≤ Z.of_nat n → m !! h = m' !! h) → replay m n = replay m' n.
Proof.
  induction n as [|n IH]; intros Hm; cbn [replay]; [done|].
  rewrite Hm, IH by lia || (intros; apply Hm; lia). done.
Qed.
Lemma replay_insert m b n :
  Block.Height b = Z.of_nat n + 1 →
  replay (<[Block.Height b := b]> m) (S n) = fold_left write_tx (Block.Transactions b) (replay m n).
Proof.
  intros Hh. cbn [replay]. replace (Z.of_nat (S n)) with (Block.Height b) by lia.
  rewrite lookup_insert_eq. f_equal. apply replay_ext. intros h Hh'. rewrite lookup_insert_ne; [done|lia].
Qed.

(** ** Lemmas: the produced block *)
Section produce.
Context `{HH : Hasher}.

Lemma new_block_valid prev root txs now (m : gmap Z Block.t) n :
  Block.Height prev = Z.of_nat n → Z.of_nat n < MaxUint64 →
  m !! Z.of_nat n = (if decide (n = 0%nat) then None else Some prev) →
  let b := new_block prev root txs now in
  Block.Height b = Z.of_nat n + 1 ∧ is_u64 (Block.Height b) ∧
  ValidateBlock b (m !! (Block.Height b - 1)) = nilerr ∧ Block.Transactions b = txs ∧
  Header.StateRoot (Block.header b) = root ∧ Block.Hash b = Block.ComputeHash b.
Proof.
  intros Hp Hn Hm b.
  assert (Block.Height b = Z.of_nat n + 1) as Hb.
  { unfold b, new_block, Block.Height at 1. simpl. rewrite Hp. apply u64_small. mlia. }
  split; [done|]. split; [mlia|]. split; [|done].
  rewrite Hb. replace (Z.of_nat n + 1 - 1) with (Z.of_nat n) by lia. rewrite Hm.
  unfold ValidateBlock. rewrite (decide_False (P := Block.Height b = 0)) by lia. cbv zeta.
  assert (Header.TxRoot (Block.header b) = MerkleRoot (Block.Transactions b)) as Ht by done.
  assert (Block.Hash b ≠ "") as Hh by apply digest_nonempty.
  assert (Header.PrevHash (Block.header b) = Block.Hash prev) as Hv by done.
  case_decide; rewrite ?Hp; rewrite !decide_False by (try mlia; tauto); done.
Qed.

Context {Store : Type} `{!ChainStore Store}.

(** The tip of the store, or the zero block. *)
Definition tip (s : Store) : Block.t := default Block.zero (cs_blocks s !! Z.of_nat (size (cs_blocks s))).

Lemma tip_lookup s :
  cs_good s → Block.Height (tip s) = Z.of_nat (size (cs_blocks s)) ∧
  cs_blocks s !! Z.of_nat (size (cs_blocks s)) =
    if decide (size (cs_blocks s) = 0%nat) then None else Some (tip s).
Proof.
  intros Hs. unfold tip. pose proof (cs_chain s Hs) as Hm. case_decide as Hz.
  - rewrite (chain_below (cs_blocks s)) by (done || lia). rewrite Hz. done.
  - destruct (chain_dom _ Hm (Z.of_nat (size (cs_blocks s)))) as [_ [b Hb]]; [lia|].
    rewrite Hb. simpl. split; [|done]. by apply (cs_keyed s).
Qed.

(** A new block on the tip is accepted, below the last height. *)
Lemma put_new_block s root txs now :
  cs_good s → Z.of_nat (size (cs_blocks s)) < MaxUint64 →
  let b := new_block (tip s) root txs now in
  Block.Height b = Z.of_nat (size (cs_blocks s)) + 1 ∧
  ValidateBlock b (cs_blocks s !! (Block.Height b - 1)) = nilerr ∧
  ∃ s', cs_put s b = (s', nilerr) ∧ cs_good s' ∧
        cs_blocks s' = <[Block.Height b := b]> (cs_blocks s).
Proof.
  intros Hs Hn. cbv zeta. destruct (tip_lookup s Hs) as [Ht Hl].
  destruct (new_block_valid (tip s) root txs now _ _ Ht Hn Hl) as (Hh & Hu & Hv & _).
  split; [done|]. split; [done|]. by apply cs_put_next.
Qed.

(** Mining on a good store succeeds, below the last height. *)
Lemma produce_spec it now st (s : Store) txs :
  cs_good s → cs_orders it s → Z.of_nat (size (cs_blocks s)) < MaxUint64 →
  let st' := apply_all st txs in
  let b := new_block (tip s) (Root st') txs now in
  ∃ s', produce it now st s txs = (st', s', b, nilerr) ∧ cs_good s' ∧
    cs_blocks s' = <[Block.Height b := b]> (cs_blocks s) ∧
    Block.Height b = Z.of_nat (size (cs_blocks s)) + 1 ∧
    ValidateBlock b (cs_blocks s !! (Block.Height b - 1)) = nilerr.
Proof.
  intros Hs Hit Hn st' b. destruct (put_new_block s (Root st') txs now Hs Hn) as (Hh & Hv & s' & Hp & Hg & Hb).
  exists s'. split; [|done]. unfold produce. rewrite (cs_latest_tip s it Hs Hit). fold (tip s).
  fold st'. cbv zeta. fold b. fold b in Hp. by rewrite Hp.
Qed.
End produce.

(** ** Lemmas: the invariant is kept by every step *)
Section steps.
Context `{HH : Hasher}.

Lemma NewNode_ok c now : node_ok (NewNode c now) Idle.
Proof.
  split; simpl.
  - split; [apply New_consistent|]. unfold bounded. cbn -[Z.max]. rewrite map_size_empty. lia.
  - split; [apply New_keyed|done].
  - by rewrite map_size_empty.
  - intros h b. by rewrite lookup_empty.
  - intros id s. simpl. by rewrite lookup_empty.
Qed.

(** A step that leaves the state, the blocks and the snapshots alone. *)
Lemma node_ok_frame n n' p p' :
  Node.state n' = Node.state n → Node.repo n' = Node.repo n →
  consistent (Node.pool n') ∧ bounded (Node.pool n') →
  (state_ok n p → state_ok n p') → node_ok n p → node_ok n' p'.
Proof.
  intros Es Er Hp Hst [_ H2 H3 H4 H5]. split; [done|by rewrite Er| |by rewrite Er|].
  - specialize (Hst H3). unfold state_ok in *. rewrite Es, Er. destruct p'; done.
  - unfold snaps_ok in *. by rewrite Er.
Qed.

(** The blocks below a new tip. *)
Lemma roots_insert m b n :
  Block.Height b = Z.of_nat n + 1 → n = size m →
  (∀ h, is_Some (m !! h) → 1 ≤ h ≤ Z.of_nat n) →
  Header.StateRoot (Block.header b) = root (fold_left write_tx (Block.Transactions b) (replay m n)) →
  roots_ok m → roots_ok (<[Block.Height b := b]> m).
Proof.
  intros Hh Hn Hd Hr Hm h c. rewrite lookup_insert. case_decide as E.
  - intros [= <-]. rewrite <- E, Hh. replace (Z.to_nat (Z.of_nat n + 1)) with (S n) by lia.
    rewrite <- Hh. by rewrite replay_insert.
  - intros Hc. rewrite (Hm _ _ Hc). f_equal. specialize (Hd h ltac:(by eexists)).
    apply replay_ext. intros k Hk. rewrite lookup_insert_ne; [done|lia].
Qed.

Lemma commit_ok n txs prev now r :
  node_ok n (Applying txs prev []) → Z.of_nat (size (Repo.blocks r)) ≤ MaxUint64 →
  let b := new_block prev (Root (Node.state n)) txs now in
  PutBlock (Node.repo n) b = (r, nilerr) →
  node_ok (Node.with_repo n r) (Committed txs b).
Proof.
  intros [H1 H2 H3 H4 H5] Hsz b Hput. destruct (PutBlock_ok _ _ _ Hput) as (Hnew & Hb & Esn).
  destruct H3 as (applied & Etxs & Hst & Hprev). rewrite app_nil_r in Etxs. subst applied.
  assert (prev = tip (Node.repo n)) as Ep by done.
  assert (cs_good (Node.repo n)) as Hgood by exact H2.
  pose proof (cs_chain (Node.repo n) H2) as Hm. simpl in Hm.
  assert (Hlt : Z.of_nat (tip_of n) < MaxUint64).
  { rewrite Hb, map_size_insert_None in Hsz by done. lia. }
  destruct (put_new_block (Store := Repo.t) (Node.repo n) (Root (Node.state n)) txs now Hgood Hlt) as (Hh & Hv & r' & Hp & Hg & _).
  rewrite <- Ep in Hp, Hh. fold b in Hp, Hh. simpl in Hp, Hg, Hh.
  rewrite Hput in Hp. injection Hp as <-.
  assert (Etip : size (Repo.blocks r) = S (tip_of n)) by (by rewrite Hb, map_size_insert_None).
  assert (Erep : replay (Repo.blocks r) (S (tip_of n)) = State.data (Node.state n)).
  { rewrite Hb, replay_insert by done. by rewrite Hst. }
  split; simpl; [done|done| | |].
  - by rewrite Etip, Erep.
  - rewrite Hb. apply (roots_insert _ _ (tip_of n)); [done|done| | |done].
    + intros h. by rewrite (chain_dom _ Hm).
    + simpl. unfold Root. by rewrite Hst.
  - intros id s. simpl. intros Hs. rewrite Esn in Hs. destruct (H5 id s Hs) as (S1 & S2 & S3 & S4).
    split; [done|]. split; [done|]. split; [lia|]. rewrite S4, Hb. apply replay_ext.
    intros h Hr. rewrite lookup_insert_ne; [done|lia].
Qed.

Lemma take_snapshot_ok n it now :
  node_ok n Idle → ranges it (blocks_of n) → node_ok (take_snapshot it now n).1 Idle.
Proof.
  intros [H1 H2 H3 H4 H5] Hit. unfold take_snapshot. simpl.
  assert (Block.Height (Latest it (Node.repo n)) = Z.of_nat (tip_of n)) as Eh.
  { pose proof (cs_latest_tip (Node.repo n) it H2 Hit) as E. simpl in E. rewrite E.
    exact (proj1 (tip_lookup (Store := Repo.t) (Node.repo n) H2)). }
  split; simpl; [done| |done|done|].
  - destruct H2 as [Hk Hv]. split; [exact Hk|].
    apply VerifyChain_chain. simpl. by apply VerifyChain_chain.
  - intros id s. simpl. rewrite lookup_insert. case_decide; [|apply H5].
    intros [= <-]. simpl. split; [done|]. split; [done|]. split; [lia|].
    rewrite Eh, Nat2Z.id. exact H3.
Qed.

Lemma verify_snapshot_ok n id s :
  node_ok n Idle → Repo.snaps (Node.repo n) !! id = Some s → node_ok (verify_snapshot n s).1 Idle.
Proof.
  intros [H1 H2 H3 H4 H5] Hs. unfold verify_snapshot. simpl.
  split; simpl; [done| |done|done|].
  - destruct H2 as [Hk Hv]. split; [exact Hk|].
    apply VerifyChain_chain. simpl. by apply VerifyChain_chain.
  - intros i x. simpl. destruct (H5 id s Hs) as (E & HH').
    rewrite lookup_insert, E. case_decide; [|apply H5]. intros [= <-]. subst i. by split.
Qed.

(** [PutBlock] never refuses the miner: its height is always free. *)
Lemma put_never_refused n txs prev now e :
  node_ok n (Applying txs prev []) → Z.of_nat (tip_of n) ≤ MaxUint64 →
  (PutBlock (Node.repo n) (new_block prev (Root (Node.state n)) txs now)).2 ≠ Some e.
Proof.
  intros [_ H2 (_ & _ & _ & Hp) _ _] Hsz. assert (cs_good (Node.repo n)) as Hg by exact H2.
  pose proof (cs_chain _ Hg) as Hm. simpl in Hm.
  pose proof (proj1 (tip_lookup _ Hg)) as Ht. unfold tip in Ht. simpl in Ht. rewrite <- Hp in Ht.
  set (b := new_block _ _ _ _). unfold PutBlock.
  assert (blocks_of n !! Block.Height b = None) as ->; [|done].
  apply eq_None_not_Some. rewrite (chain_dom _ Hm). change (Block.Height b) with (u64 (Block.Height prev + 1)).
  rewrite Ht. mlia.
Qed.

Lemma Remove_ok p ids : consistent p ∧ bounded p → consistent (Remove p ids) ∧ bounded (Remove p ids).
Proof.
  intros [Hc Hb]. destruct (run_op_invariant p (OpRemove ids) Hc Hb) as (? & ? & _). by split.
Qed.

Lemma step_ok n p n' p' :
  node_ok n p → step (n, p) (n', p') → Z.of_nat (tip_of n') ≤ MaxUint64 → node_ok n' p'.
Proof.
  intros Hn Hs Hsz. pose proof (ok_pool _ _ Hn) as [Hc Hb].
  inversion Hs; subst; try (by apply (node_ok_frame n _ p' p'); try apply Hn).
  - apply (node_ok_frame n' n' Idle _); done.
  - apply (node_ok_frame n' n' (Listed txs) _); try done.
    intros Hst. exists []. split; [done|]. split; [done|].
    pose proof (cs_latest_tip (Node.repo n') it (ok_repo _ _ Hn) H0) as E. exact E.
  - destruct Hn as [H1 H2 (applied & Et & Hst & Hp) H4 H5]. split; try done.
    exists (applied ++ [t]). rewrite <- app_assoc. split; [done|]. split; [|done].
    simpl. by rewrite Apply_data, Hst, fold_left_app.
  - by apply commit_ok.
  - exfalso. by eapply put_never_refused.
  - apply (node_ok_frame n _ (Committed txs b) _); try done. apply Remove_ok; done.
  - by apply (node_ok_frame n _ (Removed b) _).
  - by apply take_snapshot_ok.
  - by eapply verify_snapshot_ok.
  - apply (node_ok_frame n _ p' _); try done. split; [by apply Add_consistent|by apply Add_bounded].
Qed.
End steps.

Lemma produce_repo `{Hasher} it now st (r : Repo.t) txs :
  keyed r → VerifyChain r = nilerr → ranges it (Repo.blocks r) →
  Z.of_nat (size (Repo.blocks r)) < MaxUint64 →
  ∃ r' b, produce it now st r txs = (apply_all st txs, r', b, nilerr) ∧
    keyed r' ∧ VerifyChain r' = nilerr ∧ Repo.blocks r' = <[Block.Height b := b]> (Repo.blocks r) ∧
    Block.Height b = Z.of_nat (size (Repo.blocks r)) + 1 ∧
    ValidateBlock b (Repo.blocks r !! (Block.Height b - 1)) = nilerr ∧
    Block.Transactions b = txs ∧ Header.StateRoot (Block.header b) = Root (apply_all st txs).
Proof.
  intros Hk Hv Hit Hn. assert (cs_good r) as Hg by (split; [exact Hk|exact Hv]).
  destruct (produce_spec it now st r txs Hg Hit Hn) as (r' & Hp & [Hk' Hv'] & Hb & Hh & Hvb).
  eexists r', _. split; [exact Hp|]. split; [exact Hk'|]. split; [exact Hv'|]. split; [exact Hb|].
  split; [exact Hh|]. split; [exact Hvb|]. by split.
Qed.

Lemma PutBlock_size r b : (size (Repo.blocks r) ≤ size (Repo.blocks (PutBlock r b).1))%nat.
Proof.
  unfold PutBlock. destruct (Repo.blocks r !! Block.Height b) eqn:E; simpl; [done|].
  rewrite map_size_insert_None by done. lia.
Qed.
Lemma step_mono `{Hasher} n p n' p' : step (n, p) (n', p') → (tip_of n ≤ tip_of n')%nat.
Proof.
  intros Hs. inversion Hs; subst; try done. simpl.
  match goal with E : PutBlock _ ?b = _ |- _ => pose proof (PutBlock_size (Node.repo n) b) as Hp; by rewrite E in Hp end.
Qed.

Lemma reachable_ok `{Hasher} c now n p :
  rtc step (NewNode c now, Idle) (n, p) → Z.of_nat (tip_of n) ≤ MaxUint64 → node_ok n p.
Proof.
  intros Hr. remember (n, p) as y eqn:Ey. revert n p Ey.
  refine (rtc_ind_r (λ y, ∀ n p, y = (n, p) → Z.of_nat (tip_of n) ≤ MaxUint64 → node_ok n p)
            _ _ _ _ Hr).
  - intros n p [= <- <-] _. apply NewNode_ok.
  - intros [n1 p1] ? _ Hst IH n p -> Hsz. apply (step_ok n1 p1); [|done..].
    apply IH; [done|]. pose proof (step_mono _ _ _ _ Hst). lia.
Qed.

(** ** Properties *)

(** C1: in every state the node can reach, with any number of concurrent handlers
    interleaved in any way: the chain verifies; every block's state root is the
    root of the replay of the blocks up to it; whenever [opMu] is free the state is
    the replay of the whole chain; every stored snapshot holds the entries of the
    replay at its height; and the pool is consistent and bounded. *)
Theorem Node_invariant c now n p :
  rtc step (NewNode c now, Idle) (n, p) → Z.of_nat (tip_of n) ≤ MaxUint64 →
  VerifyChain (Node.repo n) = nilerr ∧
  (∀ h b, blocks_of n !! h = Some b →
     Header.StateRoot (Block.header b) = root (replay (blocks_of n) (Z.to_nat h))) ∧
  (p = Idle → Data (Node.state n) = replay (blocks_of n) (tip_of n)) ∧
  (∀ id s, Repo.snaps (Node.repo n) !! id = Some s →
     Snapshot.Data s = replay (blocks_of n) (Z.to_nat (Snapshot.Height s)) ∧
     Snapshot.Root s = root (Snapshot.Data s)) ∧
  consistent (Node.pool n) ∧ bounded (Node.pool n).
Proof.
  intros Hr Hsz. destruct (reachable_ok c now n p Hr Hsz) as [H1 [Hk Hv] H3 H4 H5].
  split; [exact Hv|]. split; [exact H4|]. split; [intros ->; exact H3|]. split; [|exact H1].
  intros id s Hs. destruct (H5 id s Hs) as (_ & ? & _ & ?). by split.
Qed.

(** The store keeps the miner's promise: on a good store below the last height,
    mining is never refused, the block it makes extends the tip and validates, its
    state root is that of the state it leaves, and the store is good again. *)
Theorem produce_extends it now st (r : Repo.t) txs :
  keyed r → VerifyChain r = nilerr → ranges it (Repo.blocks r) →
  Z.of_nat (size (Repo.blocks r)) < MaxUint64 →
  ∃ r' b, produce it now st r txs = (apply_all st txs, r', b, nilerr) ∧
    keyed r' ∧ VerifyChain r' = nilerr ∧ Repo.blocks r' = <[Block.Height b := b]> (Repo.blocks r) ∧
    Block.Height b = Z.of_nat (size (Repo.blocks r)) + 1 ∧
    ValidateBlock b (Repo.blocks r !! (Block.Height b - 1)) = nilerr ∧
    Block.Transactions b = txs ∧ Header.StateRoot (Block.header b) = Root (apply_all st txs).
Proof. exact (produce_repo it now st r txs). Qed.

(** ** Witnesses: the node mines one transaction *)
Definition node0 : Node.t := NewNode DefaultConfig (λ _, 0).
Definition tx1 : Tx.t := Tx.mk "t1" "alice" "bob" 1 7 21000 "colour" "blue" 0 50 "".
Definition node1 : Node.t := Node.with_pool node0 (Mempool.Add (Node.pool node0) tx1).1.
Definition node2 : Node.t := Node.with_state node1 (Apply (Node.state node1) tx1).1.
Definition clock : Z := Time.of_Unix 1700000000.
Definition minted : Block.t := new_block Block.zero (Root (Node.state node2)) [tx1] clock.
Definition node3 : Node.t := Node.with_repo node2 (PutBlock (Node.repo node2) minted).1.

Lemma node3_reachable : rtc step (node0, Idle) (node3, Committed [tx1] minted).
Proof.
  eapply rtc_l; [exact (tx_add node0 Idle tx1)|].
  eapply rtc_l; [apply (mine_list node1 ["t1"] (λ _, 1700000000)); apply (bool_decide_unpack _); by vm_compute|].
  eapply rtc_l; [apply (mine_latest node1 _ []); apply (bool_decide_unpack _); by vm_compute|].
  eapply rtc_l; [exact (mine_apply node1 [tx1] Block.zero tx1 [])|].
  apply rtc_once. exact (mine_put node2 [tx1] Block.zero clock _ minted eq_refl eq_refl).
Qed.

Lemma Node_invariant_witness :
  VerifyChain (Node.repo node3) = nilerr ∧
  (∀ h b, blocks_of node3 !! h = Some b →
     Header.StateRoot (Block.header b) = root (replay (blocks_of node3) (Z.to_nat h))) ∧
  (Committed [tx1] minted = Idle → Data (Node.state node3) = replay (blocks_of node3) (tip_of node3)) ∧
  (∀ id s, Repo.snaps (Node.repo node3) !! id = Some s →
     Snapshot.Data s = replay (blocks_of node3) (Z.to_nat (Snapshot.Height s)) ∧
     Snapshot.Root s = root (Snapshot.Data s)) ∧
  consistent (Node.pool node3) ∧ bounded (Node.pool node3).
Proof.
  apply (Node_invariant DefaultConfig (λ _, 0) node3 (Committed [tx1] minted) node3_reachable). by vm_compute.
Defined.

Lemma produce_extends_witness :
  let st := Node.state node1 in
  ∃ r' b, produce [1] clock st repo1 [tx1] = (apply_all st [tx1], r', b, nilerr) ∧
    keyed r' ∧ VerifyChain r' = nilerr ∧ Repo.blocks r' = <[Block.Height b := b]> (Repo.blocks repo1) ∧
    Block.Height b = Z.of_nat (size (Repo.blocks repo1)) + 1 ∧
    ValidateBlock b (Repo.blocks repo1 !! (Block.Height b - 1)) = nilerr ∧
    Block.Transactions b = [tx1] ∧ Header.StateRoot (Block.header b) = Root (apply_all st [tx1]).
Proof.
  intros st. apply (produce_extends [1] clock st repo1 [tx1] repo1_keyed).
  - by vm_compute.
  - apply (bool_decide_unpack _). by vm_compute.
  - by vm_compute.
Defined.

(** Two transactions that arrive while the block with [tx1] is being committed: one
    replaces [tx1] in the pool, the other, of another account, takes its
    identifier. *)
Definition tx_replacing : Tx.t := Tx.mk "t2" "alice" "bob" 1 9 21000 "colour" "red" 0 50 "".
Definition tx_reusing : Tx.t := Tx.mk "t1" "carol" "bob" 1 9 21000 "size" "big" 0 50 "".
Definition node4 : Node.t := Node.with_pool node3 (Mempool.Add (Node.pool node3) tx_replacing).1.
Definition node5 : Node.t := Node.with_pool node4 (Mempool.Add (Node.pool node4) tx_reusing).1.
Definition node6 : Node.t := Node.with_pool node5 (Mempool.Remove (Node.pool node5) ["t1"]).

Lemma node4_reachable : rtc step (node0, Idle) (node4, Committed [tx1] minted).
Proof. eapply rtc_r; [exact node3_reachable|]. exact (tx_add node3 _ tx_replacing). Qed.
Lemma mine_remove_inv `{Hasher} n txs b n' b' :
  step (n, Committed txs b) (n', Removed b') →
  n' = Node.with_pool n (Mempool.Remove (Node.pool n) (Tx.ID <$> txs)).
Proof. by inversion 1. Qed.

(** C34: [mine] removes by identifier. In every state it reaches after the commit (of at
    most 2^64-1 blocks), its removal deletes exactly what the pool then holds under the identifiers it listed
    before, whatever it is; so an accepted transaction can be lost: in a run of the
    node, a fee replacement frees the identifier of the transaction that is being
    committed, another account's transaction is accepted under it and is pending,
    [mine] has neither listed nor mined it, and its removal step deletes it, while
    it is in no block. *)
Theorem accepted_tx_lost :
  (∀ c now n txs b n' b',
     rtc step (NewNode c now, Idle) (n, Committed txs b) → Z.of_nat (tip_of n) ≤ MaxUint64 →
     step (n, Committed txs b) (n', Removed b') →
     ∀ id, Pool.tx (Node.pool n') !! id =
       (if decide (id ∈ Tx.ID <$> txs) then None else Pool.tx (Node.pool n) !! id)) ∧
  ∃ n txs b t n',
    let accepted := Node.with_pool n (Mempool.Add (Node.pool n) t).1 in
    rtc step (NewNode DefaultConfig (λ _, 0), Idle) (n, Committed txs b) ∧
    (Mempool.Add (Node.pool n) t).2 = nilerr ∧ Pool.tx (Node.pool accepted) !! Tx.ID t = Some t ∧ (t ∉ txs) ∧
    step (accepted, Committed txs b) (n', Removed b) ∧
    Pool.tx (Node.pool n') !! Tx.ID t = None ∧
    ∀ h blk, blocks_of n' !! h = Some blk → t ∉ Block.Transactions blk.
Proof.
  split.
  - intros c now n txs b n' b' Hr Hsz ->%mine_remove_inv id.
    destruct (ok_pool _ _ (reachable_ok c now n _ Hr Hsz)) as [Hc _]. by apply Remove_spec.
  - assert (tx_reusing ∉ [tx1]) as Hne by (intros Hin%list_elem_of_singleton; discriminate Hin).
    exists node4, [tx1], minted, tx_reusing, node6.
    split; [exact node4_reachable|]. split; [by vm_compute|]. split; [by vm_compute|].
    split; [exact Hne|]. split; [exact (mine_remove node5 [tx1] minted)|]. split; [by vm_compute|].
    intros h b Hb. change (blocks_of node6) with (<[1 := minted]> (∅ : gmap Z Block.t)) in Hb.
    apply lookup_insert_Some in Hb as [[_ <-]|[_ Hb]]; [exact Hne|by rewrite lookup_empty in Hb].
Qed.
