(* ===== verification/NodeThreads.v ===== *)
(** * app/node.go: the requests that compete for [opMu]

    Any number of requests of the three handlers that take [opMu] ([mine],
    [snapH], [snapVerify]), each a goroutine of its own, beside any number of
    other requests. [opMu] is a lock that one of the waiting goroutines gets. The
    steps of the holder are those of [Node.step]. A run is an infinite sequence of
    configurations; it is fair when no goroutine that can take a step is passed
    over for ever, which is what the Go scheduler and [sync.Mutex] (whose starvation
    mode hands the lock over in order) provide. *)
From S2P Require Import Prelude Machine GoString GoSort GoMap Sha256 ChainDomain StateMachine.
From S2P Require Import Mempool Repository AuditChain P2P Consensus Node.

(** ** Model *)

(** The requests that take [opMu]; [snapVerify] comes with its snapshot identifier. *)
Inductive job := JMine | JSnapshot | JVerify (id : string).
Inductive goroutine :=
  | Waiting (j : job)                 (* before n.opMu.Lock() *)
  | Mining (p : place)                (* in mine, with the lock *)
  | Replied (j : job) (code : Z).     (* returned; the lock is released *)
Module Sys.
Record t := mk { node : Node.t; opMu : bool; gs : list goroutine }.
End Sys.

(** The steps of [mine] after the pool is listed, with the status code when it
    returns. *)
Inductive holder_step `{Hasher} : config → config → option Z → Prop :=
  | h_latest n txs it :
      ranges it (Repo.blocks (Node.repo n)) →
      holder_step (n, Listed txs) (n, Applying txs (Latest it (Node.repo n)) txs) None
  | h_apply n txs prev t todo :
      holder_step (n, Applying txs prev (t :: todo))
        (Node.with_state n (Apply (Node.state n) t).1, Applying txs prev todo) None
  | h_put n txs prev now r b :
      b = new_block prev (Root (Node.state n)) txs now →
      PutBlock (Node.repo n) b = (r, nilerr) →
      holder_step (n, Applying txs prev []) (Node.with_repo n r, Committed txs b) None
  | h_refused n txs prev now e :
      (PutBlock (Node.repo n) (new_block prev (Root (Node.state n)) txs now)).2 = Some e →
      holder_step (n, Applying txs prev []) (n, Idle) (Some 409)
  | h_remove n txs b :
      holder_step (n, Committed txs b)
        (Node.with_pool n (Mempool.Remove (Node.pool n) (Tx.ID <$> txs)), Removed b) None
  | h_done n b now now' :
      holder_step (n, Removed b)
        (Node.log (Node.count_block n) "block.commit" (fmt_d (Block.Height b)) now now', Idle) (Some 201).

(** What [snapVerify] answers, holding the lock from its first line to its last. *)
Definition verify_by_id `{Hasher} (n : Node.t) (id : string) : Node.t * Z :=
  if decide (id = "") then (n, 400) else
  match Repository.Snapshot (Node.repo n) id with
  | (_, false) => (n, 404)
  | (s, true) => ((verify_snapshot n s).1, 200)
  end.

(** The steps of the handlers that do not take the lock. *)
Inductive other `{Hasher} : Node.t → Node.t → Prop :=
  | o_tx_add n t : other n (Node.with_pool n (Mempool.Add (Node.pool n) t).1)
  | o_tx_error n : other n (Node.count_error n)
  | o_audit n action detail now now' : other n (Node.log n action detail now now')
  | o_peer n q now : other n (Node.with_peers n (P2P.Add (Node.peers n) q now))
  | o_request n : other n (Node.count_request n).

(** One step of the system, by a goroutine or by another request. *)
Inductive gstep `{Hasher} : option nat → Sys.t → Sys.t → Prop :=
  | g_lock i n gs it clock :
      gs !! i = Some (Waiting JMine) → ranges it (Pool.tx (Node.pool n)) →
      gstep (Some i) (Sys.mk n false gs)
        (Sys.mk n true (<[i := Mining (Listed (Mempool.List it clock (Node.pool n)))]> gs))
  | g_run i n gs p n' p' :
      gs !! i = Some (Mining p) → holder_step (n, p) (n', p') None →
      gstep (Some i) (Sys.mk n true gs) (Sys.mk n' true (<[i := Mining p']> gs))
  | g_return i n gs p n' p' code :
      gs !! i = Some (Mining p) → holder_step (n, p) (n', p') (Some code) →
      gstep (Some i) (Sys.mk n true gs) (Sys.mk n' false (<[i := Replied JMine code]> gs))
  | g_snapshot i n gs it now :
      gs !! i = Some (Waiting JSnapshot) → ranges it (blocks_of n) →
      gstep (Some i) (Sys.mk n false gs)
        (Sys.mk (take_snapshot it now n).1 false (<[i := Replied JSnapshot 201]> gs))
  | g_verify i n gs id :
      gs !! i = Some (Waiting (JVerify id)) →
      gstep (Some i) (Sys.mk n false gs)
        (Sys.mk (verify_by_id n id).1 false (<[i := Replied (JVerify id) (verify_by_id n id).2]> gs))
  | g_other n n' b gs : other n n' → gstep None (Sys.mk n b gs) (Sys.mk n' b gs).

(** The requests arrive: all of them wait. *)
Definition arrive (n : Node.t) (jobs : list job) : Sys.t := Sys.mk n false (Waiting <$> jobs).

(** ** Specification *)

(** An infinite run and the goroutine that moves, if any; the system may pause. *)
Definition is_run `{Hasher} (σ : nat → Sys.t) (mover : nat → option nat) : Prop :=
  ∀ t, gstep (mover t) (σ t) (σ (S t)) ∨ (mover t = None ∧ σ (S t) = σ t).
Definition enabled `{Hasher} (i : nat) (s : Sys.t) : Prop := ∃ s', gstep (Some i) s s'.
(** No goroutine stays enabled for ever without moving. *)
Definition fair `{Hasher} (σ : nat → Sys.t) (mover : nat → option nat) : Prop :=
  ∀ i t, ∃ t', (t ≤ t')%nat ∧ (mover t' = Some i ∨ ¬ enabled i (σ t')).
Definition replied (g : goroutine) : Prop := match g with Replied _ _ => True | _ => False end.
#[export] Instance replied_dec g : Decision (replied g).
Proof. destruct g; simpl; apply _. Defined.
Definition mines (jobs : list job) : Z := Zsum (λ j, match j with JMine => 1 | _ => 0 end) jobs.

(** Blocks a goroutine has still to commit. *)
Definition owes (g : goroutine) : Z :=
  match g with
  | Waiting JMine | Mining (Listed _) | Mining (Applying _ _ _) => 1
  | _ => 0
  end.
(** A bound on the steps a goroutine has left, for a pool of at most [max]
    transactions. *)
Definition steps_left (max : Z) (g : goroutine) : Z :=
  match g with
  | Waiting _ => max + 5
  | Mining (Listed txs) => len txs + 4
  | Mining (Applying _ _ todo) => len todo + 3
  | Mining (Committed _ _) => 2
  | Mining (Removed _) => 1
  | Mining Idle | Replied _ _ => 0
  end.
Definition bound (n : Node.t) : Z := Z.max 0 (Pool.max (Node.pool n)).

(** ** Lemmas: goroutine steps are steps of the node *)
Section threads.
Context `{HH : Hasher}.
Implicit Types (n : Node.t) (s : Sys.t) (g : goroutine).

Lemma holder_step_step c c' code : holder_step c c' code → step c c'.
Proof.
  destruct 1; eauto with vchain.
Qed.
Lemma holder_step_place n p n' p' code :
  holder_step (n, p) (n', p') code → (p' = Idle ↔ code ≠ None).
Proof. intros Hs. inversion Hs; subst; naive_solver. Qed.
Lemma other_step n n' p : other n n' → step (n, p) (n', p).
Proof. destruct 1; eauto with vchain. Qed.
Lemma verify_by_id_step n id : rtc step (n, Idle) ((verify_by_id n id).1, Idle).
Proof.
  unfold verify_by_id, Repository.Snapshot. case_decide; [apply rtc_refl|].
  destruct (Repo.snaps (Node.repo n) !! id) as [x|] eqn:E; [|apply rtc_refl].
  apply rtc_once. by eapply snapshot_verify.
Qed.

(** What no step changes: the limit of the pool, and for the others the chain. *)
Lemma Add_max p t : Pool.max (Mempool.Add p t).1 = Pool.max p.
Proof. unfold Mempool.Add. cbv zeta. repeat (case_decide || case_match); done. Qed.
Lemma Remove_max p ids : Pool.max (Mempool.Remove p ids) = Pool.max p.
Proof.
  unfold Mempool.Remove. revert p. induction ids as [|i ids IH]; intros p; [done|].
  simpl. rewrite IH. unfold remove_one. by case_match.
Qed.
Lemma step_max n p n' p' :
  step (n, p) (n', p') → Pool.max (Node.pool n') = Pool.max (Node.pool n).
Proof. intros Hs. inversion Hs; subst; try done; simpl; [apply Remove_max|apply Add_max]. Qed.
Lemma rtc_step_max x y :
  rtc step x y → Pool.max (Node.pool y.1) = Pool.max (Node.pool x.1).
Proof.
  induction 1 as [|[] [] ? Hs _ IH]; [done|]. rewrite IH. by eapply step_max.
Qed.
Lemma other_frame n n' : other n n' → Node.repo n' = Node.repo n ∧ bound n' = bound n.
Proof. destruct 1; unfold bound; simpl; rewrite ?Add_max; done. Qed.

(** The listing is no longer than the pool. *)
Lemma List_length it clock p :
  ranges it (Pool.tx p) → (length (Mempool.List it clock p) ≤ size (Pool.tx p))%nat.
Proof.
  intros Hit. unfold Mempool.List. rewrite isort_perm, <- (length_ranges it) by done.
  apply length_omap_le.
Qed.
(** ** Lemmas: the lock *)

(** The configuration of [Node] behind a configuration of goroutines: the place of
    the one that holds the lock. *)
Record behind (c : Config.t) (now : nat → Z) (s : Sys.t) (p : place) : Prop := {
  b_reach : rtc step (NewNode c now, Idle) (Sys.node s, p);
  b_free : Sys.opMu s = false → p = Idle ∧ ∀ i q, Sys.gs s !! i ≠ Some (Mining q);
  b_held : Sys.opMu s = true → p ≠ Idle ∧
    ∃ i, Sys.gs s !! i = Some (Mining p) ∧ ∀ j q, Sys.gs s !! j = Some (Mining q) → j = i }.

Lemma behind_bound c now s p : behind c now s p → bound (Sys.node s) = 1000.
Proof. intros [Hr _ _]. apply rtc_step_max in Hr. simpl in Hr. unfold bound. by rewrite Hr. Qed.

Lemma behind_lock c now n gs i j n' p' :
  behind c now (Sys.mk n false gs) Idle → gs !! i = Some (Waiting j) → p' ≠ Idle →
  rtc step (n, Idle) (n', p') → behind c now (Sys.mk n' true (<[i := Mining p']> gs)) p'.
Proof.
  intros [Hr Hf _] Hi Hp Hs. destruct (Hf eq_refl) as [_ Hno]. simpl in *. split; simpl; [by etrans|done|].
  intros _. split; [done|]. exists i. split; [apply list_lookup_insert_eq; by eapply lookup_lt_Some|].
  intros k q [[-> _]|[_ Hk]]%list_lookup_insert_Some; [done|]. by apply Hno in Hk.
Qed.
Lemma behind_run c now n gs i p n' p' :
  behind c now (Sys.mk n true gs) p → gs !! i = Some (Mining p) → p' ≠ Idle →
  step (n, p) (n', p') → behind c now (Sys.mk n' true (<[i := Mining p']> gs)) p'.
Proof.
  intros [Hr _ Hh] Hi Hp Hs. destruct (Hh eq_refl) as (_ & k & Hk & Hu). simpl in *.
  split; simpl; [by eapply rtc_r|done|]. intros _. split; [done|]. exists i.
  split; [apply list_lookup_insert_eq; by eapply lookup_lt_Some|].
  intros j q [[-> _]|[_ Hj]]%list_lookup_insert_Some; [done|]. by rewrite (Hu _ _ Hj), (Hu _ _ Hi).
Qed.
Lemma behind_return c now n gs i p n' j code :
  behind c now (Sys.mk n true gs) p → gs !! i = Some (Mining p) → step (n, p) (n', Idle) →
  behind c now (Sys.mk n' false (<[i := Replied j code]> gs)) Idle.
Proof.
  intros [Hr _ Hh] Hi Hs. destruct (Hh eq_refl) as (_ & k & Hk & Hu). simpl in *.
  split; simpl; [by eapply rtc_r| |done]. intros _. split; [done|].
  intros j' q [[-> ?]|[Hn Hj]]%list_lookup_insert_Some; [naive_solver|].
  apply Hn. by rewrite (Hu _ _ Hj), (Hu _ _ Hi).
Qed.
Lemma behind_reply c now n gs i n' j code :
  behind c now (Sys.mk n false gs) Idle → rtc step (n, Idle) (n', Idle) →
  behind c now (Sys.mk n' false (<[i := Replied j code]> gs)) Idle.
Proof.
  intros [Hr Hf _] Hs. destruct (Hf eq_refl) as [_ Hno]. simpl in *. split; simpl; [by etrans| |done].
  intros _. split; [done|]. intros k q [[_ [? _]]|[_ Hk]]%list_lookup_insert_Some; [done|by apply Hno in Hk].
Qed.
(** The goroutine that mines is the holder, so its place is that of the node. *)
Lemma behind_holder c now s p i q :
  behind c now s p → Sys.gs s !! i = Some (Mining q) → Sys.opMu s = true ∧ q = p.
Proof.
  intros [_ Hf Hh] Hi. destruct (Sys.opMu s); [|destruct (Hf eq_refl) as [_ Hno]; by apply Hno in Hi].
  destruct (Hh eq_refl) as (_ & k & Hk & Hu). pose proof (Hu _ _ Hi) as ->. split; congruence.
Qed.

Lemma gstep_behind c now l s s' p :
  behind c now s p → gstep l s s' → ∃ p', behind c now s' p'.
Proof.
  intros Hb Hs. destruct Hs as [i n gs it clock Hi Hit|i n gs q n' q' Hi Hs|i n gs q n' q' code Hi Hs
    |i n gs it now' Hi Hit|i n gs id Hi|n n' b gs Ho].
  - pose proof (b_free _ _ _ _ Hb eq_refl) as [-> _]. eexists. eapply behind_lock; [done..|].
    apply rtc_once. by apply mine_list.
  - pose proof (behind_holder _ _ _ _ _ _ Hb Hi) as [_ ->]. eexists. eapply behind_run; [done..| |].
    + rewrite (holder_step_place _ _ _ _ _ Hs). naive_solver.
    + by eapply holder_step_step.
  - pose proof (behind_holder _ _ _ _ _ _ Hb Hi) as [_ ->]. exists Idle. eapply behind_return; [done..|].
    apply holder_step_step in Hs as Hst. assert (q' = Idle) as <-; [|done].
    by apply (holder_step_place _ _ _ _ _ Hs).
  - pose proof (b_free _ _ _ _ Hb eq_refl) as [-> _]. eexists. eapply behind_reply; [done|].
    apply rtc_once. by apply snapshot_make.
  - pose proof (b_free _ _ _ _ Hb eq_refl) as [-> _]. eexists. eapply behind_reply; [done|].
    apply verify_by_id_step.
  - exists p. destruct Hb as [Hr Hf Hh]. split; [|done..]. eapply rtc_r; [done|]. by apply other_step.
Qed.

(** ** Lemmas: what a step does to the ledger and to the steps left *)

(** The blocks of the chain and those still owed. *)
Definition ledger s : Z := Z.of_nat (tip_of (Sys.node s)) + Zsum owes (Sys.gs s).
Definition all_steps_left s : Z := Zsum (steps_left (bound (Sys.node s))) (Sys.gs s).
Definition mined_201 s : Prop := ∀ i code, Sys.gs s !! i = Some (Replied JMine code) → code = 201.

Lemma holder_step_counts n p n' p' code :
  holder_step (n, p) (n', p') code → node_ok n p → Z.of_nat (tip_of n) ≤ MaxUint64 →
  Z.of_nat (tip_of n') + owes (Mining p') = Z.of_nat (tip_of n) + owes (Mining p) ∧
  steps_left (bound n') (Mining p') < steps_left (bound n) (Mining p) ∧
  bound n' = bound n ∧ (code = None ∨ code = Some 201).
Proof.
  intros Hs Hok Hsz. inversion Hs; subst; simpl;
    try (split_and!; try done; unfold bound; simpl; rewrite ?Remove_max; try lia; by auto).
  - match goal with H : PutBlock _ _ = _ |- _ => destruct (PutBlock_ok _ _ _ H) as (Hnew & -> & _) end.
    rewrite map_size_insert_None by done. split_and!; try done; try lia. by left.
  - exfalso. by eapply put_never_refused.
Qed.

Lemma take_snapshot_frame it now n :
  blocks_of (take_snapshot it now n).1 = blocks_of n ∧ bound (take_snapshot it now n).1 = bound n.
Proof. done. Qed.
Lemma verify_by_id_frame n id :
  blocks_of (verify_by_id n id).1 = blocks_of n ∧ bound (verify_by_id n id).1 = bound n.
Proof. unfold verify_by_id, Repository.Snapshot. case_decide; [done|]. by destruct (_ !! id). Qed.

Lemma steps_left_nonneg n g : 0 ≤ steps_left (bound n) g.
Proof. unfold bound. destruct g as [|[]|]; simpl; lia. Qed.
Lemma all_steps_left_nonneg s : 0 ≤ all_steps_left s.
Proof. apply Zsum_nonneg. intros. apply steps_left_nonneg. Qed.

Lemma mined_201_insert n n' b b' gs i g :
  (∀ code, g = Replied JMine code → code = 201) →
  mined_201 (Sys.mk n b gs) → mined_201 (Sys.mk n' b' (<[i := g]> gs)).
Proof.
  intros Hg Hm j code. simpl. intros [[_ [-> _]]|[_ Hj]]%list_lookup_insert_Some; [by apply Hg|by apply (Hm j)].
Qed.

(** A step of a goroutine keeps the ledger and leaves fewer steps; the steps of
    other requests change neither. *)
Lemma gstep_counts c now l s s' p :
  behind c now s p → node_ok (Sys.node s) p → Z.of_nat (tip_of (Sys.node s)) ≤ MaxUint64 →
  gstep l s s' →
  ledger s' = ledger s ∧ (mined_201 s → mined_201 s') ∧
  match l with
  | Some _ => all_steps_left s' < all_steps_left s
  | None => Sys.gs s' = Sys.gs s ∧ Sys.opMu s' = Sys.opMu s ∧ all_steps_left s' = all_steps_left s
  end.
Proof.
  intros Hb Hok Hsz Hs. unfold ledger, all_steps_left.
  destruct Hs as [i n gs it clock Hi Hit|i n gs q n' q' Hi Hs|i n gs q n' q' code Hi Hs
    |i n gs it now' Hi Hit|i n gs id Hi|n n' b gs Ho]; simpl in *.
  - rewrite !(Zsum_insert _ _ _ _ _ Hi). simpl.
    destruct (ok_pool _ _ Hok) as [_ Hbd]. unfold bounded in Hbd. fold (bound n) in Hbd.
    pose proof (List_length it clock _ Hit). split_and!; [lia| |lia]. by apply mined_201_insert.
  - pose proof (behind_holder _ _ _ _ _ _ Hb Hi) as [_ ->].
    destruct (holder_step_counts _ _ _ _ _ Hs Hok Hsz) as (H1 & H2 & H3 & _). rewrite H3 in *.
    rewrite !(Zsum_insert _ _ _ _ _ Hi). split_and!; [lia| |lia]. by apply mined_201_insert.
  - pose proof (behind_holder _ _ _ _ _ _ Hb Hi) as [_ ->].
    destruct (holder_step_counts _ _ _ _ _ Hs Hok Hsz) as (H1 & H2 & H3 & [|[= ->]]); [done|].
    rewrite H3 in *. assert (q' = Idle) as -> by by apply (holder_step_place _ _ _ _ _ Hs).
    rewrite !(Zsum_insert _ _ _ _ _ Hi). simpl in *. split_and!; [lia| |lia].
    apply mined_201_insert. naive_solver.
  - rewrite !(Zsum_insert _ _ _ _ _ Hi). pose proof (steps_left_nonneg n (Waiting JSnapshot)).
    simpl in *. split_and!; [lia| |unfold bound; simpl; lia]. by apply mined_201_insert.
  - destruct (verify_by_id_frame n id) as [-> ->]. rewrite !(Zsum_insert _ _ _ _ _ Hi). simpl.
    pose proof (Z.le_max_l 0 (Pool.max (Node.pool n))). unfold bound.
    split_and!; [lia| |lia]. by apply mined_201_insert.
  - destruct (other_frame _ _ Ho) as [-> ->]. done.
Qed.

(** ** Lemmas: no deadlock *)
Lemma mining_enabled n i gs p :
  gs !! i = Some (Mining p) → p ≠ Idle → enabled i (Sys.mk n true gs).
Proof.
  intros Hi Hp. destruct p as [|txs|txs prev [|t todo]|txs b|b]; [done|..].
  - eexists. eapply g_run; [done|]. apply (h_latest _ _ _ (ranges_refl _)).
  - destruct (PutBlock (Node.repo n) (new_block prev (Root (Node.state n)) txs 0)) as [r [e|]] eqn:E.
    + eexists. eapply g_return; [done|]. eapply (h_refused _ _ _ 0 e). by rewrite E.
    + eexists. eapply g_run; [done|]. by eapply (h_put _ _ _ 0 r).
  - eexists. eapply g_run; [done|]. apply h_apply.
  - eexists. eapply g_run; [done|]. apply h_remove.
  - eexists. eapply g_return; [done|]. apply (h_done _ _ 0 0).
Qed.
Lemma waiting_enabled n i gs j :
  gs !! i = Some (Waiting j) → enabled i (Sys.mk n false gs).
Proof.
  intros Hi. destruct j as [| |id]; eexists.
  - apply (g_lock _ _ _ _ (λ _, 0) Hi (ranges_refl _)).
  - apply (g_snapshot _ _ _ _ (λ _, 0) Hi (ranges_refl _)).
  - by apply g_verify.
Qed.

(** Whatever the place of the lock, some goroutine can take a step, and goes on
    being able to as long as no goroutine moves. *)
Lemma some_enabled c now s p :
  behind c now s p → ¬ Forall replied (Sys.gs s) →
  ∃ i, ∀ s', Sys.gs s' = Sys.gs s → Sys.opMu s' = Sys.opMu s → enabled i s'.
Proof.
  intros Hb Hn. destruct (Sys.opMu s) eqn:El.
  - destruct (b_held _ _ _ _ Hb El) as (Hp & i & Hi & _). exists i.
    intros [n' l' gs'] Eg Eo. simpl in *. subst. by eapply mining_enabled.
  - apply not_Forall_Exists in Hn; [|apply _].
    apply list.Exists_exists in Hn as (g & [i Hi]%list_elem_of_lookup & Hg). exists i.
    intros [n' l' gs'] Eg Eo. simpl in *. subst.
    destruct g as [j|q|]; simpl in Hg; [by eapply waiting_enabled| |tauto].
    by destruct (behind_holder _ _ _ _ _ _ Hb Hi) as [E _]; rewrite El in E.
Qed.

(** ** Lemmas: runs *)
Section run.
Context (c : Config.t) (now : nat → Z) (σ : nat → Sys.t) (mover : nat → option nat).
Context (Hrun : is_run σ mover) (Hstart : ∃ p, behind c now (σ 0%nat) p).
Context (H201 : mined_201 (σ 0%nat)) (Hfits : ledger (σ 0%nat) ≤ MaxUint64).

Lemma ledger_tip s : Z.of_nat (tip_of (Sys.node s)) ≤ ledger s.
Proof.
  unfold ledger. pose proof (Zsum_nonneg owes (Sys.gs s)) as Hn.
  assert (∀ g, 0 ≤ owes g) as Ho by (intros [[]|[]|]; simpl; lia). specialize (Hn (λ g _, Ho g)). lia.
Qed.

(** All configurations of the run are sound, with the ledger of the first. *)
Lemma run_sound t :
  (∃ p, behind c now (σ t) p ∧ node_ok (Sys.node (σ t)) p) ∧ mined_201 (σ t) ∧
  ledger (σ t) = ledger (σ 0%nat).
Proof.
  induction t as [|t ((p & Hb & Hok) & Hm & Hl)].
  - destruct Hstart as [p Hb]. split; [|done]. exists p. split; [done|].
    apply (reachable_ok c now); [apply Hb|]. pose proof (ledger_tip (σ 0%nat)). lia.
  - destruct (Hrun t) as [Hs|[_ ->]]; [|by eauto 10].
    pose proof (ledger_tip (σ t)). pose proof (ledger_tip (σ (S t))).
    destruct (gstep_counts _ _ _ _ _ _ Hb Hok ltac:(lia) Hs) as (El & Hm' & _).
    destruct (gstep_behind _ _ _ _ _ _ Hb Hs) as [p' Hb']. split_and!; [|by auto|lia].
    exists p'. split; [done|]. apply (reachable_ok c now); [apply Hb'|lia].
Qed.

Lemma run_step t :
  match mover t with
  | Some _ => all_steps_left (σ (S t)) < all_steps_left (σ t)
  | None => Sys.gs (σ (S t)) = Sys.gs (σ t) ∧ Sys.opMu (σ (S t)) = Sys.opMu (σ t) ∧
            all_steps_left (σ (S t)) = all_steps_left (σ t)
  end.
Proof.
  destruct (run_sound t) as ((p & Hb & Hok) & _ & Hl). pose proof (ledger_tip (σ t)).
  destruct (Hrun t) as [Hs|[-> ->]]; [|done].
  by destruct (gstep_counts _ _ _ _ _ _ Hb Hok ltac:(lia) Hs) as (_ & _ & ?).
Qed.

(** Until a goroutine moves, goroutines and lock stay as they are. *)
Lemma run_quiet t d :
  (∃ u, (t ≤ u < t + d)%nat ∧ mover u ≠ None) ∨
  (Sys.gs (σ (t + d)%nat) = Sys.gs (σ t) ∧ Sys.opMu (σ (t + d)%nat) = Sys.opMu (σ t)).
Proof.
  induction d as [|d [(u & Hu & Hm)|[Eg Eo]]]; [right; by rewrite Nat.add_0_r| |].
  { left. exists u. split; [lia|done]. }
  destruct (mover (t + d)%nat) as [i|] eqn:Em.
  - left. exists (t + d)%nat. split; [lia|by rewrite Em].
  - pose proof (run_step (t + d)%nat) as Hs. rewrite Em in Hs. destruct Hs as (Hg & Ho & _).
    right. rewrite Nat.add_succ_r. split; congruence.
Qed.
Lemma run_steps_mono t d : all_steps_left (σ (t + d)%nat) ≤ all_steps_left (σ t).
Proof.
  induction d as [|d IH]; [by rewrite Nat.add_0_r|]. rewrite Nat.add_succ_r.
  pose proof (run_step (t + d)%nat) as Hs. destruct (mover (t + d)%nat); lia.
Qed.

Context (Hfair : fair σ mover).

Lemma run_progress t : ¬ Forall replied (Sys.gs (σ t)) → ∃ u, (t ≤ u)%nat ∧ mover u ≠ None.
Proof.
  intros Hn. destruct (run_sound t) as ((p & Hb & _) & _).
  destruct (some_enabled _ _ _ _ Hb Hn) as [i Hi]. destruct (Hfair i t) as (t' & Ht & Hm).
  destruct (run_quiet t (t' - t)) as [(u & Hu & Hmu)|[Eg Eo]]; [exists u; split; [lia|done]|].
  exists t'. split; [done|]. replace (t + (t' - t))%nat with t' in * by lia.
  destruct Hm as [->|Hm]; [done|]. destruct Hm. by apply Hi.
Qed.

Lemma run_all_reply t : ∃ u, (t ≤ u)%nat ∧ Forall replied (Sys.gs (σ u)).
Proof.
  remember (Z.to_nat (all_steps_left (σ t))) as w eqn:Ew. revert t Ew.
  induction (lt_wf w) as [w _ IH]. intros t Ew.
  destruct (decide (Forall replied (Sys.gs (σ t)))) as [Hd|Hd]; [by exists t|].
  destruct (run_progress t Hd) as (u & Hu & Hm).
  pose proof (run_steps_mono t (u - t)) as H1. replace (t + (u - t))%nat with u in H1 by lia.
  pose proof (run_step u) as H2. destruct (mover u) as [i|]; [|done].
  pose proof (all_steps_left_nonneg (σ (S u))).
  destruct (IH (Z.to_nat (all_steps_left (σ (S u)))) ltac:(lia) (S u) eq_refl) as (v & Hv & Hf).
  exists v. split; [lia|done].
Qed.
End run.

Lemma replied_owes gs : Forall replied gs → Zsum owes gs = 0.
Proof.
  intros Hf. apply Zsum_zero. intros g Hg. rewrite list.Forall_forall in Hf.
  by destruct g; try destruct (Hf _ Hg).
Qed.
Lemma arrive_behind c now n jobs :
  rtc step (NewNode c now, Idle) (n, Idle) → behind c now (arrive n jobs) Idle.
Proof.
  intros Hr. split; [done| |done]. intros _. split; [done|]. intros i q.
  unfold arrive. simpl. rewrite list_lookup_fmap. by destruct (jobs !! i).
Qed.
Lemma arrive_owes jobs : Zsum owes (Waiting <$> jobs) = mines jobs.
Proof. induction jobs as [|[] jobs IH]; csimpl; [done|..]; rewrite IH; unfold mines; simpl; lia. Qed.
Lemma arrive_201 n jobs : mined_201 (arrive n jobs).
Proof. intros i code. unfold arrive. simpl. rewrite list_lookup_fmap. by destruct (jobs !! i). Qed.

(** A goroutine keeps the request it serves. *)
Definition job_of g : job := match g with Waiting j | Replied j _ => j | Mining _ => JMine end.
Lemma gstep_jobs l s s' : gstep l s s' → job_of <$> Sys.gs s' = job_of <$> Sys.gs s.
Proof.
  destruct 1; simpl; try done; rewrite list_fmap_insert; apply list_insert_id;
    rewrite list_lookup_fmap; match goal with Hi : _ !! _ = Some _ |- _ => by rewrite Hi end.
Qed.
Lemma run_jobs σ mover t : is_run σ mover → job_of <$> Sys.gs (σ t) = job_of <$> Sys.gs (σ 0%nat).
Proof.
  intros Hrun. induction t as [|t IH]; [done|]. rewrite <- IH.
  destruct (Hrun t) as [Hs|[_ ->]]; [|done]. by eapply gstep_jobs.
Qed.
Lemma replied_mine σ mover n jobs t i :
  is_run σ mover → σ 0%nat = arrive n jobs → mined_201 (σ t) → Forall replied (Sys.gs (σ t)) →
  jobs !! i = Some JMine → Sys.gs (σ t) !! i = Some (Replied JMine 201).
Proof.
  intros Hrun H0 Hm Hf Hi. pose proof (run_jobs _ _ t Hrun) as Hj. rewrite H0 in Hj.
  apply (f_equal (.!! i)) in Hj. unfold arrive in Hj. simpl in Hj.
  rewrite !list_lookup_fmap, Hi in Hj. destruct (Sys.gs (σ t) !! i) as [g|] eqn:Eg; [|done].
  pose proof (Forall_lookup_1 _ _ _ _ Hf Eg). destruct g as [| |j code]; simplify_eq/=; try done.
  by rewrite (Hm _ _ Eg).
Qed.

Lemma replied_not_enabled i s : Forall replied (Sys.gs s) → ¬ enabled i s.
Proof.
  intros Hf [s' Hs]. inversion Hs; subst; simpl in *;
    match goal with Hi : _ !! _ = Some _ |- _ => by pose proof (Forall_lookup_1 _ _ _ _ Hf Hi) end.
Qed.
End threads.

(** ** Properties *)

(** C12: every request that takes [opMu] is served: in a fair run, whatever other
    requests do meanwhile, there is a moment at which all the mining and snapshot
    requests that had arrived have been answered. Each mining request was answered
    201, the chain is longer by exactly their number, and it verifies. *)
Theorem Requests_served `{Hasher} c now n jobs σ mover :
  rtc step (NewNode c now, Idle) (n, Idle) →
  Z.of_nat (tip_of n) + mines jobs ≤ MaxUint64 →
  σ 0%nat = arrive n jobs → is_run σ mover → fair σ mover →
  ∃ t, Forall replied (Sys.gs (σ t)) ∧
    (∀ i, jobs !! i = Some JMine → Sys.gs (σ t) !! i = Some (Replied JMine 201)) ∧
    Z.of_nat (tip_of (Sys.node (σ t))) = Z.of_nat (tip_of n) + mines jobs ∧
    VerifyChain (Node.repo (Sys.node (σ t))) = nilerr.
Proof.
  intros Hr Hsz H0 Hrun Hfair.
  assert (Hstart : ∃ p, behind c now (σ 0%nat) p) by (rewrite H0; eexists; by apply arrive_behind).
  assert (H201 : mined_201 (σ 0%nat)) by (rewrite H0; apply arrive_201).
  assert (Hl : ledger (σ 0%nat) = Z.of_nat (tip_of n) + mines jobs).
  { rewrite H0. unfold ledger, arrive. simpl. by rewrite arrive_owes. }
  destruct (run_all_reply c now σ mover Hrun Hstart H201 ltac:(lia) Hfair 0%nat) as (t & _ & Hf).
  destruct (run_sound c now σ mover Hrun Hstart H201 ltac:(lia) t) as ((p & _ & Hok) & Hm & El).
  exists t. split; [exact Hf|]. split; [intros i; by apply (replied_mine σ mover n jobs)|].
  split; [|apply (ok_repo _ _ Hok)]. rewrite <- Hl, <- El. unfold ledger. rewrite (replied_owes _ Hf). lia.
Qed.

(** C27: [opMu] excludes: at no moment of any run, fair or not, are two goroutines
    in [mine] together, and while one is, the lock is held. *)
Theorem Mining_excludes `{Hasher} c now n jobs σ mover t i j p q :
  rtc step (NewNode c now, Idle) (n, Idle) → σ 0%nat = arrive n jobs → is_run σ mover →
  Sys.gs (σ t) !! i = Some (Mining p) → Sys.gs (σ t) !! j = Some (Mining q) →
  i = j ∧ Sys.opMu (σ t) = true.
Proof.
  intros Hr H0 Hrun Hi Hj. assert (∃ p, behind c now (σ t) p) as [p0 Hb].
  { clear Hi Hj. induction t as [|t [p0 Hb]]; [rewrite H0; eexists; by apply arrive_behind|].
    destruct (Hrun t) as [Hs|[_ ->]]; [by eapply gstep_behind|by eexists]. }
  destruct (behind_holder _ _ _ _ _ _ Hb Hi) as [El _]. split; [|done].
  destruct (b_held _ _ _ _ Hb El) as (_ & k & _ & Hu). by rewrite (Hu _ _ Hi), (Hu _ _ Hj).
Qed.

(** ** Witnesses: two mining requests, one after the other, and a pause for ever *)
Definition node8 : Node.t := Node.with_pool node3 (Mempool.Remove (Node.pool node3) ["t1"]).
Definition node9 : Node.t := Node.log (Node.count_block node8) "block.commit" (fmt_d (Block.Height minted)) clock clock.
Definition minted2 : Block.t := new_block minted (Root (Node.state node9)) [] clock.
Definition node10 : Node.t := Node.with_repo node9 (PutBlock (Node.repo node9) minted2).1.
Definition node11 : Node.t := Node.with_pool node10 (Mempool.Remove (Node.pool node10) []).
Definition node12 : Node.t := Node.log (Node.count_block node11) "block.commit" (fmt_d (Block.Height minted2)) clock clock.
Definition demo : list Sys.t :=
  let w := Waiting JMine in let d := Replied JMine 201 in
  [ arrive node1 [JMine; JMine];
    Sys.mk node1 true [Mining (Listed [tx1]); w];
    Sys.mk node1 true [Mining (Applying [tx1] Block.zero [tx1]); w];
    Sys.mk node2 true [Mining (Applying [tx1] Block.zero []); w];
    Sys.mk node3 true [Mining (Committed [tx1] minted); w];
    Sys.mk node8 true [Mining (Removed minted); w];
    Sys.mk node9 false [d; w];
    Sys.mk node9 true [d; Mining (Listed [])];
    Sys.mk node9 true [d; Mining (Applying [] minted [])];
    Sys.mk node10 true [d; Mining (Committed [] minted2)];
    Sys.mk node11 true [d; Mining (Removed minted2)] ].
Definition demo_run (t : nat) : Sys.t :=
  nth t demo (Sys.mk node12 false [Replied JMine 201; Replied JMine 201]).
Definition demo_mover (t : nat) : option nat :=
  if decide (t < 6)%nat then Some 0%nat else if decide (t < 11)%nat then Some 1%nat else None.

Lemma node9_tip : Latest [1] (Node.repo node9) = minted.
Proof. by vm_compute. Qed.
Lemma demo_run_step i n gs gs' p n' p' :
  gs !! i = Some (Mining p) → holder_step (n, p) (n', p') None → gs' = <[i := Mining p']> gs →
  gstep (Some i) (Sys.mk n true gs) (Sys.mk n' true gs').
Proof. intros Hi Hs ->. by eapply g_run. Qed.
Lemma demo_return_step i n gs gs' p n' p' code :
  gs !! i = Some (Mining p) → holder_step (n, p) (n', p') (Some code) →
  gs' = <[i := Replied JMine code]> gs →
  gstep (Some i) (Sys.mk n true gs) (Sys.mk n' false gs').
Proof. intros Hi Hs ->. by eapply g_return. Qed.
Lemma demo_is_run : is_run demo_run demo_mover.
Proof.
  intros [|[|[|[|[|[|[|[|[|[|[|t]]]]]]]]]]]; [left..|right].
  - apply (g_lock 0 node1 [Waiting JMine; Waiting JMine] ["t1"] (λ _, 1700000000)); [done|].
    apply (bool_decide_unpack _). by vm_compute.
  - eapply demo_run_step; [done| |done]. apply (h_latest _ _ []). apply (bool_decide_unpack _). by vm_compute.
  - eapply demo_run_step; [done| |done]. apply h_apply.
  - eapply demo_run_step; [done| |done]. by apply (h_put _ _ _ clock).
  - eapply demo_run_step; [done| |done]. apply h_remove.
  - eapply demo_return_step; [done| |done]. apply h_done.
  - apply (g_lock 1 node9 [Replied JMine 201; Waiting JMine] [] (λ _, 1700000000)); [done|].
    apply (bool_decide_unpack _). by vm_compute.
  - eapply demo_run_step; [done| |done]. rewrite <- node9_tip. apply h_latest.
    apply (bool_decide_unpack _). by vm_compute.
  - eapply demo_run_step; [done| |done]. by apply (h_put _ _ _ clock).
  - eapply demo_run_step; [done| |done]. apply h_remove.
  - eapply demo_return_step; [done| |done]. apply h_done.
  - by destruct t.
Qed.
Lemma demo_fair : fair demo_run demo_mover.
Proof.
  intros i t. exists (t + 11)%nat. split; [lia|]. right. apply replied_not_enabled.
  unfold demo_run. rewrite nth_overflow by (simpl; lia). by repeat constructor.
Qed.
Lemma node1_reachable : rtc step (NewNode DefaultConfig (λ _, 0), Idle) (node1, Idle).
Proof. apply rtc_once. exact (tx_add node0 Idle tx1). Qed.

Lemma Requests_served_witness :
  ∃ t, Forall replied (Sys.gs (demo_run t)) ∧
    (∀ i, [JMine; JMine] !! i = Some JMine → Sys.gs (demo_run t) !! i = Some (Replied JMine 201)) ∧
    Z.of_nat (tip_of (Sys.node (demo_run t))) = Z.of_nat (tip_of node1) + mines [JMine; JMine] ∧
    VerifyChain (Node.repo (Sys.node (demo_run t))) = nilerr.
Proof.
  apply (Requests_served DefaultConfig (λ _, 0) node1 [JMine; JMine] demo_run demo_mover node1_reachable).
  - by vm_compute.
  - reflexivity.
  - exact demo_is_run.
  - exact demo_fair.
Defined.
Lemma Mining_excludes_witness :
  1%nat = 1%nat ∧ Sys.opMu (demo_run 8) = true.
Proof.
  by apply (Mining_excludes DefaultConfig (λ _, 0) node1 [JMine; JMine] demo_run demo_mover 8 1 1
           (Applying [] minted []) (Applying [] minted []) node1_reachable eq_refl demo_is_run).
Defined.
