(* ===== verification/NodeTypes.v ===== *)
(** * app/node.go: the types of what the node stores

    Integers are [Z] in this library. This file shows that, when the transactions
    that arrive are Go values, everything the node stores is one too: the
    hypotheses of the codec hold of every block it ever makes. *)
From S2P Require Import Prelude Machine GoString GoSort GoMap Sha256 ChainDomain StateMachine Codec.
From S2P Require Import Mempool Repository AuditChain P2P Consensus Metrics Node NodeThreads.

(** ** Specification *)

(** The transactions that a step brings into the pool are in the range of their types. *)
Definition arrivals_typed (x y : config) : Prop :=
  ∀ id t, Pool.tx (Node.pool y.1) !! id = Some t →
    Pool.tx (Node.pool x.1) !! id = Some t ∨ Tx.typed t.
Definition tstep `{Hasher} (x y : config) : Prop := step x y ∧ arrivals_typed x y.

(** A list of transactions that the miner may hold. *)
Definition batch_typed (txs : list Tx.t) : Prop := Forall Tx.typed txs ∧ len txs ≤ 1000.
Definition block_typed (b : Block.t) : Prop :=
  typed_block b ∧ len (Block.Transactions b) ≤ 1000 ∧ Block.Commit b = [].
Definition place_typed (p : place) : Prop :=
  match p with Listed txs | Applying txs _ _ => batch_typed txs | _ => True end.
Definition metrics_typed (m : Metrics.t) : Prop :=
  is_u64 (Metrics.Requests m) ∧ is_u64 (Metrics.Blocks m) ∧ is_u64 (Metrics.Errors m).
Record node_typed (n : Node.t) (p : place) : Prop := {
  ty_pool : ∀ id t, Pool.tx (Node.pool n) !! id = Some t → Tx.typed t;
  ty_blocks : ∀ h b, blocks_of n !! h = Some b → block_typed b;
  ty_metrics : metrics_typed (Node.metrics n);
  ty_place : place_typed p }.

(** ** Lemmas *)
Section types.
Context `{HH : Hasher}.

(** A typed transaction that is posted is a typed step. *)
Lemma tx_add_typed n p t :
  Tx.typed t → tstep (n, p) (Node.with_pool n (Mempool.Add (Node.pool n) t).1, p).
Proof.
  intros Ht. split; [apply tx_add|]. intros id x. simpl. rewrite Add_cases. cbv zeta.
  assert (Tx.typed (identified t)) as Hi by (unfold identified; case_decide; [by destruct Ht|done]).
  revert Hi. generalize (identified t). intros u Hu. repeat case_decide; simpl; auto.
  intros [[_ <-]|[_ Hx]]%lookup_insert_Some; [by right|]. left. revert Hx. unfold make_room.
  repeat case_match; simpl; auto. by intros [_ ?]%lookup_delete_Some.
Qed.

(** The steps that bring in no transaction. *)
Lemma tstep_quiet x y : step x y → Pool.tx (Node.pool y.1) ⊆ Pool.tx (Node.pool x.1) → tstep x y.
Proof. intros Hs Hq. split; [done|]. intros id t Ht. left. by eapply lookup_weaken. Qed.

Lemma new_block_typed prev rt txs now : batch_typed txs → block_typed (new_block prev rt txs now).
Proof. intros [Ht Hl]. split; [|done]. split; simpl; try done; unfold Time.Unix; clear -Hl; mlia. Qed.

Lemma List_typed it clock n :
  (∀ id t, Pool.tx (Node.pool n) !! id = Some t → Tx.typed t) → bounded (Node.pool n) →
  Pool.max (Node.pool n) = 1000 → ranges it (Pool.tx (Node.pool n)) →
  batch_typed (Mempool.List it clock (Node.pool n)).
Proof.
  intros Ht Hb Hm Hit. split.
  - unfold Mempool.List. rewrite isort_perm. apply Forall_forall.
    intros t (id & _ & Hid)%list_elem_of_omap.
    destruct (Pool.tx (Node.pool n) !! id) eqn:E; [|done]. simpl in Hid.
    case_decide; simplify_eq. by eapply Ht.
  - pose proof (List_length it clock _ Hit). unfold bounded in Hb. lia.
Qed.

Lemma tstep_typed n p n' p' :
  node_ok n p → Pool.max (Node.pool n) = 1000 → tstep (n, p) (n', p') →
  node_typed n p → node_typed n' p'.
Proof.
  intros Hok Hmax [Hs Ha] [Hp Hb Hm Hpl].
  assert (∀ id t, Pool.tx (Node.pool n') !! id = Some t → Tx.typed t) as Hp'.
  { intros id t Ht. destruct (Ha id t Ht); [by eapply Hp|done]. }
  pose proof (ok_pool _ _ Hok) as [_ Hbd]. unfold metrics_typed in Hm.
  inversion Hs; subst; split; try done; simpl; try (unfold metrics_typed; simpl; clear - Hm; mlia).
  - by apply List_typed.
  - match goal with E : PutBlock _ _ = _ |- _ => apply PutBlock_ok in E as (_ & E & _); rewrite E end.
    intros h b [[_ <-]|[_ Hh]]%lookup_insert_Some; [by apply new_block_typed|by eapply Hb].
Qed.
Lemma run_typed c now n p :
  rtc tstep (NewNode c now, Idle) (n, p) → Z.of_nat (tip_of n) ≤ MaxUint64 →
  rtc step (NewNode c now, Idle) (n, p) ∧ node_typed n p.
Proof.
  intros Hr.
  refine (rtc_ind_r (λ y, Z.of_nat (tip_of y.1) ≤ MaxUint64 →
            rtc step (NewNode c now, Idle) y ∧ node_typed y.1 y.2) _ _ _ _ Hr).
  - intros _. split; [apply rtc_refl|]. split; simpl; try done; intros ? ?; by rewrite lookup_empty.
  - intros [n1 p1] [n2 p2] _ Ht IH Hsz. pose proof Ht as [Hst _]. simpl in *.
    pose proof (step_mono _ _ _ _ Hst). destruct IH as [Hr1 Ht1]; [lia|]. split; [by eapply rtc_r|].
    apply (tstep_typed n1 p1); [eapply reachable_ok; [done|lia]| |done|done].
    apply rtc_step_max in Hr1. exact Hr1.
Qed.
End types.

(** ** Properties *)

(** C18: whatever is interleaved, as long as the transactions that arrive are Go values:
    every pooled transaction, every block with its header and transactions, every
    snapshot height and every counter is in the range of its type, a block has at
    most 1000 transactions and no commit votes; and so the codec tells the
    node's blocks apart: two stored blocks with one encoding are the same block at
    the same height. *)
Theorem Node_typed c now n p :
  rtc tstep (NewNode c now, Idle) (n, p) → Z.of_nat (tip_of n) ≤ MaxUint64 →
  node_typed n p ∧
  (∀ id s, Repo.snaps (Node.repo n) !! id = Some s → is_u64 (Snapshot.Height s)) ∧
  ∀ h h' b b' d, blocks_of n !! h = Some b → blocks_of n !! h' = Some b' →
    EncodeBlock b = Ok d → EncodeBlock b' = Ok d → h = h' ∧ b = b'.
Proof.
  intros Hr Hsz. destruct (run_typed c now n p Hr Hsz) as [Hrs Ht].
  pose proof (reachable_ok c now n p Hrs Hsz) as Hok. split; [done|]. split.
  - intros id s Hs. destruct (ok_snaps _ _ Hok id s Hs) as (_ & _ & Hh & _). mlia.
  - intros h h' b b' d Hb Hb' Ed Ed'.
    destruct (ty_blocks _ _ Ht h b Hb) as (Tb & _ & Cb).
    destruct (ty_blocks _ _ Ht h' b' Hb') as (Tb' & _ & Cb').
    pose proof (EncodeBlock_inj b b' d Tb Tb' Ed Ed') as E.
    assert (b = b') as <-.
    { destruct b, b'. unfold without_commit in E. simpl in *. subst. congruence. }
    split; [|done]. destruct (ok_repo _ _ Hok) as [Hk _].
    destruct (Hk h b Hb) as [<- _]. by destruct (Hk h' b Hb') as [<- _].
Qed.

(** ** Witness: the run of one mined transaction *)
Lemma tx1_typed : Tx.typed tx1.
Proof. by repeat split. Qed.
Lemma node3_typed : rtc tstep (node0, Idle) (node3, Committed [tx1] minted).
Proof.
  eapply rtc_l; [exact (tx_add_typed node0 Idle tx1 tx1_typed)|].
  eapply rtc_l; [apply tstep_quiet; [apply (mine_list node1 ["t1"] (λ _, 1700000000)); apply (bool_decide_unpack _); by vm_compute|done]|].
  eapply rtc_l; [apply tstep_quiet; [apply (mine_latest node1 _ []); apply (bool_decide_unpack _); by vm_compute|done]|].
  eapply rtc_l; [apply tstep_quiet; [exact (mine_apply node1 [tx1] Block.zero tx1 [])|done]|].
  apply rtc_once, tstep_quiet; [exact (mine_put node2 [tx1] Block.zero clock _ minted eq_refl eq_refl)|done].
Qed.
Lemma Node_typed_witness :
  node_typed node3 (Committed [tx1] minted) ∧
  (∀ id s, Repo.snaps (Node.repo node3) !! id = Some s → is_u64 (Snapshot.Height s)) ∧
  ∀ h h' b b' d, blocks_of node3 !! h = Some b → blocks_of node3 !! h' = Some b' →
    EncodeBlock b = Ok d → EncodeBlock b' = Ok d → h = h' ∧ b = b'.
Proof.
  apply (Node_typed DefaultConfig (λ _, 0) node3 (Committed [tx1] minted) node3_typed). by vm_compute.
Defined.
