(* ===== verification/NodeBlocks.v ===== *)
(** * app/node.go: the batches that the blocks hold

    What [mine] puts into a block is a listing of the pool. This file carries what
    the pool promises of its listings to every block of the chain, and shows what
    no component promises: that a transaction is in one block only. *)
From S2P Require Import Prelude Machine GoString GoSort GoMap Sha256 ChainDomain StateMachine.
From S2P Require Import Mempool Repository AuditChain P2P Consensus Node NodeThreads.

(** ** Specification *)

(** A batch: no identifier twice, no nonce of an account twice, by falling fee, and
    within the limit of the pool. *)
Definition slot (t : Tx.t) : string * Z := (Tx.From t, Tx.Nonce t).
Record fair_batch (txs : list Tx.t) : Prop := {
  fb_ids : NoDup (Tx.ID <$> txs);
  fb_slots : NoDup (slot <$> txs);
  fb_fees : Sorted fee_ge txs;
  fb_bound : len txs ≤ 1000 }.

(** ** Lemmas: what holds of every listing holds of every block *)
Section listings.
Context `{HH : Hasher} (P : list Tx.t → Prop).

Definition listed_place (p : place) : Prop :=
  match p with Listed txs | Applying txs _ _ => P txs | _ => True end.
Definition listed_config (x : config) : Prop :=
  (∀ h b, blocks_of x.1 !! h = Some b → P (Block.Transactions b)) ∧ listed_place x.2.
(** The pool of the node promises [P] of its listings. *)
Definition lists (n : Node.t) : Prop :=
  ∀ it clock, ranges it (Pool.tx (Node.pool n)) → P (Mempool.List it clock (Node.pool n)).

Lemma step_listed x y : lists x.1 → step x y → listed_config x → listed_config y.
Proof.
  intros Hl Hs [Hb Hp]. destruct Hs; split; simpl in *; try done; [by apply Hl|].
  match goal with E : PutBlock _ _ = _ |- _ => apply PutBlock_ok in E as (_ & E & _); rewrite E end.
  intros h b' [[_ <-]|[_ Hh]]%lookup_insert_Some; [by subst|by eapply Hb].
Qed.
Lemma run_listed c now y :
  (∀ n p, node_ok n p → Pool.max (Node.pool n) = 1000 → lists n) →
  rtc step (NewNode c now, Idle) y → Z.of_nat (tip_of y.1) ≤ MaxUint64 → listed_config y.
Proof.
  intros HP Hr. refine (rtc_ind_r (λ y, Z.of_nat (tip_of y.1) ≤ MaxUint64 → listed_config y) _ _ _ _ Hr).
  - intros _. split; [|done]. simpl. intros h b. by rewrite lookup_empty.
  - intros [n1 p1] [n2 p2] Hr1 Hs IH Hsz. pose proof (step_mono _ _ _ _ Hs). simpl in *.
    apply (step_listed (n1, p1)); [|done|apply IH; lia]. apply (HP n1 p1).
    + eapply reachable_ok; [done|lia].
    + apply rtc_step_max in Hr1. exact Hr1.
Qed.
End listings.

(** ** Lemmas: the pool's listings *)
Lemma List_fair it clock p :
  consistent p → bounded p → Pool.max p = 1000 → ranges it (Pool.tx p) →
  fair_batch (Mempool.List it clock p).
Proof.
  intros Hc Hb Hm Hit. destruct (List_by_fee p it clock Hc Hit) as (Hs & Hn & Hl).
  pose proof (List_length it clock p Hit) as Hlen. unfold bounded in Hb. split; [..|done|lia].
  - apply NoDup_fmap_2_strong; [|done]. intros t u Ht Hu E.
    apply Hl in Ht as [Ht _], Hu as [Hu _]. rewrite E in Ht. congruence.
  - apply NoDup_fmap_2_strong; [|done]. intros t u Ht Hu [= Ef En].
    apply Hl in Ht as [Ht _], Hu as [Hu _].
    pose proof (consistent_inj p Hc _ _ _ _ Ht Hu Ef En) as E. rewrite E in Ht. congruence.
Qed.

(** ** Properties *)

(** C14: in every state the node can reach, whatever arrives while it mines, every block
    holds a fair batch: no identifier twice, no nonce of an account twice, the
    transactions by falling fee, at most 1000 of them. *)
Theorem Blocks_fair `{Hasher} c now n p :
  rtc step (NewNode c now, Idle) (n, p) → Z.of_nat (tip_of n) ≤ MaxUint64 →
  ∀ h b, blocks_of n !! h = Some b → fair_batch (Block.Transactions b).
Proof.
  intros Hr Hsz. apply (run_listed fair_batch c now (n, p)); [|done..].
  intros n' p' Hok Hm it clock Hit. destruct (ok_pool _ _ Hok). by apply List_fair.
Qed.

Lemma Blocks_fair_witness : fair_batch (Block.Transactions minted).
Proof.
  apply (Blocks_fair DefaultConfig (λ _, 0) node3 (Committed [tx1] minted) node3_reachable
           ltac:(by vm_compute) 1 minted).
  unfold blocks_of, node3. simpl. reflexivity.
Defined.

(** ** A transaction in two blocks *)
Definition node9b : Node.t := Node.with_pool node9 (Mempool.Add (Node.pool node9) tx1).1.
Definition node9c : Node.t := Node.with_state node9b (Apply (Node.state node9b) tx1).1.
Definition minted_again : Block.t := new_block minted (Root (Node.state node9c)) [tx1] clock.
Definition node10b : Node.t := Node.with_repo node9c (PutBlock (Node.repo node9c) minted_again).1.
Lemma node9_reachable : rtc step (node0, Idle) (node9, Idle).
Proof.
  etrans; [exact node3_reachable|].
  eapply rtc_l; [exact (mine_remove node3 [tx1] minted)|]. apply rtc_once. exact (mine_done node8 minted clock clock).
Qed.
Lemma node10b_reachable : rtc step (node0, Idle) (node10b, Committed [tx1] minted_again).
Proof.
  etrans; [exact node9_reachable|].
  eapply rtc_l; [exact (tx_add node9 Idle tx1)|].
  eapply rtc_l; [apply (mine_list node9b ["t1"] (λ _, 1700000000)); apply (bool_decide_unpack _); by vm_compute|].
  eapply rtc_l; [apply (mine_latest node9b _ [1]); apply (bool_decide_unpack _); by vm_compute|].
  eapply rtc_l; [exact (mine_apply node9b [tx1] _ tx1 [])|].
  apply rtc_once. exact (mine_put node9c [tx1] _ clock _ minted_again eq_refl eq_refl).
Qed.

(** The pool forgets the nonces of mined transactions: one and the same transaction
    is accepted again after it was mined, and is in two blocks of the chain. *)
Theorem tx_replayed :
  ∃ n p h h' b b' t,
    rtc step (NewNode DefaultConfig (λ _, 0), Idle) (n, p) ∧ h ≠ h' ∧
    blocks_of n !! h = Some b ∧ blocks_of n !! h' = Some b' ∧
    t ∈ Block.Transactions b ∧ t ∈ Block.Transactions b' ∧ VerifyChain (Node.repo n) = nilerr.
Proof.
  exists node10b, (Committed [tx1] minted_again), 1, 2, minted, minted_again, tx1.
  split; [exact node10b_reachable|]. split; [done|]. split; [by vm_compute|]. split; [by vm_compute|].
  split; [by left|]. split; [by left|]. by vm_compute.
Qed.
