(* ===== verification/Api.v ===== *)
(** * app/node.go: the HTTP API

    Every handler as a function from the node and the request to the node and
    the response, for a node that serves one request at a time; [mine] is shown
    to be a run of the concurrent system of [Node]. The bytes of a body are
    decoded by [decode_tx] and [decode_peer]; what is read from clocks,
    the random source and the iteration orders of maps is the environment [Env.t]. *)
From S2P Require Import Prelude Machine GoString Mux GoSort GoMap Sha256 Collision ChainDomain.
From S2P Require Import StateMachine LightProof Mempool Repository AuditChain P2P TxJson Consensus Metrics Node NodeTypes.

(** ** Requests and responses *)
Module Env.
Record t := mk { now : nat → Z;               (* the calls of time.Now() in turn *)
                 pool_now : string → Z;       (* those of pool.List, by transaction *)
                 rand : list Z;               (* rand.Read *)
                 it_pool : list string; it_blocks : list Z;
                 it_snaps : list string; it_peers : list string }.
(** The orders are orders of the maps of the node. *)
Definition fits (e : t) (n : Node.t) : Prop :=
  ranges (it_pool e) (Pool.tx (Node.pool n)) ∧ ranges (it_blocks e) (blocks_of n) ∧
  ranges (it_snaps e) (Repo.snaps (Node.repo n)) ∧ ranges (it_peers e) (P2P.peers (Node.peers n)).
#[global] Instance fits_dec e n : Decision (fits e n).
Proof. unfold fits. apply _. Defined.
End Env.
Module Req.
(** [r.RequestURI] is the target as it was sent, [r.URL.Path] its path. *)
Record t := mk { Method : string; RequestURI : string; Path : string; Body : list Z }.
End Req.
(** What a handler encodes; for a redirection, its [Location] header. *)
Inductive body :=
  | BError (e : string) | BHealth (chain : string) (height : Z) | BMetrics (m : gmap string Metrics.value)
  | BNetworks (l : list Network.t) | BPeer (p : Peer.t) | BPeers (l : list Peer.t)
  | BTx (t : Tx.t) | BTxs (l : list Tx.t) | BBlock (b : Block.t) | BBlocks (l : list Block.t)
  | BSync (from peers : Z) | BSnapshots (l : list Snapshot.t) | BSnapshot (s : Snapshot.t)
  | BVerified (id : string) (v : bool) | BRollback (latest : Z) | BProof (i : Item.t)
  | BStatus (s : Z * Z * Phase * Z) | BLocation (path : string) | BNotFound | BEmpty.
(** Status code and body. *)
Abbreviation response := (Z * body)%type.

Section handlers.
Context `{Hasher}.
Implicit Types (n : Node.t) (e : Env.t) (r : Req.t).

Definition latest e n : Block.t := Latest (Env.it_blocks e) (Node.repo n).

(** ** The handlers *)
Definition health e n : Node.t * response :=
  (n, (200, BHealth (Network.ChainID (Config.Network_ (Node.cfg n))) (Block.Height (latest e n)))).
Definition metricsH e n : Node.t * response :=
  (n, (200, BMetrics (Metrics.Snapshot (Node.metrics n) (Env.now e 0%nat)))).
Definition networks n : Node.t * response := (n, (200, BNetworks [Config.Network_ (Node.cfg n)])).
Definition peerH e r n : Node.t * response :=
  if decide (Req.Method r = "POST") then
    match decode_peer (Req.Body r) with
    | Some p =>
        if decide (Peer.ID p = "") then (n, (400, BError "id required")) else
        (Node.with_peers n (P2P.Add (Node.peers n) p (Env.now e 0%nat)), (201, BPeer p))
    | None => (n, (400, BError "bad json"))
    end
  else (n, (200, BPeers (P2P.List (Env.it_peers e) (Node.peers n)))).
Definition txH e r n : Node.t * response :=
  if decide (Req.Method r ≠ "POST") then (n, (405, BError "method")) else
  match decode_tx (Req.Body r) with
  | Some t =>
      let t := if decide (Tx.ID t = "") then Tx.with_ID t (hex (Env.rand e)) else t in
      match Mempool.Add (Node.pool n) t with
      | (p, Some err) => (Node.count_error (Node.with_pool n p), (409, BError err))
      | (p, None) =>
          (Node.log (Node.with_pool n p) "tx.accept" (Tx.ID t) (Env.now e 0%nat) (Env.now e 1%nat), (202, BTx t))
      end
  | None => (n, (400, BError "bad json"))
  end.
Definition pool_list e n : list Tx.t :=
  Mempool.List (Env.it_pool e) (λ id, Time.Unix (Env.pool_now e id)) (Node.pool n).
Definition mempoolH e n : Node.t * response := (n, (200, BTxs (pool_list e n))).
Definition blockH r n : Node.t * response :=
  match ParseUint (TrimPrefix (Req.Path r) "/api/v1/blocks/") with
  | None => (n, (400, BError "height"))
  | Some h => match Repository.Block (Node.repo n) h with
              | (_, false) => (n, (404, BError "not found"))
              | (b, true) => (n, (200, BBlock b))
              end
  end.
Definition mine e n : Node.t * response :=
  let txs := pool_list e n in
  let '(st, rp, b, err) :=
    produce (Env.it_blocks e) (Env.now e 0%nat) (Node.state n) (Node.repo n) txs in
  let n := Node.with_repo (Node.with_state n st) rp in
  match err with
  | Some m => (n, (409, BError m))
  | None =>
      let n := Node.with_pool n (Mempool.Remove (Node.pool n) (Tx.ID <$> txs)) in
      (Node.log (Node.count_block n) "block.commit" (fmt_d (Block.Height b)) (Env.now e 1%nat)
         (Env.now e 2%nat),
       (201, BBlock b))
  end.
Definition syncH e n : Node.t * response :=
  (n, (202, BSync (Block.Height (latest e n)) (len (P2P.List (Env.it_peers e) (Node.peers n))))).
Definition snapH e r n : Node.t * response :=
  if decide (Req.Method r = "GET")
  then (n, (200, BSnapshots (Snapshots (Env.it_snaps e) (Node.repo n)))) else
  let '(n, s) := take_snapshot (Env.it_blocks e) (Env.now e) n in (n, (201, BSnapshot s)).
Definition snapVerify r n : Node.t * response :=
  let id := TrimSuffix (TrimPrefix (Req.Path r) "/api/v1/snapshots/") "/verify" in
  if decide (id = "") then (n, (400, BError "snapshot id required")) else
  match Repository.Snapshot (Node.repo n) id with
  | (_, false) => (n, (404, BError "not found"))
  | (s, true) => let '(n, v) := verify_snapshot n s in (n, (200, BVerified id v))
  end.
Definition rollback e n : Node.t * response := (n, (200, BRollback (Block.Height (latest e n)))).
Definition checkpointsH n : Node.t * response := (n, (200, BBlocks (Node.checkpoints n))).
Definition proofH r n : Node.t * response :=
  (n, (200, BProof (LightProof.Build (Node.state n) (TrimPrefix (Req.Path r) "/api/v1/proofs/")))).
Definition consensusH n : Node.t * response := (n, (200, BStatus (Status (Node.bft n)))).

(** ** [Handler]: the routes, an exact pattern before a subtree; any method *)
Inductive endpoint :=
  | EHealth | EMetrics | ENetworks | EPeers | ETransactions | EMempool | EBlocks | EMine | ESync
  | ESnapshots | ESnapVerify | ERollback | ECheckpoints | EProofs | EConsensus.
Definition exact_routes : list (string * endpoint) :=
  [("/healthz", EHealth); ("/metrics", EMetrics); ("/api/v1/networks", ENetworks);
   ("/api/v1/peers", EPeers); ("/api/v1/transactions", ETransactions);
   ("/api/v1/mempool", EMempool); ("/api/v1/blocks/mine", EMine); ("/api/v1/sync", ESync);
   ("/api/v1/snapshots", ESnapshots); ("/api/v1/rollback-plan", ERollback);
   ("/api/v1/light/checkpoints", ECheckpoints); ("/api/v1/consensus/views", EConsensus)].
Definition subtree_routes : list (string * endpoint) :=
  [("/api/v1/blocks/", EBlocks); ("/api/v1/snapshots/", ESnapVerify); ("/api/v1/proofs/", EProofs)].
Definition route (r : Req.t) : routed endpoint :=
  ServeHTTP exact_routes subtree_routes (Req.RequestURI r) (Req.Method r) (Req.Path r).
Definition dispatch e r n (h : endpoint) : Node.t * response :=
  match h with
  | EHealth => health e n | EMetrics => metricsH e n | ENetworks => networks n | EPeers => peerH e r n
  | ETransactions => txH e r n | EMempool => mempoolH e n | EBlocks => blockH r n | EMine => mine e n
  | ESync => syncH e n | ESnapshots => snapH e r n | ESnapVerify => snapVerify r n
  | ERollback => rollback e n | ECheckpoints => checkpointsH n | EProofs => proofH r n
  | EConsensus => consensusH n
  end.
(** One request through [middleware]; [OPTIONS *] is answered by [http.Server] itself
    and does not get here. *)
Definition serve e r n : Node.t * response :=
  let n := Node.count_request n in
  match route r with
  | Matched h => dispatch e r n h
  | Redirected location => (n, (301, BLocation location))
  | NotFound => (n, (404, BNotFound))
  | BadRequest => (n, (400, BEmpty))
  end.
End handlers.

(** ** Lemmas: the sequential API runs the concurrent system, on Go values *)
Section refine.
Context `{Hasher}.
Implicit Types (n : Node.t) (e : Env.t) (r : Req.t).

Lemma run_apply n txs prev todo :
  rtc tstep (n, Applying txs prev todo)
            (Node.with_state n (apply_all (Node.state n) todo), Applying txs prev []).
Proof.
  revert n. induction todo as [|t todo IH]; intros n; [by destruct n|].
  eapply rtc_l; [apply tstep_quiet; [apply mine_apply|done]|]. apply IH.
Qed.

Lemma mine_run e n : Env.fits e n → rtc tstep (n, Idle) ((mine e n).1, Idle).
Proof.
  intros (Hp & Hb & _). unfold mine, produce.
  set (txs := pool_list e n). set (prev := cs_latest (Env.it_blocks e) (Node.repo n)).
  set (st := apply_all (Node.state n) txs).
  set (b := new_block prev (Root st) txs (Env.now e 0%nat)).
  assert (rtc tstep (n, Idle) (Node.with_state n st, Applying txs prev [])) as H1.
  { eapply rtc_l; [apply tstep_quiet; [by apply (mine_list n (Env.it_pool e) (λ id, Time.Unix (Env.pool_now e id)))|done]|].
    eapply rtc_l; [apply tstep_quiet; [by apply (mine_latest n _ (Env.it_blocks e))|done]|]. apply run_apply. }
  destruct (cs_put (Node.repo n) b) as [rp err] eqn:Ep. simpl in Ep.
  destruct err as [m|]; simpl.
  - assert (rp = Node.repo n) as ->.
    { revert Ep. unfold PutBlock. destruct (Repo.blocks (Node.repo n) !! Block.Height b); congruence. }
    eapply rtc_r; [exact H1|]. apply tstep_quiet; [|done].
    apply (mine_refused (Node.with_state n st) txs prev (Env.now e 0%nat) m). simpl. fold b. by rewrite Ep.
  - etrans; [exact H1|]. eapply rtc_l.
    { apply tstep_quiet;
        [apply (mine_put (Node.with_state n st) txs prev (Env.now e 0%nat) rp b); [done|exact Ep]|done]. }
    eapply rtc_l; [apply tstep_quiet; [apply mine_remove|apply Remove_shrinks]|].
    apply rtc_once, tstep_quiet; [apply mine_done|done].
Qed.

Lemma txH_run e r n : rtc tstep (n, Idle) ((txH e r n).1, Idle).
Proof.
  unfold txH. case_decide; [apply rtc_refl|].
  destruct (decode_tx (Req.Body r)) as [t|] eqn:Et; [|apply rtc_refl]. apply decode_tx_typed in Et.
  set (t' := if decide (Tx.ID t = "") then _ else t).
  assert (Tx.typed t') as Ht' by (unfold t'; case_decide; [by destruct Et|done]).
  pose proof (tx_add_typed n Idle t' Ht') as Ha.
  destruct (Mempool.Add (Node.pool n) t') as [p [err|]]; simpl;
    (eapply rtc_l; [exact Ha|]); apply rtc_once, tstep_quiet; try done; [apply tx_error|apply audit_append].
Qed.

Lemma dispatch_run e r n h : Env.fits e n → rtc tstep (n, Idle) ((dispatch e r n h).1, Idle).
Proof.
  intros Hf. pose proof Hf as (_ & Hb & _). destruct h; simpl; try apply rtc_refl.
  - unfold peerH. repeat case_match; try apply rtc_refl. apply rtc_once, tstep_quiet; [apply peer_add|done].
  - apply txH_run.
  - unfold blockH. repeat case_match; apply rtc_refl.
  - by apply mine_run.
  - unfold snapH. case_decide; [apply rtc_refl|].
    pose proof (snapshot_make n (Env.it_blocks e) (Env.now e) Hb) as Hs.
    by apply rtc_once, tstep_quiet.
  - unfold snapVerify. case_decide; [apply rtc_refl|].
    set (id := TrimSuffix _ _). unfold Repository.Snapshot.
    destruct (Repo.snaps (Node.repo n) !! id) as [s|] eqn:Es; [|apply rtc_refl].
    pose proof (snapshot_verify n id s Es) as Hs. by apply rtc_once, tstep_quiet.
Qed.

Lemma serve_run e r n : Env.fits e n → rtc tstep (n, Idle) ((serve e r n).1, Idle).
Proof.
  intros Hf. unfold serve. eapply rtc_l; [apply tstep_quiet; [apply request|done]|].
  destruct (route r); [by apply dispatch_run|apply rtc_refl..].
Qed.

(** Only the multiplexer redirects. *)
Lemma dispatch_location e r n h n1 l : dispatch e r n h ≠ (n1, (301, BLocation l)).
Proof.
  destruct h; simpl; unfold health, metricsH, networks, peerH, txH, mempoolH, blockH, mine, syncH, snapH,
    snapVerify, rollback, checkpointsH, proofH, consensusH; repeat case_match; congruence.
Qed.
Lemma serve_location e r n n1 l :
  serve e r n = (n1, (301, BLocation l)) → n1 = Node.count_request n ∧ route r = Redirected l.
Proof.
  unfold serve. destruct (route r); [by intros E%dispatch_location| |done..]. by intros [= <- <-].
Qed.

(** A run of the sequential API. *)
Inductive served : Node.t → Node.t → Prop :=
  | served_refl n : served n n
  | served_step n e r n' : Env.fits e n → served (serve e r n).1 n' → served n n'.
Lemma served_typed_run n n' : served n n' → rtc tstep (n, Idle) (n', Idle).
Proof.
  induction 1 as [|n e r n' Hf _ IH]; [apply rtc_refl|]. etrans; [|exact IH].
  by apply serve_run.
Qed.
Lemma served_run n n' : served n n' → rtc step (n, Idle) (n', Idle).
Proof. intros Hs%served_typed_run. revert Hs. apply rtc_subrel. by intros x y [? _]. Qed.

Lemma mine_spec e n :
  node_ok n Idle → Env.fits e n → Z.of_nat (tip_of n) < MaxUint64 →
  ∃ b, (mine e n).2 = (201, BBlock b) ∧
    let n' := (mine e n).1 in
    blocks_of n' = <[Block.Height b := b]> (blocks_of n) ∧
    Block.Height b = Z.of_nat (tip_of n) + 1 ∧ VerifyChain (Node.repo n') = nilerr ∧
    Block.Transactions b = pool_list e n ∧
    State.data (Node.state n') = fold_left write_tx (Block.Transactions b) (State.data (Node.state n)) ∧
    Header.StateRoot (Block.header b) = Root (Node.state n') ∧
    ∀ id, Pool.tx (Node.pool n') !! id =
      if decide (id ∈ Tx.ID <$> Block.Transactions b) then None else Pool.tx (Node.pool n) !! id.
Proof.
  intros Hn (_ & Hb & _) Hsz. destruct (ok_repo _ _ Hn) as [Hk Hv].
  destruct (produce_repo (Env.it_blocks e) (Env.now e 0%nat) (Node.state n) (Node.repo n)
              (pool_list e n) Hk Hv Hb Hsz) as (rp & b & Ep & Hk' & Hv' & Eb & Hh & _ & Ht & Hr).
  exists b. unfold mine. rewrite Ep. simpl. split; [done|]. split; [done|]. split; [done|].
  split; [done|]. split; [done|]. split; [by rewrite apply_all_data, Ht|]. split; [exact Hr|].
  rewrite Ht. by apply Remove_spec, (ok_pool _ _ Hn).
Qed.

Lemma snapVerify_spec e r n id s :
  node_ok n Idle → id ≠ "" →
  TrimSuffix (TrimPrefix (Req.Path r) "/api/v1/snapshots/") "/verify" = id →
  Repo.snaps (Node.repo n) !! id = Some s →
  ∃ v, (snapVerify r n).2 = (200, BVerified id v) ∧
    (v = true ↔ root (Snapshot.Data s) = root (Data (Node.state n))) ∧
    (v = true → clean (Snapshot.Data s) → clean (Data (Node.state n)) →
     Snapshot.Data s = Data (Node.state n) ∨
     Collision [root_input (sort_Strings (map_keys (Snapshot.Data s))) (Snapshot.Data s)]
               [root_input (sort_Strings (map_keys (Data (Node.state n)))) (Data (Node.state n))]).
Proof.
  intros Hn Hid Hp Hs. destruct (ok_snaps _ _ Hn id s Hs) as (_ & Hr & _).
  unfold snapVerify. rewrite Hp, decide_False by done. unfold Repository.Snapshot. rewrite Hs. simpl.
  assert (bool_decide (Snapshot.Root s = Root (Node.state n)) = true ↔
          root (Snapshot.Data s) = root (Data (Node.state n))) as Hv.
  { rewrite bool_decide_eq_true, Hr. done. }
  eexists. split; [done|]. split; [exact Hv|].
  intros E%Hv C1 C2. by apply root_binding.
Qed.
End refine.

(** ** Properties *)

(** C11: the sequential API implements the concurrent system: whatever requests are
    served, one at a time, on any route and with any bytes as the body, the node is
    one the system can reach; so its chain verifies, its state is the replay of its
    blocks, its snapshots hold the entries of their heights, and every
    transaction and block it stores is a Go value, in the range of its types. *)
Theorem API_invariant c now n :
  served (NewNode c now) n → Z.of_nat (tip_of n) ≤ MaxUint64 →
  rtc step (NewNode c now, Idle) (n, Idle) ∧ node_ok n Idle ∧ node_typed n Idle.
Proof.
  intros Hs Hsz. split; [by apply served_run|].
  split; [by eapply reachable_ok; [apply served_run|]|].
  by apply (run_typed c now n Idle (served_typed_run _ _ Hs)).
Qed.

(** C28: a request for [*] is refused, with 400; of the others, one of any method but
    CONNECT, on a path that is not clean, or on [/api/v1/blocks] or [/api/v1/proofs],
    reaches no handler: it is counted and redirected; and one
    redirection is enough: whatever request is sent to the new location, of any
    method and in whatever state the node then is, is not redirected again. *)
Theorem Redirect_settles e r n :
  (Req.RequestURI r = "*" → serve e r n = (Node.count_request n, (400, BEmpty))) ∧
  (Req.RequestURI r ≠ "*" → Req.Method r ≠ "CONNECT" →
   cleanPath (Req.Path r) ≠ Req.Path r ∨ Req.Path r = "/api/v1/blocks" ∨ Req.Path r = "/api/v1/proofs" →
   ∃ location, serve e r n = (Node.count_request n, (301, BLocation location))) ∧
  ∀ n1 location, serve e r n = (n1, (301, BLocation location)) →
    n1 = Node.count_request n ∧
    ∀ e' r' n' l, Req.Path r' = location → (serve e' r' n').2 ≠ (301, BLocation l).
Proof.
  split; [|split].
  - intros Hu. unfold serve, route, ServeHTTP. by rewrite decide_True.
  - intros Hu Hm Hp. unfold serve, route, ServeHTTP, findHandler.
    rewrite (decide_False (P := Req.RequestURI r = "*")) by done.
    rewrite (decide_False (P := Req.Method r = "CONNECT")) by done.
    case_decide as Hs; [by eexists|]. rewrite decide_True; [by eexists|]. split; [done|].
    destruct Hp as [?|[E|E]]; [done|rewrite E in Hs; destruct Hs..];
      apply (bool_decide_unpack _); by vm_compute.
  - intros n1 location E. destruct (serve_location e r n n1 location E) as [-> Hr]. split; [done|].
    intros e' r' n' l Hp E'. destruct (serve e' r' n') as [n2 [c b]] eqn:Es. simpl in E'.
    injection E' as -> ->. apply serve_location in Es as [_ Hr']. unfold route in Hr, Hr'.
    rewrite Hp in Hr'. revert Hr'. eapply ServeHTTP_settles; [|exact Hr].
    apply (bool_decide_unpack _). by vm_compute.
Qed.

(** C2: mining, from any state the API reaches below the last height, answers 201
    with the block of the next height over the listed transactions; the chain
    still verifies, the state is the old one with these transactions applied, the
    block carries its root, and exactly these identifiers leave the pool. *)
Theorem mine_commits c now n e :
  served (NewNode c now) n → Env.fits e n → Z.of_nat (tip_of n) < MaxUint64 →
  ∃ b, (mine e n).2 = (201, BBlock b) ∧
    let n' := (mine e n).1 in
    blocks_of n' = <[Block.Height b := b]> (blocks_of n) ∧
    Block.Height b = Z.of_nat (tip_of n) + 1 ∧ VerifyChain (Node.repo n') = nilerr ∧
    Block.Transactions b = pool_list e n ∧
    State.data (Node.state n') = fold_left write_tx (Block.Transactions b) (State.data (Node.state n)) ∧
    Header.StateRoot (Block.header b) = Root (Node.state n') ∧
    ∀ id, Pool.tx (Node.pool n') !! id =
      if decide (id ∈ Tx.ID <$> Block.Transactions b) then None else Pool.tx (Node.pool n) !! id.
Proof.
  intros Hs%served_run Hf Hsz. exact (mine_spec e n (reachable_ok c now n Idle Hs ltac:(lia)) Hf Hsz).
Qed.

(** The block of a height, once stored, is served under the decimal of its
    height, and no other answer than 404 is given for a height without a block. *)
Theorem block_served n h meth u bd :
  is_u64 h →
  (blockH (Req.mk meth u ("/api/v1/blocks/" +:+ fmt_d h) bd) n).2 =
  match blocks_of n !! h with
  | Some b => (200, BBlock b)
  | None => (404, BError "not found")
  end.
Proof.
  intros Hh. unfold blockH. cbn [Req.Path]. rewrite TrimPrefix_app, ParseUint_fmt_d by done.
  unfold Repository.Block. by destruct (blocks_of n !! h).
Qed.

(** C29: in every state the API reaches (of at most 2^64-1 blocks), a snapshot that is
    stored under the identifier of the path is reported verified exactly when the
    root of its entries is the root of the state at the time of the request, not
    at its own height; and when moreover no key of the two holds an equals sign and
    no value a semicolon, the separators of the printed state, a verified
    snapshot holds the entries of that state, or the two printed states collide. *)
Theorem snapshot_verified c now n e r id s :
  served (NewNode c now) n → Z.of_nat (tip_of n) ≤ MaxUint64 → id ≠ "" →
  TrimSuffix (TrimPrefix (Req.Path r) "/api/v1/snapshots/") "/verify" = id →
  Repo.snaps (Node.repo n) !! id = Some s →
  ∃ v, (dispatch e r n ESnapVerify).2 = (200, BVerified id v) ∧
    (v = true ↔ root (Snapshot.Data s) = root (Data (Node.state n))) ∧
    (v = true → clean (Snapshot.Data s) → clean (Data (Node.state n)) →
     Snapshot.Data s = Data (Node.state n) ∨
     Collision [root_input (sort_Strings (map_keys (Snapshot.Data s))) (Snapshot.Data s)]
               [root_input (sort_Strings (map_keys (Data (Node.state n)))) (Data (Node.state n))]).
Proof.
  intros Hs%served_run Hsz. exact (snapVerify_spec e r n id s (reachable_ok c now n Idle Hs Hsz)).
Qed.

(** ** Witnesses: post a transaction, take a snapshot, mine *)
Definition env (pool : list string) (snaps : list string) : Env.t :=
  Env.mk (λ _, clock) (λ _, clock) [] pool [] snaps ["validator-1"].
(** A request whose target is its path. *)
Definition on (Method path : string) (body : list Z) : Req.t := Req.mk Method path path body.
Definition post_tx : Req.t := on "POST" "/api/v1/transactions" (encode_tx tx1).
Definition post_snap : Req.t := on "POST" "/api/v1/snapshots" [].
Definition api1 : Node.t := (serve (env [] []) post_tx node0).1.
Definition api2 : Node.t := (serve (env ["t1"] []) post_snap api1).1.
Definition snap_id : string := "snap-1700000000000000000".

Lemma api1_served n : served api1 n → served node0 n.
Proof. unfold api1. apply served_step. apply (bool_decide_unpack _). by vm_compute. Qed.
Lemma api2_served : served node0 api2.
Proof.
  apply api1_served. unfold api2. eapply served_step; [|apply served_refl].
  apply (bool_decide_unpack _). by vm_compute.
Qed.

Lemma Redirect_settles_witness :
  ∃ location, serve (env [] []) (on "GET" "/api/v1//blocks/x/../7" []) node0 =
    (Node.count_request node0, (301, BLocation location)) ∧
    ∀ e' u m body n' l, (serve e' (Req.mk m u location body) n').2 ≠ (301, BLocation l).
Proof.
  destruct (Redirect_settles (env [] []) (on "GET" "/api/v1//blocks/x/../7" []) node0) as (_ & H1 & H2).
  destruct H1 as [location E]; [done|done|left; apply (bool_decide_unpack _); by vm_compute|].
  exists location. split; [exact E|]. destruct (H2 _ _ E) as [_ Hs]. intros. by apply Hs.
Defined.
Example redirected :
  route (on "GET" "/api/v1//blocks/x/../7" []) = Redirected "/api/v1/blocks/7" ∧
  route (on "POST" "/api/v1/proofs" []) = Redirected "/api/v1/proofs/" ∧
  route (on "POST" "/api/v1/blocks/mine" []) = Matched EMine ∧
  route (on "GET" "/api/v1/snapshots" []) = Matched ESnapshots ∧
  route (on "CONNECT" "/api/v1//sync" []) = NotFound ∧
  route (on "GET" "*" []) = BadRequest ∧ route (Req.mk "CONNECT" "*" "" []) = BadRequest.
Proof. by vm_compute. Qed.

Lemma API_invariant_witness : rtc step (node0, Idle) (api2, Idle) ∧ node_ok api2 Idle ∧ node_typed api2 Idle.
Proof. apply (API_invariant DefaultConfig (λ _, 0) api2 api2_served). by vm_compute. Defined.

Lemma mine_commits_witness :
  let e := env ["t1"] [snap_id] in
  ∃ b, (mine e api2).2 = (201, BBlock b) ∧
    let n' := (mine e api2).1 in
    blocks_of n' = <[Block.Height b := b]> (blocks_of api2) ∧
    Block.Height b = Z.of_nat (tip_of api2) + 1 ∧ VerifyChain (Node.repo n') = nilerr ∧
    Block.Transactions b = pool_list e api2 ∧
    State.data (Node.state n') = fold_left write_tx (Block.Transactions b) (State.data (Node.state api2)) ∧
    Header.StateRoot (Block.header b) = Root (Node.state n') ∧
    ∀ id, Pool.tx (Node.pool n') !! id =
      if decide (id ∈ Tx.ID <$> Block.Transactions b) then None else Pool.tx (Node.pool api2) !! id.
Proof.
  intros e. apply (mine_commits DefaultConfig (λ _, 0) api2 e api2_served).
  - apply (bool_decide_unpack _). by vm_compute.
  - by vm_compute.
Defined.

Lemma block_served_witness :
  (blockH (on "GET" ("/api/v1/blocks/" +:+ fmt_d 1) []) node3).2 =
  match blocks_of node3 !! 1 with
  | Some b => (200, BBlock b)
  | None => (404, BError "not found")
  end.
Proof. apply (block_served node3 1 "GET" ("/api/v1/blocks/" +:+ fmt_d 1) []). by split. Defined.

Lemma snapshot_verified_witness :
  let r := on "POST" "/api/v1/snapshots/snap-1700000000000000000/verify" [] in
  let s := default Snapshot.zero (Repo.snaps (Node.repo api2) !! snap_id) in
  ∃ v, (dispatch (env ["t1"] [snap_id]) r api2 ESnapVerify).2 = (200, BVerified snap_id v) ∧
    (v = true ↔ root (Snapshot.Data s) = root (Data (Node.state api2))) ∧
    (v = true → clean (Snapshot.Data s) → clean (Data (Node.state api2)) →
     Snapshot.Data s = Data (Node.state api2) ∨
     Collision [root_input (sort_Strings (map_keys (Snapshot.Data s))) (Snapshot.Data s)]
               [root_input (sort_Strings (map_keys (Data (Node.state api2)))) (Data (Node.state api2))]).
Proof.
  intros r s. apply (snapshot_verified DefaultConfig (λ _, 0) api2 (env ["t1"] [snap_id]) r snap_id s api2_served).
  - by vm_compute.
  - discriminate.
  - by vm_compute.
  - by vm_compute.
Defined.
