(* ===== verification/Main.v ===== *)
(** * cmd/node/main.go: the process

    The address and the server that [main] sets up, and the run of its two
    goroutines, the server's and main's own, as a step relation that interleaves
    them with the signals of the operating system. *)
From S2P Require Import Prelude Machine Node.

(** ** Model: the server *)
(** [addr]: the environment variable [CHAIN_ADDR], or [:8080]. *)
Definition addr (CHAIN_ADDR : string) : string :=
  if decide (CHAIN_ADDR = "") then ":8080" else CHAIN_ADDR.
Module Server.
Record t := mk { Addr : string; node : Node.t; ReadHeaderTimeout : Z; ReadTimeout : Z;
                 WriteTimeout : Z; IdleTimeout : Z }.
End Server.
(** [srv]; its handler is that of a new node with the default configuration. *)
Definition srv (CHAIN_ADDR : string) (now : nat → Z) : Server.t :=
  Server.mk (addr CHAIN_ADDR) (NewNode DefaultConfig now) (5 * Time.second) (15 * Time.second)
    (15 * Time.second) (60 * Time.second).

(** ** Model: the process *)
Definition ErrServerClosed : string := "http: Server closed".
(** The server's goroutine: before [log.Printf], in [ListenAndServe] before and after
    it listens, after it returned, at its end. *)
Inductive server_place := Born | Entered | Listening | Returned (err : error) | Over.
(** Main: before [signal.Notify], at [<-c], in [Shutdown]. *)
Inductive main_place := Starting | Waiting | Stopping.
(** [os.Exit] with a status, a return from [main] included; or killed by a signal. *)
Inductive ending := Exited (status : Z) | Killed.
Module Process.
Record t := mk { server : server_place; main : main_place;
                 c : bool;            (* a signal is in the channel *)
                 closing : bool;      (* srv.inShutdown *)
                 logged : list string;
                 exit : option ending }.
Definition initial : t := mk Born Starting false false [] None.
End Process.

Section process.
Variable listen_addr : string.
Implicit Types p : Process.t.

(** A step of the goroutine: [shut] is what it sees of [inShutdown]. *)
Inductive server_step (shut : bool) : server_place → server_place → Prop :=
  | s_refuse : shut = true → server_step shut Entered (Returned (Some ErrServerClosed))
  | s_listen : server_step shut Entered Listening
  | s_listen_error e : e ≠ ErrServerClosed → server_step shut Entered (Returned (Some e))
  | s_closed : shut = true → server_step shut Listening (Returned (Some ErrServerClosed))
  | s_accept_error e : shut = false → e ≠ ErrServerClosed → server_step shut Listening (Returned (Some e))
  | s_end err : err = nilerr ∨ err = Some ErrServerClosed → server_step shut (Returned err) Over.
(** A step of the process, until it has ended. *)
Inductive pstep : Process.t → Process.t → Prop :=
  | p_printf m c k l :
      pstep (Process.mk Born m c k l None)
            (Process.mk Entered m c k (l ++ ["chain node listening on " +:+ listen_addr]) None)
  | p_server s s' m c k l :
      server_step k s s' → pstep (Process.mk s m c k l None) (Process.mk s' m c k l None)
  | p_fatal e m c k l :                                   (* log.Fatal *)
      e ≠ ErrServerClosed →
      pstep (Process.mk (Returned (Some e)) m c k l None)
            (Process.mk (Returned (Some e)) m c k (l ++ [e]) (Some (Exited 1)))
  | p_notify s c k l : pstep (Process.mk s Starting c k l None) (Process.mk s Waiting c k l None)
  | p_killed s c k l : pstep (Process.mk s Starting c k l None) (Process.mk s Starting c k l (Some Killed))
  | p_interrupt s m c k l :                               (* sent unless the buffer is full *)
      m ≠ Starting → pstep (Process.mk s m c k l None) (Process.mk s m true k l None)
  | p_receive s k l : pstep (Process.mk s Waiting true k l None) (Process.mk s Stopping false true l None)
  | p_return s c k l :                                    (* drained, or after five seconds *)
      pstep (Process.mk s Stopping c k l None) (Process.mk s Stopping c k l (Some (Exited 0))).

(** ** Specification *)

(** How far main has come, whatever the signals and the server do. *)
Definition left_of_main p : nat :=
  match Process.exit p, Process.main p with
  | Some _, _ => 0
  | None, Stopping => 1
  | None, Waiting => 2
  | None, Starting => 3
  end.
Definition process_ok p : Prop :=
  (Process.closing p = true ↔ Process.main p = Stopping) ∧
  match Process.exit p with
  | None => True
  | Some Killed => Process.main p = Starting
  | Some (Exited st) =>
      (st = 0 ∧ Process.main p = Stopping) ∨
      (st = 1 ∧ ∃ e, Process.server p = Returned (Some e) ∧ e ≠ ErrServerClosed ∧
                     last (Process.logged p) = Some e)
  end.

Lemma pstep_ok p p' : pstep p p' → process_ok p → process_ok p'.
Proof.
  intros Hs [Hc _]. inversion Hs; subst; unfold process_ok in *; simpl in *;
    try (split; [done || naive_solver|by auto]).
  split; [done|right]. split; [done|]. eexists. split_and!; [done..|]. apply last_snoc.
Qed.
Lemma run_ok p p' : rtc pstep p p' → process_ok p → process_ok p'.
Proof. induction 1; eauto using pstep_ok. Qed.

(** ** Properties *)

(** How the process ends. In every reachable state: the server is closing exactly
    when main is in its shutdown; the status is 0 only in that shutdown, 1 only
    when [ListenAndServe] has returned an error other than [ErrServerClosed], which
    is the last line of the log, and a signal kills the process only before
    [signal.Notify]. No step takes main back, and with a signal in the channel, or
    in the shutdown, main has a step that brings it nearer to its end. *)
Theorem Process_ends p :
  rtc pstep Process.initial p →
  process_ok p ∧
  (∀ p', pstep p p' → (left_of_main p' ≤ left_of_main p)%nat) ∧
  (Process.exit p = None →
   Process.main p = Stopping ∨ Process.main p = Waiting ∧ Process.c p = true →
   ∃ p', pstep p p' ∧ (left_of_main p' < left_of_main p)%nat).
Proof.
  intros Hr. split_and!.
  - apply (run_ok _ _ Hr). unfold process_ok. simpl. naive_solver.
  - intros p' Hs. inversion Hs; subst; unfold left_of_main; simpl; repeat case_match; try lia; done.
  - destruct p as [s m c k l x]. simpl. intros -> [->|[-> ->]].
    + exists (Process.mk s Stopping c k l (Some (Exited 0))). split; [constructor|]. unfold left_of_main. simpl. lia.
    + exists (Process.mk s Stopping false true l None). split; [constructor|]. unfold left_of_main. simpl. lia.
Qed.
End process.

Lemma Process_ends_witness :
  let p := Process.mk Entered Waiting true false ["chain node listening on :8080"] None in
  process_ok p ∧
  (∀ p', pstep (addr "") p p' → (left_of_main p' ≤ left_of_main p)%nat) ∧
  (Process.exit p = None →
   Process.main p = Stopping ∨ Process.main p = Waiting ∧ Process.c p = true →
   ∃ p', pstep (addr "") p p' ∧ (left_of_main p' < left_of_main p)%nat).
Proof.
  intros p. apply (Process_ends (addr "") p).
  eapply rtc_l; [apply p_printf|]. eapply rtc_l; [apply p_notify|].
  apply rtc_once, p_interrupt. discriminate.
Defined.
