(* ===== verification/SyncWorker.v ===== *)
(** * sync_worker/worker.go: the synchronisation worker

    [Start] guards itself with a flag, runs its loop outside the mutex, and
    stores its result. The loop reads the context and the repository at every
    turn: what it sees at height [h] is an argument. Concurrent calls are in
    [SyncThreads]. *)
From S2P Require Import Prelude Machine GoString ChainDomain.

(** ** Model *)
Definition StatusIdle : string := "idle".
Definition StatusRunning : string := "running".
Definition StatusFailed : string := "failed".
Definition StatusComplete : string := "complete".

Module Request.
Record t := mk { From : Z; To : Z; Peer : string; MaxBytes : Z }.
End Request.
Module Result.
Record t := mk { Status : string; Downloaded : Z; Verified : Z; Rejected : Z; Error : string;
                 StartedAt : Z; FinishedAt : Z }.
Definition zero : t := mk "" 0 0 0 "" 0 0.
(** [r.Status = StatusFailed; r.Error = e] *)
Definition fail (r : t) (e : string) : t :=
  mk StatusFailed (Downloaded r) (Verified r) (Rejected r) e (StartedAt r) (FinishedAt r).
Definition complete (r : t) : t :=
  mk StatusComplete (Downloaded r) (Verified r) (Rejected r) (Error r) (StartedAt r) (FinishedAt r).
Definition count_verified (r : t) : t :=
  mk (Status r) (Downloaded r) (Verified r + 1) (Rejected r) (Error r) (StartedAt r) (FinishedAt r).
Definition count_downloaded (r : t) : t :=
  mk (Status r) (Downloaded r + 1) (Verified r) (Rejected r) (Error r) (StartedAt r) (FinishedAt r).
Definition finish_at (r : t) (now : Z) : t :=
  mk (Status r) (Downloaded r) (Verified r) (Rejected r) (Error r) (StartedAt r) now.
End Result.
(** The mutable fields of [Worker]. *)
Module Worker.
Record t := mk { active : bool; last : Result.t }.
End Worker.
(** [func New(r *Repo) *Worker] *)
Definition New : Worker.t := Worker.mk false Result.zero.

Section run.
Context (cancelled : Z → option string)   (* ctx.Err() at the turn of a height *)
        (present : Z → bool).             (* whether w.repo.Block(h) finds a block *)

(** The loop of [Start]: [h++] wraps; [None] when the fuel is spent. *)
Fixpoint sync_loop (fuel : nat) (req : Request.t) (h : Z) (res : Result.t) : option Result.t :=
  match fuel with
  | O => None
  | S fuel =>
      if decide (Request.To req < h) then Some (Result.complete res) else
      match cancelled h with
      | Some e => Some (Result.fail res e)
      | None =>
          if decide (0 < Request.MaxBytes req ∧
                     Request.MaxBytes req < i64 (Result.Downloaded res * 1024))
          then Some (Result.fail res "download quota exceeded") else
          sync_loop fuel req (u64 (h + 1))
            (if present h then Result.count_verified res else Result.count_downloaded res)
      end
  end.
(** [func (w *Worker) finish(r Result) Result] *)
Definition finish (w : Worker.t) (r : Result.t) (now : Z) : Worker.t * Result.t :=
  let r := Result.finish_at r now in (Worker.mk (Worker.active w) r, r).
(** The first critical section of [Start]: the refusal, or the running worker. *)
Definition begin (w : Worker.t) (now : Z) : Worker.t + Result.t :=
  if Worker.active w
  then inr (Result.mk StatusFailed 0 0 0 "sync already running" 0 0)
  else inl (Worker.mk true (Result.mk StatusRunning 0 0 0 "" now 0)).
(** [func (w *Worker) Start(ctx, req) Result], started at [now] and finished at
    [now']: the deferred function clears the flag. *)
Definition Start (fuel : nat) (w : Worker.t) (req : Request.t) (now now' : Z)
  : option (Worker.t * Result.t) :=
  match begin w now with
  | inr r => Some (w, r)
  | inl w =>
      let stop r := let '(w, r) := finish w r now' in (Worker.mk false (Worker.last w), r) in
      if decide (Request.To req < Request.From req)
      then Some (stop (Result.fail Result.zero "invalid range"))
      else r ← sync_loop fuel req (Request.From req) (Worker.last w); Some (stop r)
  end.
End run.

(** [func (w *Worker) Last() Result] *)
Definition Last (w : Worker.t) : Result.t := Worker.last w.
(** [func ValidateRange(req Request) error]: the difference wraps. *)
Definition ValidateRange (req : Request.t) : error :=
  if decide (100000 < u64 (Request.To req - Request.From req)) then errors_New "range too large" else
  if decide (Request.Peer req = "") then errors_New "peer required" else nilerr.
(** [func Explain(r Result) string] *)
Definition Explain (r : Result.t) : string :=
  if decide (Result.Status r = StatusComplete)
  then "verified " +:+ (fmt_d (Result.Verified r) +:+ " blocks") else Result.Error r.

(** ** Lemmas *)
Section loop.
Context (cancelled : Z → option string) (present : Z → bool).

(** The turns a loop makes, while nothing stops it. *)
Definition tally_turn (res : Result.t) (h : Z) : Result.t :=
  if present h then Result.count_verified res else Result.count_downloaded res.

Lemma sync_loop_runs req h n res fuel :
  (∀ k, h ≤ k < h + n → cancelled k = None) → Request.MaxBytes req ≤ 0 → 0 ≤ n →
  0 ≤ h → h + n ≤ MaxUint64 → h + n = Request.To req + 1 → (Z.to_nat n < fuel)%nat →
  sync_loop cancelled present fuel req h res =
    Some (Result.complete (fold_left tally_turn (seqZ h n) res)).
Proof.
  intros Hc Hm Hn. revert Hn h res fuel Hc.
  apply (natlike_ind (λ n, ∀ h res fuel, (∀ k, h ≤ k < h + n → cancelled k = None) → 0 ≤ h →
    h + n ≤ MaxUint64 → h + n = Request.To req + 1 → (Z.to_nat n < fuel)%nat →
    sync_loop cancelled present fuel req h res =
      Some (Result.complete (fold_left tally_turn (seqZ h n) res)))).
  - intros h res fuel _ Hh Hmx Ht Hf. destruct fuel as [|fuel]; [lia|]. cbn [sync_loop].
    rewrite decide_True by lia. by rewrite seqZ_nil by lia.
  - intros m Hm0 IH h res fuel Hc Hh Hmx Ht Hf. destruct fuel as [|fuel]; [lia|].
    cbn [sync_loop]. rewrite decide_False by lia. rewrite Hc by lia.
    rewrite decide_False by lia. rewrite u64_small by mlia.
    rewrite (seqZ_cons h) by lia. rewrite Z.pred_succ. cbn [fold_left].
    apply IH; [intros; apply Hc|..]; lia.
Qed.

Lemma tally_counts l res :
  let r := fold_left tally_turn l res in
  Result.Verified r = Result.Verified res + len (filter (λ h, present h = true) l) ∧
  Result.Verified r + Result.Downloaded r = Result.Verified res + Result.Downloaded res + len l ∧
  Result.Rejected r = Result.Rejected res ∧ Result.Error r = Result.Error res.
Proof.
  cbv zeta. revert res. induction l as [|h l IH]; intros res; cbn [fold_left].
  { rewrite filter_nil. simpl. split_and!; try done; lia. }
  destruct (IH (tally_turn res h)) as (I1 & I2 & I3 & I4). rewrite I2, I1, I3, I4. clear.
  rewrite filter_cons. unfold tally_turn. simpl length.
  destruct (present h); simpl; (split_and!; [|lia|done|done]);
    try case_decide; simpl; (done || lia).
Qed.

Lemma sync_loop_diverges req fuel h res :
  is_u64 h → (∀ k, cancelled k = None) → Request.MaxBytes req ≤ 0 → Request.To req = MaxUint64 →
  sync_loop cancelled present fuel req h res = None.
Proof.
  intros Hh Hc Hm Ht. revert h res Hh. induction fuel as [|fuel IH]; intros h res Hh; [done|].
  cbn [sync_loop]. rewrite decide_False by mlia. rewrite Hc, decide_False by lia. apply IH, u64_range.
Qed.
End loop.

(** ** Properties *)

(** An idle worker without quota and without cancellation goes through every
    height of a range below the last height once and returns: each height counts
    as verified if the repository has a block there and as downloaded otherwise;
    the flag is cleared and the result stored. *)
Theorem Start_complete cancelled present w req now now' fuel :
  Worker.active w = false → (∀ k, cancelled k = None) → Request.MaxBytes req ≤ 0 →
  0 ≤ Request.From req ≤ Request.To req → Request.To req < MaxUint64 →
  (Z.to_nat (Request.To req - Request.From req + 1) < fuel)%nat →
  let heights := seqZ (Request.From req) (Request.To req - Request.From req + 1) in
  ∃ w' r, Start cancelled present fuel w req now now' = Some (w', r) ∧
    Result.Status r = StatusComplete ∧
    Result.Verified r = len (filter (λ h, present h = true) heights) ∧
    Result.Verified r + Result.Downloaded r = Request.To req - Request.From req + 1 ∧
    Worker.active w' = false ∧ Last w' = r.
Proof.
  intros Hw Hc Hm Hr Ht Hf heights. unfold Start, begin. rewrite Hw, decide_False by lia.
  rewrite (sync_loop_runs _ _ _ _ (Request.To req - Request.From req + 1)); [|done|lia..].
  cbn [mbind option_bind finish]. eexists _, _. split; [done|]. split; [done|].
  destruct (tally_counts present heights (Result.mk StatusRunning 0 0 0 "" now 0)) as (T1 & T2 & _).
  assert (len heights = Request.To req - Request.From req + 1) as Hl.
  { unfold heights. rewrite length_seqZ. lia. }
  rewrite Hl in T2. split; [exact T1|]. split; [exact T2|]. done.
Qed.

Lemma Start_complete_witness :
  let heights := seqZ 3 (7 - 3 + 1) in
  ∃ w' r, Start (λ _, None) Z.even 10 New (Request.mk 3 7 "p" 0) 5 9 = Some (w', r) ∧
    Result.Status r = StatusComplete ∧
    Result.Verified r = len (filter (λ h, Z.even h = true) heights) ∧
    Result.Verified r + Result.Downloaded r = 7 - 3 + 1 ∧
    Worker.active w' = false ∧ Last w' = r.
Proof.
  apply (Start_complete (λ _, None) Z.even New (Request.mk 3 7 "p" 0) 5 9 10); simpl; (done || lia).
Defined.

(** With the last height as its end and nothing to stop it, [Start] never
    returns, and the flag stays set: every later call is refused. *)
Theorem Start_never_returns cancelled present w req now now' fuel :
  Worker.active w = false → is_u64 (Request.From req) → (∀ k, cancelled k = None) →
  Request.MaxBytes req ≤ 0 → Request.To req = MaxUint64 →
  Start cancelled present fuel w req now now' = None ∧
  ∃ w', begin w now = inl w' ∧
        ∀ req' n n', Start cancelled present fuel w' req' n n' =
          Some (w', Result.mk StatusFailed 0 0 0 "sync already running" 0 0).
Proof.
  intros Hw Hf Hc Hm Ht. unfold Start, begin. rewrite Hw. split.
  - rewrite decide_False by mlia. by rewrite sync_loop_diverges.
  - by eexists.
Qed.

Lemma Start_never_returns_witness :
  Start (λ _, None) Z.even 50 New (Request.mk (MaxUint64 - 3) MaxUint64 "p" 0) 5 9 = None ∧
  ∃ w', begin New 5 = inl w' ∧
        ∀ req' n n', Start (λ _, None) Z.even 50 w' req' n n' =
          Some (w', Result.mk StatusFailed 0 0 0 "sync already running" 0 0).
Proof.
  apply (Start_never_returns (λ _, None) Z.even New (Request.mk (MaxUint64 - 3) MaxUint64 "p" 0) 5 9 50);
    [done|by split|done|done|done].
Defined.
