(* ===== verification/SyncThreads.v ===== *)
(** * sync_worker/worker.go: concurrent calls of [Start]

    [SyncWorker] follows one call. Here any number of goroutines call [Start] on one
    worker: a goroutine is at one of the points between which the source locks,
    unlocks, or leaves the worker alone. The loop runs outside the mutex, and its
    start value is read from [w.last] without the mutex. What the context and the
    repository show at a turn is free. *)
From S2P Require Import Prelude Machine GoString ChainDomain SyncWorker.

(** ** Model *)
Inductive point :=
  | Calling (req : Request.t)                        (* before w.mu.Lock() *)
  | Entered (req : Request.t)                        (* the flag is set *)
  | Looping (req : Request.t) (h : Z) (res : Result.t) (* at the head of the loop *)
  | Finishing (r : Result.t)                         (* in finish, before its lock *)
  | Leaving (r : Result.t)                           (* before the deferred function *)
  | Returned (r : Result.t).

(** What the first critical section answers while another call runs. *)
Definition refusal : Result.t := Result.mk StatusFailed 0 0 0 "sync already running" 0 0.
(** [req.MaxBytes > 0 && int64(res.Downloaded*1024) > req.MaxBytes] *)
Definition over_quota (req : Request.t) (res : Result.t) : Prop :=
  0 < Request.MaxBytes req ∧ Request.MaxBytes req < i64 (Result.Downloaded res * 1024).

(** One goroutine's next action on the worker. *)
Inductive pstep : Worker.t * point → Worker.t * point → Prop :=
  | p_refused w req now :
      begin w now = inr refusal → pstep (w, Calling req) (w, Returned refusal)
  | p_begin w w' req now :
      begin w now = inl w' → pstep (w, Calling req) (w', Entered req)
  | p_invalid w req :
      Request.To req < Request.From req →
      pstep (w, Entered req) (w, Finishing (Result.fail Result.zero "invalid range"))
  | p_read w req :
      Request.From req ≤ Request.To req →
      pstep (w, Entered req) (w, Looping req (Request.From req) (Worker.last w))
  | p_end w req h res :
      Request.To req < h → pstep (w, Looping req h res) (w, Finishing (Result.complete res))
  | p_cancelled w req h res e :
      h ≤ Request.To req → pstep (w, Looping req h res) (w, Finishing (Result.fail res e))
  | p_quota w req h res :
      h ≤ Request.To req → over_quota req res →
      pstep (w, Looping req h res) (w, Finishing (Result.fail res "download quota exceeded"))
  | p_turn w req h res (present : bool) :
      h ≤ Request.To req → ¬ over_quota req res →
      pstep (w, Looping req h res)
        (w, Looping req (u64 (h + 1))
              (if present then Result.count_verified res else Result.count_downloaded res))
  | p_finish w r now :
      pstep (w, Finishing r) ((finish w r now).1, Leaving (finish w r now).2)
  | p_leave w r : pstep (w, Leaving r) (Worker.mk false (Worker.last w), Returned r).
(** The worker and its callers; goroutine [i] moves. *)
Inductive sync_step : nat → Worker.t * list point → Worker.t * list point → Prop :=
  | sync_move i w ps p w' p' :
      ps !! i = Some p → pstep (w, p) (w', p') → sync_step i (w, ps) (w', <[i := p']> ps).
Definition some_step (c c' : Worker.t * list point) : Prop := ∃ i, sync_step i c c'.

(** ** Specification *)

(** Between setting the flag and clearing it. *)
Definition inside (p : point) : Prop :=
  match p with Calling _ | Returned _ => False | _ => True end.
Definition returned (p : point) : Prop := match p with Returned _ => True | _ => False end.
(** What the worker's record is while a goroutine is inside: its own. *)
Definition own_record (w : Worker.t) (p : point) : Prop :=
  match p with
  | Entered _ => Result.Status (Worker.last w) = StatusRunning
  | Leaving r => Worker.last w = r
  | _ => True
  end.
(** A request whose loop ends: typed, with an end below the last height. *)
Definition finite (req : Request.t) : Prop := 0 ≤ Request.From req ∧ Request.To req < MaxUint64.
Definition finite_point (p : point) : Prop :=
  match p with
  | Calling req | Entered req => finite req
  | Looping req h _ => finite req ∧ 0 ≤ h
  | _ => True
  end.
(** A bound on the steps left. *)
Definition point_measure (p : point) : Z :=
  match p with
  | Calling req => Z.max 0 (Request.To req + 1 - Request.From req) + 5
  | Entered req => Z.max 0 (Request.To req + 1 - Request.From req) + 4
  | Looping req h _ => Z.max 0 (Request.To req + 1 - h) + 3
  | Finishing _ => 2
  | Leaving _ => 1
  | Returned _ => 0
  end.
Definition sync_measure (c : Worker.t * list point) : Z := Zsum point_measure c.2.

(** The flag says whether a goroutine is inside, and there is one at most; the
    record is that of a call that ran, once one has begun. *)
Record sync_ok (w : Worker.t) (ps : list point) : Prop := {
  so_one i j p q : ps !! i = Some p → ps !! j = Some q → inside p → inside q → i = j;
  so_flag : Worker.active w = true ↔ ∃ i p, ps !! i = Some p ∧ inside p;
  so_own i p : ps !! i = Some p → own_record w p;
  so_last : Worker.active w = true ∨ Forall (λ p, ¬ returned p) ps ∨
            ∃ i, ps !! i = Some (Returned (Worker.last w)) }.

(** ** Lemmas *)
Lemma pstep_measure w p w' p' :
  finite_point p → pstep (w, p) (w', p') →
  finite_point p' ∧ 0 ≤ point_measure p' < point_measure p.
Proof.
  unfold finite_point, finite. intros Hf Hs. inversion Hs; subst; simpl in *; split; mlia || done.
Qed.
Lemma point_measure_nonneg p : 0 ≤ point_measure p.
Proof. destruct p; simpl; lia. Qed.
Lemma some_step_measure c c' :
  Forall finite_point c.2 → some_step c c' →
  Forall finite_point c'.2 ∧ 0 ≤ sync_measure c' < sync_measure c.
Proof.
  intros Hf [i Hs]. destruct Hs as [i w ps p w' p' Hi Hp]. simpl in *.
  destruct (pstep_measure _ _ _ _ (Forall_lookup_1 _ _ _ _ Hf Hi) Hp) as [Hf' Hm].
  split; [by apply Forall_insert|]. unfold sync_measure. simpl. rewrite (Zsum_insert _ _ _ _ _ Hi).
  pose proof (Zsum_lookup_le _ _ _ _ point_measure_nonneg Hi). lia.
Qed.

(** A goroutine that has not returned can always move. *)
Lemma pstep_enabled w p : ¬ returned p → ∃ w' p', pstep (w, p) (w', p').
Proof.
  intros Hr. destruct p as [req|req|req h res|r|r|r]; simpl in Hr; [| | | | |done].
  - destruct (Worker.active w) eqn:Ea.
    + eexists _, _. apply (p_refused _ _ 0). unfold begin. by rewrite Ea.
    + eexists _, _. eapply (p_begin _ _ _ 0). unfold begin. by rewrite Ea.
  - destruct (decide (Request.To req < Request.From req)); eexists _, _;
      [by apply p_invalid|apply p_read; lia].
  - destruct (decide (Request.To req < h)); eexists _, _; [by apply p_end|].
    apply (p_cancelled _ _ _ _ "context canceled"). lia.
  - eexists _, _. apply (p_finish _ _ 0).
  - eexists _, _. apply p_leave.
Qed.

(** ** Lemmas: the invariant *)
Lemma insert_inside (ps : list point) i p p' j q :
  ps !! i = Some p → <[i := p']> ps !! j = Some q → inside q →
  (j = i ∧ q = p' ∧ inside p') ∨ (j ≠ i ∧ ps !! j = Some q ∧ inside q).
Proof. intros Hi [[<- [<- _]]|[Hn Hj]]%list_lookup_insert_Some Hq; [by left|right; by split_and!]. Qed.

(** A move of the goroutine inside: it stays inside, with the flag still set. *)
Lemma sync_ok_inside w ps i p w' p' :
  sync_ok w ps → ps !! i = Some p → inside p → inside p' →
  Worker.active w' = Worker.active w → own_record w' p' →
  sync_ok w' (<[i := p']> ps).
Proof.
  intros [H1 H2 H3 H4] Hi Hp Hp' Ha Ho.
  assert (Worker.active w = true) as Hact by (apply H2; eauto).
  assert (∀ j q, ps !! j = Some q → j ≠ i → ¬ inside q) as Hout.
  { intros j q Hj Hn Hq. by destruct Hn; apply (H1 j i q p). }
  assert (<[i := p']> ps !! i = Some p') as Hi' by (apply list_lookup_insert_eq; by eapply lookup_lt_Some).
  split.
  - intros j k q r Hj Hk Hq Hr.
    destruct (insert_inside _ _ _ _ _ _ Hi Hj Hq) as [(-> & _)|(Hn & Hj' & _)]; [|by destruct (Hout j q)].
    destruct (insert_inside _ _ _ _ _ _ Hi Hk Hr) as [(-> & _)|(Hn & Hk' & _)]; [done|by destruct (Hout k r)].
  - rewrite Ha, Hact. split; [eauto|done].
  - intros j q [[_ [<- _]]|[Hn Hj]]%list_lookup_insert_Some; [done|].
    pose proof (Hout j q Hj ltac:(congruence)) as Hq. by destruct q; simpl in *.
  - left. by rewrite Ha.
Qed.

Lemma sync_ok_begin w ps i req now w' :
  sync_ok w ps → ps !! i = Some (Calling req) → begin w now = inl w' →
  sync_ok w' (<[i := Entered req]> ps).
Proof.
  intros [H1 H2 H3 H4] Hi. unfold begin. destruct (Worker.active w) eqn:Ea; [done|]. intros [= <-].
  assert (∀ j q, ps !! j = Some q → ¬ inside q) as Hout.
  { intros j q Hj Hq. assert (false = true) by (apply H2; eauto). done. }
  assert (<[i := Entered req]> ps !! i = Some (Entered req)) as Hi'
    by (apply list_lookup_insert_eq; by eapply lookup_lt_Some).
  split; simpl.
  - intros j k q r Hj Hk Hq Hr.
    destruct (insert_inside _ _ _ _ _ _ Hi Hj Hq) as [(-> & _)|(_ & Hj' & _)]; [|by destruct (Hout j q)].
    destruct (insert_inside _ _ _ _ _ _ Hi Hk Hr) as [(-> & _)|(_ & Hk' & _)]; [done|by destruct (Hout k r)].
  - split; [intros _; by exists i, (Entered req)|done].
  - intros j q [[_ [<- _]]|[_ Hj]]%list_lookup_insert_Some; [done|].
    pose proof (Hout j q Hj) as Hq. by destruct q; simpl in *.
  - by left.
Qed.
Lemma sync_ok_refused w ps i req :
  sync_ok w ps → ps !! i = Some (Calling req) → Worker.active w = true →
  sync_ok w (<[i := Returned refusal]> ps).
Proof.
  intros [H1 H2 H3 H4] Hi Ha. split.
  - intros j k q r Hj Hk Hq Hr.
    destruct (insert_inside _ _ _ _ _ _ Hi Hj Hq) as [(_ & _ & [])|(_ & Hj' & _)].
    destruct (insert_inside _ _ _ _ _ _ Hi Hk Hr) as [(_ & _ & [])|(_ & Hk' & _)]. by apply (H1 j k q r).
  - rewrite Ha. split; [|done]. intros _. destruct (proj1 H2 Ha) as (j & q & Hj & Hq). exists j, q.
    split; [|done]. rewrite list_lookup_insert_ne; [done|]. intros ->. by simplify_eq.
  - intros j q [[_ [<- _]]|[_ Hj]]%list_lookup_insert_Some; [done|by apply (H3 j)].
  - by left.
Qed.
Lemma sync_ok_leave w ps i r :
  sync_ok w ps → ps !! i = Some (Leaving r) →
  sync_ok (Worker.mk false (Worker.last w)) (<[i := Returned r]> ps).
Proof.
  intros [H1 H2 H3 H4] Hi. split; simpl.
  - intros j k q q' Hj Hk Hq Hr.
    destruct (insert_inside _ _ _ _ _ _ Hi Hj Hq) as [(_ & _ & [])|(_ & Hj' & _)].
    destruct (insert_inside _ _ _ _ _ _ Hi Hk Hr) as [(_ & _ & [])|(_ & Hk' & _)]. by apply (H1 j k q q').
  - split; [done|]. intros (j & q & Hj & Hq).
    destruct (insert_inside _ _ _ _ _ _ Hi Hj Hq) as [(_ & _ & [])|(Hn & Hj' & _)].
    by destruct Hn; apply (H1 j i q (Leaving r)).
  - intros j q [[_ [<- _]]|[_ Hj]]%list_lookup_insert_Some; [done|].
    specialize (H3 j q Hj). by destruct q.
  - right. right. exists i. pose proof (H3 i _ Hi) as E. simpl in E. rewrite E.
    apply list_lookup_insert_eq. by eapply lookup_lt_Some.
Qed.

Lemma sync_ok_step c c' i : sync_ok c.1 c.2 → sync_step i c c' → sync_ok c'.1 c'.2.
Proof.
  intros Hok Hs. destruct Hs as [i w ps p w' p' Hi Hp]. simpl in *.
  inversion Hp; subst;
    try (by eapply sync_ok_inside; [exact Hok|exact Hi|done..]);
    [eapply sync_ok_refused|eapply sync_ok_begin|eapply sync_ok_leave]; try done.
  unfold begin in *. by destruct (Worker.active w').
Qed.
Lemma sync_ok_start jobs : sync_ok New (Calling <$> jobs).
Proof.
  assert (∀ i p, (Calling <$> jobs) !! i = Some p → ∃ req, p = Calling req) as Hc.
  { intros i p. rewrite list_lookup_fmap. destruct (jobs !! i); simpl; [|done]. intros [= <-]. by eexists. }
  split; simpl.
  - intros i j p q Hp _ Hi. by destruct (Hc _ _ Hp) as [? ->].
  - split; [done|]. intros (i & p & Hp & Hi). by destruct (Hc _ _ Hp) as [? ->].
  - intros i p Hp. by destruct (Hc _ _ Hp) as [? ->].
  - right. left. apply list.Forall_forall. intros p (req & -> & _)%list_elem_of_fmap. simpl. tauto.
Qed.
Lemma reachable_sync_ok c c' : sync_ok c.1 c.2 → rtc some_step c c' → sync_ok c'.1 c'.2.
Proof. intros Hok. induction 1 as [|c c1 c2 [i Hs] _ IH]; [done|]. by eapply IH, sync_ok_step. Qed.

Lemma nf_returned w ps : nf some_step (w, ps) → Forall returned ps.
Proof.
  intros Hnf. apply Forall_lookup_2. intros i p Hi.
  assert (returned p ∨ ¬ returned p) as [Hr|Hr] by (destruct p; simpl; tauto); [done|].
  destruct (pstep_enabled w p Hr) as (w' & p' & Hp). destruct Hnf. eexists. exists i. by eapply sync_move.
Qed.
Lemma sync_step_length c c' : rtc some_step c c' → length c'.2 = length c.2.
Proof.
  induction 1 as [|c c1 c2 [i Hs] _ IH]; [done|]. rewrite IH. destruct Hs. simpl. apply length_insert.
Qed.

Lemma started_sync_ok jobs w ps : rtc some_step (New, Calling <$> jobs) (w, ps) → sync_ok w ps.
Proof. exact (reachable_sync_ok (New, Calling <$> jobs) (w, ps) (sync_ok_start jobs)). Qed.

(** ** Lemmas: one call alone *)
Lemma move_alone w p w' p' : pstep (w, p) (w', p') → some_step (w, [p]) (w', [p']).
Proof. intros Hp. exists 0%nat. by apply (sync_move 0 w [p] p w' p'). Qed.
Lemma loop_alone cancelled present fuel w req h res r :
  sync_loop cancelled present fuel req h res = Some r →
  rtc some_step (w, [Looping req h res]) (w, [Finishing r]).
Proof.
  revert h res. induction fuel as [|fuel IH]; intros h res E; [done|]. cbn [sync_loop] in E.
  case_decide as Hh; [injection E as <-; by apply rtc_once, move_alone, p_end|].
  destruct (cancelled h) as [e|]; [injection E as <-; apply rtc_once, move_alone, p_cancelled; lia|].
  case_decide as Hq; [injection E as <-; apply rtc_once, move_alone, p_quota; [lia|done]|].
  eapply rtc_l; [|by apply IH]. apply move_alone, p_turn; [lia|done].
Qed.
Lemma stop_alone w r now :
  rtc some_step (w, [Finishing r])
    (Worker.mk false (Worker.last (finish w r now).1), [Returned (finish w r now).2]).
Proof. eapply rtc_l; [apply move_alone, p_finish|]. apply rtc_once, move_alone, p_leave. Qed.

(** ** Properties *)

(** C16: any number of concurrent calls of [Start], with ends below the last height,
    under any schedule and whatever they see of their contexts and of the
    repository: at most one is inside the worker at any time; no schedule is
    infinite; and when no step is left, every call has returned, the flag is
    clear, and [Last] is what one of the calls returned. *)
Theorem Sync_calls_return jobs :
  Forall finite jobs →
  sn some_step (New, Calling <$> jobs) ∧
  ∀ w ps, rtc some_step (New, Calling <$> jobs) (w, ps) →
    (∀ i j p q, ps !! i = Some p → ps !! j = Some q → inside p → inside q → i = j) ∧
    (nf some_step (w, ps) →
       Forall returned ps ∧ Worker.active w = false ∧
       (jobs ≠ [] → ∃ i, ps !! i = Some (Returned (Last w)))).
Proof.
  intros Hj. split.
  { apply (measure_sn some_step (λ c, Forall finite_point c.2) sync_measure).
    - intros c c' Hf Hs. by apply some_step_measure.
    - apply Forall_fmap. by eapply list.Forall_impl. }
  intros w ps Hr. pose proof (started_sync_ok _ _ _ Hr) as Hok.
  split; [apply Hok|]. intros Hnf. pose proof (nf_returned _ _ Hnf) as Hret. split; [done|].
  assert (Worker.active w = false) as Ha.
  { apply not_true_is_false. intros (i & p & Hi & Hp)%(so_flag _ _ Hok).
    pose proof (Forall_lookup_1 _ _ _ _ Hret Hi). by destruct p. }
  split; [done|]. intros Hne. destruct (so_last _ _ Hok) as [?|[Hno|Hl]]; [congruence| |done].
  pose proof (sync_step_length _ _ Hr) as Hlen. simpl in Hlen. rewrite length_fmap in Hlen.
  destruct ps as [|p ps]; [by destruct jobs|]. inv Hno. by inv Hret.
Qed.

(** The read of [w.last] outside the mutex does not race: while a call is at that
    read, the record is the running one it has written, and no step of another
    goroutine writes it. *)
Theorem Last_read_unraced jobs w ps i req j w' ps' :
  rtc some_step (New, Calling <$> jobs) (w, ps) → ps !! i = Some (Entered req) →
  sync_step j (w, ps) (w', ps') → j ≠ i →
  Result.Status (Worker.last w) = StatusRunning ∧ Worker.last w' = Worker.last w.
Proof.
  intros Hr Hi Hs Hne. pose proof (started_sync_ok _ _ _ Hr) as Hok.
  split; [apply (so_own _ _ Hok i _ Hi)|]. inversion Hs as [? ? ? p ? p' Hj Hp]; subst.
  assert (¬ inside p) as Hp' by (intros Hin; destruct Hne; by apply (so_one _ _ Hok j i p (Entered req))).
  inversion Hp; subst; simpl in *; try done; try tauto.
  assert (Worker.active w = true) as Ha by (apply (so_flag _ _ Hok); by exists i, (Entered req)).
  unfold begin in *. by rewrite Ha in *.
Qed.

(** The sequential [Start] is a run of the concurrent system: a call that
    returns when alone takes the worker through the same points. *)
Theorem Start_runs cancelled present fuel w req now now' w' r :
  Start cancelled present fuel w req now now' = Some (w', r) →
  rtc some_step (w, [Calling req]) (w', [Returned r]).
Proof.
  unfold Start. destruct (begin w now) as [w1|r1] eqn:Eb.
  - intros E. eapply rtc_l; [by eapply move_alone, p_begin|]. case_decide as Hd.
    + injection E as <- <-. eapply rtc_l; [by apply move_alone, p_invalid|].
      exact (stop_alone w1 (Result.fail Result.zero "invalid range") now').
    + eapply rtc_l; [apply move_alone, p_read; lia|].
      destruct (sync_loop _ _ _ _ _ _) as [r2|] eqn:El; [|done]. injection E as <- <-.
      etrans; [by eapply loop_alone|]. exact (stop_alone w1 r2 now').
  - intros [= <- <-]. apply rtc_once, move_alone. pose proof Eb as Eb'. unfold begin in Eb'.
    destruct (Worker.active w); [|done]. injection Eb' as <-. by eapply p_refused.
Qed.

(** ** Witnesses *)
Definition req_a : Request.t := Request.mk 1 3 "p" 0.
Definition req_b : Request.t := Request.mk 5 2 "q" 0.
Lemma Sync_calls_return_witness :
  sn some_step (New, Calling <$> [req_a; req_b]) ∧
  ∀ w ps, rtc some_step (New, Calling <$> [req_a; req_b]) (w, ps) →
    (∀ i j p q, ps !! i = Some p → ps !! j = Some q → inside p → inside q → i = j) ∧
    (nf some_step (w, ps) →
       Forall returned ps ∧ Worker.active w = false ∧
       ([req_a; req_b] ≠ [] → ∃ i, ps !! i = Some (Returned (Last w)))).
Proof. apply (Sync_calls_return [req_a; req_b]). repeat constructor; simpl; lia. Defined.

Definition running_at (now : Z) : Worker.t := Worker.mk true (Result.mk StatusRunning 0 0 0 "" now 0).
Lemma entered_reachable :
  rtc some_step (New, Calling <$> [req_a; req_b]) (running_at 7, [Entered req_a; Calling req_b]).
Proof.
  apply rtc_once. exists 0%nat.
  apply (sync_move 0 New [Calling req_a; Calling req_b] (Calling req_a) (running_at 7) (Entered req_a));
    [done|]. by apply (p_begin _ _ _ 7).
Qed.
Lemma Last_read_unraced_witness :
  Result.Status (Worker.last (running_at 7)) = StatusRunning ∧
  Worker.last (running_at 7) = Worker.last (running_at 7).
Proof.
  apply (Last_read_unraced [req_a; req_b] (running_at 7) [Entered req_a; Calling req_b] 0 req_a 1
           (running_at 7) [Entered req_a; Returned refusal] entered_reachable eq_refl); [|done].
  apply (sync_move 1 (running_at 7) [Entered req_a; Calling req_b] (Calling req_b) (running_at 7)
           (Returned refusal)); [done|].
  by apply (p_refused _ _ 8).
Defined.
Lemma Start_runs_witness :
  let o := Start (λ _, None) Z.even 10 New req_a 5 9 in
  let '(w', r) := default (New, Result.zero) o in
  rtc some_step (New, [Calling req_a]) (w', [Returned r]).
Proof. apply (Start_runs (λ _, None) Z.even 10 New req_a 5 9). reflexivity. Defined.
