(* ===== verification/DomainExtra.v ===== *)
(** * chain_domain/extra.go: configuration, plans, records and their checks

    The protocol constants, the structs of plans and records that carry checks,
    the checks, and the events. *)
From S2P Require Import Prelude Machine GoString GoMap ChainDomain.

(** ** Model *)
Definition MaxValidators : Z := 128.
Definition MaxTxPerBlock : Z := 4096.
Definition MaxKeyBytes : Z := 256.
Definition MaxValueBytes : Z := 4096.
Definition MaxPeers : Z := 1024.
Definition MaxSnapshotEntries : Z := 1000000.

Module ChainConfig.
Record t := mk { Version : Z; BlockTime : Z; MaxBlockBytes : Z; MaxGas : Z; MinFee : Z;
                 EpochLength : Z; EnableProofs : bool; EnableSnapshots : bool }.
(** [func (c ChainConfig) Valid() bool] *)
Definition Valid (c : t) : bool :=
  if decide (Version c = 0) then false else
  if decide (BlockTime c ≤ 0) then false else
  if decide (MaxBlockBytes c ≤ 0 ∨ Z.shiftl 64 20 < MaxBlockBytes c) then false else
  if decide (MaxGas c = 0 ∨ EpochLength c = 0) then false else true.
End ChainConfig.
(** [func DefaultChainConfig() ChainConfig] *)
Definition DefaultChainConfig : ChainConfig.t :=
  ChainConfig.mk 1 (2 * Time.second) (Z.shiftl 2 20) 10000000 1 100 true true.

Module Account.
Record t := mk { Address : string; Balance : Z; Nonce : Z; CodeHash : string;
                 StorageRoot : string; Frozen : bool; UpdatedAt : Z }.
(** [func (a Account) Valid() bool] *)
Definition Valid (a : t) : bool :=
  if decide (Address a = "" ∨ 128 < slen (Address a)) then false else
  if decide (128 < slen (CodeHash a) ∨ 128 < slen (StorageRoot a)) then false else true.
End Account.

Module StateRoot.
Record t := mk { Height : Z; Hash : string; Algorithm : string; Version : Z; EntryCount : Z;
                 CreatedAt : Z }.
End StateRoot.
Module Checkpoint.
Record t := mk { Height : Z; BlockHash : string; StateRoot : string;
                 Validators : list Validator.t; Signature : string; CreatedAt : Z }.
End Checkpoint.

Module PeerRecord.
Record t := mk { ID : string; Address : string; Version : string; Capabilities : list string;
                 Score : Z; Failures : Z; ConnectedAt : Z; LastSeen : Z; BannedUntil : Z }.
(** [func (p PeerRecord) IsBanned(now time.Time) bool] *)
Definition IsBanned (p : t) (now : Z) : bool :=
  negb (Time.IsZero (BannedUntil p)) && Time.After (BannedUntil p) now.
(** [func (p PeerRecord) Healthy() bool], at the clock reading [now] *)
Definition Healthy (p : t) (now : Z) : bool :=
  bool_decide (-10 ≤ Score p) && bool_decide (Failures p < 5) && negb (IsBanned p now).
End PeerRecord.

Module SyncPlan.
Record t := mk { PeerID : string; From : Z; To : Z; ChunkSize : Z; MaxBytes : Z;
                 VerifyHeaders : bool; VerifyTransactions : bool; VerifyStateRoots : bool }.
(** [func (s SyncPlan) Valid() bool] *)
Definition Valid (s : t) : bool :=
  if decide (PeerID s = "" ∨ To s < From s) then false else
  if decide (ChunkSize s = 0 ∨ 10000 < ChunkSize s) then false else
  if decide (MaxBytes s = 0) then false else true.
End SyncPlan.

Module RollbackPlan.
Record t := mk { Target : Z; Current : Z; Reason : string; RequiredVotes : Z;
                 PreparedBy : string; PreparedAt : Z; Approved : bool }.
(** [func (r RollbackPlan) Valid() bool] *)
Definition Valid (r : t) : bool :=
  bool_decide (Target r < Current r) && bool_decide (Reason r ≠ "") &&
  bool_decide (0 < RequiredVotes r).
End RollbackPlan.

Module UpgradeMarker.
Record t := mk { FromVersion : Z; ToVersion : Z; ActivationHeight : Z; Digest : string;
                 Migrated : bool; AppliedAt : Z }.
(** [func (m UpgradeMarker) Ready(h Height) bool] *)
Definition Ready (m : t) (h : Z) : bool :=
  bool_decide (0 < FromVersion m) && bool_decide (FromVersion m < ToVersion m) &&
  bool_decide (ActivationHeight m ≤ h).
End UpgradeMarker.

Module KeyRotation.
Record t := mk { Validator : string; OldKey : string; NewKey : string; EffectiveHeight : Z;
                 Proof : string; Revoked : bool }.
(** [func (k KeyRotation) Ready(h Height) bool] *)
Definition Ready (k : t) (h : Z) : bool :=
  bool_decide (Validator k ≠ "") && bool_decide (OldKey k ≠ "") && bool_decide (NewKey k ≠ "") &&
  bool_decide (EffectiveHeight k ≤ h) && negb (Revoked k).
End KeyRotation.

Module AuditRecord.
Record t := mk { Sequence : Z; Action : string; Actor : string; Resource : string;
                 PayloadHash : string; PreviousHash : string; Hash : string; At : Z }.
(** [func (a AuditRecord) Valid() bool] *)
Definition Valid (a : t) : bool :=
  bool_decide (0 < Sequence a) && bool_decide (Action a ≠ "") && bool_decide (Hash a ≠ "") &&
  negb (Time.IsZero (At a)).
End AuditRecord.

(** The event names. *)
Definition EventBlockProposed : string := "block.proposed".
Definition EventBlockCommitted : string := "block.committed".
Definition EventBlockRejected : string := "block.rejected".
Definition EventTxAccepted : string := "transaction.accepted".
Definition EventTxRejected : string := "transaction.rejected".
Definition EventPeerConnected : string := "peer.connected".
Definition EventPeerBanned : string := "peer.banned".
Definition EventSnapshotCreated : string := "snapshot.created".
Definition EventSnapshotVerified : string := "snapshot.verified".
Definition EventRollbackPrepared : string := "rollback.prepared".
Definition EventUpgradeActivated : string := "upgrade.activated".
Definition EventKeyRotated : string := "key.rotated".
Definition event_names : list string :=
  [EventBlockProposed; EventBlockCommitted; EventBlockRejected; EventTxAccepted; EventTxRejected; EventPeerConnected; EventPeerBanned; EventSnapshotCreated; EventSnapshotVerified; EventRollbackPrepared; EventUpgradeActivated; EventKeyRotated].
(** [Data]: [None] is the nil map, which reads as empty. *)
Module Event.
Record t := mk { Name : string; Height : Z; Data : option (gmap string string); At : Z }.
(** [func (e *Event) Put(k, v string)] *)
Definition Put (e : t) (k v : string) : t :=
  mk (Name e) (Height e) (Some (<[k := v]> (default ∅ (Data e)))) (At e).
(** [func (e Event) Get(k string) string] *)
Definition Get (e : t) (k : string) : string := sget (default ∅ (Data e)) k.
(** [func (e Event) Valid() bool] *)
Definition Valid (e : t) : bool := bool_decide (Name e ≠ "") && negb (Time.IsZero (At e)).
End Event.
(** [func NewEvent(name string, h Height) Event] *)
Definition NewEvent (name : string) (h now : Z) : Event.t := Event.mk name h (Some ∅) now.

(** ** Properties *)

(** Readiness is monotone in the height: an upgrade or a key rotation that is
    ready stays ready at every greater height; and a ban ends by itself, at its
    stored time. *)
Theorem Ready_monotone m k p h h' now :
  h ≤ h' →
  (UpgradeMarker.Ready m h = true → UpgradeMarker.Ready m h' = true) ∧
  (KeyRotation.Ready k h = true → KeyRotation.Ready k h' = true) ∧
  (PeerRecord.BannedUntil p ≤ now → PeerRecord.IsBanned p now = false).
Proof.
  intros Hh. unfold UpgradeMarker.Ready, KeyRotation.Ready, PeerRecord.IsBanned, Time.After.
  split_and!.
  - rewrite !andb_true_iff, !bool_decide_eq_true. intros [[? ?] ?]. split_and!; (done || lia).
  - rewrite !andb_true_iff, !bool_decide_eq_true. intros [[[[? ?] ?] ?] ?]. split_and!; (done || lia).
  - intros Hb. rewrite (bool_decide_eq_false_2 (now < _)) by lia. apply andb_false_r.
Qed.

Lemma Ready_monotone_witness :
  let m := UpgradeMarker.mk 1 2 10 "" false 0 in
  let k := KeyRotation.mk "v" "o" "n" 10 "" false in
  let p := PeerRecord.mk "p" "" "" [] 0 0 0 0 50 in
  (UpgradeMarker.Ready m 10 = true → UpgradeMarker.Ready m 12 = true) ∧
  (KeyRotation.Ready k 10 = true → KeyRotation.Ready k 12 = true) ∧
  (PeerRecord.BannedUntil p ≤ 60 → PeerRecord.IsBanned p 60 = false).
Proof. intros m k p. apply (Ready_monotone m k p 10 12 60). lia. Defined.
