(* ===== verification/Observability.v ===== *)
(** * observability/log.go: levels, loggers, spans, counters

    The level filter, the fields of derived loggers, the entry that [Log] hands to
    the JSON encoder and the writer it goes to, spans and counters. A field may
    hold any value. The bytes that the encoder writes are outside the model. *)
From S2P Require Import Prelude Machine GoString GoMap.

(** ** Model *)
Definition Level : Type := string.
Definition LevelDebug : Level := "debug".
Definition LevelInfo : Level := "info".
Definition LevelWarn : Level := "warn".
Definition LevelError : Level := "error".

(** [func rank(x Level) int] *)
Definition rank (x : Level) : Z :=
  if decide (x = LevelDebug) then 1 else if decide (x = LevelInfo) then 2 else
  if decide (x = LevelWarn) then 3 else if decide (x = LevelError) then 4 else 2.
Module Entry.
Record t {V : Type} := mk { At : Z; Lev : Level; Message : string; Fields : gmap string V;
                            TraceID : string }.
Arguments t : clear implicits.
End Entry.
(** An [io.Writer], by its identity. *)
Inductive Writer := Stdout | Other (id : Z).
Module Logger.
Record t {V : Type} := mk { out : Writer; min : Level; fields : gmap string V }.
Arguments t : clear implicits.
End Logger.
Section logger.
Context {V : Type}.
(** [func NewLogger(out io.Writer, min Level) *Logger]; [None] is the nil writer *)
Definition NewLogger (out : option Writer) (min : Level) : Logger.t V :=
  Logger.mk V (default Stdout out) min ∅.
(** [func (l *Logger) With(k string, v interface{}) *Logger] *)
Definition With (l : Logger.t V) (k : string) (v : V) : Logger.t V :=
  Logger.mk V (Logger.out l) (Logger.min l) (<[k := v]> (Logger.fields l)).
(** [func (l *Logger) Log(...)]: what is written and where, if anything; the fields of
    the call override those of the logger. *)
Definition Log (l : Logger.t V) (trace : option string) (lv : Level) (msg : string)
  (fields : gmap string V) (now : Z) : option (Writer * Entry.t V) :=
  if decide (rank lv < rank (Logger.min l)) then None else
  Some (Logger.out l, Entry.mk V now lv msg (fields ∪ Logger.fields l) (default "" trace)).
(** [Debug], [Info], [Warn], [Error] *)
Definition Debug l trace m f now := Log l trace LevelDebug m f now.
Definition Info l trace m f now := Log l trace LevelInfo m f now.
Definition Warn l trace m f now := Log l trace LevelWarn m f now.
Definition Error l trace m f now := Log l trace LevelError m f now.
End logger.

Module Span.
Record t := mk { TraceID : string; Name : string; Started : Z; Attrs : gmap string string;
                 Err : error }.
(** [func (s *Span) Set(k, v string)], [End], [Duration] and [Valid] *)
Definition Set_ (s : t) (k v : string) : t :=
  mk (TraceID s) (Name s) (Started s) (<[k := v]> (Attrs s)) (Err s).
Definition End_ (s : t) (err : error) (now : Z) : t * Z :=
  (mk (TraceID s) (Name s) (Started s) (Attrs s) err, Time.Since (Started s) now).
Definition Duration (s : t) (now : Z) : Z := Time.Since (Started s) now.
Definition Valid (s : t) : bool := bool_decide (Name s ≠ "") && bool_decide (TraceID s ≠ "").
End Span.
(** [func StartSpan(name string) Span]: two clock readings *)
Definition StartSpan (name : string) (now now' : Z) : Span.t :=
  Span.mk (fmt_d (Time.UnixNano now)) name now' ∅ None.

Module Counter.
Record t := mk { name : string; value : Z; labels : gmap string string }.
(** [Add], [Value], [Label], [Snapshot] *)
Definition Add (c : t) (n : Z) : t := mk (name c) (u64 (value c + n)) (labels c).
Definition Value (c : t) : Z := value c.
Definition Label (c : t) (k v : string) : t := mk (name c) (value c) (<[k := v]> (labels c)).
Definition Snapshot (c : t) : string * Z * gmap string string := (name c, value c, labels c).
End Counter.
(** [func NewCounter(n string) *Counter] *)
Definition NewCounter (n : string) : Counter.t := Counter.mk n 0 ∅.

(** ** Properties *)

(** A counter is the sum of what was added to it, modulo [2^64]. *)
Theorem Counter_sum n l :
  Counter.Value (fold_left Counter.Add l (NewCounter n)) = u64 (Zsum (λ x, x) l).
Proof.
  induction l as [|x l IH] using rev_ind; [done|].
  rewrite fold_left_app. cbn [fold_left]. unfold Counter.Value in *. simpl. rewrite IH, Zsum_app.
  simpl. generalize (Zsum (λ x, x) l). intros. mlia.
Qed.

(** The filter and the fields of a derived logger: an entry is written, to the
    writer of the first logger, exactly when its level ranks no lower than the
    minimum, a level unknown to [rank] counting as info; a field of the call hides
    that of the logger, and deriving a logger leaves the filter alone. *)
Theorem Log_entry {V} (l : Logger.t V) k v trace lv msg fields now :
  (Log (With l k v) trace lv msg fields now = None ↔ rank lv < rank (Logger.min l)) ∧
  ∀ w e, Log (With l k v) trace lv msg fields now = Some (w, e) →
    w = Logger.out l ∧
    ∀ x, Entry.Fields e !! x =
      match fields !! x with
      | Some y => Some y
      | None => if decide (x = k) then Some v else Logger.fields l !! x
      end.
Proof.
  unfold Log, With. simpl. case_decide; (split; [done || (split; [done|lia])|]); [done|].
  intros w e [= <- <-]. split; [done|]. intros x. simpl. rewrite lookup_union, lookup_insert.
  destruct (fields !! x); simpl; [by destruct (if decide _ then _ else _)|].
  case_decide; case_decide; try congruence; by destruct (Logger.fields l !! x).
Qed.
