(* ===== verification/Http.v ===== *)
(** * Package net/http: handlers and their response writers

    What the wrappers of [transport] use: the interface of a [ResponseWriter], a
    handler as a computation over any such writer that may panic, the server's
    writer and the buffering writer of [http.TimeoutHandler]. Headers have one
    value per key, and a handler declares no [Content-Length]. *)
From S2P Require Import Prelude Machine GoString.

(** ** Requests, and computations that write a response *)
Module Request.
Record t := mk { Method : string; Path : string }.
End Request.
Definition MethodOptions : string := "OPTIONS".
Definition header : Type := gmap string string.

(** A computation on a writer: what it leaves the writer, also when it panics. *)
Definition act (W A : Type) : Type := W → W * outcome A.
#[export] Instance act_ret W : MRet (act W) := λ _ a w, (w, Ret a).
#[export] Instance act_bind W : MBind (act W) := λ _ _ k m w,
  match m w with
  | (w, Ret a) => k a w
  | (w, Panic p) => (w, Panic p)
  end.
Definition panic {W A} (p : string) : act W A := λ w, (w, Panic p).
(** [defer func() { if recover() != nil { k } }()] around [m] *)
Definition recovering {W} (m k : act W unit) : act W unit := λ w,
  match m w with
  | (w, Ret _) => (w, Ret ())
  | (w, Panic _) => k w
  end.

(** [http.ResponseWriter]; the errors of [Write] are ignored by all its users here. *)
Class ResponseWriter (W : Type) := {
  Header : W → header;
  set_Header : header → W → W;
  WriteHeader : Z → act W unit;
  Write : string → act W unit;
}.
(** [w.Header().Set(k, v)], for a canonical key *)
Definition Header_Set `{ResponseWriter W} (k v : string) : act W unit :=
  λ w, (set_Header (<[k := v]> (Header w)) w, Ret ()).
(** [http.Handler] *)
Definition Handler : Type := ∀ W, ResponseWriter W → Request.t → act W unit.

(** [checkWriteHeaderCode] panics on these. *)
Definition invalid_code (code : Z) : Prop := code < 100 ∨ 999 < code.
#[export] Instance invalid_code_dec code : Decision (invalid_code code).
Proof. unfold invalid_code. apply _. Defined.
(** An informational status: sent at once, before the response. *)
Definition informational (code : Z) : Prop := 100 ≤ code ≤ 199 ∧ code ≠ 101.
#[export] Instance informational_dec code : Decision (informational code).
Proof. unfold informational. apply _. Defined.
(** [bodyAllowedForStatus] *)
Definition body_allowed (status : Z) : bool :=
  negb (bool_decide (100 ≤ status ≤ 199 ∨ status = 204 ∨ status = 304)).

(** ** The server's writer, [http.response] *)
Module Response.
Record t := mk { hd : header;                     (* what Header() returns *)
                 informed : list (Z * header);    (* informational responses *)
                 sent : option (Z * header);      (* status, and header as it was then *)
                 body : string }.
Definition fresh : t := mk ∅ [] None "".
(** The first status wins; later ones are ignored. *)
Definition write_header (code : Z) : act t unit := λ w,
  match sent w with
  | Some _ => (w, Ret ())
  | None =>
      if decide (invalid_code code) then (w, Panic "invalid WriteHeader code") else
      if decide (informational code)
      then (mk (hd w) (informed w ++ [(code, hd w)]) None (body w), Ret ())
      else (mk (hd w) (informed w) (Some (code, hd w)) (body w), Ret ())
  end.
Definition write (b : string) : act t unit := λ w,
  let w := (write_header 200 w).1 in
  match sent w with
  | Some (c, _) =>
      (if body_allowed c then mk (hd w) (informed w) (sent w) (body w +:+ b) else w, Ret ())
  | None => (w, Ret ())
  end.
End Response.
#[export] Instance server_writer : ResponseWriter Response.t := {
  Header := Response.hd;
  set_Header h w := Response.mk h (Response.informed w) (Response.sent w) (Response.body w);
  WriteHeader := Response.write_header;
  Write := Response.write;
}.
(** What the client gets of a request that [h] serves: a response, with status 200
    when the handler has written nothing, or a connection cut short. *)
Definition served (h : Handler) (r : Request.t) : outcome Response.t :=
  match h Response.t _ r Response.fresh with
  | (w, Ret _) => Ret (Response.write_header 200 w).1
  | (_, Panic p) => Panic p
  end.

(** ** The writer of [http.TimeoutHandler], and the handler itself *)
Module TimeoutWriter.
Record t := mk { h : header; code : option Z; wbuf : string }.
Definition fresh : t := mk ∅ None "".
Definition write_header (c : Z) : act t unit := λ w,
  if decide (invalid_code c) then (w, Panic "invalid WriteHeader code") else
  (mk (h w) (Some (default c (code w))) (wbuf w), Ret ()).
Definition write (b : string) : act t unit := λ w,
  (mk (h w) (Some (default 200 (code w))) (wbuf w +:+ b), Ret ()).
End TimeoutWriter.
#[export] Instance timeout_writer : ResponseWriter TimeoutWriter.t := {
  Header := TimeoutWriter.h;
  set_Header h w := TimeoutWriter.mk h (TimeoutWriter.code w) (TimeoutWriter.wbuf w);
  WriteHeader := TimeoutWriter.write_header;
  Write := TimeoutWriter.write;
}.
(** What the [select] finds first: the handler, which runs in a goroutine of its
    own, has returned or panicked; the deadline; the client is gone. In the last two
    cases the handler goes on, but what it writes is refused. *)
Inductive first := Finished | Deadline | Cancelled.
(** [http.TimeoutHandler(next, d, msg)], for a [msg] that is not empty *)
Definition TimeoutHandler (e : first) (msg : string) (next : Handler) : Handler := λ W _ r,
  match e with
  | Finished => λ w,
      match next TimeoutWriter.t _ r TimeoutWriter.fresh with
      | (_, Panic p) => (w, Panic p)
      | (tw, Ret _) =>
          (WriteHeader (default 200 (TimeoutWriter.code tw));; Write (TimeoutWriter.wbuf tw))
            (set_Header (TimeoutWriter.h tw ∪ Header w) w)
      end
  | Deadline => WriteHeader 503;; Write msg
  | Cancelled => WriteHeader 503
  end.
