(* ===== verification/Transport.v ===== *)
(** * transport/http_helpers.go: bodies, path parameters, and wrappers of handlers

    [ReadJSON], with its limit; [PathID] and [HeightParam]; [WriteJSON] and the wrappers [Timeout], [CORS] and
    [Recovery], over the handlers of [Http]. *)
From S2P Require Import Prelude Machine GoString GoJson ChainDomain TxJson Http.

(** ** Model *)

(** [strings.Contains(s, "/")] *)
Definition has_slash (s : string) : bool := bool_decide ("/"%char ∈ chars s).
(** [func PathID(path, prefix string) (string, error)] *)
Definition PathID (path prefix : string) : res string :=
  let id := TrimPrefix path prefix in
  if decide (id = "") then Err "invalid id" else
  if has_slash id then Err "invalid id" else Ok id.
(** [func HeightParam(path, prefix string) (uint64, error)] *)
Definition HeightParam (path prefix : string) : res Z :=
  id ← PathID path prefix;
  match ParseUint id with Some h => Ok h | None => Err "strconv.ParseUint" end.

(** [2<<20], the limit of [ReadJSON] *)
Definition max_body : Z := 2 * 2 ^ 20.
(** [func ReadJSON(r *http.Request, v any) error], for a [v] that points to a struct that
    holds [t]. Behind [http.MaxBytesReader] only the first [max_body] bytes are seen;
    a decoder that asks for more of a longer body gets an error, and after a [null]
    it does ask. An error leaves no value here; the code may have stored some
    members. *)
Definition ReadJSON {T} (fields : list (field T)) (t : T) (ContentLength : Z) (body : list Z) : res T :=
  if decide (max_body < ContentLength) then Err "body too large" else
  let seen := take (Z.to_nat max_body) body in
  match document seen with
  | Some (JNull, []) => if decide (max_body < len body) then Err "http: request body too large" else Ok t
  | _ => match decode true fields t seen with Some t => Ok t | None => Err "json" end
  end.

(** What [json.Encoder] writes of a value without the final newline, or [None] when
    it refuses the value. *)
Class Encodable (A : Type) := marshal : A → option string.
Module ErrorBody.
Record t := mk { Code : string; Message : string; RequestID : string }.
#[global] Instance encodable : Encodable t := λ e,
  Some ("{" +:+ quote "code" +:+ ":" +:+ quote (Code e) +:+ "," +:+ quote "message" +:+ ":" +:+
        quote (Message e) +:+ "," +:+ quote "request_id" +:+ ":" +:+ quote (RequestID e) +:+ "}").
End ErrorBody.
Definition newline : string := String (ascii_of_byte 10) EmptyString.
(** [func WriteJSON(w http.ResponseWriter, status int, v any)] *)
Definition WriteJSON `{ResponseWriter W, Encodable A} (status : Z) (v : A) : act W unit :=
  Header_Set "Content-Type" "application/json";;
  WriteHeader status;;
  match marshal v with
  | Some text => Write (text +:+ newline)
  | None => mret ()
  end.
(** [func Timeout(next http.Handler, d time.Duration) http.Handler] *)
Definition Timeout (e : first) (next : Handler) : Handler := TimeoutHandler e "request timeout" next.
(** [func CORS(next http.Handler) http.Handler] *)
Definition CORS (next : Handler) : Handler := λ W _ r,
  Header_Set "Access-Control-Allow-Origin" "*";;
  if decide (Request.Method r = MethodOptions) then WriteHeader 204 else next W _ r.
(** [func Recovery(next http.Handler) http.Handler] *)
Definition internal_error : ErrorBody.t := ErrorBody.mk "internal" "internal error" "".
Definition Recovery (next : Handler) : Handler := λ W _ r,
  recovering (next W _ r) (WriteJSON 500 internal_error).

(** ** Lemmas *)
Lemma fmt_d_no_slash x : "/"%char ∉ chars (fmt_d x).
Proof.
  intros Hin%fmt_d_digits. revert Hin. vm_compute. intros H.
  repeat (apply elem_of_cons in H as [H|H]; [done|]). by apply elem_of_nil in H.
Qed.
Lemma fmt_d_nonempty n : is_u64 n → fmt_d n ≠ "".
Proof. intros Hn E. pose proof (ParseUint_fmt_d n Hn) as HP. by rewrite E in HP. Qed.

(** ** Properties *)

(** A height printed after any prefix is read back by [HeightParam]; and what
    [PathID] returns is never empty and holds no slash. *)
Theorem HeightParam_roundtrip prefix h path :
  is_u64 h →
  HeightParam (prefix +:+ fmt_d h) prefix = Ok h ∧
  ∀ id, PathID path prefix = Ok id → id ≠ "" ∧ "/"%char ∉ chars id.
Proof.
  intros Hh. split.
  - unfold HeightParam, PathID. rewrite TrimPrefix_app, decide_False by (by apply fmt_d_nonempty).
    unfold has_slash. rewrite bool_decide_eq_false_2 by apply fmt_d_no_slash.
    cbn [mbind res_bind]. by rewrite ParseUint_fmt_d.
  - intros id. unfold PathID, has_slash. case_decide; [done|]. case_bool_decide; [done|]. by intros [= <-].
Qed.

Lemma HeightParam_roundtrip_witness :
  HeightParam ("/api/v1/blocks/" +:+ fmt_d 17) "/api/v1/blocks/" = Ok 17 ∧
  ∀ id, PathID "/api/v1/blocks/a/b" "/api/v1/blocks/" = Ok id → id ≠ "" ∧ "/"%char ∉ chars id.
Proof. apply (HeightParam_roundtrip "/api/v1/blocks/" 17 "/api/v1/blocks/a/b"). by split. Defined.

(** C15: a transaction that is written as JSON, with integers in the range of their types
    and strings of valid UTF-8, is read back by the handler and by [ReadJSON],
    whatever bytes follow it, even beyond the limit, as long as it fits in the 2 MiB
    itself; and a request that declares more is refused unread. *)
Theorem ReadJSON_roundtrip t rest ContentLength :
  Tx.typed t → Forall (λ s, utf8 (bytes s)) (texts t) →
  decode_tx (encode_tx t ++ rest) = Some t ∧
  (len (encode_tx t) ≤ max_body →
   ReadJSON tx_fields Tx.zero ContentLength (encode_tx t ++ rest) =
     if decide (max_body < ContentLength) then Err "body too large" else Ok t).
Proof.
  intros Ht Hs. split; [by apply decode_written|]. intros Hl. unfold ReadJSON.
  case_decide; [done|]. rewrite take_app_ge by lia. set (r := take _ rest).
  by rewrite (document_written t r Ht Hs), (decode_written true t r Ht Hs).
Qed.

Lemma ReadJSON_roundtrip_witness :
  decode_tx (encode_tx json_tx ++ bytes " rest") = Some json_tx ∧
  ReadJSON tx_fields Tx.zero 200 (encode_tx json_tx ++ bytes " rest") = Ok json_tx.
Proof.
  destruct (ReadJSON_roundtrip json_tx (bytes " rest") 200) as [H1 H2];
    [by repeat split|exact json_tx_texts|].
  split; [exact H1|]. apply H2. apply (bool_decide_unpack _). by vm_compute.
Defined.
Example ReadJSON_unknown :
  ReadJSON tx_fields Tx.zero 9 (q "{'GAS':7}") = Ok (put_Gas 7 Tx.zero) ∧
  ReadJSON tx_fields Tx.zero (-1) (q "{'gas':7,'x':0}") = Err "json" ∧
  ReadJSON tx_fields Tx.zero 0 [] = Err "json" ∧
  ReadJSON tx_fields json_tx 4 (q "null") = Ok json_tx ∧
  ReadJSON tx_fields Tx.zero 2097153 (q "null") = Err "body too large".
Proof. by vm_compute. Qed.

(** What [Recovery] writes as the body. *)
Definition error_text : string := default "" (marshal internal_error) +:+ newline.
Definition json_header (h : header) : header := <["Content-Type" := "application/json"]> h.

(** [Recovery] answers every request, whatever its handler does: a handler that
    returns is left alone; after a panic, the client gets status 500 and the error
    body when no status was sent before, and otherwise the status that was
    sent, with the error body after what the handler had written already. *)
Theorem Recovery_answers (next : Handler) r :
  ∃ w', served (Recovery next) r = Ret w' ∧
  match next Response.t _ r Response.fresh with
  | (w, Ret _) => served next r = Ret w'
  | (w, Panic _) =>
      Response.hd w' = json_header (Response.hd w) ∧
      Response.informed w' = Response.informed w ∧
      match Response.sent w with
      | None => Response.sent w' = Some (500, json_header (Response.hd w)) ∧
                Response.body w' = Response.body w +:+ error_text
      | Some (c, h) => Response.sent w' = Some (c, h) ∧
                Response.body w' = Response.body w +:+ if body_allowed c then error_text else ""
      end
  end.
Proof.
  unfold served, Recovery, recovering.
  destruct (next Response.t _ r Response.fresh) as [[hd inf [[c h]|] b] [[]|p]]; simpl; try by eexists.
  - unfold Response.write. simpl. destruct (body_allowed c) eqn:E; simpl; eexists; (split; [done|]);
      simpl; rewrite ?string_app_nil_r; done.
Qed.

(** What a client gets: the status with the header, and the body if it may have one. *)
Definition cors_header : header := {["Access-Control-Allow-Origin" := "*"]}.
Definition whole (informed : list (Z * header)) (c : Z) (h : header) (b : string) : Response.t :=
  Response.mk h informed (Some (c, h)) (if body_allowed c then b else "").


(** A handler that writes a status and a part of its body, and panics on one path. *)
Definition demo_handler : Handler := λ W _ r,
  Header_Set "X" "y";; WriteHeader 201;; Write "part";;
  if decide (Request.Path r = "/panic") then panic "boom" else Write "ial".
Example demo_mixed :
  served demo_handler (Request.mk "GET" "/panic") = Panic "boom" ∧
  served (Recovery demo_handler) (Request.mk "GET" "/panic") =
    Ret (Response.mk (json_header {["X" := "y"]}) [] (Some (201, {["X" := "y"]})) ("part" +:+ error_text)).
Proof. by vm_compute. Qed.

(** Early hints, and then the response. *)
Definition hinting_handler : Handler := λ W _ r, WriteHeader 103;; WriteHeader 404;; Write "late".
Example stack_run :
  let stack e h path := served (Recovery (CORS (Timeout e h))) (Request.mk "GET" path) in
  let h := {["X" := "y"]} ∪ cors_header in
  stack Finished demo_handler "/" = Ret (whole [] 201 h "partial") ∧
  stack Finished demo_handler "/panic" = Ret (whole [] 500 (json_header cors_header) error_text) ∧
  stack Deadline demo_handler "/" = Ret (whole [] 503 cors_header "request timeout") ∧
  stack Finished hinting_handler "/" = Ret (whole [(103, cors_header)] 200 cors_header "late").
Proof. by vm_compute. Qed.
